(** * Shallow embedding of the expression compiler (expr.c) and of the
      external merge sorter (vdbesort.c), with the properties of the
      specification stated and settled against it. *)

From Stdlib Require Import ZArith List Lia Bool String Ascii Sorting.Sorted.
From stdpp Require Import base tactics option list gmap strings.

(* ===================================================================== *)
(** * Part I: the external merge sorter (src/src/vdbesort.c)              *)
(* ===================================================================== *)

Module VdbeSort.
Local Open Scope Z_scope.

(** Result codes and constants. *)
Definition SQLITE_OK : Z := 0.
Definition SQLITE_NOMEM : Z := 7.
Definition MEM_Null : Z := 1.
Definition SORTER_MIN_WORKING : Z := 10.
Definition SORTER_MAX_MERGE_COUNT : nat := 16.

(** A record handed to the sorter is an opaque byte buffer; its length
    [pVal->n] is the length of the list. *)
Definition blob := list Z.
Definition nKey (k : blob) : Z := Z.of_nat (length k).

Record Mem := mkMem { flags : Z; z : blob }.
Definition Mem_n (m : Mem) : Z := nKey (z m).

Record KeyInfo := mkKeyInfo { ki_nField : Z }.

(** The "unpacked record" scratch object: the decoded right-hand key of a
    comparison, with the sticky out-of-memory code. *)
Record UnpackedRecord := mkUnpacked {
  nField : Z;
  errCode : Z;
  aMem : list Mem
}.

(** The callbacks and constants the sorter takes from the rest of the
    library (record decoding and comparison, the varint length, the size
    of the in-memory record header). *)
Class Host := {
  sqlite3VdbeRecordUnpack : KeyInfo -> Z -> blob -> UnpackedRecord -> UnpackedRecord;
  sqlite3VdbeRecordCompare : Z -> blob -> UnpackedRecord -> Z;
  sqlite3VarintLen : Z -> Z;
  szSorterRecord : Z
}.

(** ** Data structures *)

Record SorterFile := mkSorterFile {
  pFd : bool;                    (* a file handle is open *)
  iEof : Z;                      (* bytes of data stored in pFd *)
  pmas : list (list blob)        (* the PMAs stored end to end, oldest first *)
}.

(** The in-memory list.  [pList] is the linked list headed at the most
    recently written record (the links are [u.pNext], or [u.iNext] inside
    the bulk arena); [aMemory] says whether the bulk arena is in use. *)
Record SorterList := mkSorterList {
  pList : list blob;
  aMemory : bool;
  szPMA : Z
}.

Inductive MergeEngine := mkMergeEngine {
  nTree : nat;
  aTree : list nat;
  aIter : list PmaReader }
with PmaReader := mkPmaReader {
  pFile : bool;                  (* false at EOF *)
  aKey : option blob;            (* the current key *)
  rd_rest : list blob;           (* records not yet read, iReadOff..iEof *)
  pIncr : option IncrMerger }
with IncrMerger := mkIncrMerger {
  im_pMerger : MergeEngine;
  iStartOff : Z;
  mxSz : Z;
  bEof : bool;
  im_iEof : Z;                   (* aFile[0].iEof *)
  im_data : list blob            (* the keys stored in aFile[0] from iStartOff *)
}.

Definition zeroReader : PmaReader := mkPmaReader false None [] None.
#[export] Instance PmaReader_inhabited : Inhabited PmaReader := populate zeroReader.

Record SortSubtask := mkSortSubtask {
  task_pUnpacked : option UnpackedRecord;
  task_nPMA : Z;
  task_file : SorterFile;
  task_file2 : SorterFile
}.

(** The sorter in its single-threaded configuration: one subtask, no
    worker threads ([nTask = 1], [bUseThreads = 0], [pReader = 0]). *)
Record VdbeSorter := mkVdbeSorter {
  mnPmaSize : Z;
  mxPmaSize : Z;
  mxKeysize : Z;
  pgsz : Z;
  pMerger : option MergeEngine;
  pKeyInfo : KeyInfo;
  pUnpacked : option UnpackedRecord;
  list_ : SorterList;
  iMemory : Z;
  nMemory : Z;
  bUsePMA : bool;
  aTask0 : SortSubtask
}.

(** What the host answers during one flush: the result of opening the
    temporary file, whether the two allocations of the in-memory sort
    succeed, and the result of writing the PMA. *)
Record FlushEnv := mkFlushEnv {
  rcOpenTemp : Z;
  bAllocUnpacked : bool;
  bAllocSlots : bool;
  rcWritePMA : Z
}.

Definition flushOK : FlushEnv := mkFlushEnv SQLITE_OK true true SQLITE_OK.

(** What the host answers during one write. *)
Record WriteEnv := mkWriteEnv {
  heapNearlyFull : bool;         (* sqlite3HeapNearlyFull() *)
  wFlush : FlushEnv;
  bAllocRecord : bool            (* sqlite3Malloc / sqlite3Realloc succeeds *)
}.

Section Sorter.
Context `{H : Host}.

(** ** vdbeSorterCompare: [pKey2 = None] reuses the scratch record. *)
Definition vdbeSorterCompare (K : KeyInfo) (r2 : UnpackedRecord)
    (pKey1 : blob) (pKey2 : option blob) (nKey2 : Z) : Z * UnpackedRecord :=
  let r2' := match pKey2 with
             | Some k2 => sqlite3VdbeRecordUnpack K nKey2 k2 r2
             | None => r2
             end in
  (sqlite3VdbeRecordCompare (nKey pKey1) pKey1 r2', r2').

(** ** vdbeSorterMerge *)
Fixpoint vdbeSorterMerge_loop (K : KeyInfo) (p1 : list blob)
    : UnpackedRecord -> list blob -> option blob -> list blob * UnpackedRecord :=
  fix go (r2 : UnpackedRecord) (p2 : list blob) (pVal2 : option blob) {struct p2} :=
    match p1, p2 with
    | a :: p1', b :: p2' =>
        let '(res, r2') := vdbeSorterCompare K r2 a pVal2 (nKey b) in
        if res <=? 0 then
          let '(out, r) := vdbeSorterMerge_loop K p1' r2' p2 None in (a :: out, r)
        else
          match p2' with
          | [] => (b :: p1, r2')                      (* if( p2==0 ) break; *)
          | b' :: _ => let '(out, r) := go r2' p2' (Some b') in (b :: out, r)
          end
    | [], _ => (p2, r2)
    | _, [] => (p1, r2)
    end.

Definition vdbeSorterMerge (K : KeyInfo) (r2 : UnpackedRecord)
    (p1 p2 : list blob) : list blob * UnpackedRecord :=
  vdbeSorterMerge_loop K p1 r2 p2 (head p2).

(** ** vdbeSortAllocUnpacked *)
Definition vdbeSortAllocUnpacked (bAlloc : bool) (K : KeyInfo)
    (pTask : SortSubtask) : Z * SortSubtask :=
  match task_pUnpacked pTask with
  | Some _ => (SQLITE_OK, pTask)
  | None =>
      if bAlloc then
        (SQLITE_OK,
         mkSortSubtask (Some (mkUnpacked (ki_nField K) 0 []))
           (task_nPMA pTask) (task_file pTask) (task_file2 pTask))
      else (SQLITE_NOMEM, pTask)
  end.

(** ** vdbeSorterSort: the 64 bins.  An empty bin is the empty list.
    Running off the end of [aSlot] is outside the C semantics: [None]. *)
Fixpoint sort_place (K : KeyInfo) (r2 : UnpackedRecord) (p : list blob)
    (aSlot : list (list blob)) : option (list (list blob) * UnpackedRecord) :=
  match aSlot with
  | [] => None
  | [] :: rest => Some (p :: rest, r2)
  | q :: rest =>
      let '(p', r2') := vdbeSorterMerge K r2 p q in
      match sort_place K r2' p' rest with
      | Some (rest', r) => Some ([] :: rest', r)
      | None => None
      end
  end.

Fixpoint sort_walk (K : KeyInfo) (r2 : UnpackedRecord) (l : list blob)
    (aSlot : list (list blob)) : option (list (list blob) * UnpackedRecord) :=
  match l with
  | [] => Some (aSlot, r2)
  | p :: pNext =>
      match sort_place K r2 [p] aSlot with
      | Some (aSlot', r2') => sort_walk K r2' pNext aSlot'
      | None => None
      end
  end.

Fixpoint sort_collect (K : KeyInfo) (r2 : UnpackedRecord) (p : list blob)
    (aSlot : list (list blob)) : list blob * UnpackedRecord :=
  match aSlot with
  | [] => (p, r2)
  | q :: rest =>
      let '(p', r2') := vdbeSorterMerge K r2 p q in
      sort_collect K r2' p' rest
  end.

Definition vdbeSorterSort (env : FlushEnv) (K : KeyInfo)
    (pTask : SortSubtask) (l : SorterList)
    : option (Z * SortSubtask * SorterList) :=
  let '(rc, pTask1) := vdbeSortAllocUnpacked (bAllocUnpacked env) K pTask in
  if negb (rc =? SQLITE_OK) then Some (rc, pTask1, l) else
  if negb (bAllocSlots env) then Some (SQLITE_NOMEM, pTask1, l) else
  match task_pUnpacked pTask1 with
  | None => Some (SQLITE_NOMEM, pTask1, l)
  | Some r2 =>
      match sort_walk K r2 (pList l) (replicate 64 []) with
      | None => None
      | Some (aSlot, r2a) =>
          let '(p, r2b) := sort_collect K r2a [] aSlot in
          Some (errCode r2b,
                mkSortSubtask (Some r2b) (task_nPMA pTask1)
                  (task_file pTask1) (task_file2 pTask1),
                mkSorterList p (aMemory l) (szPMA l))
      end
  end.

(** ** vdbeSorterListToPMA.  The bytes of a PMA (a varint with the total
    size, then each record behind its length varint) are kept as the list
    of records; [iEof] advances by the byte count. *)
Definition pma_bytes (l : list blob) : Z :=
  fold_right (fun k acc => sqlite3VarintLen (nKey k) + nKey k + acc) 0 l.

Definition vdbeSorterListToPMA (env : FlushEnv) (K : KeyInfo)
    (pTask : SortSubtask) (l : SorterList)
    : option (Z * SortSubtask * SorterList) :=
  let f := task_file pTask in
  let rc := if pFd f then SQLITE_OK else rcOpenTemp env in
  let pTask1 :=
    if pFd f then pTask
    else if rc =? SQLITE_OK then
      mkSortSubtask (task_pUnpacked pTask) (task_nPMA pTask)
        (mkSorterFile true (iEof f) (pmas f)) (task_file2 pTask)
    else pTask in
  if negb (rc =? SQLITE_OK) then Some (rc, pTask1, l) else
  match vdbeSorterSort env K pTask1 l with
  | None => None
  | Some (rc1, pTask2, l2) =>
      if negb (rc1 =? SQLITE_OK) then Some (rc1, pTask2, l2) else
      let f2 := task_file pTask2 in
      let f3 := mkSorterFile (pFd f2)
                  (iEof f2 + sqlite3VarintLen (szPMA l2) + pma_bytes (pList l2))
                  (pmas f2 ++ [pList l2]) in
      Some (rcWritePMA env,
            mkSortSubtask (task_pUnpacked pTask2) (task_nPMA pTask2 + 1)
              f3 (task_file2 pTask2),
            mkSorterList [] (aMemory l2) (szPMA l2))
  end.

(** ** vdbeSorterFlushPMA, with a single subtask: the foreground flush. *)
Definition setFlushed (s : VdbeSorter) (t : SortSubtask) (l : SorterList)
    : VdbeSorter :=
  mkVdbeSorter (mnPmaSize s) (mxPmaSize s) (mxKeysize s) (pgsz s)
    (pMerger s) (pKeyInfo s) (pUnpacked s) l (iMemory s) (nMemory s) true t.

Definition vdbeSorterFlushPMA (env : FlushEnv) (s : VdbeSorter)
    : option (Z * VdbeSorter) :=
  match vdbeSorterListToPMA env (pKeyInfo s) (aTask0 s) (list_ s) with
  | None => None
  | Some (rc, t, l) => Some (rc, setFlushed s t l)
  end.

(** ** sqlite3VdbeSorterWrite *)
Definition ROUND8 (x : Z) : Z := Z.land (x + 7) (Z.lnot 7).

Fixpoint double_until (fuel : nat) (nNew nMin : Z) : Z :=
  match fuel with
  | O => nNew
  | S f => if nNew <? nMin then double_until f (nNew * 2) nMin else nNew
  end.

(** The test that decides the flush, as the code computes [bFlush]
    inside [if( pSorter->mxPmaSize )]. *)
Definition bFlush (hnf : bool) (s : VdbeSorter) (nReq : Z) : bool :=
  negb (mxPmaSize s =? 0) &&
  (if aMemory (list_ s)
   then negb (iMemory s =? 0) && (mxPmaSize s <? iMemory s + nReq)
   else (mxPmaSize s <? szPMA (list_ s))
        || ((mnPmaSize s <? szPMA (list_ s)) && hnf)).

Definition sqlite3VdbeSorterWrite (env : WriteEnv) (s : VdbeSorter)
    (pVal : Mem) : option (Z * VdbeSorter) :=
  let nReq := Mem_n pVal + szSorterRecord in
  let nPMA := Mem_n pVal + sqlite3VarintLen (Mem_n pVal) in
  let flushed :=
    if bFlush (heapNearlyFull env) s nReq then
      match vdbeSorterFlushPMA (wFlush env) s with
      | None => None
      | Some (rc, s1) =>
          Some (rc,
                mkVdbeSorter (mnPmaSize s1) (mxPmaSize s1) (mxKeysize s1)
                  (pgsz s1) (pMerger s1) (pKeyInfo s1) (pUnpacked s1)
                  (mkSorterList (pList (list_ s1)) (aMemory (list_ s1)) 0)
                  0 (nMemory s1) (bUsePMA s1) (aTask0 s1))
      end
    else Some (SQLITE_OK, s) in
  match flushed with
  | None => None
  | Some (rc, s1) =>
      let l1 := list_ s1 in
      let szPMA2 := szPMA l1 + nPMA in
      let mxKeysize2 := if mxKeysize s1 <? nPMA then nPMA else mxKeysize s1 in
      if aMemory l1 then
        let nMin := iMemory s1 + nReq in
        let nNew0 := double_until (Z.to_nat nMin) (nMemory s1 * 2) nMin in
        let nNew1 := if mxPmaSize s1 <? nNew0 then mxPmaSize s1 else nNew0 in
        let nNew := if nNew1 <? nMin then nMin else nNew1 in
        if (nMemory s1 <? nMin) && negb (bAllocRecord env) then
          Some (SQLITE_NOMEM,
                mkVdbeSorter (mnPmaSize s1) (mxPmaSize s1) mxKeysize2 (pgsz s1)
                  (pMerger s1) (pKeyInfo s1) (pUnpacked s1)
                  (mkSorterList (pList l1) true szPMA2)
                  (iMemory s1) (nMemory s1) (bUsePMA s1) (aTask0 s1))
        else
          Some (rc,
                mkVdbeSorter (mnPmaSize s1) (mxPmaSize s1) mxKeysize2 (pgsz s1)
                  (pMerger s1) (pKeyInfo s1) (pUnpacked s1)
                  (mkSorterList (z pVal :: pList l1) true szPMA2)
                  (iMemory s1 + ROUND8 nReq)
                  (if nMemory s1 <? nMin then nNew else nMemory s1)
                  (bUsePMA s1) (aTask0 s1))
      else
        if negb (bAllocRecord env) then
          Some (SQLITE_NOMEM,
                mkVdbeSorter (mnPmaSize s1) (mxPmaSize s1) mxKeysize2 (pgsz s1)
                  (pMerger s1) (pKeyInfo s1) (pUnpacked s1)
                  (mkSorterList (pList l1) false szPMA2)
                  (iMemory s1) (nMemory s1) (bUsePMA s1) (aTask0 s1))
        else
          Some (rc,
                mkVdbeSorter (mnPmaSize s1) (mxPmaSize s1) mxKeysize2 (pgsz s1)
                  (pMerger s1) (pKeyInfo s1) (pUnpacked s1)
                  (mkSorterList (z pVal :: pList l1) false szPMA2)
                  (iMemory s1) (nMemory s1) (bUsePMA s1) (aTask0 s1))
  end.

(** ** vdbeSortSubtaskCleanup, sqlite3VdbeSorterReset, sqlite3VdbeSorterClose *)
Definition vdbeSortSubtaskCleanup (t : SortSubtask) : SortSubtask :=
  mkSortSubtask None (task_nPMA t)
    (if pFd (task_file t) then mkSorterFile false 0 [] else task_file t)
    (if pFd (task_file2 t) then mkSorterFile false 0 [] else task_file2 t).

Definition sqlite3VdbeSorterReset (s : VdbeSorter) : VdbeSorter :=
  mkVdbeSorter (mnPmaSize s) (mxPmaSize s) 0 (pgsz s)
    None (pKeyInfo s) None
    (mkSorterList [] (aMemory (list_ s)) 0)
    0 (nMemory s) false (vdbeSortSubtaskCleanup (aTask0 s)).

(** The cursor's sorter slot after [sqlite3VdbeSorterClose]: the sorter is
    reset, then freed, and [pCsr->pSorter] is cleared. *)
Definition sqlite3VdbeSorterClose (pSorter : option VdbeSorter)
    : option VdbeSorter :=
  match pSorter with
  | Some s => let _ := sqlite3VdbeSorterReset s in None
  | None => None
  end.

(** ** The read path.

    It is embedded for a host whose reads and allocations succeed, so the
    only status that can travel is the scratch record's [errCode].  A
    result [None] marks what lies outside the C semantics (a read past the
    end of a region, an index outside an array). *)

Definition curKey (r : PmaReader) : blob := default [] (aKey r).

(** vdbeMergeEngineNew *)
Fixpoint new_N (fuel : nat) (N nIter : nat) : nat :=
  match fuel with
  | O => N
  | S f => if (N <? nIter)%nat then new_N f (N + N)%nat nIter else N
  end.

Definition vdbeMergeEngineNew (nIter : nat) : MergeEngine :=
  let N := new_N nIter 2%nat nIter in
  mkMergeEngine N (replicate N 0%nat) (replicate N zeroReader).

(** vdbeSorterDoCompare *)
Definition vdbeSorterDoCompare (K : KeyInfo) (r2 : UnpackedRecord)
    (pMerger : MergeEngine) (iOut : nat) : MergeEngine * UnpackedRecord :=
  let N := nTree pMerger in
  let '(i1, i2) :=
    if (N / 2 <=? iOut)%nat
    then (((iOut - N / 2) * 2)%nat, ((iOut - N / 2) * 2 + 1)%nat)
    else (aTree pMerger !!! (iOut * 2)%nat, aTree pMerger !!! (iOut * 2 + 1)%nat) in
  let p1 := aIter pMerger !!! i1 in
  let p2 := aIter pMerger !!! i2 in
  let '(iRes, r2') :=
    if negb (pFile p1) then (i2, r2)
    else if negb (pFile p2) then (i1, r2)
    else
      let '(res, r) := vdbeSorterCompare K r2 (curKey p1) (aKey p2) (nKey (curKey p2)) in
      (if res <=? 0 then i1 else i2, r) in
  (mkMergeEngine N (<[iOut := iRes]> (aTree pMerger)) (aIter pMerger), r2').

(** The loop of vdbeSorterNext that recomputes the path from the advanced
    reader up to the root. *)
Fixpoint next_loop (fuel : nat) (K : KeyInfo) (its : list PmaReader)
    (i i1 i2 : nat) (pKey2 : option blob) (r2 : UnpackedRecord)
    (tree : list nat) : list nat * UnpackedRecord :=
  match fuel with
  | O => (tree, r2)
  | S f =>
      if (i =? 0)%nat then (tree, r2) else
      let p1 := its !!! i1 in
      let p2 := its !!! i2 in
      let '(iRes, r2') :=
        if negb (pFile p1) then (1, r2)
        else if negb (pFile p2) then (-1, r2)
        else vdbeSorterCompare K r2 (curKey p1) pKey2 (nKey (curKey p2)) in
      if (iRes <? 0) || ((iRes =? 0) && (i1 <? i2)%nat) then
        let tree' := <[i := i1]> tree in
        let i2' := tree' !!! (Nat.lxor i 1) in
        next_loop f K its (i / 2)%nat i1 i2' (aKey (its !!! i2')) r2' tree'
      else
        let pKey2' := if pFile p1 then None else pKey2 in
        let tree' := <[i := i2]> tree in
        let i1' := tree' !!! (Nat.lxor i 1) in
        next_loop f K its (i / 2)%nat i1' i2 pKey2' r2' tree'
  end.

Section Level.
(** The functions of one level of the merge tree, over [vdbeSorterNext]
    and [vdbeIncrInitMerger] of the engines one level below. *)
Variable next_below :
  KeyInfo -> UnpackedRecord -> MergeEngine ->
  option (Z * UnpackedRecord * MergeEngine * bool).
Variable init_below :
  KeyInfo -> UnpackedRecord -> SorterFile -> MergeEngine ->
  option (Z * UnpackedRecord * SorterFile * MergeEngine).

(** vdbeIncrPopulate: [iEofW] is the writer's position
    [writer.iWriteOff + writer.iBufEnd], [out] the keys written so far. *)
Fixpoint populate_loop (fuel : nat) (K : KeyInfo) (r2 : UnpackedRecord)
    (pIncrMerger : MergeEngine) (iStart mx iEofW : Z) (out : list blob)
    : option (Z * UnpackedRecord * MergeEngine * Z * list blob) :=
  match fuel with
  | O => None
  | S f =>
      let pReader := aIter pIncrMerger !!! (aTree pIncrMerger !!! 1%nat) in
      let nK := nKey (curKey pReader) in
      if negb (pFile pReader) then Some (SQLITE_OK, r2, pIncrMerger, iEofW, out)
      else if iStart + mx <? iEofW + nK + sqlite3VarintLen nK
      then Some (SQLITE_OK, r2, pIncrMerger, iEofW, out)
      else
        match next_below K r2 pIncrMerger with
        | None => None
        | Some (rc, r2', m', _) =>
            let iEofW' := iEofW + sqlite3VarintLen nK + nK in
            let out' := out ++ [curKey pReader] in
            if rc =? SQLITE_OK
            then populate_loop f K r2' m' iStart mx iEofW' out'
            else Some (rc, r2', m', iEofW', out')
        end
  end.

Definition vdbeIncrPopulate (K : KeyInfo) (r2 : UnpackedRecord)
    (pIncr_ : IncrMerger)
    : option (Z * UnpackedRecord * MergeEngine * Z * list blob) :=
  populate_loop (S (Z.to_nat (mxSz pIncr_))) K r2 (im_pMerger pIncr_)
    (iStartOff pIncr_) (mxSz pIncr_) (iStartOff pIncr_) [].

(** vdbeIncrSwap, single-threaded branch *)
Definition vdbeIncrSwap (K : KeyInfo) (r2 : UnpackedRecord)
    (pIncr_ : IncrMerger) : option (Z * UnpackedRecord * IncrMerger) :=
  match vdbeIncrPopulate K r2 pIncr_ with
  | None => None
  | Some (rc, r2', m', iEof1, data1) =>
      Some (rc, r2',
            mkIncrMerger m' (iStartOff pIncr_) (mxSz pIncr_)
              (if iEof1 =? iStartOff pIncr_ then true else bEof pIncr_)
              iEof1 data1)
  end.

(** vdbePmaReaderNext *)
Definition readNextKey (rc : Z) (r2 : UnpackedRecord) (pIter : PmaReader)
    : option (Z * UnpackedRecord * PmaReader) :=
  match rd_rest pIter with
  | [] => None
  | k :: rest' => Some (rc, r2, mkPmaReader (pFile pIter) (Some k) rest' (pIncr pIter))
  end.

Definition vdbePmaReaderNext (K : KeyInfo) (r2 : UnpackedRecord)
    (pIter : PmaReader) : option (Z * UnpackedRecord * PmaReader) :=
  match rd_rest pIter with
  | [] =>
      match pIncr pIter with
      | Some inc =>
          match vdbeIncrSwap K r2 inc with
          | None => None
          | Some (rc, r2', inc') =>
              if (rc =? SQLITE_OK) && negb (bEof inc')
              then readNextKey rc r2'
                     (mkPmaReader true (aKey pIter) (im_data inc') (Some inc'))
              else Some (rc, r2', zeroReader)
          end
      | None => Some (SQLITE_OK, r2, zeroReader)
      end
  | _ :: _ => readNextKey SQLITE_OK r2 pIter
  end.

(** vdbeSorterNext *)
Definition vdbeSorterNext_level (K : KeyInfo) (r2 : UnpackedRecord)
    (pMerger_ : MergeEngine)
    : option (Z * UnpackedRecord * MergeEngine * bool) :=
  let iPrev := aTree pMerger_ !!! 1%nat in
  match vdbePmaReaderNext K r2 (aIter pMerger_ !!! iPrev) with
  | None => None
  | Some (rc, r2a, rd) =>
      let its := <[iPrev := rd]> (aIter pMerger_) in
      if rc =? SQLITE_OK then
        let i1 := Z.to_nat (Z.land (Z.of_nat iPrev) 65534) in
        let i2 := Z.to_nat (Z.lor (Z.of_nat iPrev) 1) in
        let i := ((nTree pMerger_ + iPrev) / 2)%nat in
        let '(tree', r2b) :=
          next_loop i K its i i1 i2 (aKey (its !!! i2)) r2a (aTree pMerger_) in
        Some (errCode r2b, r2b,
              mkMergeEngine (nTree pMerger_) tree' its,
              negb (pFile (its !!! (tree' !!! 1%nat))))
      else Some (rc, r2a, mkMergeEngine (nTree pMerger_) (aTree pMerger_) its, false)
  end.

(** vdbePmaReaderIncrInit with INCRINIT_NORMAL *)
Definition vdbePmaReaderIncrInit (K : KeyInfo) (r2 : UnpackedRecord)
    (file2 : SorterFile) (pIter : PmaReader)
    : option (Z * UnpackedRecord * SorterFile * PmaReader) :=
  match pIncr pIter with
  | None => Some (SQLITE_OK, r2, file2, pIter)
  | Some inc =>
      match init_below K r2 file2 (im_pMerger inc) with
      | None => None
      | Some (rc, r2a, file2a, m') =>
          if rc =? SQLITE_OK then
            let file2b := if pFd file2a then file2a
                          else mkSorterFile true 0 (pmas file2a) in
            let inc' := mkIncrMerger m' (iEof file2b) (mxSz inc) (bEof inc)
                          (im_iEof inc) (im_data inc) in
            let file2c := mkSorterFile true (iEof file2b + mxSz inc) (pmas file2b) in
            match vdbePmaReaderNext K r2a
                    (mkPmaReader (pFile pIter) (aKey pIter) (rd_rest pIter) (Some inc')) with
            | None => None
            | Some (rc2, r2b, rd) => Some (rc2, r2b, file2c, rd)
            end
          else
            Some (rc, r2a, file2a,
                  mkPmaReader (pFile pIter) (aKey pIter) (rd_rest pIter)
                    (Some (mkIncrMerger m' (iStartOff inc) (mxSz inc) (bEof inc)
                             (im_iEof inc) (im_data inc))))
      end
  end.

(** vdbeIncrInitMerger with INCRINIT_NORMAL: first every reader, in
    order, then the tree from the last slot down to slot 1. *)
Fixpoint init_readers (K : KeyInfo) (r2 : UnpackedRecord) (file2 : SorterFile)
    (todo : list PmaReader) (done : list PmaReader)
    : option (Z * UnpackedRecord * SorterFile * list PmaReader) :=
  match todo with
  | [] => Some (SQLITE_OK, r2, file2, done)
  | p :: todo' =>
      match vdbePmaReaderIncrInit K r2 file2 p with
      | None => None
      | Some (rc, r2', file2', p') =>
          if rc =? SQLITE_OK
          then init_readers K r2' file2' todo' (done ++ [p'])
          else Some (rc, r2', file2', done ++ p' :: todo')
      end
  end.

Fixpoint init_tree (K : KeyInfo) (r2 : UnpackedRecord) (m : MergeEngine)
    (i : nat) : MergeEngine * UnpackedRecord :=
  match i with
  | O => (m, r2)
  | S i' =>
      let '(m', r2') := vdbeSorterDoCompare K r2 m i in
      init_tree K r2' m' i'
  end.

Definition vdbeIncrInitMerger_level (K : KeyInfo) (r2 : UnpackedRecord)
    (file2 : SorterFile) (pMerger_ : MergeEngine)
    : option (Z * UnpackedRecord * SorterFile * MergeEngine) :=
  match init_readers K r2 file2 (aIter pMerger_) [] with
  | None => None
  | Some (rc, r2a, file2a, its) =>
      let m1 := mkMergeEngine (nTree pMerger_) (aTree pMerger_) its in
      if rc =? SQLITE_OK then
        let '(m2, r2b) := init_tree K r2a m1 (nTree pMerger_ - 1)%nat in
        Some (errCode r2b, r2b, file2a, m2)
      else Some (rc, r2a, file2a, m1)
  end.

End Level.

(** [vdbeSorterNext] and [vdbeIncrInitMerger] on a merge tree nested at
    most [d] engines deep below its root. *)
Fixpoint vdbeSorterNext (d : nat) (K : KeyInfo) (r2 : UnpackedRecord)
    (pMerger_ : MergeEngine) : option (Z * UnpackedRecord * MergeEngine * bool) :=
  match d with
  | O => vdbeSorterNext_level (fun _ _ _ => None) K r2 pMerger_
  | S d' => vdbeSorterNext_level (vdbeSorterNext d') K r2 pMerger_
  end.

Fixpoint vdbeIncrInitMerger (d : nat) (K : KeyInfo) (r2 : UnpackedRecord)
    (file2 : SorterFile) (pMerger_ : MergeEngine)
    : option (Z * UnpackedRecord * SorterFile * MergeEngine) :=
  match d with
  | O => vdbeIncrInitMerger_level (fun _ _ _ => None) (fun _ _ _ _ => None)
           K r2 file2 pMerger_
  | S d' => vdbeIncrInitMerger_level (vdbeSorterNext d') (vdbeIncrInitMerger d')
              K r2 file2 pMerger_
  end.

(** ** Building the merge tree *)

(** vdbePmaReaderInit on one PMA of the level-0 file: seek, read the size
    varint, step to the first key. *)
Definition vdbePmaReaderInit (K : KeyInfo) (r2 : UnpackedRecord)
    (pma : list blob) : option (Z * UnpackedRecord * PmaReader) :=
  vdbePmaReaderNext (fun _ _ _ => None) K r2 (mkPmaReader true None pma None).

(** vdbeMergeEngineLevel0: [file_rest] is what the level-0 file holds from
    [*piOffset] on. *)
Fixpoint level0_readers (K : KeyInfo) (r2 : UnpackedRecord) (nPMA : nat)
    (file_rest : list (list blob))
    : option (list PmaReader * list (list blob)) :=
  match nPMA with
  | O => Some ([], file_rest)
  | S n =>
      match file_rest with
      | [] => None
      | pma :: rest' =>
          match vdbePmaReaderInit K r2 pma with
          | None => None
          | Some (_, _, rd) =>
              match level0_readers K r2 n rest' with
              | None => None
              | Some (rds, rest'') => Some (rd :: rds, rest'')
              end
          end
      end
  end.

Definition vdbeMergeEngineLevel0 (K : KeyInfo) (r2 : UnpackedRecord)
    (nPMA : nat) (file_rest : list (list blob))
    : option (MergeEngine * list (list blob)) :=
  let pNew := vdbeMergeEngineNew nPMA in
  match level0_readers K r2 nPMA file_rest with
  | None => None
  | Some (rds, rest') =>
      Some (mkMergeEngine (nTree pNew) (aTree pNew)
              (rds ++ drop nPMA (aIter pNew)), rest')
  end.

(** vdbeSorterTreeDepth *)
Fixpoint treeDepth_loop (fuel : nat) (nDiv nPMA : Z) (nDepth : nat) : nat :=
  match fuel with
  | O => nDepth
  | S f => if nDiv <? nPMA then treeDepth_loop f (nDiv * 16) nPMA (S nDepth)
           else nDepth
  end.

Definition vdbeSorterTreeDepth (nPMA : Z) : nat :=
  treeDepth_loop (Z.to_nat nPMA) 16 nPMA 0.

(** vdbeIncrNew: [mx] is MAX(mxKeysize+9, mxPmaSize/2). *)
Definition incrMxSz (s : VdbeSorter) : Z :=
  Z.max (mxKeysize s + 9) (mxPmaSize s / 2).

Definition vdbeIncrNew (mx : Z) (file2 : SorterFile) (m : MergeEngine)
    : SorterFile * IncrMerger :=
  (mkSorterFile (pFd file2) (iEof file2 + mx) (pmas file2),
   mkIncrMerger m 0 mx false 0 []).

Definition setIncr (r : PmaReader) (inc : IncrMerger) : PmaReader :=
  mkPmaReader (pFile r) (aKey r) (rd_rest r) (Some inc).

Definition setMerger (inc : IncrMerger) (m : MergeEngine) : IncrMerger :=
  mkIncrMerger m (iStartOff inc) (mxSz inc) (bEof inc) (im_iEof inc) (im_data inc).

Definition setIter (p : MergeEngine) (i : nat) (r : PmaReader) : MergeEngine :=
  mkMergeEngine (nTree p) (aTree p) (<[i := r]> (aIter p)).

(** vdbeSorterAddToTree: [k] counts the iterations left of the descent
    [for(i=1; i<nDepth; i++)]. *)
Fixpoint addToTree_walk (k : nat) (mx : Z) (file2 : SorterFile)
    (nDiv iSeq : nat) (p : MergeEngine) (pIncrLeaf : IncrMerger)
    : SorterFile * MergeEngine :=
  match k with
  | O => (file2,
          setIter p (iSeq mod 16)%nat
            (setIncr (aIter p !!! (iSeq mod 16)%nat) pIncrLeaf))
  | S k' =>
      let iIter := ((iSeq / nDiv) mod 16)%nat in
      let pIter := aIter p !!! iIter in
      let '(file2a, inc) :=
        match pIncr pIter with
        | Some inc => (file2, inc)
        | None => vdbeIncrNew mx file2 (vdbeMergeEngineNew 16)
        end in
      let '(file2b, sub) :=
        addToTree_walk k' mx file2a (nDiv / 16)%nat iSeq (im_pMerger inc) pIncrLeaf in
      (file2b, setIter p iIter (setIncr pIter (setMerger inc sub)))
  end.

Definition vdbeSorterAddToTree (mx : Z) (file2 : SorterFile)
    (nDepth iSeq : nat) (pRoot pLeaf : MergeEngine) : SorterFile * MergeEngine :=
  let '(file2a, pIncrLeaf) := vdbeIncrNew mx file2 pLeaf in
  let nDiv := Nat.iter (nDepth - 1) (fun x => (x * 16)%nat) 1%nat in
  addToTree_walk (nDepth - 1) mx file2a nDiv iSeq pRoot pIncrLeaf.

(** vdbeSorterMergeTreeBuild for the single subtask. *)
Fixpoint build_loop (fuel : nat) (K : KeyInfo) (r2 : UnpackedRecord) (mx : Z)
    (nDepth : nat) (nPMA i iSeq : nat) (file_rest : list (list blob))
    (file2 : SorterFile) (pRoot : MergeEngine)
    : option (SorterFile * MergeEngine) :=
  match fuel with
  | O => Some (file2, pRoot)
  | S f =>
      if (i <? nPMA)%nat then
        let nReader := Nat.min (nPMA - i) 16 in
        match vdbeMergeEngineLevel0 K r2 nReader file_rest with
        | None => None
        | Some (pLeaf, rest') =>
            let '(file2a, pRoot') :=
              vdbeSorterAddToTree mx file2 nDepth iSeq pRoot pLeaf in
            build_loop f K r2 mx nDepth nPMA (i + 16)%nat (S iSeq) rest' file2a pRoot'
        end
      else Some (file2, pRoot)
  end.

Definition vdbeSorterMergeTreeBuild (r2 : UnpackedRecord) (s : VdbeSorter)
    : option (SorterFile * option MergeEngine) :=
  let t := aTask0 s in
  let nPMA := Z.to_nat (task_nPMA t) in
  if task_nPMA t =? 0 then Some (task_file2 t, None) else
  let nDepth := vdbeSorterTreeDepth (task_nPMA t) in
  if (nPMA <=? 16)%nat then
    match vdbeMergeEngineLevel0 (pKeyInfo s) r2 nPMA (pmas (task_file t)) with
    | None => None
    | Some (pRoot, _) => Some (task_file2 t, Some pRoot)
    end
  else
    match build_loop nPMA (pKeyInfo s) r2 (incrMxSz s) nDepth nPMA 0 0
            (pmas (task_file t)) (task_file2 t) (vdbeMergeEngineNew 16) with
    | None => None
    | Some (file2, pRoot) => Some (file2, Some pRoot)
    end.

(** vdbeSorterSetupMerge, single-threaded branch.  The nesting depth of
    the tree is the one the build computed, [vdbeSorterTreeDepth]. *)
Definition sorterDepth (s : VdbeSorter) : nat :=
  vdbeSorterTreeDepth (task_nPMA (aTask0 s)).

Definition vdbeSorterSetupMerge (s : VdbeSorter) : option (Z * VdbeSorter) :=
  let t := aTask0 s in
  match task_pUnpacked t with
  | None => None
  | Some r2 =>
      match vdbeSorterMergeTreeBuild r2 s with
      | None | Some (_, None) => None
      | Some (file2, Some pMain) =>
          match vdbeIncrInitMerger (sorterDepth s) (pKeyInfo s) r2 file2 pMain with
          | None => None
          | Some (rc, r2', file2', pMain') =>
              Some (rc,
                    mkVdbeSorter (mnPmaSize s) (mxPmaSize s) (mxKeysize s) (pgsz s)
                      (Some pMain') (pKeyInfo s) (pUnpacked s) (list_ s)
                      (iMemory s) (nMemory s) (bUsePMA s)
                      (mkSortSubtask (Some r2') (task_nPMA t) (task_file t) file2'))
          end
      end
  end.

(** ** sqlite3VdbeSorterRewind.  The third component is [*pbEof]. *)
Definition sqlite3VdbeSorterRewind (env : FlushEnv) (s : VdbeSorter)
    (bEof0 : bool) : option (Z * VdbeSorter * bool) :=
  if negb (bUsePMA s) then
    match pList (list_ s) with
    | [] => Some (SQLITE_OK, s, true)
    | _ :: _ =>
        match vdbeSorterSort env (pKeyInfo s) (aTask0 s) (list_ s) with
        | None => None
        | Some (rc, t, l) =>
            Some (rc,
                  mkVdbeSorter (mnPmaSize s) (mxPmaSize s) (mxKeysize s) (pgsz s)
                    (pMerger s) (pKeyInfo s) (pUnpacked s) l
                    (iMemory s) (nMemory s) (bUsePMA s) t,
                  false)
        end
    end
  else
    match vdbeSorterFlushPMA env s with
    | None => None
    | Some (rc, s1) =>
        if rc =? SQLITE_OK then
          match vdbeSorterSetupMerge s1 with
          | None => None
          | Some (rc2, s2) => Some (rc2, s2, false)
          end
        else Some (rc, s1, bEof0)
    end.

(** ** sqlite3VdbeSorterNext *)
Definition sqlite3VdbeSorterNext (s : VdbeSorter) (bEof0 : bool)
    : option (Z * VdbeSorter * bool) :=
  if bUsePMA s then
    match pMerger s, task_pUnpacked (aTask0 s) with
    | Some m, Some r2 =>
        match vdbeSorterNext (sorterDepth s) (pKeyInfo s) r2 m with
        | None => None
        | Some (rc, r2', m', eof) =>
            let t := aTask0 s in
            Some (rc,
                  mkVdbeSorter (mnPmaSize s) (mxPmaSize s) (mxKeysize s) (pgsz s)
                    (Some m') (pKeyInfo s) (pUnpacked s) (list_ s)
                    (iMemory s) (nMemory s) (bUsePMA s)
                    (mkSortSubtask (Some r2') (task_nPMA t) (task_file t)
                       (task_file2 t)),
                  if rc =? SQLITE_OK then eof else bEof0)
        end
    | _, _ => None
    end
  else
    match pList (list_ s) with
    | [] => None
    | _ :: pNext =>
        Some (SQLITE_OK,
              mkVdbeSorter (mnPmaSize s) (mxPmaSize s) (mxKeysize s) (pgsz s)
                (pMerger s) (pKeyInfo s) (pUnpacked s)
                (mkSorterList pNext (aMemory (list_ s)) (szPMA (list_ s)))
                (iMemory s) (nMemory s) (bUsePMA s) (aTask0 s),
              match pNext with [] => true | _ => false end)
    end.

(** ** vdbeSorterRowkey: the key under the read cursor, [None] for a
    null pointer. *)
Definition vdbeSorterRowkey (s : VdbeSorter) : option (option blob) :=
  if bUsePMA s then
    match pMerger s with
    | Some m => Some (aKey (aIter m !!! (aTree m !!! 1%nat)))
    | None => None
    end
  else
    match pList (list_ s) with
    | k :: _ => Some (Some k)
    | [] => None
    end.

(** sqlite3VdbeSorterRowkey: [bGrow] says whether sqlite3VdbeMemGrow
    succeeds; the result is the status and the new content of [pOut]. *)
Definition MEM_Blob : Z := 16.

Definition sqlite3VdbeSorterRowkey (bGrow : bool) (s : VdbeSorter) (pOut : Mem)
    : option (Z * Mem) :=
  match vdbeSorterRowkey s with
  | None => None
  | Some pKey =>
      if negb bGrow then Some (SQLITE_NOMEM, pOut)
      else Some (SQLITE_OK, mkMem MEM_Blob (default [] pKey))
  end.

(** ** sqlite3VdbeSorterCompare.  [Kcsr] is the cursor's key info,
    [bAlloc] whether the allocation of the scratch record succeeds; the
    result is the status, the sorter and [*pRes]. *)
Fixpoint firstNull (n : nat) (a : list Mem) : bool :=
  match n with
  | O => false
  | S n' =>
      match a with
      | [] => false
      | m :: a' =>
          if negb (Z.land (flags m) MEM_Null =? 0) then true else firstNull n' a'
      end
  end.

Definition setUnpacked (s : VdbeSorter) (r : UnpackedRecord) : VdbeSorter :=
  mkVdbeSorter (mnPmaSize s) (mxPmaSize s) (mxKeysize s) (pgsz s)
    (pMerger s) (pKeyInfo s) (Some r) (list_ s)
    (iMemory s) (nMemory s) (bUsePMA s) (aTask0 s).

Definition sqlite3VdbeSorterCompare (bAlloc : bool) (Kcsr : KeyInfo)
    (s : VdbeSorter) (pVal : Mem) (nIgnore : Z) (pRes0 : Z)
    : option (Z * VdbeSorter * Z) :=
  let r2o :=
    match pUnpacked s with
    | Some r => Some r
    | None => if bAlloc
              then Some (mkUnpacked (ki_nField Kcsr - nIgnore) 0 [])
              else None
    end in
  match r2o with
  | None => Some (SQLITE_NOMEM, s, pRes0)
  | Some r2 =>
      match vdbeSorterRowkey s with
      | None => None
      | Some pKey =>
          let k := default [] pKey in
          let r2' := sqlite3VdbeRecordUnpack Kcsr (nKey k) k r2 in
          if firstNull (Z.to_nat (nField r2')) (aMem r2')
          then Some (SQLITE_OK, setUnpacked s r2', -1)
          else Some (SQLITE_OK, setUnpacked s r2',
                     sqlite3VdbeRecordCompare (Mem_n pVal) (z pVal) r2')
      end
  end.

(** ** sqlite3VdbeSorterInit.  What it reads from the connection and the
    global configuration is gathered in [InitCfg]. *)
Record InitCfg := mkInitCfg {
  cfg_pgsz : Z;                  (* sqlite3BtreeGetPageSize *)
  cfg_cache_size : Z;            (* db->aDb[0].pSchema->cache_size *)
  cfg_tempInMemory : bool;       (* sqlite3TempInMemory(db) *)
  cfg_pScratch : bool;           (* sqlite3GlobalConfig.pScratch!=0 *)
  cfg_allocSorter : bool;        (* sqlite3DbMallocZero succeeds *)
  cfg_allocArena : bool          (* sqlite3Malloc(pgsz) succeeds *)
}.

Definition sqlite3VdbeSorterInit (cfg : InitCfg) (Kcsr : KeyInfo) (nField_ : Z)
    : Z * option VdbeSorter :=
  if negb (cfg_allocSorter cfg) then (SQLITE_NOMEM, None) else
  let K := if nField_ =? 0 then Kcsr else mkKeyInfo nField_ in
  let t := mkSortSubtask None 0 (mkSorterFile false 0 []) (mkSorterFile false 0 []) in
  if cfg_tempInMemory cfg then
    (SQLITE_OK,
     Some (mkVdbeSorter 0 0 0 (cfg_pgsz cfg) None K None
             (mkSorterList [] false 0) 0 0 false t))
  else
    let mxCache := if cfg_cache_size cfg <? SORTER_MIN_WORKING
                   then SORTER_MIN_WORKING else cfg_cache_size cfg in
    let mn := SORTER_MIN_WORKING * cfg_pgsz cfg in
    let mx := mxCache * cfg_pgsz cfg in
    if cfg_pScratch cfg then
      (SQLITE_OK,
       Some (mkVdbeSorter mn mx 0 (cfg_pgsz cfg) None K None
               (mkSorterList [] false 0) 0 0 false t))
    else
      (if cfg_allocArena cfg then SQLITE_OK else SQLITE_NOMEM,
       Some (mkVdbeSorter mn mx 0 (cfg_pgsz cfg) None K None
               (mkSorterList [] (cfg_allocArena cfg) 0) 0 (cfg_pgsz cfg) false t)).

(** ** A whole sort, as the virtual machine drives it: the writes, the
    rewind, then key and advance until the end of the stream.  Each write
    comes with the heap-nearly-full hint the host gives at that moment. *)
Definition writeOK (hnf : bool) : WriteEnv := mkWriteEnv hnf flushOK true.

Fixpoint write_all (s : VdbeSorter) (inputs : list (Mem * bool))
    : option (Z * VdbeSorter) :=
  match inputs with
  | [] => Some (SQLITE_OK, s)
  | (m, hnf) :: rest =>
      match sqlite3VdbeSorterWrite (writeOK hnf) s m with
      | None => None
      | Some (rc, s') => if rc =? SQLITE_OK then write_all s' rest else Some (rc, s')
      end
  end.

Fixpoint drain (fuel : nat) (s : VdbeSorter) : option (list blob) :=
  match fuel with
  | O => None
  | S f =>
      match vdbeSorterRowkey s with
      | Some (Some k) =>
          match sqlite3VdbeSorterNext s false with
          | Some (rc, s', eof) =>
              if negb (rc =? SQLITE_OK) then None
              else if eof then Some [k]
              else match drain f s' with
                   | Some out => Some (k :: out)
                   | None => None
                   end
          | None => None
          end
      | _ => None
      end
  end.

Definition sorter_run (s0 : VdbeSorter) (inputs : list (Mem * bool))
    : option (list blob) :=
  match write_all s0 inputs with
  | Some (rc, s1) =>
      if negb (rc =? SQLITE_OK) then None else
      match sqlite3VdbeSorterRewind flushOK s1 false with
      | Some (rc2, s2, eof) =>
          if negb (rc2 =? SQLITE_OK) then None
          else if eof then Some []
          else drain (length inputs) s2
      | None => None
      end
  | None => None
  end.

End Sorter.

(** ** A concrete host, for examples: a record is a key byte followed by
    payload bytes, and records compare by their key byte. *)
Definition demoUnpack (K : KeyInfo) (n : Z) (k : blob) (r : UnpackedRecord)
    : UnpackedRecord :=
  mkUnpacked (nField r) (errCode r)
    [mkMem (if decide (head k = Some 0) then MEM_Null else 0) k].

Definition demoCompare (n : Z) (k : blob) (r : UnpackedRecord) : Z :=
  default 0 (head k) - default 0 (head (default [] (z <$> head (aMem r)))).

Fixpoint demoVarintLen_loop (fuel : nat) (v : Z) (i : Z) : Z :=
  match fuel with
  | O => i
  | S f => let v' := Z.shiftr v 7 in
           if (v' =? 0) || (9 <=? i + 1) then i + 1
           else demoVarintLen_loop f v' (i + 1)
  end.

Definition demoVarintLen (v : Z) : Z := demoVarintLen_loop 9 v 0.

Definition demoHost : Host :=
  Build_Host demoUnpack demoCompare demoVarintLen 16.

(* --------------------------------------------------------------------- *)
(** ** Index arithmetic of the tournament tree                             *)
(* --------------------------------------------------------------------- *)

(** Readers are the leaves of a complete binary tree laid out as a heap:
    slot [i] of [aTree] has children [2i] and [2i+1], and reader [j] sits
    at position [nTree + j].  [anc v i]: position [i] is [v] or lies on
    the way from [v] up to the root.  An engine has at most
    SORTER_MAX_MERGE_COUNT readers, so positions stay below 32. *)
Section TreeIndex.
Local Open Scope nat_scope.

Definition ancb (v i : nat) : bool :=
  existsb (fun k => v / 2 ^ k =? i) (seq 0 6).

Definition anc (v i : nat) : Prop := ancb v i = true.

#[local] Instance anc_dec v i : Decision (anc v i).
Proof. unfold anc. apply _. Defined.

Definition Nok (N : nat) : Prop := N ∈ [2; 4; 8; 16].

Lemma Forall_seq_lt (P : nat -> Prop) (n i : nat) :
  Forall P (seq 0 n) -> i < n -> P i.
Proof.
  intros HF Hi. rewrite Forall_forall in HF. apply HF, elem_of_seq. lia.
Qed.

Lemma all1 (P : nat -> nat -> Prop) :
  Forall (fun N => Forall (P N) (seq 0 N)) [2; 4; 8; 16] ->
  forall N i, Nok N -> i < N -> P N i.
Proof.
  intros HF N i HN Hi. rewrite Forall_forall in HF.
  by apply (Forall_seq_lt _ N i (HF N HN)).
Qed.

Lemma all2 (P : nat -> nat -> nat -> Prop) :
  Forall (fun N => Forall (fun i => Forall (P N i) (seq 0 N)) (seq 0 N)) [2; 4; 8; 16] ->
  forall N i j, Nok N -> i < N -> j < N -> P N i j.
Proof.
  intros HF N i j HN Hi Hj. rewrite Forall_forall in HF.
  pose proof (Forall_seq_lt _ N i (HF N HN) Hi) as H1.
  by apply (Forall_seq_lt _ N j H1).
Qed.

Lemma all3 (P : nat -> nat -> nat -> nat -> Prop) :
  Forall (fun N => Forall (fun i => Forall (fun j => Forall (P N i j) (seq 0 N))
                                      (seq 0 N)) (seq 0 N)) [2; 4; 8; 16] ->
  forall N i j k, Nok N -> i < N -> j < N -> k < N -> P N i j k.
Proof.
  intros HF N i j k HN Hi Hj Hk. rewrite Forall_forall in HF.
  pose proof (Forall_seq_lt _ N i (HF N HN) Hi) as H1.
  pose proof (Forall_seq_lt _ N j H1 Hj) as H2.
  by apply (Forall_seq_lt _ N k H2).
Qed.

Ltac by_all1 :=
  match goal with
  | |- forall N i, Nok N -> i < N -> @?P N i => apply (all1 P); cbv beta zeta; compute_done
  end.
Ltac by_all2 :=
  match goal with
  | |- forall N i j, Nok N -> i < N -> j < N -> @?P N i j =>
      apply (all2 P); cbv beta zeta; compute_done
  end.
Ltac by_all3 :=
  match goal with
  | |- forall N i j k, Nok N -> i < N -> j < N -> k < N -> @?P N i j k =>
      apply (all3 P); cbv beta zeta; compute_done
  end.

(** The first pair compared by vdbeSorterNext. *)
Lemma tree_leaf_pair N iPrev :
  Nok N -> iPrev < N ->
  let i := (N + iPrev) / 2 in
  1 <= i /\ i < N /\ N / 2 <= i /\
  let i1 := Z.to_nat (Z.land (Z.of_nat iPrev) 65534) in
  let i2 := Z.to_nat (Z.lor (Z.of_nat iPrev) 1) in
  i1 < N /\ i2 < N /\ N + i1 = 2 * i /\ N + i2 = 2 * i + 1 /\
  (iPrev = i1 \/ iPrev = i2).
Proof. revert N iPrev. by_all1. Qed.

(** The slot next to [i], and their common parent. *)
Lemma tree_sibling N i :
  Nok N -> i < N -> 2 <= i ->
  Nat.lxor i 1 < N /\ 1 <= i / 2 /\ i / 2 < N /\ 2 * (i / 2) + 1 < N /\
  ((i = 2 * (i / 2) /\ Nat.lxor i 1 = 2 * (i / 2) + 1) \/
   (i = 2 * (i / 2) + 1 /\ Nat.lxor i 1 = 2 * (i / 2))).
Proof. revert N i. by_all1. Qed.

(** The children of slot [iOut] as vdbeSorterDoCompare finds them. *)
Lemma tree_children N i :
  Nok N -> i < N -> 1 <= i ->
  (N / 2 <= i -> N + (i - N / 2) * 2 = 2 * i /\ (i - N / 2) * 2 + 1 < N) /\
  (i < N / 2 -> 2 * i + 1 < N).
Proof. revert N i. by_all1. Qed.

Lemma anc_leaf N j j' :
  Nok N -> j < N -> j' < N -> anc (N + j') (N + j) -> j' = j.
Proof. revert N j j'. by_all2. Qed.

Lemma anc_refl v : anc v v.
Proof.
  unfold anc, ancb. cbn [seq existsb]. apply orb_true_iff. left.
  change (2 ^ 0) with 1. rewrite Nat.div_1_r. apply Nat.eqb_refl.
Qed.

Lemma anc_split N j i :
  Nok N -> j < N -> i < N -> 1 <= i ->
  anc (N + j) i <-> anc (N + j) (2 * i) \/ anc (N + j) (2 * i + 1).
Proof. revert N j i. by_all2. Qed.

Lemma anc_path N iPrev i' :
  Nok N -> iPrev < N -> i' < N -> 1 <= i' ->
  anc (N + iPrev) i' -> anc ((N + iPrev) / 2) i'.
Proof. revert N iPrev i'. by_all2. Qed.

Lemma anc_up N i i' :
  Nok N -> i < N -> i' < N -> 1 <= i' ->
  anc i i' -> i' = i \/ anc (i / 2) i'.
Proof. revert N i i'. by_all2. Qed.

Lemma anc_zero N i' : Nok N -> i' < N -> 1 <= i' -> ~ anc 0 i'.
Proof. revert N i'. by_all1. Qed.

Lemma anc_sibling N i : Nok N -> i < N -> 2 <= i -> ~ anc i (Nat.lxor i 1).
Proof. revert N i. by_all1. Qed.

(** The readers under the left child come before those under the right. *)
Lemma anc_order N i w1 w2 :
  Nok N -> i < N -> w1 < N -> w2 < N -> 1 <= i ->
  anc (N + w1) (2 * i) -> anc (N + w2) (2 * i + 1) -> w1 < w2.
Proof. revert N i w1 w2. by_all3. Qed.

Lemma Nok_bounds N : Nok N -> 2 <= N <= 16.
Proof.
  unfold Nok. rewrite !elem_of_cons, elem_of_nil. intros [->|[->|[->|[->|[]]]]]; lia.
Qed.

Lemma Nok_16 : Nok 16.
Proof. unfold Nok. rewrite !elem_of_cons. tauto. Qed.

Lemma anc_root N j : Nok N -> j < N -> anc (N + j) 1.
Proof. revert N j. by_all1. Qed.

End TreeIndex.

(* --------------------------------------------------------------------- *)
(** ** The in-memory merge sort                                            *)
(* --------------------------------------------------------------------- *)

(** What the sorter needs from its host for the order of its output to
    mean anything: decoding then comparing is a three-way comparison [cmp]
    of the two keys, whatever the scratch record held before; [cmp] is
    antisymmetric and transitive; decoding does not run out of memory;
    a varint takes at least one byte. *)
Class HostLaws `{H : Host} (K : KeyInfo) (cmp : blob -> blob -> Z) : Prop := {
  host_cmp : forall a b n r,
    sqlite3VdbeRecordCompare (nKey a) a (sqlite3VdbeRecordUnpack K n b r) = cmp a b;
  host_err : forall n b r,
    errCode (sqlite3VdbeRecordUnpack K n b r) = errCode r;
  cmp_antisym : forall a b, Z.sgn (cmp b a) = - Z.sgn (cmp a b);
  cmp_trans : forall a b c, cmp a b <= 0 -> cmp b c <= 0 -> cmp a c <= 0;
  varint_pos : forall n, 1 <= sqlite3VarintLen n
}.

Section Order.
Context `{H : Host} (K : KeyInfo) (cmp : blob -> blob -> Z).
Context {HL : HostLaws K cmp}.

Definition le (a b : blob) : Prop := cmp a b <= 0.
Definition eqvb (x y : blob) : bool := cmp x y =? 0.

Lemma cmp_refl a : cmp a a = 0.
Proof. pose proof (cmp_antisym a a). lia. Qed.

Lemma le_refl a : le a a.
Proof. unfold le. rewrite cmp_refl. lia. Qed.

Lemma le_trans a b c : le a b -> le b c -> le a c.
Proof. apply cmp_trans. Qed.

Lemma le_total a b : le a b \/ le b a.
Proof. unfold le. pose proof (cmp_antisym a b). lia. Qed.

Lemma gt_le a b : 0 < cmp a b -> cmp b a < 0.
Proof. pose proof (cmp_antisym a b). lia. Qed.

Lemma lt_gt a b : cmp a b < 0 -> 0 < cmp b a.
Proof. pose proof (cmp_antisym a b). lia. Qed.

Lemma eqv_sym a b : cmp a b = 0 -> cmp b a = 0.
Proof. pose proof (cmp_antisym a b). lia. Qed.

Lemma lt_le_trans a b c : cmp a b < 0 -> cmp b c <= 0 -> cmp a c < 0.
Proof.
  intros Hab Hbc.
  destruct (Z_lt_le_dec (cmp a c) 0) as [|Hac]; [done|].
  assert (cmp c a <= 0) by (pose proof (cmp_antisym a c); lia).
  pose proof (cmp_trans b c a Hbc ltac:(done)).
  pose proof (cmp_antisym a b). lia.
Qed.

Lemma le_lt_trans a b c : cmp a b <= 0 -> cmp b c < 0 -> cmp a c < 0.
Proof.
  intros Hab Hbc.
  destruct (Z_lt_le_dec (cmp a c) 0) as [|Hac]; [done|].
  assert (cmp c a <= 0) by (pose proof (cmp_antisym a c); lia).
  pose proof (cmp_trans c a b ltac:(done) Hab).
  pose proof (cmp_antisym b c). lia.
Qed.

Lemma eqv_trans a b c : cmp a b = 0 -> cmp b c = 0 -> cmp a c = 0.
Proof.
  intros Hab Hbc.
  pose proof (cmp_trans a b c). pose proof (cmp_trans c b a).
  pose proof (cmp_antisym a b). pose proof (cmp_antisym b c).
  pose proof (cmp_antisym a c). lia.
Qed.

(** The scratch record [r] caches key [b]. *)
Definition holds (r : UnpackedRecord) (b : blob) : Prop :=
  forall a, sqlite3VdbeRecordCompare (nKey a) a r = cmp a b.

Lemma holds_unpack n b r : holds (sqlite3VdbeRecordUnpack K n b r) b.
Proof. intros a. apply host_cmp. Qed.

(** [vdbeSorterMerge] without the scratch record. *)
Fixpoint merge (p1 : list blob) : list blob -> list blob :=
  fix go (p2 : list blob) :=
    match p1, p2 with
    | a :: p1', b :: p2' =>
        if cmp a b <=? 0 then a :: merge p1' p2 else b :: go p2'
    | [], _ => p2
    | _, [] => p1
    end.

Lemma merge_nil_r p1 : merge p1 [] = p1.
Proof. by destruct p1. Qed.

Lemma merge_nil_l p2 : merge [] p2 = p2.
Proof. by destruct p2. Qed.

Lemma merge_cons a p1 b p2 :
  merge (a :: p1) (b :: p2) =
  if cmp a b <=? 0 then a :: merge p1 (b :: p2) else b :: merge (a :: p1) p2.
Proof. reflexivity. Qed.

Lemma merge_loop_cons a p1 b p2 r2 pVal2 :
  vdbeSorterMerge_loop K (a :: p1) r2 (b :: p2) pVal2 =
  let '(res, r2') := vdbeSorterCompare K r2 a pVal2 (nKey b) in
  if res <=? 0 then
    let '(out, r) := vdbeSorterMerge_loop K p1 r2' (b :: p2) None in (a :: out, r)
  else
    match p2 with
    | [] => (b :: a :: p1, r2')
    | b' :: _ =>
        let '(out, r) := vdbeSorterMerge_loop K (a :: p1) r2' p2 (Some b') in
        (b :: out, r)
    end.
Proof. reflexivity. Qed.

Lemma merge_loop_spec p1 : forall p2 r2 pVal2,
  match p2 with
  | [] => True
  | b :: _ => pVal2 = Some b \/ (pVal2 = None /\ holds r2 b)
  end ->
  (vdbeSorterMerge_loop K p1 r2 p2 pVal2).1 = merge p1 p2 /\
  errCode (vdbeSorterMerge_loop K p1 r2 p2 pVal2).2 = errCode r2.
Proof.
  induction p1 as [|a p1 IH1]; intros p2.
  - destruct p2; by simpl.
  - induction p2 as [|b p2 IH2]; intros r2 pVal2 Hc; [by simpl|].
    rewrite merge_cons, merge_loop_cons. unfold vdbeSorterCompare.
    set (r2' := match pVal2 with Some k2 => _ | None => r2 end).
    assert (Hh : holds r2' b /\ errCode r2' = errCode r2).
    { subst r2'. destruct Hc as [->|[-> Hh]]; [|done].
      split; [apply holds_unpack|apply host_err]. }
    destruct Hh as [Hh He]. rewrite (Hh a).
    destruct (cmp a b <=? 0) eqn:Hle.
    + specialize (IH1 (b :: p2) r2' None (or_intror (conj eq_refl Hh))).
      destruct (vdbeSorterMerge_loop K p1 r2' (b :: p2) None) as [out r].
      simpl in *. destruct IH1 as [-> ->]. done.
    + destruct p2 as [|b' p2].
      * simpl. done.
      * specialize (IH2 r2' (Some b') (or_introl eq_refl)).
        destruct (vdbeSorterMerge_loop K (a :: p1) r2' (b' :: p2) (Some b')) as [out r].
        simpl in *. destruct IH2 as [-> ->]. done.
Qed.

Lemma vdbeSorterMerge_spec r2 p1 p2 :
  (vdbeSorterMerge K r2 p1 p2).1 = merge p1 p2 /\
  errCode (vdbeSorterMerge K r2 p1 p2).2 = errCode r2.
Proof.
  unfold vdbeSorterMerge. apply merge_loop_spec.
  destruct p2; simpl; auto.
Qed.

Definition sorted (l : list blob) : Prop := StronglySorted le l.

Lemma Forall_merge (P : blob -> Prop) p1 : forall p2,
  Forall P p1 -> Forall P p2 -> Forall P (merge p1 p2).
Proof.
  induction p1 as [|a p1 IH1]; intros p2 H1 H2; [by rewrite merge_nil_l|].
  induction p2 as [|b p2 IH2]; [done|].
  rewrite merge_cons. inversion H1; inversion H2; subst.
  destruct (cmp a b <=? 0); constructor; auto.
Qed.

Lemma length_merge p1 : forall p2,
  length (merge p1 p2) = (length p1 + length p2)%nat.
Proof.
  induction p1 as [|a p1 IH1]; intros p2; [by rewrite merge_nil_l|].
  induction p2 as [|b p2 IH2]; [simpl; lia|].
  rewrite merge_cons. destruct (cmp a b <=? 0); cbn [length].
  - rewrite IH1. cbn [length]. lia.
  - rewrite IH2. cbn [length]. lia.
Qed.

Lemma merge_sorted p1 : forall p2,
  sorted p1 -> sorted p2 -> sorted (merge p1 p2).
Proof.
  unfold sorted.
  induction p1 as [|a p1 IH1]; intros p2 H1 H2; [by rewrite merge_nil_l|].
  induction p2 as [|b p2 IH2]; [done|].
  rewrite merge_cons.
  inversion H1 as [|? ? Hs1 Hf1]; inversion H2 as [|? ? Hs2 Hf2]; subst.
  destruct (cmp a b <=? 0) eqn:Hab.
  - apply Z.leb_le in Hab. constructor; [by apply IH1|].
    apply Forall_merge; [done|].
    constructor; [done|].
    eapply Forall_impl; [exact Hf2|]. intros y Hy. by eapply le_trans.
  - apply Z.leb_gt in Hab. constructor; [by apply IH2|].
    assert (Hba : le b a) by (unfold le; pose proof (gt_le a b Hab); lia).
    apply Forall_merge; [|done].
    constructor; [done|].
    eapply Forall_impl; [exact Hf1|]. intros y Hy. by eapply le_trans.
Qed.

Lemma filter_none (f : blob -> bool) l :
  Forall (fun y => f y = false) l -> List.filter f l = [].
Proof. induction 1 as [|y l Hy _ IH]; simpl; [done|by rewrite Hy]. Qed.

(** Ties go to the left list: the merge keeps, within every class of
    equal keys, the records of [p1] before those of [p2]. *)
Lemma merge_filter x p1 : forall p2,
  sorted p1 ->
  List.filter (eqvb x) (merge p1 p2) =
  List.filter (eqvb x) p1 ++ List.filter (eqvb x) p2.
Proof.
  unfold sorted.
  induction p1 as [|a p1 IH1]; intros p2 H1; [by rewrite merge_nil_l|].
  induction p2 as [|b p2 IH2]; [by rewrite merge_nil_r, app_nil_r|].
  rewrite merge_cons.
  inversion H1 as [|? ? Hs1 Hf1]; subst.
  destruct (cmp a b <=? 0) eqn:Hab.
  - cbn [List.filter]. rewrite IH1 by done.
    destruct (eqvb x a); reflexivity.
  - apply Z.leb_gt in Hab.
    change (List.filter (eqvb x) (b :: merge (a :: p1) p2))
      with (if eqvb x b then b :: List.filter (eqvb x) (merge (a :: p1) p2)
            else List.filter (eqvb x) (merge (a :: p1) p2)).
    change (List.filter (eqvb x) (b :: p2))
      with (if eqvb x b then b :: List.filter (eqvb x) p2
            else List.filter (eqvb x) p2).
    rewrite IH2.
    destruct (eqvb x b) eqn:Hxb; [|reflexivity].
    assert (Hnone : List.filter (eqvb x) (a :: p1) = []).
    { apply filter_none. unfold eqvb in *. apply Z.eqb_eq in Hxb.
      assert (Hall : Forall (le a) (a :: p1)) by (constructor; [apply le_refl|done]).
      eapply Forall_impl; [exact Hall|]. intros y Hay. cbv beta.
      apply Z.eqb_neq. intros Hxy.
      assert (cmp b y = 0) by (eapply eqv_trans; [apply eqv_sym|]; eassumption).
      assert (le y b) by (unfold le; pose proof (eqv_sym b y); lia).
      pose proof (le_trans _ _ _ Hay ltac:(eassumption)). unfold le in *. lia. }
    rewrite Hnone. reflexivity.
Qed.

(** *** The bins *)
Definition total (slots : list (list blob)) : Z := Z.of_nat (length (concat slots)).

Definition slots_sz (i0 : Z) (slots : list (list blob)) : Prop :=
  forall (j : nat) s, slots !! j = Some s ->
    s = [] \/ Z.of_nat (length s) = 2 ^ (i0 + Z.of_nat j).

Definition classes (x : blob) (slots : list (list blob)) : list blob :=
  concat (map (List.filter (eqvb x)) slots).

Lemma slots_sz_tail i0 s rest :
  slots_sz i0 (s :: rest) -> slots_sz (i0 + 1) rest.
Proof.
  intros Hs j t Hj. specialize (Hs (S j) t Hj).
  replace (i0 + 1 + Z.of_nat j) with (i0 + Z.of_nat (S j)) by lia. done.
Qed.

Lemma slots_sz_cons i0 s rest :
  (s = [] \/ Z.of_nat (length s) = 2 ^ i0) ->
  slots_sz (i0 + 1) rest -> slots_sz i0 (s :: rest).
Proof.
  intros Hs Hr [|j] t Hj; simpl in Hj.
  - injection Hj as <-. by rewrite Z.add_0_r.
  - specialize (Hr j t Hj).
    replace (i0 + Z.of_nat (S j)) with (i0 + 1 + Z.of_nat j) by lia. done.
Qed.

Lemma total_cons s rest : total (s :: rest) = Z.of_nat (length s) + total rest.
Proof. unfold total. simpl. rewrite length_app. lia. Qed.

Lemma sort_place_spec : forall slots i0 p r2,
  0 <= i0 -> sorted p -> Forall sorted slots -> slots_sz i0 slots ->
  Z.of_nat (length p) = 2 ^ i0 ->
  total slots + 2 ^ i0 < 2 ^ (i0 + Z.of_nat (length slots)) ->
  exists slots' r',
    sort_place K r2 p slots = Some (slots', r') /\
    errCode r' = errCode r2 /\
    Forall sorted slots' /\ slots_sz i0 slots' /\
    total slots' = total slots + 2 ^ i0 /\
    length slots' = length slots /\
    forall x, classes x slots' = List.filter (eqvb x) p ++ classes x slots.
Proof.
  induction slots as [|s rest IH]; intros i0 p r2 Hi0 Hp Hsl Hsz Hlen Htot.
  - exfalso. unfold total in Htot. simpl in Htot. rewrite Z.add_0_r in Htot. lia.
  - inversion Hsl as [|? ? Hs Hrest]; subst.
    destruct s as [|b s'].
    + exists (p :: rest), r2. simpl. repeat split; try done.
      * by constructor.
      * apply slots_sz_cons; [by right|]. by eapply slots_sz_tail.
      * rewrite !total_cons. simpl. lia.
    + cbn [sort_place].
      pose proof (vdbeSorterMerge_spec r2 p (b :: s')) as [Hm He].
      destruct (vdbeSorterMerge K r2 p (b :: s')) as [p' r2'] eqn:Hmerge.
      simpl in Hm, He. subst p'.
      assert (Hbs : Z.of_nat (length (b :: s')) = 2 ^ i0).
      { destruct (Hsz 0%nat (b :: s') eq_refl) as [|Hx]; [done|].
        by rewrite Z.add_0_r in Hx. }
      assert (Hpow : 2 ^ (i0 + 1) = 2 * 2 ^ i0) by (rewrite Z.pow_add_r by lia; lia).
      destruct (IH (i0 + 1) (merge p (b :: s')) r2') as
        (rest' & r' & Hpl & He' & Hsl' & Hsz' & Htot' & Hlen' & Hcl).
      * lia.
      * by apply merge_sorted.
      * done.
      * by eapply slots_sz_tail.
      * rewrite length_merge, Nat2Z.inj_add. lia.
      * rewrite total_cons in Htot.
        replace (i0 + 1 + Z.of_nat (length rest))
          with (i0 + Z.of_nat (length (( b :: s') :: rest)))
          by (cbn [length]; lia).
        lia.
      * rewrite Hpl. exists ([] :: rest'), r'. repeat split.
        -- congruence.
        -- constructor; [constructor|done].
        -- apply slots_sz_cons; [by left|done].
        -- rewrite !total_cons. simpl length at 1. lia.
        -- simpl. lia.
        -- intros x. unfold classes in *. simpl. rewrite Hcl.
           rewrite merge_filter by done. by rewrite <- app_assoc.
Qed.

Lemma sort_walk_spec : forall l slots r2,
  Forall sorted slots -> slots_sz 0 slots ->
  total slots + Z.of_nat (length l) < 2 ^ Z.of_nat (length slots) ->
  exists slots' r',
    sort_walk K r2 l slots = Some (slots', r') /\
    errCode r' = errCode r2 /\
    Forall sorted slots' /\
    length slots' = length slots /\
    forall x, classes x slots' = List.filter (eqvb x) (rev l) ++ classes x slots.
Proof.
  induction l as [|p l IH]; intros slots r2 Hsl Hsz Htot.
  - exists slots, r2. simpl. repeat split; done.
  - cbn [sort_walk].
    destruct (sort_place_spec slots 0 [p] r2) as
      (slots1 & r1 & Hpl & He1 & Hsl1 & Hsz1 & Htot1 & Hlen1 & Hcl1); try done.
    + repeat constructor.
    + cbn [length] in Htot. rewrite Nat2Z.inj_succ in Htot.
      change (2 ^ 0) with 1. rewrite Z.add_0_l. lia.
    + rewrite Hpl.
      destruct (IH slots1 r1) as (slots2 & r2' & Hw & He2 & Hsl2 & Hlen2 & Hcl2);
        try done.
      * rewrite Htot1, Hlen1. cbn [length] in Htot. rewrite Nat2Z.inj_succ in Htot.
        change (2 ^ 0) with 1. lia.
      * exists slots2, r2'. repeat split; try congruence; try done.
        intros x. rewrite Hcl2, Hcl1. simpl rev.
        rewrite List.filter_app. by rewrite <- app_assoc.
Qed.

Lemma sort_collect_spec : forall slots p r2,
  sorted p -> Forall sorted slots ->
  sorted (sort_collect K r2 p slots).1 /\
  errCode (sort_collect K r2 p slots).2 = errCode r2 /\
  forall x, List.filter (eqvb x) (sort_collect K r2 p slots).1 =
            List.filter (eqvb x) p ++ classes x slots.
Proof.
  induction slots as [|q rest IH]; intros p r2 Hp Hsl.
  - simpl. repeat split; try done. intros x. unfold classes. simpl.
    by rewrite app_nil_r.
  - inversion Hsl; subst. cbn [sort_collect].
    pose proof (vdbeSorterMerge_spec r2 p q) as [Hm He].
    destruct (vdbeSorterMerge K r2 p q) as [p' r2'].
    simpl in Hm, He. subst p'.
    destruct (IH (merge p q) r2') as (Hs & He' & Hcl); [by apply merge_sorted|done|].
    repeat split; [done|congruence|].
    intros x. rewrite Hcl, merge_filter by done.
    unfold classes. simpl. by rewrite <- app_assoc.
Qed.

(** A subtask whose scratch record, when there is one, carries the
    error code [e]; a subtask without one will get a clean one. *)
Definition task_err (e : Z) (t : SortSubtask) : Prop :=
  match task_pUnpacked t with
  | Some r => errCode r = e
  | None => e = 0
  end.

Definition task_ok (t : SortSubtask) : Prop := task_err 0 t.

(** [out] holds the records of [input], sorted, ties in the order of [input]. *)
Definition stable_sort_of (input out : list blob) : Prop :=
  sorted out /\
  forall x, List.filter (eqvb x) out = List.filter (eqvb x) input.

(** The in-memory sort returns the records sorted, ties in the order of
    insertion, which is the reverse of the list; its status is the error
    code of the scratch record. *)
Lemma vdbeSorterSort_spec (e : Z) (t : SortSubtask) (l : SorterList) :
  task_err e t ->
  Z.of_nat (length (pList l)) < 2 ^ 64 ->
  exists r out,
    vdbeSorterSort flushOK K t l =
      Some (e,
            mkSortSubtask (Some r) (task_nPMA t) (task_file t) (task_file2 t),
            mkSorterList out (aMemory l) (szPMA l)) /\
    errCode r = e /\ stable_sort_of (rev (pList l)) out.
Proof.
  intros Ht Hlen. unfold vdbeSorterSort, vdbeSortAllocUnpacked, task_err in *.
  set (r0 := match task_pUnpacked t with
             | Some r => r | None => mkUnpacked (ki_nField K) 0 [] end).
  assert (Hr0 : errCode r0 = e) by (subst r0; destruct (task_pUnpacked t); done).
  destruct (sort_walk_spec (pList l) (replicate 64 []) r0) as
    (slots & r1 & Hw & He1 & Hsl & Hlen1 & Hcl).
  { apply Forall_forall. intros s Hs. apply elem_of_replicate in Hs as [-> _]. constructor. }
  { intros j s Hj. left. apply lookup_replicate in Hj. tauto. }
  { unfold total. rewrite length_replicate.
    replace (concat (replicate 64 [])) with (@nil blob) by reflexivity.
    simpl length. change (Z.of_nat 64) with 64. lia. }
  pose proof (sort_collect_spec slots [] r1 ltac:(constructor) Hsl) as (Hs & He2 & Hcl2).
  destruct (sort_collect K r1 [] slots) as [out r2] eqn:Hc. simpl in *.
  exists r2, out.
  assert (Hgoal : forall x, List.filter (eqvb x) out = List.filter (eqvb x) (rev (pList l))).
  { intros x. rewrite Hcl2, Hcl. unfold classes.
    replace (map (List.filter (eqvb x)) (replicate 64 [])) with (replicate 64 (@nil blob))
      by reflexivity.
    replace (concat (replicate 64 (@nil blob))) with (@nil blob) by reflexivity.
    by rewrite app_nil_r. }
  assert (He : errCode r2 = e) by congruence.
  destruct (task_pUnpacked t) as [r|] eqn:Hu; simpl.
  - subst r0. rewrite Hu. simpl. rewrite Hw, Hc, He. done.
  - subst r0. simpl. rewrite Hw, Hc, He. done.
Qed.

(** A flush with a helpful host appends one PMA that holds the list
    sorted, and empties the list. *)
Lemma vdbeSorterListToPMA_spec (t : SortSubtask) (l : SorterList) :
  task_ok t ->
  Z.of_nat (length (pList l)) < 2 ^ 64 ->
  exists r out iEof',
    vdbeSorterListToPMA flushOK K t l =
      Some (SQLITE_OK,
            mkSortSubtask (Some r) (task_nPMA t + 1)
              (mkSorterFile true iEof' (pmas (task_file t) ++ [out]))
              (task_file2 t),
            mkSorterList [] (aMemory l) (szPMA l)) /\
    errCode r = 0 /\ stable_sort_of (rev (pList l)) out.
Proof.
  intros Ht Hlen. unfold vdbeSorterListToPMA.
  set (t1 := if pFd (task_file t) then t else _).
  assert (Ht1 : task_ok t1 /\ task_nPMA t1 = task_nPMA t /\
                pFd (task_file t1) = true /\
                pmas (task_file t1) = pmas (task_file t) /\
                task_file2 t1 = task_file2 t).
  { subst t1. destruct (pFd (task_file t)) eqn:Hfd; simpl; [done|].
    repeat split; done. }
  destruct Ht1 as (Hok1 & Hn1 & Hfd1 & Hp1 & Hf21).
  replace (negb ((if pFd (task_file t) then SQLITE_OK else rcOpenTemp flushOK) =? SQLITE_OK))
    with false by (by destruct (pFd (task_file t))).
  destruct (vdbeSorterSort_spec 0 t1 l Hok1 Hlen) as (r & out & Hs & He & Hst).
  rewrite Hs. simpl. rewrite Hn1, Hfd1, Hp1, Hf21.
  eexists r, out, _. repeat split; try done; apply Hst.
Qed.

(** *** One write *)

(** The record appended by a write, and what else a write changes. *)
Definition appended (s s' : VdbeSorter) (pVal : Mem) (before : list blob) : Prop :=
  pList (list_ s') = z pVal :: before /\
  aMemory (list_ s') = aMemory (list_ s) /\
  mnPmaSize s' = mnPmaSize s /\ mxPmaSize s' = mxPmaSize s /\
  pKeyInfo s' = pKeyInfo s /\ pMerger s' = pMerger s /\
  mxKeysize s' = Z.max (mxKeysize s) (Mem_n pVal + sqlite3VarintLen (Mem_n pVal)).

Lemma write_noflush (s : VdbeSorter) (pVal : Mem) (hnf : bool) :
  bFlush hnf s (Mem_n pVal + szSorterRecord) = false ->
  exists s',
    sqlite3VdbeSorterWrite (writeOK hnf) s pVal = Some (SQLITE_OK, s') /\
    appended s s' pVal (pList (list_ s)) /\
    aTask0 s' = aTask0 s /\ bUsePMA s' = bUsePMA s.
Proof.
  intros Hb. unfold sqlite3VdbeSorterWrite. simpl heapNearlyFull. rewrite Hb.
  cbv zeta. unfold appended.
  destruct (aMemory (list_ s)) eqn:Ham; simpl bAllocRecord; simpl negb;
    rewrite ?andb_false_r; cbv iota.
  - eexists. split; [reflexivity|]. simpl.
    repeat split; try done. destruct (Z.ltb_spec (mxKeysize s)
      (Mem_n pVal + sqlite3VarintLen (Mem_n pVal))); lia.
  - eexists. split; [reflexivity|]. simpl.
    repeat split; try done. destruct (Z.ltb_spec (mxKeysize s)
      (Mem_n pVal + sqlite3VarintLen (Mem_n pVal))); lia.
Qed.

Lemma write_flush (s : VdbeSorter) (pVal : Mem) (hnf : bool) :
  pKeyInfo s = K -> task_ok (aTask0 s) ->
  Z.of_nat (length (pList (list_ s))) < 2 ^ 64 ->
  bFlush hnf s (Mem_n pVal + szSorterRecord) = true ->
  exists s' r out iEof',
    sqlite3VdbeSorterWrite (writeOK hnf) s pVal = Some (SQLITE_OK, s') /\
    appended s s' pVal [] /\
    aTask0 s' =
      mkSortSubtask (Some r) (task_nPMA (aTask0 s) + 1)
        (mkSorterFile true iEof' (pmas (task_file (aTask0 s)) ++ [out]))
        (task_file2 (aTask0 s)) /\
    errCode r = 0 /\
    stable_sort_of (rev (pList (list_ s))) out /\
    bUsePMA s' = true.
Proof.
  intros HK Ht Hlen Hb. unfold sqlite3VdbeSorterWrite. simpl heapNearlyFull.
  rewrite Hb. unfold vdbeSorterFlushPMA. simpl wFlush. rewrite HK.
  destruct (vdbeSorterListToPMA_spec (aTask0 s) (list_ s) Ht Hlen)
    as (r & out & iEof' & Hl & He & Hst).
  rewrite Hl. cbv zeta. unfold appended, setFlushed. cbn -[Z.max Z.mul Z.add Z.ltb].
  destruct (aMemory (list_ s)) eqn:Ham; simpl negb; rewrite ?andb_false_r; cbv iota.
  - eexists _, r, out, iEof'. split; [reflexivity|]. cbn -[Z.max Z.mul Z.add Z.ltb].
    repeat split; try done; try apply Hst. destruct (Z.ltb_spec (mxKeysize s)
      (Mem_n pVal + sqlite3VarintLen (Mem_n pVal))); lia.
  - eexists _, r, out, iEof'. split; [reflexivity|]. cbn -[Z.max Z.mul Z.add Z.ltb].
    repeat split; try done; try apply Hst. destruct (Z.ltb_spec (mxKeysize s)
      (Mem_n pVal + sqlite3VarintLen (Mem_n pVal))); lia.
Qed.

(** The flush test, spelled out. *)
Definition flush_due (hnf : bool) (s : VdbeSorter) (pVal : Mem) : Prop :=
  mxPmaSize s <> 0 /\
  if aMemory (list_ s)
  then iMemory s <> 0 /\ mxPmaSize s < iMemory s + (Mem_n pVal + szSorterRecord)
  else mxPmaSize s < szPMA (list_ s) \/
       (mnPmaSize s < szPMA (list_ s) /\ hnf = true).

Lemma bFlush_due hnf s pVal :
  bFlush hnf s (Mem_n pVal + szSorterRecord) = true <-> flush_due hnf s pVal.
Proof.
  unfold bFlush, flush_due.
  destruct (aMemory (list_ s)), hnf;
    rewrite ?andb_true_iff, ?orb_true_iff, ?andb_true_iff, ?negb_true_iff,
      ?Z.eqb_neq, ?Z.ltb_lt; intuition congruence.
Qed.


(** C8, as amended: the sorter keeps no error code of its own.  From any
    state, so also after a write that failed, a write for which no flush is
    due appends its record and returns SQLITE_OK when its allocation
    succeeds.  The one code that sticks is the out-of-memory code of the
    comparison scratch record: an in-memory sort returns it again.  Reset
    runs to completion from any state and leaves the sorter empty, its
    files closed, and close leaves the cursor without a sorter. *)
Theorem C8_errors_are_not_sticky (s : VdbeSorter) :
  (forall pVal hnf,
     ~ flush_due hnf s pVal ->
     exists s',
       sqlite3VdbeSorterWrite (writeOK hnf) s pVal = Some (SQLITE_OK, s') /\
       pList (list_ s') = z pVal :: pList (list_ s)) /\
  (forall e t l,
     task_err e t -> Z.of_nat (length (pList l)) < 2 ^ 64 ->
     exists t' l', vdbeSorterSort flushOK K t l = Some (e, t', l')) /\
  (let s' := sqlite3VdbeSorterReset s in
   pList (list_ s') = [] /\ szPMA (list_ s') = 0 /\ iMemory s' = 0 /\
   bUsePMA s' = false /\ mxKeysize s' = 0 /\ pMerger s' = None /\
   pUnpacked s' = None /\ task_pUnpacked (aTask0 s') = None /\
   pFd (task_file (aTask0 s')) = false /\ pFd (task_file2 (aTask0 s')) = false) /\
  sqlite3VdbeSorterClose (Some s) = None.
Proof.
  split; [|split; [|split]].
  - intros pVal hnf Hn.
    destruct (write_noflush s pVal hnf) as (s' & Hw & Ha & _).
    + destruct (bFlush hnf s _) eqn:Hb; [|done].
      exfalso. apply Hn. by apply bFlush_due.
    + exists s'. split; [exact Hw|]. unfold appended in Ha. tauto.
  - intros e t l Ht Hlen.
    destruct (vdbeSorterSort_spec e t l Ht Hlen) as (r & out & Hs & _).
    eauto.
  - cbv zeta. simpl. repeat split.
    + by destruct (pFd (task_file (aTask0 s))) eqn:E.
    + by destruct (pFd (task_file2 (aTask0 s))) eqn:E.
  - reflexivity.
Qed.

(* --------------------------------------------------------------------- *)
(** ** Merging many sorted streams                                         *)
(* --------------------------------------------------------------------- *)

(** The stream a merge engine delivers, given the streams of its readers:
    the readers are merged from the left, ties to the lower index. *)
Definition kmerge (Ss : list (list blob)) : list blob := foldr merge [] Ss.

Lemma kmerge_cons s Ss : kmerge (s :: Ss) = merge s (kmerge Ss).
Proof. reflexivity. Qed.

Lemma kmerge_sorted Ss : Forall sorted Ss -> sorted (kmerge Ss).
Proof.
  induction 1 as [|s Ss Hs _ IH]; [constructor|].
  rewrite kmerge_cons. by apply merge_sorted.
Qed.

Lemma kmerge_filter x Ss :
  Forall sorted Ss -> List.filter (eqvb x) (kmerge Ss) = classes x Ss.
Proof.
  induction 1 as [|s Ss Hs _ IH]; [done|].
  rewrite kmerge_cons, merge_filter by done.
  unfold classes in *. cbn [map concat]. by rewrite IH.
Qed.

Lemma merge_head p1 p2 y l :
  merge p1 p2 = y :: l ->
  (exists l1, p1 = y :: l1) \/ (exists l2, p2 = y :: l2).
Proof.
  destruct p1 as [|a p1], p2 as [|b p2]; try (rewrite ?merge_nil_l, ?merge_nil_r);
    try discriminate; eauto.
  rewrite merge_cons. destruct (cmp a b <=? 0); intros [= <- <-]; eauto.
Qed.

Lemma kmerge_head Ss y l :
  kmerge Ss = y :: l -> exists j lj, Ss !! j = Some (y :: lj).
Proof.
  revert y l. induction Ss as [|s Ss IH]; intros y l; [discriminate|].
  rewrite kmerge_cons.
  intros Hm. apply merge_head in Hm as [[l1 ->]|[l2 Hk]].
  - by exists 0%nat, l1.
  - destruct (IH _ _ Hk) as (j & lj & Hj). by exists (S j), lj.
Qed.

(** One step of the merge: when reader [w] shows key [k], every reader
    before it shows a strictly greater key and every reader after it a
    key at least as great, the stream starts with [k] and goes on as the
    merge of the streams with reader [w] advanced. *)
Lemma kmerge_step : forall Ss (w : nat) k t,
  Ss !! w = Some (k :: t) ->
  (forall (j : nat) y l, Ss !! j = Some (y :: l) ->
     ((j < w)%nat -> cmp k y < 0) /\ ((w < j)%nat -> cmp k y <= 0)) ->
  kmerge Ss = k :: kmerge (<[w := t]> Ss).
Proof.
  induction Ss as [|s Ss IH]; intros w k t Hw Hall; [done|].
  destruct w as [|w]; simpl in Hw.
  - injection Hw as ->.
    change (<[0%nat:=t]> ((k :: t) :: Ss)) with (t :: Ss).
    rewrite !kmerge_cons.
    destruct (kmerge Ss) as [|y m] eqn:Hk; [by rewrite !merge_nil_r|].
    destruct (kmerge_head Ss y m Hk) as (j & lj & Hj).
    destruct (Hall (S j) y lj Hj) as [_ Hle].
    rewrite merge_cons.
    replace (cmp k y <=? 0) with true; [done|].
    symmetry. apply Z.leb_le. apply Hle. lia.
  - change (<[S w:=t]> (s :: Ss)) with (s :: <[w:=t]> Ss).
    rewrite !kmerge_cons. rewrite (IH w k t Hw).
    + destruct s as [|y0 l0]; [by rewrite !merge_nil_l|].
      rewrite merge_cons.
      destruct (Hall 0%nat y0 l0 eq_refl) as [Hlt _].
      specialize (Hlt ltac:(lia)).
      replace (cmp y0 k <=? 0) with false; [done|].
      symmetry. apply Z.leb_gt. by apply lt_gt.
    + intros j y l Hj. destruct (Hall (S j) y l Hj) as [H1 H2].
      split; intros; [apply H1|apply H2]; lia.
Qed.

(* --------------------------------------------------------------------- *)
(** ** The tournament tree                                                 *)
(* --------------------------------------------------------------------- *)

Section Tree.
Variable its : list PmaReader.
Variable N : nat.
Hypothesis HN : Nok N.
Hypothesis Hlen : length its = N.
Hypothesis Hkeyed : forall j, pFile (its !!! j) = true ->
                              aKey (its !!! j) = Some (curKey (its !!! j)).

Definition live (j : nat) : bool := pFile (its !!! j).
Definition keyOf (j : nat) : blob := curKey (its !!! j).

(** Reader [w] is served before reader [j]: [j] is at EOF, or [w] holds
    the smaller key, or an equal key and the lower index. *)
Definition beats (w j : nat) : Prop :=
  live j = false \/
  (live w = true /\
   (cmp (keyOf w) (keyOf j) < 0 \/
    (cmp (keyOf w) (keyOf j) = 0 /\ (w <= j)%nat))).

Lemma beats_refl w : beats w w.
Proof.
  unfold beats. destruct (live w) eqn:Hl; [right|by left].
  split; [done|]. right. split; [apply cmp_refl|lia].
Qed.

Lemma beats_trans a b c : beats a b -> beats b c -> beats a c.
Proof.
  unfold beats. intros Hab [Hc|[Hb Hbc]]; [by left|].
  destruct Hab as [Hb'|[Ha Hab]]; [congruence|].
  right. split; [done|].
  destruct Hab as [Hab|[Hab Hi1]], Hbc as [Hbc|[Hbc Hi2]].
  - left. eapply lt_le_trans; [done|]. lia.
  - left. eapply lt_le_trans; [done|]. lia.
  - left. eapply le_lt_trans; [|done]. lia.
  - right. split; [by eapply eqv_trans|lia].
Qed.

(** Reader [w] is the one to serve among the readers under position [v]. *)
Definition wins (v w : nat) : Prop :=
  (w < N)%nat /\ anc (N + w) v /\
  forall j, (j < N)%nat -> anc (N + j) v -> beats w j.

Definition tree_ok (tree : list nat) : Prop :=
  forall i, (1 <= i)%nat -> (i < N)%nat -> wins i (tree !!! i).

Lemma wins_leaf j : (j < N)%nat -> wins (N + j) j.
Proof.
  intros Hj. split; [done|]. split; [apply anc_refl|].
  intros j' Hj' Ha. rewrite (anc_leaf N j j' HN Hj Hj' Ha). apply beats_refl.
Qed.

Lemma wins_join i w1 w2 w :
  (1 <= i)%nat -> (i < N)%nat ->
  wins (2 * i) w1 -> wins (2 * i + 1) w2 ->
  w = w1 \/ w = w2 -> beats w w1 -> beats w w2 ->
  wins i w.
Proof.
  intros Hi1 Hi2 (Hw1 & Ha1 & Hb1) (Hw2 & Ha2 & Hb2) Hw Hbw1 Hbw2.
  assert (HwN : (w < N)%nat) by (destruct Hw; subst; done).
  split; [done|]. split.
  - apply (anc_split N w i HN HwN Hi2 Hi1). destruct Hw; subst; tauto.
  - intros j Hj Ha. apply (anc_split N j i HN Hj Hi2 Hi1) in Ha as [Ha|Ha].
    + eapply beats_trans; [exact Hbw1|]. by apply Hb1.
    + eapply beats_trans; [exact Hbw2|]. by apply Hb2.
Qed.

(** The scratch record is good for comparing against reader [i2]. *)
Definition cache_ok (pKey2 : option blob) (r2 : UnpackedRecord) (i2 : nat) : Prop :=
  live i2 = true ->
  pKey2 = Some (keyOf i2) \/ (pKey2 = None /\ holds r2 (keyOf i2)).

(** The comparison at one slot of the path, as vdbeSorterNext makes it. *)
Lemma next_compare (i1 i2 : nat) (pKey2 : option blob) (r2 : UnpackedRecord) :
  cache_ok pKey2 r2 i2 ->
  let p1 := its !!! i1 in
  let p2 := its !!! i2 in
  let res :=
    if negb (pFile p1) then (1, r2)
    else if negb (pFile p2) then (-1, r2)
    else vdbeSorterCompare K r2 (curKey p1) pKey2 (nKey (curKey p2)) in
  errCode res.2 = errCode r2 /\
  (if (res.1 <? 0) || ((res.1 =? 0) && (i1 <? i2)%nat)
   then beats i1 i2
   else beats i2 i1 /\
        cache_ok (if pFile p1 then None else pKey2) res.2 i2).
Proof.
  intros Hc. cbv zeta. unfold cache_ok, beats, live, keyOf in *.
  destruct (pFile (its !!! i1)) eqn:Hp1; simpl negb; cbv iota.
  - destruct (pFile (its !!! i2)) eqn:Hp2; simpl negb; cbv iota.
    + unfold vdbeSorterCompare.
      set (r2' := match pKey2 with Some k2 => _ | None => r2 end).
      assert (Hh : holds r2' (curKey (its !!! i2)) /\ errCode r2' = errCode r2).
      { subst r2'. destruct (Hc eq_refl) as [->|[-> Hh]]; [|done].
        split; [apply holds_unpack|apply host_err]. }
      destruct Hh as [Hh He]. cbn [fst snd]. rewrite (Hh _). split; [done|].
      set (c := cmp (curKey (its !!! i1)) (curKey (its !!! i2))).
      pose proof (cmp_antisym (curKey (its !!! i1)) (curKey (its !!! i2))) as Has.
      fold c in Has.
      destruct (c <? 0) eqn:Hlt; simpl orb.
      * apply Z.ltb_lt in Hlt. right. split; [done|]. by left.
      * apply Z.ltb_ge in Hlt.
        destruct (c =? 0) eqn:Heq; simpl andb.
        -- apply Z.eqb_eq in Heq.
           destruct (i1 <? i2)%nat eqn:Hi.
           ++ apply Nat.ltb_lt in Hi. right. split; [done|]. right. split; [done|lia].
           ++ apply Nat.ltb_ge in Hi. split; [|by intros _; right].
              right. split; [done|]. right. split; [lia|done].
        -- apply Z.eqb_neq in Heq. split; [|by intros _; right].
           right. split; [done|]. left. lia.
    + cbn [fst snd]. split; [done|]. simpl. by left.
  - cbn [fst snd]. split; [done|]. simpl. split; [by left|done].
Qed.

Lemma next_loop_spec : forall (fuel i i1 i2 : nat) pKey2 r2 tree,
  (i <= fuel)%nat -> (i < N)%nat -> length tree = N ->
  (i = 0%nat \/
   (wins (2 * i) i1 /\ wins (2 * i + 1) i2) \/
   (wins (2 * i) i2 /\ wins (2 * i + 1) i1)) ->
  cache_ok pKey2 r2 i2 ->
  (forall i', (1 <= i')%nat -> (i' < N)%nat -> ~ anc i i' -> wins i' (tree !!! i')) ->
  exists tree' r2',
    next_loop fuel K its i i1 i2 pKey2 r2 tree = (tree', r2') /\
    errCode r2' = errCode r2 /\ length tree' = N /\ tree_ok tree'.
Proof.
  induction fuel as [|fuel IH]; intros i i1 i2 pKey2 r2 tree Hfuel HiN Hlt Hw Hc Hrest.
  - assert (i = 0%nat) by lia. subst i. exists tree, r2. simpl.
    split; [done|]. split; [done|]. split; [done|].
    intros i' Hi1 Hi2. apply Hrest; try done.
    by apply (anc_zero N).
  - cbn [next_loop]. destruct (i =? 0)%nat eqn:Hi0.
    { apply Nat.eqb_eq in Hi0. subst i. exists tree, r2.
      split; [done|]. split; [done|]. split; [done|].
      intros i' Hi1 Hi2. apply Hrest; try done.
      by apply (anc_zero N). }
    apply Nat.eqb_neq in Hi0. destruct Hw as [?|Hw]; [done|].
    pose proof (next_compare i1 i2 pKey2 r2 Hc) as Hcmp. cbv zeta in Hcmp.
    match type of Hcmp with
    | errCode (?t).2 = _ /\ _ => destruct t as [iRes r2'] eqn:Hres
    end.
    cbn [fst snd] in Hcmp. destruct Hcmp as [He Hb].
    assert (Hwi1 : (i1 < N)%nat) by (destruct Hw as [[[? _] _]|[_ [? _]]]; done).
    assert (Hwi2 : (i2 < N)%nat) by (destruct Hw as [[_ [? _]]|[[? _] _]]; done).
    (* the slot written, and the rest of the tree *)
    assert (Hstep : forall w,
      (w = i1 \/ w = i2) -> beats w i1 -> beats w i2 ->
      wins i w /\
      forall i', (1 <= i')%nat -> (i' < N)%nat -> ~ anc (i / 2) i' ->
                 wins i' (<[i := w]> tree !!! i')).
    { intros w Hww Hb1 Hb2.
      assert (Hwin : wins i w).
      { destruct Hw as [[Hl Hr]|[Hl Hr]].
        - apply (wins_join i i1 i2 w); try done; try lia.
        - apply (wins_join i i2 i1 w); try done; try lia; tauto. }
      split; [done|]. intros i' Hi1 Hi2 Hna.
      destruct (decide (i' = i)) as [->|Hne].
      - rewrite list_lookup_total_insert_eq by lia. done.
      - rewrite list_lookup_total_insert_ne by done. apply Hrest; try done.
        intros Ha. apply (anc_up N i i' HN HiN Hi2 Hi1) in Ha as [?|?]; done. }
    assert (Hnext : forall w i1' i2',
      wins i w ->
      ((i1' = w /\ i2' = <[i := w]> tree !!! Nat.lxor i 1) \/
       (i2' = w /\ i1' = <[i := w]> tree !!! Nat.lxor i 1)) ->
      (i / 2)%nat = 0%nat \/
      (wins (2 * (i / 2)) i1' /\ wins (2 * (i / 2) + 1) i2') \/
      (wins (2 * (i / 2)) i2' /\ wins (2 * (i / 2) + 1) i1')).
    { intros w i1' i2' Hwin Hsel.
      destruct (decide (i = 1%nat)) as [->|Hi1]; [by left|]. right.
      assert (Hi2 : (2 <= i)%nat) by lia.
      destruct (tree_sibling N i HN HiN Hi2) as (Hs1 & Hs2 & Hs3 & Hs4 & Hs5).
      assert (Hsb : wins (Nat.lxor i 1) (<[i := w]> tree !!! Nat.lxor i 1)).
      { rewrite list_lookup_total_insert_ne by lia.
        apply Hrest; [lia|done|]. by apply (anc_sibling N). }
      destruct Hs5 as [[E1 E2]|[E1 E2]]; rewrite E2 in Hsb at 1.
      - assert (HA : wins (2 * (i / 2)) w) by (rewrite <- E1; exact Hwin).
        destruct Hsel as [[-> ->]|[-> ->]]; tauto.
      - assert (HB : wins (2 * (i / 2) + 1) w) by (rewrite <- E1; exact Hwin).
        destruct Hsel as [[-> ->]|[-> ->]]; tauto. }
    assert (Hd1 : (i / 2 <= fuel)%nat).
    { assert (i / 2 < i)%nat by (apply Nat.div_lt; lia). lia. }
    assert (Hd2 : (i / 2 < N)%nat).
    { assert (i / 2 <= i)%nat by (apply Nat.Div0.div_le_upper_bound; lia). lia. }
    destruct ((iRes <? 0) || ((iRes =? 0) && (i1 <? i2)%nat)) eqn:Hbr.
    + destruct (Hstep i1 (or_introl eq_refl) (beats_refl i1) Hb) as [Hwin Hrest'].
      set (tree' := <[i := i1]> tree) in *.
      destruct (IH (i / 2)%nat i1 (tree' !!! Nat.lxor i 1)
                  (aKey (its !!! (tree' !!! Nat.lxor i 1))) r2' tree')
        as (t' & rr & Hl' & He' & Hlen' & Hok'); try done.
      * subst tree'. by rewrite length_insert.
      * eapply Hnext; [exact Hwin|]. left. done.
      * intros Hl. left. unfold live, keyOf in *. by apply Hkeyed.
      * exists t', rr. split; [done|]. split; [congruence|done].
    + destruct Hb as [Hb Hc'].
      destruct (Hstep i2 (or_intror eq_refl) Hb (beats_refl i2)) as [Hwin Hrest'].
      set (tree' := <[i := i2]> tree) in *.
      destruct (IH (i / 2)%nat (tree' !!! Nat.lxor i 1) i2
                  (if pFile (its !!! i1) then None else pKey2) r2' tree')
        as (t' & rr & Hl' & He' & Hlen' & Hok'); try done.
      * subst tree'. by rewrite length_insert.
      * eapply Hnext; [exact Hwin|]. right. done.
      * exists t', rr. split; [done|]. split; [congruence|done].
Qed.

(** The comparison that fills slot [iOut] when the tree is first built,
    as vdbeSorterDoCompare makes it. *)
Lemma doCompare_spec (tree : list nat) (r2 : UnpackedRecord) (iOut : nat) :
  (1 <= iOut)%nat -> (iOut < N)%nat -> length tree = N ->
  (forall i', (iOut < i')%nat -> (i' < N)%nat -> wins i' (tree !!! i')) ->
  exists tree' r2',
    vdbeSorterDoCompare K r2 (mkMergeEngine N tree its) iOut =
      (mkMergeEngine N tree' its, r2') /\
    errCode r2' = errCode r2 /\ length tree' = N /\
    (forall i', (iOut <= i')%nat -> (i' < N)%nat -> wins i' (tree' !!! i')).
Proof.
  intros Hi1 HiN Hlt Hrest.
  unfold vdbeSorterDoCompare. cbn [nTree aTree aIter].
  assert (Hpair : exists i1 i2,
     (if (N / 2 <=? iOut)%nat
      then (((iOut - N / 2) * 2)%nat, ((iOut - N / 2) * 2 + 1)%nat)
      else (tree !!! (iOut * 2)%nat, tree !!! (iOut * 2 + 1)%nat)) = (i1, i2) /\
     wins (2 * iOut) i1 /\ wins (2 * iOut + 1) i2).
  { destruct (tree_children N iOut HN HiN Hi1) as [Hleaf Hinner].
    destruct (N / 2 <=? iOut)%nat eqn:Hh.
    - apply Nat.leb_le in Hh. destruct (Hleaf Hh) as [E1 E2].
      eexists _, _. split; [reflexivity|]. split.
      + rewrite <- E1. apply wins_leaf. lia.
      + replace (2 * iOut + 1)%nat with (N + ((iOut - N / 2) * 2 + 1))%nat by lia.
        by apply wins_leaf.
    - apply Nat.leb_gt in Hh. specialize (Hinner Hh).
      eexists _, _. split; [reflexivity|].
      rewrite !(Nat.mul_comm iOut 2). split; apply Hrest; lia. }
  destruct Hpair as (i1 & i2 & -> & Hw1 & Hw2).
  assert (Hord : (i1 < i2)%nat).
  { destruct Hw1 as (Hn1 & Ha1 & _), Hw2 as (Hn2 & Ha2 & _).
    by apply (anc_order N iOut i1 i2). }
  assert (Hsel : exists iRes r2',
     (if negb (pFile (its !!! i1)) then (i2, r2)
      else if negb (pFile (its !!! i2)) then (i1, r2)
      else
        let '(res, r) :=
          vdbeSorterCompare K r2 (curKey (its !!! i1)) (aKey (its !!! i2))
            (nKey (curKey (its !!! i2))) in
        (if res <=? 0 then i1 else i2, r)) = (iRes, r2') /\
     errCode r2' = errCode r2 /\ (iRes = i1 \/ iRes = i2) /\
     beats iRes i1 /\ beats iRes i2).
  { destruct (pFile (its !!! i1)) eqn:Hp1; simpl negb; cbv iota.
    - destruct (pFile (its !!! i2)) eqn:Hp2; simpl negb; cbv iota.
      + unfold vdbeSorterCompare. rewrite (Hkeyed i2 Hp2).
        rewrite host_cmp.
        set (c := cmp (curKey (its !!! i1)) (curKey (its !!! i2))).
        destruct (c <=? 0) eqn:Hc.
        * apply Z.leb_le in Hc. eexists _, _. split; [reflexivity|].
          split; [apply host_err|]. split; [by left|].
          split; [apply beats_refl|]. right. split; [done|].
          unfold keyOf. fold c. lia.
        * apply Z.leb_gt in Hc. eexists _, _. split; [reflexivity|].
          split; [apply host_err|]. split; [by right|].
          split; [|apply beats_refl]. right. split; [done|]. left.
          unfold keyOf. by apply gt_le.
      + eexists _, _. split; [reflexivity|]. split; [done|]. split; [by left|].
        split; [apply beats_refl|]. by left.
    - eexists _, _. split; [reflexivity|]. split; [done|]. split; [by right|].
      split; [by left|apply beats_refl]. }
  destruct Hsel as (iRes & r2' & -> & He & Hsel & Hb1 & Hb2).
  exists (<[iOut := iRes]> tree), r2'.
  split; [done|]. split; [done|]. split; [by rewrite length_insert|].
  intros i' Hi' Hi'N. destruct (decide (i' = iOut)) as [->|Hne].
  - rewrite list_lookup_total_insert_eq by lia.
    by apply (wins_join iOut i1 i2 iRes).
  - rewrite list_lookup_total_insert_ne by done. apply Hrest; lia.
Qed.

Lemma init_tree_spec : forall (i : nat) (tree : list nat) (r2 : UnpackedRecord),
  (i < N)%nat -> length tree = N ->
  (forall i', (i < i')%nat -> (i' < N)%nat -> wins i' (tree !!! i')) ->
  exists tree' r2',
    init_tree K r2 (mkMergeEngine N tree its) i = (mkMergeEngine N tree' its, r2') /\
    errCode r2' = errCode r2 /\ length tree' = N /\ tree_ok tree'.
Proof.
  induction i as [|i IH]; intros tree r2 HiN Hlt Hrest.
  - exists tree, r2. simpl. split; [done|]. split; [done|]. split; [done|].
    intros i' Hi1 Hi2. apply Hrest; lia.
  - cbn [init_tree].
    destruct (doCompare_spec tree r2 (S i)) as (tree1 & r1 & Hd & He1 & Hl1 & Hw1);
      try done; try lia.
    rewrite Hd.
    assert (Hr1 : forall i', (i < i')%nat -> (i' < N)%nat -> wins i' (tree1 !!! i')).
    { intros i' Hi' Hi'N. apply Hw1; lia. }
    destruct (IH tree1 r1 ltac:(lia) Hl1 Hr1) as (tree2 & r2' & Hi & He2 & Hl2 & Hok).
    exists tree2, r2'. split; [done|]. split; [congruence|done].
Qed.

(** The engine is at its end exactly when the reader at the root is. *)
Lemma root_dead (w : nat) :
  wins 1 w -> live w = false -> forall j, (j < N)%nat -> live j = false.
Proof.
  intros (_ & _ & Hb) Hw j Hj.
  destruct (Hb j Hj (anc_root N j HN Hj)) as [|[Hl _]]; [done|congruence].
Qed.

Lemma root_first (w : nat) :
  wins 1 w -> live w = true -> forall j, (j < N)%nat -> live j = true ->
  ((j < w)%nat -> cmp (keyOf w) (keyOf j) < 0) /\
  ((w < j)%nat -> cmp (keyOf w) (keyOf j) <= 0).
Proof.
  intros (_ & _ & Hb) Hw j Hj Hlj.
  destruct (Hb j Hj (anc_root N j HN Hj)) as [|[_ Hc]]; [congruence|].
  split; intros; lia.
Qed.

End Tree.

(** A winner stays the winner when no reader under its slot changes. *)
Lemma wins_ext (its its' : list PmaReader) (N v w : nat) :
  (forall j, (j < N)%nat -> anc (N + j) v -> its' !!! j = its !!! j) ->
  wins its N v w -> wins its' N v w.
Proof.
  intros Hsame (Hw & Ha & Hb). split; [done|]. split; [done|].
  intros j Hj Haj. specialize (Hb j Hj Haj).
  unfold beats, live, keyOf in *.
  by rewrite (Hsame w Hw Ha), (Hsame j Hj Haj).
Qed.


(* --------------------------------------------------------------------- *)
(** ** One level of the merge tree                                         *)
(* --------------------------------------------------------------------- *)

(** A key fits the buffer of an incremental merger of size [mx]. *)
Definition fits (mx : Z) (k : blob) : Prop :=
  nKey k + sqlite3VarintLen (nKey k) <= mx.

Lemma pma_bytes_nonneg l : 0 <= pma_bytes l.
Proof.
  induction l as [|k l IH]; simpl; [lia|].
  pose proof (varint_pos (nKey k)). unfold nKey in *. lia.
Qed.

Lemma pma_bytes_pos k l : 1 <= pma_bytes (k :: l).
Proof.
  pose proof (pma_bytes_nonneg l). simpl.
  pose proof (varint_pos (nKey k)). unfold nKey in *. lia.
Qed.

Lemma kmerge_nil Ss : Forall (fun s => s = []) Ss -> kmerge Ss = [].
Proof.
  induction 1 as [|s Ss -> _ IH]; [done|]. by rewrite kmerge_cons, IH.
Qed.

(** What advancing an engine does, in terms of an invariant [inv] of the
    engines and of the stream [stream] an engine has still to deliver:
    when the reader at the root is at its end the stream is empty;
    otherwise that reader shows the first key of the stream, and the
    advance succeeds, keeps the invariant and leaves the rest of the
    stream, reporting the end by the state of the new root reader. *)
Definition next_spec
    (next : KeyInfo -> UnpackedRecord -> MergeEngine ->
            option (Z * UnpackedRecord * MergeEngine * bool))
    (inv : MergeEngine -> Prop) (stream : MergeEngine -> list blob) : Prop :=
  forall r2 m, errCode r2 = 0 -> inv m ->
    let r := aIter m !!! (aTree m !!! 1%nat) in
    if pFile r then
      aKey r = Some (curKey r) /\
      exists r2' m',
        next K r2 m =
          Some (SQLITE_OK, r2', m',
                negb (pFile (aIter m' !!! (aTree m' !!! 1%nat)))) /\
        errCode r2' = 0 /\ inv m' /\ stream m = curKey r :: stream m'
    else stream m = [].

(** What initialising a freshly built engine does, in terms of an
    invariant [binv] of built engines and of the stream [bstream] they
    stand for: it succeeds and leaves a running engine that delivers
    that stream. *)
Definition init_spec
    (init : KeyInfo -> UnpackedRecord -> SorterFile -> MergeEngine ->
            option (Z * UnpackedRecord * SorterFile * MergeEngine))
    (binv : MergeEngine -> Prop) (bstream : MergeEngine -> list blob)
    (inv : MergeEngine -> Prop) (stream : MergeEngine -> list blob) : Prop :=
  forall r2 f2 m, errCode r2 = 0 -> binv m ->
    exists r2' f2' m',
      init K r2 f2 m = Some (SQLITE_OK, r2', f2', m') /\
      errCode r2' = 0 /\ inv m' /\ stream m' = bstream m.

(** The keys of a reader over a PMA of the level-0 file. *)
Definition rstream0 (r : PmaReader) : list blob :=
  if pFile r then curKey r :: rd_rest r else [].

Section LevelSpec.
Variable next_below :
  KeyInfo -> UnpackedRecord -> MergeEngine ->
  option (Z * UnpackedRecord * MergeEngine * bool).
Variable inv_below : MergeEngine -> Prop.
Variable stream_below : MergeEngine -> list blob.
Hypothesis Hbelow : next_spec next_below inv_below stream_below.

(** The keys a reader has still to deliver: its current key, the rest of
    its buffer, then what the engine below it has left. *)
Definition rstream (r : PmaReader) : list blob :=
  if pFile r then
    curKey r :: rd_rest r ++
      match pIncr r with
      | Some inc => stream_below (im_pMerger inc)
      | None => []
      end
  else [].

Definition rinv (r : PmaReader) : Prop :=
  (pFile r = true -> aKey r = Some (curKey r)) /\
  match pIncr r with
  | None => True
  | Some inc =>
      bEof inc = false /\ inv_below (im_pMerger inc) /\
      Forall (fits (mxSz inc)) (stream_below (im_pMerger inc))
  end.

Definition estream_lv (m : MergeEngine) : list blob :=
  kmerge (map rstream (aIter m)).

Definition einv_lv (m : MergeEngine) : Prop :=
  Nok (nTree m) /\ length (aIter m) = nTree m /\ length (aTree m) = nTree m /\
  tree_ok (aIter m) (nTree m) (aTree m) /\ Forall rinv (aIter m).

(** vdbeIncrPopulate takes keys from the engine below while they fit in
    what is left of the buffer; a buffer of [mx] bytes is filled in at
    most [mx] steps, and a first key that fits is always taken. *)
Lemma populate_spec : forall fuel r2 m iStart mx iEofW out,
  errCode r2 = 0 -> inv_below m -> Forall (fits mx) (stream_below m) ->
  iStart <= iEofW ->
  (Z.to_nat (iStart + mx - iEofW) < fuel)%nat ->
  exists r2' m' taken,
    populate_loop next_below fuel K r2 m iStart mx iEofW out =
      Some (SQLITE_OK, r2', m', iEofW + pma_bytes taken, out ++ taken) /\
    errCode r2' = 0 /\ inv_below m' /\
    stream_below m = taken ++ stream_below m' /\
    (iEofW = iStart -> taken = [] -> stream_below m = []).
Proof.
  induction fuel as [|fuel IH]; intros r2 m iStart mx iEofW out He Hinv Hfit Hs Hfuel;
    [lia|].
  cbn [populate_loop].
  pose proof (Hbelow r2 m He Hinv) as Hb. cbv zeta in Hb.
  destruct (pFile (aIter m !!! (aTree m !!! 1%nat))) eqn:Hp; simpl negb; cbv iota.
  - destruct Hb as (Hk & r2' & m' & Hn & He' & Hinv' & Hst).
    set (k := curKey (aIter m !!! (aTree m !!! 1%nat))) in *.
    assert (Hkfit : fits mx k).
    { rewrite Hst in Hfit. by inversion Hfit. }
    unfold fits in Hkfit. pose proof (varint_pos (nKey k)) as Hv.
    assert (Hnk : 0 <= nKey k) by (unfold nKey; lia).
    destruct (iStart + mx <? iEofW + nKey k + sqlite3VarintLen (nKey k)) eqn:Hchk.
    + apply Z.ltb_lt in Hchk.
      exists r2, m, []. rewrite app_nil_r. simpl pma_bytes. rewrite Z.add_0_r.
      split; [done|]. split; [done|]. split; [done|]. split; [done|].
      intros -> _. lia.
    + apply Z.ltb_ge in Hchk. rewrite Hn. rewrite Z.eqb_refl.
      destruct (IH r2' m' iStart mx (iEofW + sqlite3VarintLen (nKey k) + nKey k)
                  (out ++ [k])) as (r2'' & m'' & taken & Hl & He'' & Hinv'' & Hst' & _);
        try done; try lia.
      { rewrite Hst in Hfit. by inversion Hfit. }
      exists r2'', m'', (k :: taken). rewrite Hl.
      split.
      { f_equal. f_equal; [|by rewrite <- app_assoc]. f_equal. simpl. lia. }
      split; [done|]. split; [done|]. split; [by rewrite Hst, Hst'|].
      intros _ Hx. discriminate Hx.
  - exists r2, m, []. rewrite app_nil_r. simpl pma_bytes. rewrite Z.add_0_r.
    split; [done|]. split; [done|]. split; [done|]. split; [by rewrite Hb|].
    by intros _ _.
Qed.

Lemma rinv_zero : rinv zeroReader.
Proof. split; [discriminate|done]. Qed.

(** A reader that is out of buffered keys refills from the engine below. *)
Lemma reader_start r2 (r : PmaReader) (inc : IncrMerger) :
  errCode r2 = 0 -> rd_rest r = [] -> pIncr r = Some inc ->
  bEof inc = false -> inv_below (im_pMerger inc) ->
  Forall (fits (mxSz inc)) (stream_below (im_pMerger inc)) ->
  exists r2' r',
    vdbePmaReaderNext next_below K r2 r = Some (SQLITE_OK, r2', r') /\
    errCode r2' = 0 /\ rinv r' /\ rstream r' = stream_below (im_pMerger inc).
Proof.
  intros He Hrest Hinc Heof Hinv Hfit.
  unfold vdbePmaReaderNext, vdbeIncrSwap, vdbeIncrPopulate. rewrite Hrest, Hinc.
  destruct (populate_spec (S (Z.to_nat (mxSz inc))) r2 (im_pMerger inc)
              (iStartOff inc) (mxSz inc) (iStartOff inc) [])
    as (r2' & m' & taken & Hl & He' & Hinv' & Hst & Hempty); try done; try lia.
  rewrite Hl. rewrite app_nil_l.
  destruct taken as [|k t].
  - simpl pma_bytes. rewrite Z.add_0_r, !Z.eqb_refl. cbn.
    exists r2', zeroReader. split; [done|]. split; [done|].
    split; [apply rinv_zero|]. by rewrite (Hempty eq_refl eq_refl).
  - pose proof (pma_bytes_pos k t) as Hpos.
    replace (iStartOff inc + pma_bytes (k :: t) =? iStartOff inc) with false
      by (symmetry; apply Z.eqb_neq; lia).
    rewrite Heof. cbn.
    eexists r2', _. split; [reflexivity|]. split; [done|]. split.
    + split; [done|]. cbn. split; [done|]. split; [done|].
      rewrite Hst in Hfit. apply Forall_app in Hfit. tauto.
    + unfold rstream. cbn. by rewrite Hst.
Qed.

(** vdbePmaReaderNext on a reader that shows a key. *)
Lemma reader_next r2 (r : PmaReader) :
  errCode r2 = 0 -> rinv r -> pFile r = true ->
  exists r2' r',
    vdbePmaReaderNext next_below K r2 r = Some (SQLITE_OK, r2', r') /\
    errCode r2' = 0 /\ rinv r' /\ rstream r = curKey r :: rstream r'.
Proof.
  intros He [Hk Hi] Hp.
  destruct (rd_rest r) as [|k rest] eqn:Hrest.
  - destruct (pIncr r) as [inc|] eqn:Hinc.
    + destruct Hi as (Heof & Hinv & Hfit).
      destruct (reader_start r2 r inc) as (r2' & r' & Hn & He' & Hr' & Hs); try done.
      exists r2', r'. split; [done|]. split; [done|]. split; [done|].
      unfold rstream at 1. by rewrite Hp, Hrest, Hinc, Hs.
    + unfold vdbePmaReaderNext. rewrite Hrest, Hinc.
      exists r2, zeroReader. split; [done|]. split; [done|].
      split; [apply rinv_zero|].
      unfold rstream. by rewrite Hp, Hrest, Hinc.
  - unfold vdbePmaReaderNext, readNextKey. rewrite Hrest.
    eexists r2, _. split; [reflexivity|]. split; [done|]. split.
    + split; [done|]. done.
    + unfold rstream. cbn. by rewrite Hp, Hrest.
Qed.

Lemma rstream_cons (r : PmaReader) y l :
  rstream r = y :: l -> pFile r = true /\ y = curKey r.
Proof.
  unfold rstream. destruct (pFile r); [|discriminate]. by intros [= <- _].
Qed.

(** vdbeSorterNext on the engines of this level. *)
Lemma next_level_spec :
  next_spec (vdbeSorterNext_level next_below) einv_lv estream_lv.
Proof.
  intros r2 m He (HN & Hli & Hlt & Hok & Hr). cbv zeta.
  set (N := nTree m) in *. set (its := aIter m) in *. set (tree := aTree m) in *.
  set (w := tree !!! 1%nat).
  assert (HN2 : (2 <= N)%nat) by (apply Nok_bounds in HN; lia).
  assert (Hw : wins its N 1 w) by (apply Hok; lia).
  assert (HwN : (w < N)%nat) by apply Hw.
  assert (Hkeyed : forall j, pFile (its !!! j) = true ->
                             aKey (its !!! j) = Some (curKey (its !!! j))).
  { intros j Hp. destruct (decide (j < N)%nat) as [Hj|Hj].
    - apply (Forall_lookup_total_1 _ _ j) in Hr; [|lia]. by apply Hr.
    - rewrite list_lookup_total_alt, lookup_ge_None_2 in Hp by lia. done. }
  destruct (pFile (its !!! w)) eqn:Hp.
  - split; [by apply Hkeyed|].
    assert (Hrw : rinv (its !!! w)) by (apply Forall_lookup_total_1; [done|lia]).
    destruct (reader_next r2 (its !!! w) He Hrw Hp) as (r2a & rd & Hn & Hea & Hrd & Hs).
    unfold vdbeSorterNext_level. fold its tree N w. rewrite Hn, Z.eqb_refl.
    set (its' := <[w := rd]> its).
    assert (Hli' : length its' = N) by (subst its'; by rewrite length_insert).
    assert (Hr' : Forall rinv its') by (by apply Forall_insert).
    assert (Hkeyed' : forall j, pFile (its' !!! j) = true ->
                                aKey (its' !!! j) = Some (curKey (its' !!! j))).
    { intros j Hpj. destruct (decide (j < N)%nat) as [Hj|Hj].
      - apply (Forall_lookup_total_1 _ _ j) in Hr'; [|lia]. by apply Hr'.
      - rewrite list_lookup_total_alt, lookup_ge_None_2 in Hpj by lia. done. }
    destruct (tree_leaf_pair N w HN HwN) as (Hi1 & Hi2 & _ & Hl1 & Hl2 & E1 & E2 & _).
    cbv zeta in Hl1, Hl2, E1, E2, Hi1, Hi2.
    set (i := ((N + w) / 2)%nat) in *.
    set (i1 := Z.to_nat (Z.land (Z.of_nat w) 65534)) in *.
    set (i2 := Z.to_nat (Z.lor (Z.of_nat w) 1)) in *.
    destruct (next_loop_spec its' N HN Hli' Hkeyed' i i i1 i2
                (aKey (its' !!! i2)) r2a tree) as (tree' & r2b & Hl & Heb & Hlt' & Hok');
      try done.
    { right. left. rewrite <- E2, <- E1. split; by apply wins_leaf. }
    { intros Hlive. left. by apply Hkeyed'. }
    { intros i' Hi'1 Hi'N Hna. apply (wins_ext its); [|by apply Hok].
      intros j Hj Ha. subst its'. apply list_lookup_total_insert_ne.
      intros <-. apply Hna. by apply (anc_path N w i'). }
    rewrite Hl. exists r2b, (mkMergeEngine N tree' its').
    split; [cbn; by rewrite Heb, Hea|].
    split; [congruence|]. split; [done|].
    unfold estream_lv. cbn [aIter]. fold its. subst its'.
    rewrite list_fmap_insert. apply kmerge_step.
    + rewrite list_lookup_fmap, list_lookup_lookup_total_lt by lia. cbn. by rewrite Hs.
    + intros j y l Hj. rewrite list_lookup_fmap in Hj.
      destruct (its !! j) as [rj|] eqn:Hrj; [|done]. cbn in Hj. injection Hj as Hj.
      assert (HjN : (j < N)%nat) by (apply lookup_lt_Some in Hrj; lia).
      apply list_lookup_total_correct in Hrj. subst rj.
      apply rstream_cons in Hj as [Hpj ->].
      by apply (root_first its N HN Hli w Hw Hp j HjN).
  - unfold estream_lv. fold its. apply kmerge_nil.
    apply Forall_fmap, Forall_lookup. intros j rj Hj. cbn.
    assert (HjN : (j < N)%nat) by (apply lookup_lt_Some in Hj; lia).
    apply list_lookup_total_correct in Hj. subst rj.
    pose proof (root_dead its N HN w Hw Hp j HjN) as Hd.
    unfold live in Hd. unfold rstream. by rewrite Hd.
Qed.

(** *** Initialisation of the engines of this level *)
Variable init_below :
  KeyInfo -> UnpackedRecord -> SorterFile -> MergeEngine ->
  option (Z * UnpackedRecord * SorterFile * MergeEngine).
Variable binv_below : MergeEngine -> Prop.
Variable bstream_below : MergeEngine -> list blob.
Hypothesis Hinit :
  init_spec init_below binv_below bstream_below inv_below stream_below.

(** The stream a reader of a built engine stands for: the PMA it was
    opened on, or the stream of the engine hung below it. *)
Definition brstream (r : PmaReader) : list blob :=
  match pIncr r with
  | Some inc => bstream_below (im_pMerger inc)
  | None => rstream0 r
  end.

Definition rbinv (r : PmaReader) : Prop :=
  match pIncr r with
  | None => pFile r = true -> aKey r = Some (curKey r)
  | Some inc =>
      rd_rest r = [] /\ bEof inc = false /\ binv_below (im_pMerger inc) /\
      Forall (fits (mxSz inc)) (bstream_below (im_pMerger inc))
  end.

Definition bstream_lv (m : MergeEngine) : list blob :=
  kmerge (map brstream (aIter m)).

Definition binv_lv (m : MergeEngine) : Prop :=
  Nok (nTree m) /\ length (aIter m) = nTree m /\ length (aTree m) = nTree m /\
  Forall rbinv (aIter m).

Lemma readerIncrInit_spec r2 f2 (r : PmaReader) :
  errCode r2 = 0 -> rbinv r ->
  exists r2' f2' r',
    vdbePmaReaderIncrInit next_below init_below K r2 f2 r =
      Some (SQLITE_OK, r2', f2', r') /\
    errCode r2' = 0 /\ rinv r' /\ rstream r' = brstream r.
Proof.
  intros He Hr. unfold vdbePmaReaderIncrInit, rbinv, brstream in *.
  destruct (pIncr r) as [inc|] eqn:Hinc.
  - destruct Hr as (Hrest & Heof & Hb & Hfit).
    destruct (Hinit r2 f2 (im_pMerger inc) He Hb) as (r2a & f2a & m' & Hi & Hea & Hinv & Hst).
    rewrite Hi, Z.eqb_refl. cbv zeta.
    match goal with
    | |- context [vdbePmaReaderNext _ _ _ (mkPmaReader ?a ?b ?c (Some ?i))] =>
        destruct (reader_start r2a (mkPmaReader a b c (Some i)) i)
          as (r2b & r' & Hn & Heb & Hr' & Hs); try done
    end.
    { cbn. by rewrite Hst. }
    rewrite Hn. eexists r2b, _, r'. split; [reflexivity|].
    split; [done|]. split; [done|]. cbn in Hs. by rewrite Hs.
  - exists r2, f2, r. split; [done|]. split; [done|]. split.
    + split; [done|]. by rewrite Hinc.
    + unfold rstream, rstream0. rewrite Hinc. by rewrite app_nil_r.
Qed.

Lemma init_readers_spec : forall todo done r2 f2,
  errCode r2 = 0 -> Forall rbinv todo ->
  exists r2' f2' its',
    init_readers next_below init_below K r2 f2 todo done =
      Some (SQLITE_OK, r2', f2', done ++ its') /\
    errCode r2' = 0 /\ Forall rinv its' /\ map rstream its' = map brstream todo.
Proof.
  induction todo as [|p todo IH]; intros done r2 f2 He Hall.
  - exists r2, f2, []. rewrite app_nil_r. by repeat split.
  - inversion Hall as [|? ? Hp Hrest]; subst. cbn [init_readers].
    destruct (readerIncrInit_spec r2 f2 p He Hp) as (r2a & f2a & p' & Hi & Hea & Hp' & Hs).
    rewrite Hi, Z.eqb_refl.
    destruct (IH (done ++ [p']) r2a f2a Hea Hrest) as (r2b & f2b & its' & Hl & Heb & Hr' & Hm).
    rewrite Hl. exists r2b, f2b, (p' :: its'). rewrite <- app_assoc.
    split; [done|]. split; [done|]. split; [by constructor|].
    cbn [map]. by rewrite Hs, Hm.
Qed.

(** vdbeIncrInitMerger on the engines of this level. *)
Lemma init_level_spec :
  init_spec (vdbeIncrInitMerger_level next_below init_below)
    binv_lv bstream_lv einv_lv estream_lv.
Proof.
  intros r2 f2 m He (HN & Hli & Hlt & Hr).
  unfold vdbeIncrInitMerger_level.
  destruct (init_readers_spec (aIter m) [] r2 f2 He Hr)
    as (r2a & f2a & its' & Hl & Hea & Hr' & Hm).
  rewrite Hl, app_nil_l, Z.eqb_refl. cbv zeta.
  set (N := nTree m) in *.
  assert (HN2 : (2 <= N)%nat) by (apply Nok_bounds in HN; lia).
  assert (Hli' : length its' = N).
  { rewrite <- Hli, <- (length_map rstream its'), Hm. apply length_map. }
  assert (Hkeyed' : forall j, pFile (its' !!! j) = true ->
                              aKey (its' !!! j) = Some (curKey (its' !!! j))).
  { intros j Hpj. destruct (decide (j < N)%nat) as [Hj|Hj].
    - apply (Forall_lookup_total_1 _ _ j) in Hr'; [|lia]. by apply Hr'.
    - rewrite list_lookup_total_alt, lookup_ge_None_2 in Hpj by lia. done. }
  destruct (init_tree_spec its' N HN Hli' Hkeyed' (N - 1)%nat (aTree m) r2a)
    as (tree' & r2b & Hi & Heb & Hlt' & Hok); try done; try lia.
  rewrite Hi. exists r2b, f2a, (mkMergeEngine N tree' its').
  split; [by rewrite Heb, Hea|]. split; [congruence|]. split; [done|].
  unfold estream_lv, bstream_lv. cbn [aIter]. by rewrite Hm.
Qed.

End LevelSpec.

(* --------------------------------------------------------------------- *)
(** ** Merge trees of any depth                                            *)
(* --------------------------------------------------------------------- *)

(** The stream and the invariant of a running engine with at most [d]
    levels of engines below it, and the same for an engine as built. *)
Fixpoint estream (d : nat) : MergeEngine -> list blob :=
  match d with
  | O => estream_lv (fun _ => [])
  | S d' => estream_lv (estream d')
  end.

Fixpoint einv (d : nat) : MergeEngine -> Prop :=
  match d with
  | O => einv_lv (fun _ => False) (fun _ => [])
  | S d' => einv_lv (einv d') (estream d')
  end.

Fixpoint bstream (d : nat) : MergeEngine -> list blob :=
  match d with
  | O => bstream_lv (fun _ => [])
  | S d' => bstream_lv (bstream d')
  end.

Fixpoint binv (d : nat) : MergeEngine -> Prop :=
  match d with
  | O => binv_lv (fun _ => False) (fun _ => [])
  | S d' => binv_lv (binv d') (bstream d')
  end.

Lemma next_spec_none :
  next_spec (fun _ _ _ => None) (fun _ => False) (fun _ => []).
Proof. intros r2 m _ []. Qed.

Lemma vdbeSorterNext_spec (d : nat) :
  next_spec (vdbeSorterNext d) (einv d) (estream d).
Proof.
  induction d as [|d IH]; cbn [vdbeSorterNext einv estream].
  - apply next_level_spec, next_spec_none.
  - by apply next_level_spec.
Qed.

Lemma vdbeIncrInitMerger_spec (d : nat) :
  init_spec (vdbeIncrInitMerger d) (binv d) (bstream d) (einv d) (estream d).
Proof.
  induction d as [|d IH]; cbn [vdbeIncrInitMerger einv estream binv bstream].
  - apply init_level_spec; [apply next_spec_none|]. intros r2 f2 m _ [].
  - apply init_level_spec; [apply vdbeSorterNext_spec|done].
Qed.

(** An engine is at its end exactly when its stream is empty, and shows
    the first key of its stream otherwise. *)
Lemma engine_head (d : nat) (m : MergeEngine) :
  einv d m ->
  let r := aIter m !!! (aTree m !!! 1%nat) in
  match estream d m with
  | [] => pFile r = false
  | k :: _ => pFile r = true /\ aKey r = Some k
  end.
Proof.
  intros Hinv. cbv zeta.
  pose proof (vdbeSorterNext_spec d (mkUnpacked 0 0 []) m eq_refl Hinv) as Hs.
  cbv zeta in Hs.
  destruct (pFile (aIter m !!! (aTree m !!! 1%nat))).
  - destruct Hs as (Hk & r2' & m' & _ & _ & _ & ->). done.
  - by rewrite Hs.
Qed.

(* --------------------------------------------------------------------- *)
(** ** Building the merge tree                                             *)
(* --------------------------------------------------------------------- *)

(** The number of levels of engines of a merge tree, the root included. *)
Fixpoint treeLevels (m : MergeEngine) : nat :=
  S (list_max (map (fun r => match pIncr r with
                             | Some inc => treeLevels (im_pMerger inc)
                             | None => 0%nat
                             end) (aIter m))).

(** The reader vdbePmaReaderInit leaves on a PMA. *)
Definition reader_of (pma : list blob) : PmaReader :=
  match pma with
  | [] => zeroReader
  | k :: rest => mkPmaReader true (Some k) rest None
  end.

Lemma vdbePmaReaderInit_spec r2 pma :
  vdbePmaReaderInit K r2 pma = Some (SQLITE_OK, r2, reader_of pma).
Proof. by destruct pma. Qed.

Lemma level0_readers_spec r2 : forall (n : nat) (file_rest : list (list blob)),
  (n <= length file_rest)%nat ->
  level0_readers K r2 n file_rest =
    Some (map reader_of (take n file_rest), drop n file_rest).
Proof.
  induction n as [|n IH]; intros file_rest Hn; [done|].
  destruct file_rest as [|pma rest]; [simpl in Hn; lia|].
  cbn [level0_readers]. rewrite vdbePmaReaderInit_spec, IH by (simpl in Hn; lia).
  done.
Qed.

Lemma new_N_ok (n : nat) :
  (n <= 16)%nat -> Nok (new_N n 2 n) /\ (n <= new_N n 2 n)%nat.
Proof.
  intros Hn.
  assert (Hall : Forall (fun n => Nok (new_N n 2 n) /\ (n <= new_N n 2 n)%nat) (seq 0 17))
    by compute_done.
  rewrite Forall_forall in Hall. apply Hall, elem_of_seq. lia.
Qed.

(** A reader without an engine below it. *)
Definition plain (r : PmaReader) : Prop :=
  pIncr r = None /\ (pFile r = true -> aKey r = Some (curKey r)).

(** A leaf engine over the PMAs [Ps]: one reader on each, in order, then
    unused readers. *)
Definition leaf_engine (Ps : list (list blob)) (m : MergeEngine) : Prop :=
  Nok (nTree m) /\ length (aIter m) = nTree m /\ length (aTree m) = nTree m /\
  Forall plain (aIter m) /\
  exists pad, map rstream0 (aIter m) = Ps ++ replicate pad [].

Lemma vdbeMergeEngineLevel0_spec r2 (n : nat) (file_rest : list (list blob)) :
  (n <= 16)%nat -> (n <= length file_rest)%nat ->
  exists m,
    vdbeMergeEngineLevel0 K r2 n file_rest = Some (m, drop n file_rest) /\
    leaf_engine (take n file_rest) m.
Proof.
  intros Hn Hlen. unfold vdbeMergeEngineLevel0.
  rewrite level0_readers_spec by done.
  destruct (new_N_ok n Hn) as [HN HnN].
  unfold vdbeMergeEngineNew. cbn [nTree aTree aIter].
  set (N := new_N n 2 n) in *.
  eexists. split; [reflexivity|]. unfold leaf_engine. cbn [nTree aTree aIter].
  rewrite drop_replicate.
  split; [done|]. split.
  { rewrite length_app, length_map, length_take, length_replicate. lia. }
  split; [by rewrite length_replicate|]. split.
  { apply Forall_app. split.
    - apply Forall_fmap, Forall_forall. intros pma _. by destruct pma.
    - apply Forall_forall. intros r Hr. apply elem_of_replicate in Hr as [-> _].
      by split. }
  exists (N - n)%nat. rewrite map_app. f_equal.
  - rewrite map_map. rewrite <- (map_id (take n file_rest)) at 2.
    apply map_ext. intros pma. by destruct pma.
  - induction (N - n)%nat as [|pad IH]; [done|]. cbn [replicate map]. by rewrite IH.
Qed.

Lemma concat_nil {A} (Pss : list (list A)) :
  (forall j, (j < length Pss)%nat -> Pss !!! j = []) -> concat Pss = [].
Proof.
  induction Pss as [|P Pss IH]; intros Hall; [done|].
  pose proof (Hall 0%nat ltac:(simpl; lia)) as HP. cbn in HP. subst P.
  cbn [concat app]. apply IH. intros j Hj. apply (Hall (S j)). simpl. lia.
Qed.

Lemma concat_insert_app {A} (Pss : list (list A)) : forall (c : nat) (X : list A),
  (c < length Pss)%nat ->
  (forall j, (c < j)%nat -> (j < length Pss)%nat -> Pss !!! j = []) ->
  concat (<[c := Pss !!! c ++ X]> Pss) = concat Pss ++ X.
Proof.
  induction Pss as [|P Pss IH]; intros c X Hc Hall; [simpl in Hc; lia|].
  destruct c as [|c].
  - cbn. rewrite (concat_nil Pss), !app_nil_r; [done|].
    intros j Hj. apply (Hall (S j)); simpl; lia.
  - cbn. rewrite IH, app_assoc; [done|simpl in Hc; lia|].
    intros j Hj1 Hj2. apply (Hall (S j)); simpl; lia.
Qed.

Lemma pow16_pos (k : nat) : (0 < 16 ^ k)%nat.
Proof. induction k; [simpl; lia|]. rewrite Nat.pow_succ_r'. lia. Qed.

Lemma digit_facts (q c iSeq : nat) :
  (0 < q)%nat -> (c = iSeq mod (16 * q))%nat ->
  ((iSeq / q) mod 16 = c / q /\ c mod q = iSeq mod q /\ c / q < 16)%nat.
Proof.
  intros Hq ->. rewrite (Nat.mul_comm 16 q), Nat.Div0.mod_mul_r.
  set (b := (iSeq mod q)%nat). set (a := ((iSeq / q) mod 16)%nat).
  assert (Hb : (b < q)%nat) by (apply Nat.mod_upper_bound; lia).
  assert (Ha : (a < 16)%nat) by (apply Nat.mod_upper_bound; lia).
  assert (E1 : ((b + q * a) / q = a)%nat).
  { symmetry. apply (Nat.div_unique _ q a b); lia. }
  assert (E2 : ((b + q * a) mod q = b)%nat).
  { symmetry. apply (Nat.mod_unique _ q a b); lia. }
  rewrite E1, E2. done.
Qed.

Lemma slot_counts (q c : nat) :
  (0 < q)%nat ->
  (Nat.min q (S c - c / q * q) = S (c mod q) /\
   forall j, j <> c / q ->
     Nat.min q (S c - j * q) = Nat.min q (c - j * q) /\
     (c / q < j -> Nat.min q (c - j * q) = 0))%nat.
Proof.
  intros Hq.
  pose proof (Nat.div_mod_eq c q) as Hc.
  assert (Hb : (c mod q < q)%nat) by (apply Nat.mod_upper_bound; lia).
  set (a := (c / q)%nat) in *. set (b := (c mod q)%nat) in *.
  rewrite (Nat.mul_comm q a) in Hc.
  split; [lia|]. intros j Hj.
  destruct (decide (j < a)%nat) as [Hlt|Hge].
  - assert (S j * q <= a * q)%nat by (apply Nat.mul_le_mono_r; lia).
    split; lia.
  - assert (S a * q <= j * q)%nat by (apply Nat.mul_le_mono_r; lia).
    split; lia.
Qed.

Section Build.
Variable mx : Z.

(** An incremental merger as vdbeIncrNew leaves it. *)
Definition fresh_inc (inc : IncrMerger) : Prop :=
  bEof inc = false /\ mxSz inc = mx.

(** Reader [r] holds nothing, or hangs an engine that holds [cj] leaf
    engines with the PMAs [X]. *)
Definition slot (F : nat -> list (list blob) -> MergeEngine -> Prop)
    (cj : nat) (r : PmaReader) (X : list (list blob)) : Prop :=
  match cj with
  | O => r = zeroReader /\ X = []
  | S _ => exists inc, r = setIncr zeroReader inc /\ fresh_inc inc /\
                       F cj X (im_pMerger inc)
  end.

(** An engine [h] levels above the leaf engines that holds the first [c]
    leaf engines of its range, filled from the left, with the PMAs [Ps]
    in order. *)
Fixpoint filled (h c : nat) (Ps : list (list blob)) (m : MergeEngine) : Prop :=
  match h with
  | O => leaf_engine Ps m
  | S h' =>
      nTree m = 16%nat /\ length (aTree m) = 16%nat /\ length (aIter m) = 16%nat /\
      exists Pss : list (list (list blob)),
        length Pss = 16%nat /\ Ps = concat Pss /\
        forall j, (j < 16)%nat ->
          slot (filled h') (Nat.min (16 ^ h') (c - j * 16 ^ h'))
            (aIter m !!! j) (Pss !!! j)
  end.

Lemma filled_new (h : nat) : filled (S h) 0 [] (vdbeMergeEngineNew 16).
Proof.
  change (vdbeMergeEngineNew 16)
    with (mkMergeEngine 16 (replicate 16 0%nat) (replicate 16 zeroReader)).
  cbn [filled nTree aTree aIter]. rewrite !length_replicate.
  split; [done|]. split; [done|]. split; [done|].
  exists (replicate 16 []). split; [by rewrite length_replicate|]. split; [done|].
  intros j Hj. rewrite Nat.sub_0_l, Nat.min_0_r.
  rewrite !lookup_total_replicate_2 by done. done.
Qed.

(** Hanging one more leaf engine behind the [c] already there. *)
Lemma filled_update (h c : nat) (p : MergeEngine) (Pss : list (list (list blob)))
    (P : list (list blob)) (r' : PmaReader) :
  nTree p = 16%nat -> length (aTree p) = 16%nat -> length (aIter p) = 16%nat ->
  length Pss = 16%nat ->
  (forall j, (j < 16)%nat ->
     slot (filled h) (Nat.min (16 ^ h) (c - j * 16 ^ h)) (aIter p !!! j) (Pss !!! j)) ->
  (c / 16 ^ h < 16)%nat ->
  slot (filled h) (S (c mod 16 ^ h)) r' (Pss !!! (c / 16 ^ h)%nat ++ P) ->
  filled (S h) (S c) (concat Pss ++ P) (setIter p (c / 16 ^ h) r').
Proof.
  intros Hn Hlt Hli HlP Hslots Ha Hnew.
  pose proof (pow16_pos h) as Hq. set (q := (16 ^ h)%nat) in *.
  destruct (slot_counts q c Hq) as [Hat Hother].
  cbn [filled]. fold q. unfold setIter. cbn [nTree aTree aIter].
  rewrite length_insert.
  split; [done|]. split; [done|]. split; [done|].
  exists (<[(c / q)%nat := Pss !!! (c / q)%nat ++ P]> Pss).
  split; [by rewrite length_insert|]. split.
  - symmetry. apply concat_insert_app; [lia|].
    intros j Hj1 Hj2. specialize (Hslots j ltac:(lia)).
    destruct (Hother j ltac:(lia)) as [_ Hz]. rewrite (Hz Hj1) in Hslots.
    apply Hslots.
  - intros j Hj. destruct (decide (j = (c / q)%nat)) as [->|Hne].
    + rewrite !list_lookup_total_insert_eq by lia. by rewrite Hat.
    + rewrite !list_lookup_total_insert_ne by done.
      destruct (Hother j Hne) as [-> _]. by apply Hslots.
Qed.

Lemma addToTree_walk_spec : forall (k : nat) file2 (iSeq c : nat) Ps p P leafinc,
  filled (S k) c Ps p -> (c = iSeq mod 16 ^ S k)%nat ->
  fresh_inc leafinc -> leaf_engine P (im_pMerger leafinc) ->
  exists file2' p',
    addToTree_walk k mx file2 (16 ^ k) iSeq p leafinc = (file2', p') /\
    filled (S k) (S c) (Ps ++ P) p'.
Proof.
  induction k as [|k IH]; intros file2 iSeq c Ps p P leafinc Hf Hc Hfresh Hleaf.
  - cbn [addToTree_walk].
    destruct Hf as (Hn & Hlt & Hli & Pss & HlP & -> & Hslots).
    change (16 ^ 1)%nat with 16%nat in Hc.
    destruct (digit_facts 1 c iSeq ltac:(lia) Hc) as (_ & _ & Ha).
    rewrite Nat.div_1_r in Ha. rewrite <- Hc.
    pose proof (Hslots c Ha) as Hcur. change (16 ^ 0)%nat with 1%nat in Hcur.
    rewrite Nat.mul_1_r, Nat.sub_diag, Nat.min_0_r in Hcur. destruct Hcur as [Hz HP].
    rewrite Hz. eexists _, _. split; [reflexivity|].
    pose proof (filled_update 0 c p Pss P (setIncr zeroReader leafinc)) as Hu.
    change (16 ^ 0)%nat with 1%nat in Hu. rewrite Nat.div_1_r in Hu.
    apply Hu; try done.
    rewrite HP. exists leafinc. done.
  - cbn [addToTree_walk].
    destruct Hf as (Hn & Hlt & Hli & Pss & HlP & -> & Hslots).
    pose proof (pow16_pos (S k)) as Hq.
    rewrite (Nat.pow_succ_r' 16 (S k)) in Hc.
    destruct (digit_facts (16 ^ S k) c iSeq Hq Hc) as (E1 & E2 & Ha).
    rewrite E1.
    set (q := (16 ^ S k)%nat) in *. set (a := (c / q)%nat) in *.
    pose proof (Hslots a Ha) as Hcur. fold q in Hcur.
    assert (Hmin : Nat.min q (c - a * q) = (c mod q)%nat).
    { pose proof (Nat.div_mod_eq c q). fold a in H0.
      assert ((c mod q < q)%nat) by (apply Nat.mod_upper_bound; lia).
      rewrite (Nat.mul_comm q a) in H0. lia. }
    rewrite Hmin in Hcur.
    assert (Hdiv : (q / 16)%nat = (16 ^ k)%nat).
    { subst q. rewrite Nat.pow_succ_r', Nat.mul_comm. apply Nat.div_mul. lia. }
    rewrite Hdiv.
    assert (Hchild : exists file2a inc,
      match pIncr (aIter p !!! a) with
      | Some inc => (file2, inc)
      | None => vdbeIncrNew mx file2 (vdbeMergeEngineNew 16)
      end = (file2a, inc) /\ fresh_inc inc /\
      filled (S k) (c mod q) (Pss !!! a) (im_pMerger inc) /\
      setIncr (aIter p !!! a) = setIncr zeroReader).
    { destruct (c mod q)%nat as [|b] eqn:Hb.
      - destruct Hcur as [-> ->]. cbn. eexists _, _. split; [reflexivity|].
        split; [done|]. split; [apply filled_new|done].
      - destruct Hcur as (inc & -> & Hfi & Hfl). cbn.
        eexists _, _. split; [reflexivity|]. done. }
    destruct Hchild as (file2a & inc & -> & Hfi & Hfl & Hset).
    destruct (IH file2a iSeq (c mod q)%nat (Pss !!! a) (im_pMerger inc) P leafinc)
      as (file2b & sub & Hw & Hsub); try done.
    rewrite Hw. eexists _, _. split; [reflexivity|].
    rewrite Hset. apply filled_update; try done.
    fold q. exists (setMerger inc sub). split; [done|]. split; [apply Hfi|].
    done.
Qed.

Lemma iter16 (k : nat) : Nat.iter k (fun x => (x * 16)%nat) 1%nat = (16 ^ k)%nat.
Proof.
  induction k as [|k IH]; [done|].
  rewrite Nat.iter_succ, IH, Nat.pow_succ_r'. lia.
Qed.

Lemma vdbeSorterAddToTree_spec (k : nat) file2 (iSeq : nat) Ps root P leaf :
  filled (S k) iSeq Ps root -> (iSeq < 16 ^ S k)%nat -> leaf_engine P leaf ->
  exists file2' root',
    vdbeSorterAddToTree mx file2 (S k) iSeq root leaf = (file2', root') /\
    filled (S k) (S iSeq) (Ps ++ P) root'.
Proof.
  intros Hf Hc Hleaf. unfold vdbeSorterAddToTree, vdbeIncrNew.
  replace (S k - 1)%nat with k by lia. rewrite iter16.
  apply addToTree_walk_spec; try done.
  symmetry. by apply Nat.mod_small.
Qed.

Lemma take_step {A} (l : list A) (i : nat) :
  take i l ++ take (Nat.min (length l - i) 16) (drop i l) = take (i + 16) l.
Proof.
  rewrite take_take_drop.
  destruct (decide (16 <= length l - i)%nat).
  - by rewrite Nat.min_r by lia.
  - rewrite Nat.min_l by lia. rewrite !take_ge by lia. done.
Qed.

Lemma drop_step {A} (l : list A) (i : nat) :
  drop (Nat.min (length l - i) 16) (drop i l) = drop (i + 16) l.
Proof.
  rewrite drop_drop.
  destruct (decide (16 <= length l - i)%nat).
  - by rewrite Nat.min_r by lia.
  - rewrite Nat.min_l by lia. rewrite !drop_ge by lia. done.
Qed.

(** The loop of vdbeSorterMergeTreeBuild hangs the leaf engines, sixteen
    PMAs each, from the left. *)
Lemma build_loop_spec r2 (k : nat) (pm : list (list blob)) :
  (length pm <= 16 * 16 ^ S k)%nat ->
  forall (fuel iSeq : nat) file2 root,
    (length pm <= 16 * iSeq + 16 * fuel)%nat ->
    filled (S k) iSeq (take (16 * iSeq) pm) root ->
    exists file2' root' c,
      build_loop fuel K r2 mx (S k) (length pm) (16 * iSeq) iSeq
        (drop (16 * iSeq) pm) file2 root = Some (file2', root') /\
      filled (S k) c pm root' /\ (iSeq <= c)%nat /\
      ((16 * iSeq < length pm)%nat -> (1 <= c)%nat).
Proof.
  intros Hcap. induction fuel as [|fuel IH]; intros iSeq file2 root Hfuel Hf.
  - exists file2, root, iSeq. split; [done|]. split; [|lia].
    by rewrite take_ge in Hf by lia.
  - cbn [build_loop]. destruct (16 * iSeq <? length pm)%nat eqn:Hlt.
    + apply Nat.ltb_lt in Hlt.
      destruct (vdbeMergeEngineLevel0_spec r2 (Nat.min (length pm - 16 * iSeq) 16)
                  (drop (16 * iSeq) pm)) as (leaf & Hl0 & Hleaf); [lia| |].
      { rewrite length_drop. lia. }
      rewrite Hl0.
      destruct (vdbeSorterAddToTree_spec k file2 iSeq (take (16 * iSeq) pm) root
                  (take (Nat.min (length pm - 16 * iSeq) 16) (drop (16 * iSeq) pm))
                  leaf Hf)
        as (file2a & root1 & Ha & Hf1); [lia|exact Hleaf|].
      rewrite Ha. rewrite take_step in Hf1. rewrite drop_step.
      replace (16 * iSeq + 16)%nat with (16 * S iSeq)%nat in * by lia.
      destruct (IH (S iSeq) file2a root1) as (file2' & root' & c & Hb & Hf' & Hc & _);
        [lia|done|].
      exists file2', root', c. split; [done|]. split; [done|]. lia.
    + apply Nat.ltb_ge in Hlt. exists file2, root, iSeq. split; [done|]. split; [|lia].
      by rewrite take_ge in Hf by lia.
Qed.

(** *** What a built tree is worth *)

Lemma treeLevels_eq (m : MergeEngine) :
  treeLevels m =
  S (list_max (map (fun r => match pIncr r with
                             | Some inc => treeLevels (im_pMerger inc)
                             | None => 0%nat
                             end) (aIter m))).
Proof. by destruct m. Qed.

Lemma list_max_bounds (l : list nat) (n : nat) :
  Forall (fun v => (v <= n)%nat) l ->
  (list_max l <= n)%nat /\ (n ∈ l -> list_max l = n).
Proof.
  intros Hall. assert (Hle : (list_max l <= n)%nat) by (by apply list_max_le).
  split; [done|]. intros Hin.
  assert (Hge : Forall (fun v => (v <= list_max l)%nat) l) by (by apply list_max_le).
  rewrite Forall_forall in Hge. specialize (Hge n Hin). lia.
Qed.

(** The tree has [h + 1] levels of engines once it holds a leaf engine. *)
Lemma filled_levels : forall (h c : nat) Ps m,
  filled h c Ps m ->
  (treeLevels m <= S h)%nat /\ (h = 0%nat \/ (1 <= c)%nat -> treeLevels m = S h).
Proof.
  induction h as [|h IH]; intros c Ps m Hf; rewrite treeLevels_eq.
  - destruct Hf as (_ & _ & _ & Hplain & _).
    assert (Hz : (list_max (map (fun r => match pIncr r with
                             | Some inc => treeLevels (im_pMerger inc)
                             | None => 0%nat
                             end) (aIter m)) <= 0)%nat).
    { apply list_max_le, Forall_fmap. eapply Forall_impl; [exact Hplain|].
      intros r [Hr _]. cbn. by rewrite Hr. }
    split; [lia|]. intros _. lia.
  - destruct Hf as (Hn & Hlt & Hli & Pss & HlP & -> & Hslots).
    set (f := fun r => match pIncr r with
                       | Some inc => treeLevels (im_pMerger inc)
                       | None => 0%nat
                       end).
    assert (Hall : Forall (fun v => (v <= S h)%nat) (map f (aIter m))).
    { apply Forall_fmap. refine (Forall_lookup_total_2 _ _ _). intros j Hj. cbn.
      specialize (Hslots j ltac:(lia)). unfold slot in Hslots.
      destruct (Nat.min (16 ^ h) (c - j * 16 ^ h)) as [|cj].
      + destruct Hslots as [-> _]. subst f. cbn. lia.
      + destruct Hslots as (inc & -> & _ & Hfl). subst f. cbn.
        by apply (IH _ _ _ Hfl). }
    destruct (list_max_bounds _ _ Hall) as [Hle Heq].
    split; [lia|]. intros [?|Hc]; [done|]. f_equal. apply Heq.
    apply list_elem_of_fmap. exists (aIter m !!! 0%nat). split.
    + specialize (Hslots 0%nat ltac:(lia)). unfold slot in Hslots.
      pose proof (pow16_pos h).
      destruct (Nat.min (16 ^ h) (c - 0 * 16 ^ h)) as [|cj] eqn:Hcj; [lia|].
      destruct Hslots as (inc & -> & _ & Hfl). subst f. cbn.
      symmetry. apply (IH _ _ _ Hfl). right. lia.
    + apply list_elem_of_lookup_total_2. lia.
Qed.

Lemma kmerge_Forall (P : blob -> Prop) Ss :
  Forall (Forall P) Ss -> Forall P (kmerge Ss).
Proof.
  induction 1 as [|s Ss Hs _ IH]; [constructor|].
  rewrite kmerge_cons. by apply Forall_merge.
Qed.

Lemma classes_app x Ss Ts : classes x (Ss ++ Ts) = classes x Ss ++ classes x Ts.
Proof. unfold classes. by rewrite map_app, concat_app. Qed.

Lemma classes_pad x (pad : nat) : classes x (replicate pad []) = [].
Proof. induction pad as [|pad IH]; [done|]. exact IH. Qed.

Lemma classes_concat x (Pss : list (list (list blob))) :
  classes x (concat Pss) = concat (map (classes x) Pss).
Proof.
  induction Pss as [|P Pss IH]; [done|].
  cbn [concat map]. by rewrite classes_app, IH.
Qed.

Lemma Forall_concat_lookup {A} (Q : A -> Prop) (Pss : list (list A)) : forall j : nat,
  Forall Q (concat Pss) -> (j < length Pss)%nat -> Forall Q (Pss !!! j).
Proof.
  induction Pss as [|P Pss IH]; intros j Hall Hj; [simpl in Hj; lia|].
  cbn [concat] in Hall. apply Forall_app in Hall as [HP Hrest].
  destruct j as [|j]; [done|]. apply IH; [done|]. simpl in Hj. lia.
Qed.

Lemma map_eq_lookup {A B C} `{Inhabited A, Inhabited B}
    (f : A -> C) (g : B -> C) (l1 : list A) : forall l2 : list B,
  length l1 = length l2 ->
  (forall j, (j < length l1)%nat -> f (l1 !!! j) = g (l2 !!! j)) ->
  map f l1 = map g l2.
Proof.
  induction l1 as [|a l1 IH]; intros [|b l2] Hlen Hall; try done.
  cbn [map]. f_equal.
  - apply (Hall 0%nat). simpl. lia.
  - apply IH; [simpl in Hlen; lia|]. intros j Hj. apply (Hall (S j)). simpl. lia.
Qed.

(** A built tree can be initialised, and stands for the stable merge of
    its PMAs: its stream is sorted and keeps, within every class of equal
    keys, the order of the PMAs and the order inside each PMA. *)
Lemma filled_facts : forall (h c : nat) Ps m,
  filled h c Ps m ->
  Forall (Forall (fits mx)) Ps -> Forall sorted Ps ->
  binv h m /\ Forall (fits mx) (bstream h m) /\ sorted (bstream h m) /\
  forall x, List.filter (eqvb x) (bstream h m) = classes x Ps.
Proof.
  induction h as [|h IH]; intros c Ps m Hf Hfit Hsort.
  - destruct Hf as (HN & Hli & Hlt & Hplain & pad & Hmap).
    assert (Hb : bstream 0 m = kmerge (Ps ++ replicate pad [])).
    { cbn [bstream]. unfold bstream_lv. rewrite <- Hmap. f_equal.
      apply map_ext_Forall. eapply Forall_impl; [exact Hplain|].
      intros r [Hr _]. unfold brstream. by rewrite Hr. }
    assert (Hpad : forall Q : list blob -> Prop, Q [] -> Forall Q Ps ->
                     Forall Q (Ps ++ replicate pad [])).
    { intros Q HQ HPs. apply Forall_app. split; [done|].
      apply Forall_forall. intros s Hs. by apply elem_of_replicate in Hs as [-> _]. }
    split.
    { cbn [binv]. split; [done|]. split; [done|]. split; [done|].
      eapply Forall_impl; [exact Hplain|]. intros r [Hr Hk]. unfold rbinv. by rewrite Hr. }
    rewrite Hb. split; [|split].
    + apply kmerge_Forall. by apply Hpad.
    + apply kmerge_sorted. apply Hpad; [constructor|done].
    + intros x. rewrite kmerge_filter by (apply Hpad; [constructor|done]).
      by rewrite classes_app, classes_pad, app_nil_r.
  - destruct Hf as (Hn & Hlt & Hli & Pss & HlP & -> & Hslots).
    assert (Hj : forall j, (j < 16)%nat ->
      rbinv (binv h) (bstream h) (aIter m !!! j) /\
      Forall (fits mx) (brstream (bstream h) (aIter m !!! j)) /\
      sorted (brstream (bstream h) (aIter m !!! j)) /\
      forall x, List.filter (eqvb x) (brstream (bstream h) (aIter m !!! j)) =
                classes x (Pss !!! j)).
    { intros j Hj. specialize (Hslots j Hj). unfold slot in Hslots.
      destruct (Nat.min (16 ^ h) (c - j * 16 ^ h)) as [|cj].
      - destruct Hslots as [-> ->]. unfold rbinv, brstream. cbn.
        split; [discriminate|]. split; [constructor|]. split; [constructor|done].
      - destruct Hslots as (inc & -> & [Heof Hmx] & Hfl).
        destruct (IH _ _ _ Hfl) as (Hb & Hf' & Hs' & Hc').
        + apply Forall_concat_lookup; [done|lia].
        + apply Forall_concat_lookup; [done|lia].
        + unfold rbinv, brstream. cbn. rewrite Hmx. done. }
    split.
    { cbn [binv]. split; [rewrite Hn; apply Nok_16|].
      split; [congruence|]. split; [congruence|].
      refine (Forall_lookup_total_2 _ _ _). intros j Hj'. apply Hj. lia. }
    cbn [bstream]. unfold bstream_lv.
    assert (Hall : forall Q : list blob -> Prop,
              (forall j, (j < 16)%nat -> Q (brstream (bstream h) (aIter m !!! j))) ->
              Forall Q (map (brstream (bstream h)) (aIter m))).
    { intros Q HQ. apply Forall_fmap. refine (Forall_lookup_total_2 _ _ _).
      intros j Hj'. apply HQ. lia. }
    split; [|split].
    + apply kmerge_Forall, Hall. intros j Hj'. by apply Hj.
    + apply kmerge_sorted, Hall. intros j Hj'. by apply Hj.
    + intros x. rewrite kmerge_filter by (apply Hall; intros j Hj'; by apply Hj).
      rewrite classes_concat. unfold classes at 1. rewrite map_map. f_equal.
      apply map_eq_lookup; [congruence|]. intros j Hj'. apply Hj. lia.
Qed.

End Build.

(** vdbeSorterTreeDepth: the least [d] with [n <= 16 ^ (d + 1)]. *)
Lemma treeDepth_loop_spec (n : Z) : forall (fuel : nat) (nDiv : Z) (nDepth : nat),
  nDiv = 16 ^ (Z.of_nat nDepth + 1) -> n <= nDiv + Z.of_nat fuel ->
  (nDepth = 0%nat \/ 16 ^ Z.of_nat nDepth < n) ->
  let d := treeDepth_loop fuel nDiv n nDepth in
  n <= 16 ^ (Z.of_nat d + 1) /\ (d = 0%nat \/ 16 ^ Z.of_nat d < n).
Proof.
  induction fuel as [|fuel IH]; intros nDiv nDepth HnDiv Hfuel Hlow; cbn [treeDepth_loop].
  - cbv zeta. split; [lia|done].
  - destruct (nDiv <? n) eqn:Hlt.
    + apply Z.ltb_lt in Hlt.
      assert (Hpos : 0 < nDiv) by (subst nDiv; apply Z.pow_pos_nonneg; lia).
      apply IH.
      * rewrite Nat2Z.inj_succ, <- Z.add_1_r, (Z.pow_add_r 16 (Z.of_nat nDepth + 1) 1) by lia.
        rewrite <- HnDiv. lia.
      * lia.
      * right. rewrite Nat2Z.inj_succ, <- Z.add_1_r, <- HnDiv. done.
    + apply Z.ltb_ge in Hlt. cbv zeta. split; [lia|done].
Qed.

Lemma vdbeSorterTreeDepth_spec (n : Z) :
  1 <= n ->
  let d := vdbeSorterTreeDepth n in
  n <= 16 ^ (Z.of_nat d + 1) /\ (d = 0%nat \/ 16 ^ Z.of_nat d < n).
Proof.
  intros Hn. unfold vdbeSorterTreeDepth. apply treeDepth_loop_spec; [done|lia|by left].
Qed.

Lemma vdbeSorterMergeTreeBuild_spec r2 (s : VdbeSorter) :
  pKeyInfo s = K ->
  let t := aTask0 s in
  1 <= task_nPMA t -> Z.of_nat (length (pmas (task_file t))) = task_nPMA t ->
  exists file2 root c,
    vdbeSorterMergeTreeBuild r2 s = Some (file2, Some root) /\
    filled (incrMxSz s) (vdbeSorterTreeDepth (task_nPMA t)) c (pmas (task_file t)) root /\
    (16 < task_nPMA t -> (1 <= c)%nat).
Proof.
  intros HK t Hn Hlen. unfold vdbeSorterMergeTreeBuild. fold t. rewrite HK.
  set (pm := pmas (task_file t)) in *. set (n := task_nPMA t) in *.
  replace (n =? 0) with false by (symmetry; apply Z.eqb_neq; lia).
  assert (Hnat : Z.to_nat n = length pm) by lia. rewrite Hnat.
  destruct (vdbeSorterTreeDepth_spec n Hn) as [Hup Hlow]. cbv zeta in Hup, Hlow.
  destruct (length pm <=? 16)%nat eqn:Hle.
  - apply Nat.leb_le in Hle.
    assert (Hd : vdbeSorterTreeDepth n = 0%nat).
    { destruct Hlow as [|Hlow]; [done|].
      destruct (vdbeSorterTreeDepth n) as [|d]; [done|].
      assert (16 ^ 1 <= 16 ^ Z.of_nat (S d)) by (apply Z.pow_le_mono_r; lia). lia. }
    rewrite Hd.
    destruct (vdbeMergeEngineLevel0_spec r2 (length pm) pm Hle ltac:(lia)) as (m & Hl & Hleaf).
    rewrite Hl. rewrite take_ge in Hleaf by lia.
    exists (task_file2 t), m, 1%nat. split; [done|]. split; [done|]. lia.
  - apply Nat.leb_gt in Hle.
    destruct (vdbeSorterTreeDepth n) as [|k] eqn:Hd; [simpl in Hup; lia|].
    assert (Hcap : (length pm <= 16 * 16 ^ S k)%nat).
    { apply Nat2Z.inj_le. rewrite Nat2Z.inj_mul, Nat2Z.inj_pow, Hlen.
      rewrite (Z.pow_add_r 16 (Z.of_nat (S k)) 1) in Hup by lia. lia. }
    pose proof (build_loop_spec (incrMxSz s) r2 k pm Hcap (length pm) 0 (task_file2 t)
                  (vdbeMergeEngineNew 16)) as Hb.
    change (16 * 0)%nat with 0%nat in Hb. rewrite drop_0, take_0 in Hb.
    destruct Hb as (file2 & root & c & Hb & Hf & _ & Hc); [lia|apply filled_new|].
    rewrite Hb. exists file2, root, c. split; [done|]. split; [done|].
    intros _. apply Hc. lia.
Qed.

(** Equal classes of keys, equal contents. *)
Lemma filter_comm (f g : blob -> bool) (l : list blob) :
  List.filter f (List.filter g l) = List.filter g (List.filter f l).
Proof.
  induction l as [|a l IH]; [done|]. cbn [List.filter].
  destruct (f a) eqn:Hf, (g a) eqn:Hg; cbn [List.filter]; rewrite ?Hf, ?Hg, IH; done.
Qed.

Lemma classes_length : forall (n : nat) (inp out : list blob),
  (length inp <= n)%nat ->
  (forall x, List.filter (eqvb x) out = List.filter (eqvb x) inp) ->
  length out = length inp.
Proof.
  induction n as [|n IH]; intros inp out Hn Hcl.
  - destruct inp; [|simpl in Hn; lia]. destruct out as [|y out]; [done|].
    specialize (Hcl y). cbn in Hcl. unfold eqvb in Hcl at 1.
    rewrite cmp_refl in Hcl. discriminate Hcl.
  - destruct inp as [|a inp].
    { destruct out as [|y out]; [done|].
      specialize (Hcl y). cbn in Hcl. unfold eqvb in Hcl at 1.
      rewrite cmp_refl in Hcl. discriminate Hcl. }
    rewrite <- (filter_length (eqvb a) out), <- (filter_length (eqvb a) (a :: inp)).
    rewrite Hcl. f_equal. apply IH.
    + cbn [List.filter]. unfold eqvb at 1. rewrite cmp_refl. cbn.
      pose proof (filter_length_le (fun x => negb (eqvb a x)) inp). simpl in Hn. lia.
    + intros x. by rewrite filter_comm, Hcl, filter_comm.
Qed.

Lemma classes_Forall (Q : blob -> Prop) (inp out : list blob) :
  (forall x, List.filter (eqvb x) out = List.filter (eqvb x) inp) ->
  Forall Q inp -> Forall Q out.
Proof.
  intros Hcl Hq. rewrite !List.Forall_forall in *. intros k Hk.
  apply Hq. assert (Hin : In k (List.filter (eqvb k) out)).
  { apply filter_In. split; [done|]. unfold eqvb. by rewrite cmp_refl. }
  rewrite Hcl in Hin. by apply filter_In in Hin as [? _].
Qed.

(* --------------------------------------------------------------------- *)
(** ** The read phase                                                      *)
(* --------------------------------------------------------------------- *)

(** The sorter merges its PMAs and has the stream [L] still to deliver. *)
Definition merging (s : VdbeSorter) (L : list blob) : Prop :=
  bUsePMA s = true /\ pKeyInfo s = K /\
  exists m r2,
    pMerger s = Some m /\ task_pUnpacked (aTask0 s) = Some r2 /\
    errCode r2 = 0 /\ einv (sorterDepth s) m /\ estream (sorterDepth s) m = L.

Lemma vdbeSorterSetupMerge_spec (s : VdbeSorter) r2 :
  pKeyInfo s = K -> bUsePMA s = true ->
  task_pUnpacked (aTask0 s) = Some r2 -> errCode r2 = 0 ->
  1 <= task_nPMA (aTask0 s) ->
  Z.of_nat (length (pmas (task_file (aTask0 s)))) = task_nPMA (aTask0 s) ->
  Forall sorted (pmas (task_file (aTask0 s))) ->
  Forall (Forall (fits (incrMxSz s))) (pmas (task_file (aTask0 s))) ->
  exists s' L,
    vdbeSorterSetupMerge s = Some (SQLITE_OK, s') /\ merging s' L /\
    sorted L /\
    forall x, List.filter (eqvb x) L = classes x (pmas (task_file (aTask0 s))).
Proof.
  intros HK Hu Hr2 He Hn Hlen Hsort Hfit. unfold vdbeSorterSetupMerge. rewrite Hr2.
  destruct (vdbeSorterMergeTreeBuild_spec r2 s HK Hn Hlen) as (file2 & root & c & Hb & Hf & _).
  rewrite Hb.
  destruct (filled_facts _ _ _ _ _ Hf Hfit Hsort) as (Hbinv & _ & Hs & Hcl).
  destruct (vdbeIncrInitMerger_spec (sorterDepth s) r2 file2 root He Hbinv)
    as (r2' & file2' & m' & Hi & He' & Hinv & Hst).
  rewrite HK, Hi. eexists _, (estream (sorterDepth s) m'). split; [reflexivity|].
  split.
  - split; [done|]. split; [done|]. exists m', r2'. done.
  - rewrite Hst. done.
Qed.

Lemma drain_merging : forall (L : list blob) (fuel : nat) (s : VdbeSorter),
  merging s L -> L <> [] -> (length L <= fuel)%nat -> drain fuel s = Some L.
Proof.
  induction L as [|k t IH]; intros fuel s Hm Hne Hfuel; [done|].
  destruct fuel as [|fuel]; [simpl in Hfuel; lia|]. cbn [drain].
  destruct Hm as (Hu & HK & m & r2 & Hpm & Hr2 & He & Hinv & Hs).
  pose proof (engine_head _ m Hinv) as Hh. cbv zeta in Hh. rewrite Hs in Hh.
  destruct Hh as [Hp Hk].
  pose proof (vdbeSorterNext_spec _ r2 m He Hinv) as Hn. cbv zeta in Hn.
  rewrite Hp in Hn. destruct Hn as (_ & r2' & m' & Hn & He' & Hinv' & Hst).
  rewrite Hs in Hst. injection Hst as _ Ht.
  unfold vdbeSorterRowkey, sqlite3VdbeSorterNext. rewrite Hu, Hpm, Hk, Hr2, HK, Hn.
  cbn [negb Z.eqb SQLITE_OK].
  set (s' := mkVdbeSorter _ _ _ _ _ _ _ _ _ _ _ _).
  assert (Hm' : merging s' t).
  { split; [done|]. split; [done|]. exists m', r2'. by rewrite Ht. }
  pose proof (engine_head _ m' Hinv') as Hh'. cbv zeta in Hh'. rewrite <- Ht in Hh'.
  destruct t as [|k' t'].
  - by rewrite Hh'.
  - destruct Hh' as [-> _]. cbn [negb].
    rewrite (IH fuel s' Hm'); [done|done|simpl in *; lia].
Qed.

Lemma drain_list : forall (L : list blob) (fuel : nat) (s : VdbeSorter),
  bUsePMA s = false -> pList (list_ s) = L -> L <> [] ->
  (length L <= fuel)%nat -> drain fuel s = Some L.
Proof.
  induction L as [|k t IH]; intros fuel s Hu HpL Hne Hfuel; [done|].
  destruct fuel as [|fuel]; [simpl in Hfuel; lia|]. cbn [drain].
  unfold vdbeSorterRowkey, sqlite3VdbeSorterNext. rewrite Hu, HpL.
  cbn [negb Z.eqb SQLITE_OK].
  destruct t as [|k' t']; [done|].
  rewrite (IH fuel); [done|done|done|done|simpl in *; lia].
Qed.

(* --------------------------------------------------------------------- *)
(** ** The write phase                                                     *)
(* --------------------------------------------------------------------- *)

(** The bytes a record takes in a PMA. *)
Definition keysz (k : blob) : Z := nKey k + sqlite3VarintLen (nKey k).

(** The state of the sorter after the records [done] were written: the
    PMAs, in order, then the list, hold the records, each PMA sorted with
    ties in the order of insertion. *)
Record winv (s : VdbeSorter) (done : list blob) : Prop := {
  w_K : pKeyInfo s = K;
  w_task : task_ok (aTask0 s);
  w_npma : Z.of_nat (length (pmas (task_file (aTask0 s)))) = task_nPMA (aTask0 s);
  w_sorted : Forall sorted (pmas (task_file (aTask0 s)));
  w_classes : forall x,
    classes x (pmas (task_file (aTask0 s))) ++
      List.filter (eqvb x) (rev (pList (list_ s))) = List.filter (eqvb x) done;
  w_fit_pma : Forall (Forall (fun k => keysz k <= mxKeysize s))
                (pmas (task_file (aTask0 s)));
  w_fit_list : Forall (fun k => keysz k <= mxKeysize s) (pList (list_ s));
  w_len : (length (pList (list_ s)) <= length done)%nat;
  w_mem : bUsePMA s = false -> pmas (task_file (aTask0 s)) = [];
  w_some : bUsePMA s = true -> done <> []
}.

Lemma winv_write (s : VdbeSorter) (done : list blob) (pVal : Mem) (hnf : bool) :
  winv s done -> Z.of_nat (length done) < 2 ^ 64 ->
  exists s',
    sqlite3VdbeSorterWrite (writeOK hnf) s pVal = Some (SQLITE_OK, s') /\
    winv s' (done ++ [z pVal]).
Proof.
  intros [HK Ht Hn Hs Hc Hfp Hfl Hl Hm Hsome] Hlen.
  assert (Hmono : forall (Q : blob -> Prop) (mk mk' : Z) l,
            mk <= mk' -> Forall (fun k => keysz k <= mk) l ->
            Forall (fun k => keysz k <= mk') l).
  { intros Q mk mk' l Hle Hall. eapply Forall_impl; [exact Hall|].
    intros k Hk. cbv beta in *. lia. }
  destruct (bFlush hnf s (Mem_n pVal + szSorterRecord)) eqn:Hb.
  - destruct (write_flush s pVal hnf HK Ht ltac:(lia) Hb)
      as (s' & r & out & iEof' & Hw & Ha & Htask & He & [Hso Hcl] & Hu).
    destruct Ha as (HpL & _ & _ & _ & HK' & _ & Hmk).
    exists s'. split; [done|].
    assert (Hle : mxKeysize s <= mxKeysize s') by lia.
    constructor; rewrite ?Htask, ?HpL; cbn [task_file task_nPMA pmas].
    + congruence.
    + done.
    + rewrite length_app, Nat2Z.inj_add. simpl. lia.
    + apply Forall_app. split; [done|]. by constructor.
    + intros x. rewrite classes_app, List.filter_app, <- Hc.
      unfold classes at 2. cbn [map concat rev app]. rewrite app_nil_r, Hcl.
      by rewrite <- app_assoc.
    + apply Forall_app. split.
      * eapply Forall_impl; [exact Hfp|]. intros l. by apply (Hmono (fun _ => True)).
      * constructor; [|constructor].
        apply (classes_Forall _ (rev (pList (list_ s)))); [done|].
        apply Forall_rev. by apply (Hmono (fun _ => True) (mxKeysize s)).
    + constructor; [|constructor]. unfold keysz, Mem_n in *. lia.
    + rewrite length_app. simpl. lia.
    + congruence.
    + intros _. by destruct done.
  - destruct (write_noflush s pVal hnf Hb) as (s' & Hw & Ha & Htask & Hu).
    destruct Ha as (HpL & _ & _ & _ & HK' & _ & Hmk).
    exists s'. split; [done|].
    assert (Hle : mxKeysize s <= mxKeysize s') by lia.
    constructor; rewrite ?Htask, ?HpL.
    + congruence.
    + done.
    + done.
    + done.
    + intros x. cbn [rev]. rewrite !List.filter_app, <- Hc. by rewrite <- app_assoc.
    + eapply Forall_impl; [exact Hfp|]. intros l. by apply (Hmono (fun _ => True)).
    + constructor; [unfold keysz, Mem_n in *; lia|].
      by apply (Hmono (fun _ => True) (mxKeysize s)).
    + rewrite length_app. simpl. lia.
    + rewrite Hu. done.
    + intros _. by destruct done.
Qed.

Lemma winv_write_all : forall (inputs : list (Mem * bool)) (s : VdbeSorter) done,
  winv s done ->
  Z.of_nat (length done + length inputs) < 2 ^ 64 ->
  exists s',
    write_all s inputs = Some (SQLITE_OK, s') /\
    winv s' (done ++ map (fun i => z i.1) inputs).
Proof.
  induction inputs as [|[m hnf] inputs IH]; intros s done Hw Hlen.
  - exists s. rewrite app_nil_r. done.
  - cbn [write_all].
    destruct (winv_write s done m hnf Hw) as (s1 & Hw1 & Hinv1); [simpl in Hlen; lia|].
    rewrite Hw1, Z.eqb_refl.
    destruct (IH s1 (done ++ [z m]) Hinv1) as (s' & Hw' & Hinv').
    { rewrite length_app. simpl in *. lia. }
    exists s'. split; [done|]. cbn [map fst]. by rewrite <- app_assoc in Hinv'.
Qed.

Lemma winv_init (cfg : InitCfg) (Kcsr : KeyInfo) (nField_ : Z) (s0 : VdbeSorter) :
  sqlite3VdbeSorterInit cfg Kcsr nField_ = (SQLITE_OK, Some s0) ->
  pKeyInfo s0 = K -> winv s0 [].
Proof.
  unfold sqlite3VdbeSorterInit. intros Hi HK.
  destruct (cfg_allocSorter cfg); [|discriminate]. cbn [negb] in Hi.
  assert (Hs0 : pList (list_ s0) = [] /\ bUsePMA s0 = false /\
                aTask0 s0 = mkSortSubtask None 0 (mkSorterFile false 0 [])
                              (mkSorterFile false 0 [])).
  { destruct (cfg_tempInMemory cfg); [by injection Hi as <-|].
    destruct (cfg_pScratch cfg); [by injection Hi as <-|].
    by injection Hi as _ <-. }
  destruct Hs0 as (HpL & Hu & Ht).
  constructor; rewrite ?Ht, ?HpL; try done.
  intros Hx. congruence.
Qed.

(** The whole sort: the writes succeed, and key and advance deliver the
    records written, sorted, ties in the order of insertion. *)
Lemma sorter_run_spec (cfg : InitCfg) (Kcsr : KeyInfo) (nField_ : Z)
    (s0 : VdbeSorter) (inputs : list (Mem * bool)) :
  sqlite3VdbeSorterInit cfg Kcsr nField_ = (SQLITE_OK, Some s0) ->
  pKeyInfo s0 = K ->
  Z.of_nat (length inputs) < 2 ^ 64 ->
  exists out,
    sorter_run s0 inputs = Some out /\
    stable_sort_of (map (fun i => z i.1) inputs) out.
Proof.
  intros Hi HK Hlen. pose proof (winv_init cfg Kcsr nField_ s0 Hi HK) as Hw0.
  destruct (winv_write_all inputs s0 [] Hw0) as (s1 & Hw & Hinv); [simpl; lia|].
  rewrite app_nil_l in Hinv. set (inp := map (fun i => z i.1) inputs) in *.
  assert (Hli : length inp = length inputs) by (subst inp; apply length_map).
  unfold sorter_run. rewrite Hw. cbn [negb Z.eqb SQLITE_OK].
  destruct Hinv as [HK1 Ht Hn Hs Hc Hfp Hfl Hl Hm Hsome].
  unfold sqlite3VdbeSorterRewind.
  destruct (bUsePMA s1) eqn:Hu; cbn [negb].
  - (* the PMAs are merged *)
    unfold vdbeSorterFlushPMA. rewrite HK1.
    destruct (vdbeSorterListToPMA_spec (aTask0 s1) (list_ s1) Ht ltac:(lia))
      as (r & out & iEof' & Hf & He & [Hso Hcl]).
    rewrite Hf. cbn [negb Z.eqb SQLITE_OK].
    set (s2 := setFlushed s1 _ _).
    destruct (vdbeSorterSetupMerge_spec s2 r) as (s3 & L & Hsm & Hmg & HsL & HcL);
      try done; subst s2; cbn [setFlushed aTask0 task_nPMA task_file pmas].
    + lia.
    + rewrite length_app, Nat2Z.inj_add. simpl. lia.
    + apply Forall_app. split; [done|]. by constructor.
    + assert (Hmx : forall l, Forall (fun k => keysz k <= mxKeysize s1) l ->
                              Forall (fits (incrMxSz s1)) l).
      { intros l Hall. eapply Forall_impl; [exact Hall|]. intros k Hk.
        unfold fits, keysz, incrMxSz in *. cbv beta in Hk. lia. }
      replace (incrMxSz (setFlushed s1 _ _)) with (incrMxSz s1) by reflexivity.
      apply Forall_app. split.
      * eapply Forall_impl; [exact Hfp|]. exact Hmx.
      * constructor; [|constructor]. apply Hmx.
        apply (classes_Forall _ (rev (pList (list_ s1)))); [done|].
        by apply Forall_rev.
    + rewrite Hsm. cbn [negb Z.eqb SQLITE_OK].
      assert (HLc : forall x, List.filter (eqvb x) L = List.filter (eqvb x) inp).
      { intros x. rewrite HcL. cbn [setFlushed aTask0 task_file pmas].
        rewrite classes_app, <- Hc. unfold classes at 2. cbn [map concat].
        by rewrite app_nil_r, Hcl. }
      pose proof (classes_length _ inp L (le_n _) HLc) as HLl.
      exists L. split; [|done].
      apply drain_merging; [done| |lia].
      specialize (Hsome eq_refl). destruct L; [|done].
      destruct inp; [done|discriminate HLl].
  - (* everything is still in memory *)
    destruct (pList (list_ s1)) as [|k l] eqn:HpL.
    + exists []. rewrite (Hm eq_refl) in Hc. cbn in Hc.
      assert (Hnil : inp = []).
      { destruct inp as [|y inp']; [done|]. specialize (Hc y).
        cbn in Hc. unfold eqvb in Hc at 1. rewrite cmp_refl in Hc. discriminate Hc. }
      split; [done|]. rewrite Hnil. split; [constructor|done].
    + rewrite HK1.
      destruct (vdbeSorterSort_spec 0 (aTask0 s1) (list_ s1) Ht)
        as (r & out & Hso & He & [Hsd Hcl]); [rewrite HpL in *; lia|].
      rewrite Hso. cbn [negb Z.eqb SQLITE_OK].
      assert (HLc : forall x, List.filter (eqvb x) out = List.filter (eqvb x) inp).
      { intros x. rewrite Hcl, <- Hc, (Hm eq_refl), HpL. done. }
      pose proof (classes_length _ inp out (le_n _) HLc) as HLl.
      exists out. split; [|done].
      apply drain_list; [done|done| |lia].
      destruct out; [|done].
      destruct inp; [simpl in Hl; lia|discriminate HLl].
Qed.

Lemma pma_bytes_length (l : list blob) : Z.of_nat (length l) <= pma_bytes l.
Proof.
  induction l as [|k l IH]; [done|].
  cbn [length pma_bytes fold_right]. fold (pma_bytes l).
  pose proof (varint_pos (nKey k)). unfold nKey in *. lia.
Qed.

Lemma sorted_adjacent : forall (out : list blob) (i : nat) a b,
  sorted out -> out !! i = Some a -> out !! S i = Some b -> le a b.
Proof.
  induction out as [|y out IH]; intros i a b Hs Ha Hb; [done|].
  inversion Hs as [|? ? Hs' Hall]; subst.
  destruct i as [|i].
  - injection Ha as ->. cbn in Hb. rewrite List.Forall_forall in Hall.
    apply Hall. apply list_elem_of_In. by eapply list_elem_of_lookup_2.
  - by apply (IH i).
Qed.

(** C1: for a sorter as sqlite3VdbeSorterInit leaves it and any sequence
    of records whose stored size stays in the range of the sorter's
    counters, the writes succeed, and rewind followed by key and advance
    until the end delivers as many keys as were written, each one no
    greater than the next under the host's comparison: decoding the later
    key into the scratch record and comparing the earlier one against it
    gives a result that is zero or negative. *)
Theorem C1_sorter_output_is_monotone (cfg : InitCfg) (Kcsr : KeyInfo) (nField_ : Z)
    (s0 : VdbeSorter) (inputs : list (Mem * bool)) :
  sqlite3VdbeSorterInit cfg Kcsr nField_ = (SQLITE_OK, Some s0) ->
  pKeyInfo s0 = K ->
  pma_bytes (map (fun i => z i.1) inputs) < 2 ^ 31 ->
  exists out,
    sorter_run s0 inputs = Some out /\ length out = length inputs /\
    forall (i : nat) (prev next : blob),
      out !! i = Some prev -> out !! S i = Some next ->
      forall r, sqlite3VdbeRecordCompare (nKey prev) prev
                  (sqlite3VdbeRecordUnpack K (nKey next) next r) <= 0.
Proof.
  intros Hi HK Hsz.
  pose proof (pma_bytes_length (map (fun i => z i.1) inputs)) as Hl.
  rewrite length_map in Hl.
  destruct (sorter_run_spec cfg Kcsr nField_ s0 inputs Hi HK ltac:(lia))
    as (out & Hrun & Hs & Hc).
  exists out. split; [done|]. split.
  - rewrite (classes_length _ _ out (le_n _) Hc). apply length_map.
  - intros i prev next Hp Hn r. rewrite host_cmp.
    by apply (sorted_adjacent out i).
Qed.

(** C2: under the same conditions the output is stable: for every key
    [x], the records of the output that compare equal to [x] are the
    records of the input that compare equal to [x], in the order in which
    they were written. *)
Theorem C2_sorter_is_stable (cfg : InitCfg) (Kcsr : KeyInfo) (nField_ : Z)
    (s0 : VdbeSorter) (inputs : list (Mem * bool)) :
  sqlite3VdbeSorterInit cfg Kcsr nField_ = (SQLITE_OK, Some s0) ->
  pKeyInfo s0 = K ->
  pma_bytes (map (fun i => z i.1) inputs) < 2 ^ 31 ->
  exists out,
    sorter_run s0 inputs = Some out /\
    forall x : blob,
      List.filter (fun y => cmp x y =? 0) out =
      List.filter (fun y => cmp x y =? 0) (map (fun i => z i.1) inputs).
Proof.
  intros Hi HK Hsz.
  pose proof (pma_bytes_length (map (fun i => z i.1) inputs)) as Hl.
  rewrite length_map in Hl.
  destruct (sorter_run_spec cfg Kcsr nField_ s0 inputs Hi HK ltac:(lia))
    as (out & Hrun & Hs & Hc).
  exists out. split; [done|]. exact Hc.
Qed.

(* --------------------------------------------------------------------- *)
(** ** Further properties of the sorter                                    *)
(* --------------------------------------------------------------------- *)

Lemma filter_split_perm (f : blob -> bool) (l : list blob) :
  Permutation l (List.filter f l ++ List.filter (fun x => negb (f x)) l).
Proof.
  induction l as [|a l IH]; [done|]. cbn [List.filter].
  destruct (f a); cbn [negb app].
  - by constructor.
  - etrans; [|apply Permutation_middle]. by constructor.
Qed.

(** Lists with the same equivalence classes, each in the same order, hold
    the same records. *)
Lemma classes_perm : forall (n : nat) (inp out : list blob),
  (length inp <= n)%nat ->
  (forall x, List.filter (eqvb x) out = List.filter (eqvb x) inp) ->
  Permutation out inp.
Proof.
  induction n as [|n IH]; intros inp out Hn Hcl.
  - pose proof (classes_length 0 inp out Hn Hcl) as Hl.
    destruct inp; [|simpl in Hn; lia]. by destruct out.
  - destruct inp as [|a inp].
    { pose proof (classes_length _ [] out (le_n _) Hcl) as Hl. by destruct out. }
    etrans; [apply (filter_split_perm (eqvb a))|].
    etrans; [|symmetry; apply (filter_split_perm (eqvb a))].
    rewrite Hcl. apply Permutation_app_head. apply IH.
    + cbn [List.filter]. unfold eqvb at 1. rewrite cmp_refl. cbn.
      pose proof (filter_length_le (fun x => negb (eqvb a x)) inp). simpl in Hn. lia.
    + intros x. by rewrite filter_comm, Hcl, filter_comm.
Qed.

(** Rewind, then key and advance, from any state the writes can reach:
    the end of the stream is reported at once exactly when nothing was
    written; otherwise the records come out sorted, ties in the order of
    insertion. *)
Lemma winv_rewind (s1 : VdbeSorter) (done : list blob) :
  winv s1 done ->
  Z.of_nat (length done) < 2 ^ 64 ->
  exists s2 eof,
    sqlite3VdbeSorterRewind flushOK s1 false = Some (SQLITE_OK, s2, eof) /\
    (eof = true <-> done = []) /\
    (eof = false ->
     exists out, drain (length done) s2 = Some out /\ stable_sort_of done out).
Proof.
  intros Hinv Hlen.
  destruct Hinv as [HK1 Ht Hn Hs Hc Hfp Hfl Hl Hm Hsome].
  unfold sqlite3VdbeSorterRewind.
  destruct (bUsePMA s1) eqn:Hu; cbn [negb].
  - unfold vdbeSorterFlushPMA. rewrite HK1.
    destruct (vdbeSorterListToPMA_spec (aTask0 s1) (list_ s1) Ht ltac:(lia))
      as (r & out & iEof' & Hf & He & [Hso Hcl]).
    rewrite Hf. cbn [negb Z.eqb SQLITE_OK].
    set (s2 := setFlushed s1 _ _).
    destruct (vdbeSorterSetupMerge_spec s2 r) as (s3 & L & Hsm & Hmg & HsL & HcL);
      try done; subst s2; cbn [setFlushed aTask0 task_nPMA task_file pmas].
    + lia.
    + rewrite length_app, Nat2Z.inj_add. simpl. lia.
    + apply Forall_app. split; [done|]. by constructor.
    + assert (Hmx : forall l, Forall (fun k => keysz k <= mxKeysize s1) l ->
                              Forall (fits (incrMxSz s1)) l).
      { intros l Hall. eapply Forall_impl; [exact Hall|]. intros k Hk.
        unfold fits, keysz, incrMxSz in *. cbv beta in Hk. lia. }
      replace (incrMxSz (setFlushed s1 _ _)) with (incrMxSz s1) by reflexivity.
      apply Forall_app. split.
      * eapply Forall_impl; [exact Hfp|]. exact Hmx.
      * constructor; [|constructor]. apply Hmx.
        apply (classes_Forall _ (rev (pList (list_ s1)))); [done|].
        by apply Forall_rev.
    + rewrite Hsm.
      assert (HLc : forall x, List.filter (eqvb x) L = List.filter (eqvb x) done).
      { intros x. rewrite HcL. cbn [setFlushed aTask0 task_file pmas].
        rewrite classes_app, <- Hc. unfold classes at 2. cbn [map concat].
        by rewrite app_nil_r, Hcl. }
      pose proof (classes_length _ done L (le_n _) HLc) as HLl.
      specialize (Hsome eq_refl).
      exists s3, false. split; [done|]. split; [split; [discriminate|done]|].
      intros _. exists L. split; [|done].
      apply drain_merging; [done| |lia].
      destruct L; [|done]. destruct done; [done|discriminate HLl].
  - destruct (pList (list_ s1)) as [|k l] eqn:HpL.
    + exists s1, true. split; [done|].
      rewrite (Hm eq_refl) in Hc. cbn in Hc.
      assert (Hnil : done = []).
      { destruct done as [|y inp']; [done|]. specialize (Hc y).
        cbn in Hc. unfold eqvb in Hc at 1. rewrite cmp_refl in Hc. discriminate Hc. }
      split; [done|]. discriminate.
    + rewrite HK1.
      destruct (vdbeSorterSort_spec 0 (aTask0 s1) (list_ s1) Ht)
        as (r & out & Hso & He & [Hsd Hcl]); [rewrite HpL in *; lia|].
      rewrite Hso.
      assert (HLc : forall x, List.filter (eqvb x) out = List.filter (eqvb x) done).
      { intros x. rewrite Hcl, <- Hc, (Hm eq_refl), HpL. done. }
      pose proof (classes_length _ done out (le_n _) HLc) as HLl.
      eexists _, false. split; [reflexivity|]. split.
      * split; [discriminate|]. intros ->. simpl in Hl. lia.
      * intros _. exists out. split; [|done].
        apply drain_list; [done|done| |lia].
        destruct out; [|done].
        destruct done; [simpl in Hl; lia|discriminate HLl].
Qed.

(** X1: for a sorter as sqlite3VdbeSorterInit leaves it, the keys that
    rewind, key and advance deliver are a permutation of the records
    written: none is lost, none is delivered twice. *)
Theorem sorter_output_is_permutation (cfg : InitCfg) (Kcsr : KeyInfo) (nField_ : Z)
    (s0 : VdbeSorter) (inputs : list (Mem * bool)) :
  sqlite3VdbeSorterInit cfg Kcsr nField_ = (SQLITE_OK, Some s0) ->
  pKeyInfo s0 = K ->
  Z.of_nat (length inputs) < 2 ^ 64 ->
  exists out,
    sorter_run s0 inputs = Some out /\
    Permutation out (map (fun i => z i.1) inputs).
Proof.
  intros Hi HK Hlen.
  destruct (sorter_run_spec cfg Kcsr nField_ s0 inputs Hi HK Hlen)
    as (out & Hrun & Hs & Hc).
  exists out. split; [done|]. by apply (classes_perm _ _ _ (le_n _)).
Qed.

(** X2: vdbeSorterMerge of two sorted lists returns a sorted list that
    holds the records of both; among records that compare equal, those of
    the first list come first, each list in its own order.  The error code
    of the scratch record is as before. *)
Theorem vdbeSorterMerge_sorted_stable (r2 : UnpackedRecord) (p1 p2 : list blob) :
  sorted p1 -> sorted p2 ->
  let '(out, r2') := vdbeSorterMerge K r2 p1 p2 in
  sorted out /\ Permutation out (p1 ++ p2) /\
  (forall x, List.filter (eqvb x) out =
             List.filter (eqvb x) p1 ++ List.filter (eqvb x) p2) /\
  errCode r2' = errCode r2.
Proof.
  intros H1 H2. pose proof (vdbeSorterMerge_spec r2 p1 p2) as [Hm He].
  destruct (vdbeSorterMerge K r2 p1 p2) as [out r2']. cbn [fst snd] in *. subst out.
  assert (Hf : forall x, List.filter (eqvb x) (merge p1 p2) =
                         List.filter (eqvb x) (p1 ++ p2)).
  { intros x. rewrite List.filter_app. by apply merge_filter. }
  split; [by apply merge_sorted|]. split; [|split; [|done]].
  - by apply (classes_perm _ _ _ (le_n _)).
  - intros x. by apply merge_filter.
Qed.

(** X3: vdbeSorterSort, given its two allocations, sorts the in-memory
    list, which is linked from the newest record to the oldest: the result
    is sorted, holds the same records, and records that compare equal are
    in the order in which they were written.  The status is the error code
    the scratch record had. *)
Theorem vdbeSorterSort_sorts (e : Z) (t : SortSubtask) (l : SorterList) :
  task_err e t ->
  Z.of_nat (length (pList l)) < 2 ^ 64 ->
  exists t' out,
    vdbeSorterSort flushOK K t l = Some (e, t', mkSorterList out (aMemory l) (szPMA l)) /\
    sorted out /\ Permutation out (pList l) /\
    forall x, List.filter (eqvb x) out = List.filter (eqvb x) (rev (pList l)).
Proof.
  intros Ht Hlen.
  destruct (vdbeSorterSort_spec e t l Ht Hlen) as (r & out & Hs & _ & [Hso Hcl]).
  eexists _, out. split; [exact Hs|]. split; [done|]. split; [|done].
  etrans; [apply (classes_perm _ _ _ (le_n _) Hcl)|].
  symmetry. apply Permutation_rev.
Qed.

(** X4: after the writes, sqlite3VdbeSorterRewind succeeds, and it reports
    the end of the stream exactly when no record was written. *)
Theorem rewind_eof_iff_nothing_written (cfg : InitCfg) (Kcsr : KeyInfo) (nField_ : Z)
    (s0 : VdbeSorter) (inputs : list (Mem * bool)) :
  sqlite3VdbeSorterInit cfg Kcsr nField_ = (SQLITE_OK, Some s0) ->
  pKeyInfo s0 = K ->
  Z.of_nat (length inputs) < 2 ^ 64 ->
  exists s1 s2 eof,
    write_all s0 inputs = Some (SQLITE_OK, s1) /\
    sqlite3VdbeSorterRewind flushOK s1 false = Some (SQLITE_OK, s2, eof) /\
    (eof = true <-> inputs = []).
Proof.
  intros Hi HK Hlen. pose proof (winv_init cfg Kcsr nField_ s0 Hi HK) as Hw0.
  destruct (winv_write_all inputs s0 [] Hw0) as (s1 & Hw & Hinv); [simpl; lia|].
  rewrite app_nil_l in Hinv.
  destruct (winv_rewind s1 _ Hinv) as (s2 & eof & Hr & Heof & _).
  { by rewrite length_map. }
  exists s1, s2, eof. split; [done|]. split; [done|].
  rewrite Heof. split; [|by intros ->]. by destruct inputs.
Qed.

Lemma pma_bytes_cons (k : blob) (l : list blob) :
  pma_bytes (k :: l) = keysz k + pma_bytes l.
Proof. unfold pma_bytes, keysz. cbn [fold_right]. lia. Qed.

Lemma pma_bytes_nonneg' (l : list blob) : 0 <= pma_bytes l.
Proof. pose proof (pma_bytes_length l). lia. Qed.

(** X5: without the bulk arena, while the PMA size of the list with the
    records to come stays within mxPmaSize, and the heap is not reported
    nearly full (or that size stays within mnPmaSize too), every write
    puts its record in front of the list and none flushes: the subtask,
    with its PMA count and its files, is untouched. *)
Theorem writes_within_budget_stay_in_memory : forall (inputs : list (Mem * bool))
    (s : VdbeSorter),
  aMemory (list_ s) = false ->
  szPMA (list_ s) + pma_bytes (map (fun i => z i.1) inputs) <= mxPmaSize s ->
  (Forall (fun i => i.2 = false) inputs \/
   szPMA (list_ s) + pma_bytes (map (fun i => z i.1) inputs) <= mnPmaSize s) ->
  exists s',
    write_all s inputs = Some (SQLITE_OK, s') /\
    pList (list_ s') = rev (map (fun i => z i.1) inputs) ++ pList (list_ s) /\
    aTask0 s' = aTask0 s /\ bUsePMA s' = bUsePMA s.
Proof.
  induction inputs as [|[m hnf] inputs IH]; intros s Ham Hmx Hmn.
  - exists s. done.
  - cbn [map fst] in Hmx, Hmn. rewrite pma_bytes_cons in Hmx, Hmn.
    pose proof (pma_bytes_nonneg' (map (fun i => z i.1) inputs)) as Hp.
    pose proof (varint_pos (nKey (z m))) as Hv.
    assert (Hk : 0 < keysz (z m)) by (unfold keysz, nKey in *; lia).
    assert (Hb : bFlush hnf s (Mem_n m + szSorterRecord) = false).
    { unfold bFlush. rewrite Ham.
      destruct (mxPmaSize s =? 0); [done|]. cbn [negb andb].
      apply orb_false_iff. split; [apply Z.ltb_ge; lia|].
      destruct Hmn as [Hall|Hmn].
      - apply Forall_cons in Hall as [Hh _]. cbn in Hh. rewrite Hh. apply andb_false_r.
      - apply andb_false_iff. left. apply Z.ltb_ge. lia. }
    destruct (write_noflush s m hnf Hb) as (s1 & Hw & Ha & Ht & Hu).
    cbn [write_all]. rewrite Hw, Z.eqb_refl.
    destruct Ha as (HpL & Ham1 & Hmn1 & Hmx1 & _).
    assert (Hsz : szPMA (list_ s1) = szPMA (list_ s) + keysz (z m)).
    { revert Hw. unfold sqlite3VdbeSorterWrite. simpl heapNearlyFull. rewrite Hb.
      cbv zeta. rewrite Ham. simpl bAllocRecord. cbn [negb]. intros [= <-]. done. }
    destruct (IH s1) as (s' & Hw' & HpL' & Ht' & Hu').
    + congruence.
    + rewrite Hsz, Hmx1. lia.
    + destruct Hmn as [Hall|Hmn].
      * left. by apply Forall_cons in Hall as [_ ?].
      * right. rewrite Hsz, Hmn1. lia.
    + exists s'. split; [done|]. split; [|split; congruence].
      rewrite HpL', HpL. cbn [map rev fst]. by rewrite <- app_assoc.
Qed.



End Order.

(* --------------------------------------------------------------------- *)
(** ** The size of a merge engine                                          *)
(* --------------------------------------------------------------------- *)

Lemma new_N_pow : forall (fuel N n : nat),
  (0 < N)%nat -> (n <= N + fuel)%nat ->
  exists j : nat,
    new_N fuel N n = (N * 2 ^ j)%nat /\ (n <= new_N fuel N n)%nat /\
    ((0 < j)%nat -> (new_N fuel N n < 2 * n)%nat).
Proof.
  induction fuel as [|fuel IH]; intros N n HN Hn.
  - exists 0%nat. cbn. split; [lia|]. split; lia.
  - cbn [new_N]. destruct (Nat.ltb_spec N n) as [Hlt|Hge].
    + destruct (IH (N + N)%nat n) as (j & Hj & Hle & Hmin); [lia|lia|].
      exists (S j). split; [rewrite Hj; cbn [Nat.pow]; lia|]. split; [done|].
      intros _. destruct j as [|j].
      * rewrite Hj. cbn. lia.
      * apply Hmin. lia.
    + exists 0%nat. cbn. split; [lia|]. split; lia.
Qed.

(** X7: vdbeMergeEngineNew, asked for at most SORTER_MAX_MERGE_COUNT
    readers, returns an engine whose size is the smallest power of two
    that is at least 2 and at least the number asked for; the tree and the
    readers have that many slots, every reader at end of file and without
    a key. *)
Theorem vdbeMergeEngineNew_size (nIter : nat) :
  (nIter <= SORTER_MAX_MERGE_COUNT)%nat ->
  let pNew := vdbeMergeEngineNew nIter in
  (exists j : nat, nTree pNew = (2 ^ S j)%nat) /\
  (nIter <= nTree pNew)%nat /\
  (nTree pNew = 2%nat \/ (nTree pNew < 2 * nIter)%nat) /\
  length (aTree pNew) = nTree pNew /\
  length (aIter pNew) = nTree pNew /\
  Forall (fun r => pFile r = false /\ aKey r = None /\ pIncr r = None) (aIter pNew).
Proof.
  intros _. cbv zeta. unfold vdbeMergeEngineNew. cbn [nTree aTree aIter].
  destruct (new_N_pow nIter 2 nIter) as (j & Hj & Hle & Hmin); [lia|lia|].
  rewrite !length_replicate. split; [exists j; rewrite Hj; cbn [Nat.pow]; lia|].
  split; [done|]. split.
  - destruct j as [|j]; [left; rewrite Hj; cbn; lia|right; apply Hmin; lia].
  - split; [done|]. split; [done|]. apply Forall_forall. intros r Hr.
    apply elem_of_replicate in Hr as [-> _]. done.
Qed.

(* --------------------------------------------------------------------- *)
(** ** The shape of the merge tree                                         *)
(* --------------------------------------------------------------------- *)

(** Modelled from the spec: [d] is the ceiling of the base-16 logarithm
    of [n], the least [d] with [n <= 16 ^ d]. *)
Definition ceil_log16 (n : Z) (d : nat) : Prop :=
  16 ^ (Z.of_nat d - 1) < n <= 16 ^ Z.of_nat d.

(** C9: when a subtask has written [n > 16] PMAs, vdbeSorterMergeTreeBuild
    returns a tree whose root is an engine of 16 readers, and the number
    of levels of engines of the tree, from the root down to the engines
    that read the PMAs, is the ceiling of the base-16 logarithm of [n];
    it is one more than vdbeSorterTreeDepth, which does not count the
    leaf engines. *)
Theorem C9_merge_tree_depth `{H : Host} (r2 : UnpackedRecord) (s : VdbeSorter) :
  16 < task_nPMA (aTask0 s) ->
  Z.of_nat (length (pmas (task_file (aTask0 s)))) = task_nPMA (aTask0 s) ->
  exists file2 root,
    vdbeSorterMergeTreeBuild r2 s = Some (file2, Some root) /\
    nTree root = 16%nat /\ length (aIter root) = 16%nat /\
    treeLevels root = S (vdbeSorterTreeDepth (task_nPMA (aTask0 s))) /\
    ceil_log16 (task_nPMA (aTask0 s)) (treeLevels root).
Proof.
  intros Hn Hlen.
  destruct (vdbeSorterMergeTreeBuild_spec (pKeyInfo s) r2 s eq_refl ltac:(lia) Hlen)
    as (file2 & root & c & Hb & Hf & Hc).
  specialize (Hc Hn).
  destruct (vdbeSorterTreeDepth_spec (task_nPMA (aTask0 s)) ltac:(lia)) as [Hup Hlow].
  cbv zeta in Hup, Hlow.
  destruct (filled_levels _ _ _ _ _ Hf) as [_ Hlv]. specialize (Hlv (or_intror Hc)).
  exists file2, root. split; [done|].
  destruct (vdbeSorterTreeDepth (task_nPMA (aTask0 s))) as [|d] eqn:Hd;
    [simpl in Hup; lia|].
  destruct Hf as (Hnt & _ & Hli & _).
  split; [done|]. split; [done|]. split; [done|].
  rewrite Hlv. unfold ceil_log16.
  replace (Z.of_nat (S (S d)) - 1) with (Z.of_nat (S d)) by lia.
  replace (Z.of_nat (S (S d))) with (Z.of_nat (S d) + 1) by lia.
  destruct Hlow as [|Hlow]; [done|]. lia.
Qed.

(* --------------------------------------------------------------------- *)
(** ** The example host obeys the laws                                     *)
(* --------------------------------------------------------------------- *)

Definition demoCmp (a b : blob) : Z := default 0 (head a) - default 0 (head b).

Lemma demoVarintLen_loop_pos : forall (fuel : nat) v i,
  0 <= i -> (0 < fuel)%nat -> 1 <= demoVarintLen_loop fuel v i.
Proof.
  induction fuel as [|fuel IH]; intros v i Hi Hf; [lia|].
  cbn [demoVarintLen_loop].
  destruct ((Z.shiftr v 7 =? 0) || (9 <=? i + 1)); [lia|].
  destruct fuel as [|fuel']; [cbn; lia|]. apply IH; lia.
Qed.

Lemma demo_laws (K : KeyInfo) : HostLaws (H := demoHost) K demoCmp.
Proof.
  constructor.
  - intros a b n r. reflexivity.
  - intros n b r. reflexivity.
  - intros a b. unfold demoCmp. rewrite <- Z.sgn_opp. f_equal. lia.
  - intros a b c. unfold demoCmp. lia.
  - intros n. apply demoVarintLen_loop_pos; lia.
Qed.


(* --------------------------------------------------------------------- *)
(** ** Examples                                                            *)
(* --------------------------------------------------------------------- *)

#[local] Existing Instance demoHost.

Definition demoK : KeyInfo := mkKeyInfo 1.

Definition demoTask : SortSubtask :=
  mkSortSubtask None 0 (mkSorterFile false 0 []) (mkSorterFile false 0 []).

(** Pages of 512 bytes, a cache of 10 pages, records allocated one by one. *)
Definition demo_cfg : InitCfg := mkInitCfg 512 10 false true true true.
Definition demo_s0 : VdbeSorter :=
  mkVdbeSorter 5120 5120 0 512 None demoK None (mkSorterList [] false 0)
    0 0 false demoTask.

(** The same with the bulk arena. *)
Definition demo_cfg_arena : InitCfg := mkInitCfg 512 10 false false true true.
Definition demo_s0_arena : VdbeSorter :=
  mkVdbeSorter 5120 5120 0 512 None demoK None (mkSorterList [] true 0)
    0 512 false demoTask.


Definition rec (key tag : Z) : Mem := mkMem MEM_Blob [key; tag].

(** Keys 5 2 5 1 3 with tags a b c d e. *)
Definition demo_inputs : list (Mem * bool) :=
  [(rec 5 97, false); (rec 2 98, false); (rec 5 99, false);
   (rec 1 100, false); (rec 3 101, false)].

Example sorter_in_memory :
  sorter_run demo_s0 demo_inputs =
    Some [[1; 100]; [2; 98]; [3; 101]; [5; 97]; [5; 99]].
Proof. vm_compute. reflexivity. Qed.

(** Thresholds set by hand so that two records fill the list: three PMAs
    are merged at rewind. *)
Example sorter_spilled :
  sorter_run
    (mkVdbeSorter 5 5 0 512 None demoK None (mkSorterList [] false 0)
       0 0 false demoTask) demo_inputs =
    Some [[1; 100]; [2; 98]; [3; 101]; [5; 97]; [5; 99]].
Proof. vm_compute. reflexivity. Qed.

(** One record to a PMA, 40 PMAs: a tree of two levels of engines. *)
Example sorter_two_levels :
  sorter_run
    (mkVdbeSorter 1 1 0 512 None demoK None (mkSorterList [] false 0)
       0 0 false demoTask)
    (map (fun i => (rec (Z.of_nat (i mod 7)) (Z.of_nat i), false)) (seq 0 40)) =
    Some (map (fun p => [Z.of_nat p.1; Z.of_nat p.2])
            (concat (map (fun k => map (fun i => (k, i))
                                     (List.filter (fun i => (i mod 7 =? k)%nat) (seq 0 40)))
                         (seq 0 7)))).
Proof. vm_compute. reflexivity. Qed.

Lemma C1_witness :
  exists out,
    sorter_run demo_s0 demo_inputs = Some out /\ length out = length demo_inputs /\
    forall (i : nat) (prev next : blob),
      out !! i = Some prev -> out !! S i = Some next ->
      forall r, sqlite3VdbeRecordCompare (nKey prev) prev
                  (sqlite3VdbeRecordUnpack demoK (nKey next) next r) <= 0.
Proof.
  apply (C1_sorter_output_is_monotone (H := demoHost) demoK demoCmp
           (HL := demo_laws demoK) demo_cfg demoK 0 demo_s0 demo_inputs).
  - reflexivity.
  - reflexivity.
  - vm_compute. reflexivity.
Defined.

Lemma C2_witness :
  exists out,
    sorter_run demo_s0_arena demo_inputs = Some out /\
    forall x : blob,
      List.filter (fun y => demoCmp x y =? 0) out =
      List.filter (fun y => demoCmp x y =? 0) (map (fun i => z i.1) demo_inputs).
Proof.
  apply (C2_sorter_is_stable (H := demoHost) demoK demoCmp
           (HL := demo_laws demoK) demo_cfg_arena demoK 0 demo_s0_arena demo_inputs).
  - reflexivity.
  - reflexivity.
  - vm_compute. reflexivity.
Defined.

(** *** The flush condition *)




(** *** Errors *)

(** A record of 6000 bytes, more than the 5120 of the threshold. *)
Definition demo_big : Mem := mkMem MEM_Blob (7 :: replicate (60 * 100 - 1) 0).

(** A host whose write of the PMA fails with SQLITE_IOERR. *)
Definition SQLITE_IOERR : Z := 10.
Definition write_fails : WriteEnv :=
  mkWriteEnv false (mkFlushEnv SQLITE_OK true true SQLITE_IOERR) true.

(** The first write succeeds; the second has to flush and returns the
    error of the failed write of the PMA; the third, with no flush due,
    returns SQLITE_OK and appends its record. *)
Lemma C8_counterexample :
  exists s1 s2 s3,
    sqlite3VdbeSorterInit demo_cfg demoK 0 = (SQLITE_OK, Some demo_s0) /\
    sqlite3VdbeSorterWrite (writeOK false) demo_s0 demo_big = Some (SQLITE_OK, s1) /\
    sqlite3VdbeSorterWrite write_fails s1 (rec 2 98) = Some (SQLITE_IOERR, s2) /\
    sqlite3VdbeSorterWrite (writeOK false) s2 (rec 3 99) = Some (SQLITE_OK, s3) /\
    pList (list_ s3) = [[3; 99]; [2; 98]].
Proof.
  eexists _, _, _. split; [reflexivity|]. split; [vm_compute; reflexivity|].
  split; [vm_compute; reflexivity|]. split; [vm_compute; reflexivity|].
  reflexivity.
Qed.

Lemma C8_witness :
  (forall pVal hnf,
     ~ flush_due hnf demo_s0 pVal ->
     exists s',
       sqlite3VdbeSorterWrite (writeOK hnf) demo_s0 pVal = Some (SQLITE_OK, s') /\
       pList (list_ s') = z pVal :: pList (list_ demo_s0)) /\
  (forall e t l,
     task_err e t -> Z.of_nat (length (pList l)) < 2 ^ 64 ->
     exists t' l', vdbeSorterSort flushOK demoK t l = Some (e, t', l')) /\
  (let s' := sqlite3VdbeSorterReset demo_s0 in
   pList (list_ s') = [] /\ szPMA (list_ s') = 0 /\ iMemory s' = 0 /\
   bUsePMA s' = false /\ mxKeysize s' = 0 /\ pMerger s' = None /\
   pUnpacked s' = None /\ task_pUnpacked (aTask0 s') = None /\
   pFd (task_file (aTask0 s')) = false /\ pFd (task_file2 (aTask0 s')) = false) /\
  sqlite3VdbeSorterClose (Some demo_s0) = None.
Proof.
  exact (C8_errors_are_not_sticky (H := demoHost) demoK demoCmp
           (HL := demo_laws demoK) demo_s0).
Defined.

(** *** sqlite3VdbeSorterCompare *)

(** C7, what the code does: with a scratch record at hand and a key under
    the read cursor, the compare operation decodes that key and returns
    SQLITE_OK; when one of the first [nField] decoded fields is NULL the
    result is [-1] whatever the caller's key, and otherwise it is the
    host's comparison of the caller's key against the decoded key.  By
    the convention of that comparison a negative result says that the
    caller's key is the smaller one, so [-1] reports the sorter key as the
    greater of the two, not the lesser. *)
Theorem C7_null_key_reports_minus_one `{H : Host} (Kcsr : KeyInfo) (s : VdbeSorter)
    (pVal : Mem) (nIgnore pRes0 : Z) (r2 : UnpackedRecord) (pKey : option blob) :
  pUnpacked s = Some r2 -> vdbeSorterRowkey s = Some pKey ->
  let k := default [] pKey in
  let r2' := sqlite3VdbeRecordUnpack Kcsr (nKey k) k r2 in
  sqlite3VdbeSorterCompare true Kcsr s pVal nIgnore pRes0 =
    Some (SQLITE_OK, setUnpacked s r2',
          if firstNull (Z.to_nat (nField r2')) (aMem r2') then -1
          else sqlite3VdbeRecordCompare (Mem_n pVal) (z pVal) r2').
Proof.
  intros Hr Hk. unfold sqlite3VdbeSorterCompare. rewrite Hr, Hk. cbv zeta.
  by destruct (firstNull _ _).
Qed.

(** A sorter whose current key starts with a NULL field (key byte 0). *)
Definition demo_null_sorter : VdbeSorter :=
  mkVdbeSorter 5120 5120 0 512 None demoK (Some (mkUnpacked 1 0 []))
    (mkSorterList [[0; 97]] false 3) 0 0 false demoTask.

Lemma C7_witness :
  sqlite3VdbeSorterCompare true demoK demo_null_sorter (rec 5 98) 0 0 =
    Some (SQLITE_OK,
          setUnpacked demo_null_sorter (mkUnpacked 1 0 [mkMem MEM_Null [0; 97]]),
          -1) /\
  sqlite3VdbeRecordCompare (Mem_n (rec 5 98)) (z (rec 5 98))
    (mkUnpacked 1 0 [mkMem MEM_Null [0; 97]]) = 5.
Proof.
  split; [|reflexivity].
  exact (C7_null_key_reports_minus_one (H := demoHost) demoK demo_null_sorter
           (rec 5 98) 0 0 (mkUnpacked 1 0 []) (Some [0; 97]) eq_refl eq_refl).
Defined.

(** *** A tree over 17 PMAs *)
Definition demo_s17 : VdbeSorter :=
  mkVdbeSorter 5120 5120 2 512 None demoK None (mkSorterList [] false 0)
    0 0 true
    (mkSortSubtask (Some (mkUnpacked 1 0 [])) 17
       (mkSorterFile true 51 (replicate 17 [[1]])) (mkSorterFile false 0 [])).

Lemma C9_witness :
  exists file2 root,
    vdbeSorterMergeTreeBuild (mkUnpacked 1 0 []) demo_s17 = Some (file2, Some root) /\
    nTree root = 16%nat /\ length (aIter root) = 16%nat /\
    treeLevels root = S (vdbeSorterTreeDepth 17) /\
    ceil_log16 17 (treeLevels root).
Proof.
  apply (C9_merge_tree_depth (H := demoHost) (mkUnpacked 1 0 []) demo_s17).
  - reflexivity.
  - reflexivity.
Defined.

(** Witnesses of the further properties. *)

Lemma sorter_output_is_permutation_witness :
  exists out,
    sorter_run demo_s0 demo_inputs = Some out /\
    Permutation out (map (fun i => z i.1) demo_inputs).
Proof.
  apply (sorter_output_is_permutation (H := demoHost) demoK demoCmp
           (HL := demo_laws demoK) demo_cfg demoK 0 demo_s0 demo_inputs).
  - reflexivity.
  - reflexivity.
  - vm_compute. reflexivity.
Defined.

Lemma demo_sorted_17 : sorted demoCmp [[1; 100]; [7; 97]].
Proof. repeat (constructor; try (vm_compute; discriminate)). Qed.

Lemma demo_sorted_37 : sorted demoCmp [[3; 101]; [7; 98]].
Proof. repeat (constructor; try (vm_compute; discriminate)). Qed.

Lemma vdbeSorterMerge_sorted_stable_witness :
  let '(out, r2') :=
    vdbeSorterMerge demoK (mkUnpacked 1 0 []) [[1; 100]; [7; 97]] [[3; 101]; [7; 98]] in
  sorted demoCmp out /\
  Permutation out ([[1; 100]; [7; 97]] ++ [[3; 101]; [7; 98]]) /\
  (forall x, List.filter (eqvb demoCmp x) out =
             List.filter (eqvb demoCmp x) [[1; 100]; [7; 97]] ++
             List.filter (eqvb demoCmp x) [[3; 101]; [7; 98]]) /\
  errCode r2' = errCode (mkUnpacked 1 0 []).
Proof.
  exact (vdbeSorterMerge_sorted_stable (H := demoHost) demoK demoCmp
           (HL := demo_laws demoK) (mkUnpacked 1 0 [])
           [[1; 100]; [7; 97]] [[3; 101]; [7; 98]] demo_sorted_17 demo_sorted_37).
Defined.

Lemma vdbeSorterSort_sorts_witness :
  exists t' out,
    vdbeSorterSort flushOK demoK demoTask (mkSorterList [[5; 99]; [2; 98]; [5; 97]] false 0)
      = Some (0, t', mkSorterList out false 0) /\
    sorted demoCmp out /\
    Permutation out [[5; 99]; [2; 98]; [5; 97]] /\
    forall x, List.filter (eqvb demoCmp x) out =
              List.filter (eqvb demoCmp x) (rev [[5; 99]; [2; 98]; [5; 97]]).
Proof.
  apply (vdbeSorterSort_sorts (H := demoHost) demoK demoCmp (HL := demo_laws demoK)
           0 demoTask (mkSorterList [[5; 99]; [2; 98]; [5; 97]] false 0)).
  - reflexivity.
  - vm_compute. reflexivity.
Defined.

Lemma rewind_eof_iff_nothing_written_witness :
  exists s1 s2 eof,
    write_all demo_s0 demo_inputs = Some (SQLITE_OK, s1) /\
    sqlite3VdbeSorterRewind flushOK s1 false = Some (SQLITE_OK, s2, eof) /\
    (eof = true <-> demo_inputs = []).
Proof.
  apply (rewind_eof_iff_nothing_written (H := demoHost) demoK demoCmp
           (HL := demo_laws demoK) demo_cfg demoK 0 demo_s0 demo_inputs).
  - reflexivity.
  - reflexivity.
  - vm_compute. reflexivity.
Defined.

Lemma writes_within_budget_stay_in_memory_witness :
  exists s',
    write_all demo_s0 demo_inputs = Some (SQLITE_OK, s') /\
    pList (list_ s') = rev (map (fun i => z i.1) demo_inputs) ++ pList (list_ demo_s0) /\
    aTask0 s' = aTask0 demo_s0 /\ bUsePMA s' = bUsePMA demo_s0.
Proof.
  apply (writes_within_budget_stay_in_memory (H := demoHost) demoK demoCmp
           (HL := demo_laws demoK) demo_inputs demo_s0).
  - reflexivity.
  - vm_compute. discriminate.
  - left. repeat constructor.
Defined.


Lemma vdbeMergeEngineNew_size_witness :
  let pNew := vdbeMergeEngineNew 5 in
  (exists j : nat, nTree pNew = (2 ^ S j)%nat) /\
  (5 <= nTree pNew)%nat /\
  (nTree pNew = 2%nat \/ (nTree pNew < 2 * 5)%nat) /\
  length (aTree pNew) = nTree pNew /\
  length (aIter pNew) = nTree pNew /\
  Forall (fun r => pFile r = false /\ aKey r = None /\ pIncr r = None) (aIter pNew).
Proof.
  apply (vdbeMergeEngineNew_size 5). vm_compute. lia.
Defined.

End VdbeSort.

(* ===================================================================== *)
(** * Part I, continued: the bytes of a PMA (src/src/vdbesort.c)          *)
(* ===================================================================== *)

(** * The PMA on disk: vdbesort.c, the writer and the reader of the bytes

    A PMA is a varint, the number of bytes that follow, and then the
    records, each a varint, the size of the key, and the key.  The
    functions below are the ones that put these bytes into the temporary
    file through a page-sized buffer and read them back.  A file is the
    list of its bytes; offsets (i64) and sizes (int) are integers, for
    runs in which none leaves the range of its C type. *)
Module PmaIO.
Local Open Scope Z_scope.

Definition SQLITE_OK : Z := 0.
Definition SQLITE_NOMEM : Z := 7.
Definition SQLITE_IOERR_SHORT_READ : Z := 522.

(** [sub l off n]: the [n] bytes at [&l[off]]. *)
Definition sub (l : list Z) (off n : Z) : list Z :=
  take (Z.to_nat n) (drop (Z.to_nat off) l).

(** [memcpy dst off src]: memcpy(&dst[off], src, length src). *)
Definition memcpy (dst : list Z) (off : Z) (src : list Z) : list Z :=
  take (Z.to_nat off) dst ++ src ++ drop (Z.to_nat off + length src) dst.

(** The varint codec of util.c. *)
Class Varint := {
  sqlite3PutVarint : Z -> list Z;       (* the bytes written *)
  sqlite3GetVarint : list Z -> Z * Z;   (* the value, and the bytes read *)
  sqlite3VarintLen : Z -> Z
}.

(** (int)v for a 64-bit v *)
Definition to_int (v : Z) : Z := (v + 2 ^ 31) mod 2 ^ 32 - 2 ^ 31.

(** Modelled from the spec: sqlite3OsWrite puts the bytes at the offset,
    the file growing (with zeros in a gap) as needed, unless the
    VFS reports an error, [rcW] at that offset; the file is then left as
    it was. *)
Definition sqlite3OsWrite (rcW : Z -> Z) (f : list Z) (data : list Z) (off : Z)
  : Z * list Z :=
  if rcW off =? SQLITE_OK
  then (SQLITE_OK,
        memcpy (f ++ replicate (Z.to_nat off - length f) 0) off data)
  else (rcW off, f).

(** Modelled from the spec: sqlite3OsRead returns the [n] bytes at the
    offset, SQLITE_IOERR_SHORT_READ when the file ends before, or the
    error [rcR] of the VFS at that offset. *)
Definition sqlite3OsRead (rcR : Z -> Z) (f : list Z) (n off : Z) : Z * list Z :=
  if rcR off =? SQLITE_OK
  then if off + n <=? Z.of_nat (length f)
       then (SQLITE_OK, sub f off n)
       else (SQLITE_IOERR_SHORT_READ, [])
  else (rcR off, []).

(** ** The writer *)

Record PmaWriter := mkPmaWriter {
  eFWErr : Z;
  w_aBuffer : option (list Z);
  w_nBuffer : Z;
  iBufStart : Z;
  iBufEnd : Z;
  iWriteOff : Z;
  w_pFile : bool
}.

(** [bAlloc]: sqlite3Malloc succeeds. *)
Definition vdbePmaWriterInit (bAlloc : bool) (nBuf iStart : Z) : PmaWriter :=
  if bAlloc
  then let s := Z.rem iStart nBuf in
       mkPmaWriter 0 (Some (replicate (Z.to_nat nBuf) 0)) nBuf s s (iStart - s) true
  else mkPmaWriter SQLITE_NOMEM None 0 0 0 0 false.

(** The loop of vdbePmaWriteBlob; [rest] is [&pData[nData-nRem]], of
    [nRem] bytes.  Every turn copies at least one byte while
    [iBufEnd < nBuffer], which the loop asserts. *)
Fixpoint writeBlob_loop (fuel : nat) (rcW : Z -> Z) (p : PmaWriter) (f : list Z)
    (rest : list Z) : option (PmaWriter * list Z) :=
  let nRem := Z.of_nat (length rest) in
  if (nRem >? 0) && (eFWErr p =? 0) then
    match fuel, w_aBuffer p with
    | S fuel', Some buf =>
        let nCopy := if nRem >? w_nBuffer p - iBufEnd p
                     then w_nBuffer p - iBufEnd p else nRem in
        let buf1 := memcpy buf (iBufEnd p) (take (Z.to_nat nCopy) rest) in
        let iBufEnd1 := iBufEnd p + nCopy in
        let '(p2, f2) :=
          if iBufEnd1 =? w_nBuffer p then
            let '(rc, f') :=
              sqlite3OsWrite rcW f (sub buf1 (iBufStart p) (iBufEnd1 - iBufStart p))
                (iWriteOff p + iBufStart p) in
            (mkPmaWriter rc (Some buf1) (w_nBuffer p) 0 0
               (iWriteOff p + w_nBuffer p) (w_pFile p), f')
          else
            (mkPmaWriter (eFWErr p) (Some buf1) (w_nBuffer p) (iBufStart p)
               iBufEnd1 (iWriteOff p) (w_pFile p), f) in
        if iBufEnd p2 <? w_nBuffer p2
        then writeBlob_loop fuel' rcW p2 f2 (drop (Z.to_nat nCopy) rest)
        else None
    | _, _ => None
    end
  else Some (p, f).

Definition vdbePmaWriteBlob (rcW : Z -> Z) (p : PmaWriter) (f : list Z)
    (pData : list Z) : option (PmaWriter * list Z) :=
  writeBlob_loop (length pData) rcW p f pData.

(** Returns the status, [*piEof] and the file; the writer is zeroed. *)
Definition vdbePmaWriterFinish (rcW : Z -> Z) (p : PmaWriter) (f : list Z)
  : Z * Z * list Z :=
  let '(rc, f') :=
    match w_aBuffer p with
    | Some buf =>
        if (eFWErr p =? 0) && (iBufEnd p >? iBufStart p)
        then sqlite3OsWrite rcW f (sub buf (iBufStart p) (iBufEnd p - iBufStart p))
               (iWriteOff p + iBufStart p)
        else (eFWErr p, f)
    | None => (eFWErr p, f)
    end in
  (rc, iWriteOff p + iBufEnd p, f').

Section Codec.
Context `{V : Varint}.

Definition vdbePmaWriteVarint (rcW : Z -> Z) (p : PmaWriter) (f : list Z)
    (iVal : Z) : option (PmaWriter * list Z) :=
  vdbePmaWriteBlob rcW p f (sqlite3PutVarint iVal).

(** vdbeSorterListToPMA, the loop over the sorted list. *)
Fixpoint write_records (rcW : Z -> Z) (p : PmaWriter) (f : list Z)
    (l : list (list Z)) : option (PmaWriter * list Z) :=
  match l with
  | [] => Some (p, f)
  | k :: rest =>
      match vdbePmaWriteVarint rcW p f (Z.of_nat (length k)) with
      | Some (p1, f1) =>
          match vdbePmaWriteBlob rcW p1 f1 k with
          | Some (p2, f2) => write_records rcW p2 f2 rest
          | None => None
          end
      | None => None
      end
  end.

(** vdbeSorterListToPMA once the list is sorted: the writer is set up at
    the end of the data of the file, the size and the records are
    written, and the writer is finished.  Returns the status, the new
    [file.iEof] and the file. *)
Definition listToPMA_write (rcW : Z -> Z) (bAlloc : bool) (pgsz : Z)
    (iEof0 : Z) (f : list Z) (szPMA : Z) (l : list (list Z))
  : option (Z * Z * list Z) :=
  let w := vdbePmaWriterInit bAlloc pgsz iEof0 in
  match vdbePmaWriteVarint rcW w f szPMA with
  | Some (w1, f1) =>
      match write_records rcW w1 f1 l with
      | Some (w2, f2) => Some (vdbePmaWriterFinish rcW w2 f2)
      | None => None
      end
  | None => None
  end.

(** ** The reader *)

Record SorterFile := mkSorterFile {
  pFd : bool;
  sf_iEof : Z;
  sf_data : list Z               (* the bytes of the file *)
}.

(** Of the incremental merger, what the reader looks at. *)
Record IncrMerger := mkIncrMerger {
  bEof : bool;
  iStartOff : Z;
  aFile0 : SorterFile
}.

(** Where a pointer handed out by the reader points: into the mapping,
    into the read buffer, or to the start of [aAlloc]. *)
Inductive ptr := ToMap (off : Z) | ToBuffer (off : Z) | ToAlloc.

Record PmaReader := mkPmaReader {
  iReadOff : Z;
  iEof : Z;
  nAlloc : Z;
  nKey : Z;
  pFile : bool;
  aAlloc : option (list Z);
  aKey : option ptr;
  aBuffer : option (list Z);
  nBuffer : Z;
  aMap : option (list Z);
  pIncr : option IncrMerger
}.

Definition zeroReader : PmaReader :=
  mkPmaReader 0 0 0 0 false None None None 0 None None.

Definition setReadOff (p : PmaReader) (v : Z) : PmaReader :=
  mkPmaReader v (iEof p) (nAlloc p) (nKey p) (pFile p) (aAlloc p) (aKey p)
    (aBuffer p) (nBuffer p) (aMap p) (pIncr p).
Definition setEof (p : PmaReader) (v : Z) : PmaReader :=
  mkPmaReader (iReadOff p) v (nAlloc p) (nKey p) (pFile p) (aAlloc p) (aKey p)
    (aBuffer p) (nBuffer p) (aMap p) (pIncr p).
Definition setAlloc (p : PmaReader) (n : Z) (a : option (list Z)) : PmaReader :=
  mkPmaReader (iReadOff p) (iEof p) n (nKey p) (pFile p) a (aKey p)
    (aBuffer p) (nBuffer p) (aMap p) (pIncr p).
Definition setNKey (p : PmaReader) (v : Z) : PmaReader :=
  mkPmaReader (iReadOff p) (iEof p) (nAlloc p) v (pFile p) (aAlloc p) (aKey p)
    (aBuffer p) (nBuffer p) (aMap p) (pIncr p).
Definition setKey (p : PmaReader) (q : option ptr) : PmaReader :=
  mkPmaReader (iReadOff p) (iEof p) (nAlloc p) (nKey p) (pFile p) (aAlloc p) q
    (aBuffer p) (nBuffer p) (aMap p) (pIncr p).
Definition setBuffer (p : PmaReader) (b : option (list Z)) (n : Z) : PmaReader :=
  mkPmaReader (iReadOff p) (iEof p) (nAlloc p) (nKey p) (pFile p) (aAlloc p)
    (aKey p) b n (aMap p) (pIncr p).
Definition setMap (p : PmaReader) (m : option (list Z)) : PmaReader :=
  mkPmaReader (iReadOff p) (iEof p) (nAlloc p) (nKey p) (pFile p) (aAlloc p)
    (aKey p) (aBuffer p) (nBuffer p) m (pIncr p).
Definition setFile (p : PmaReader) (fd : bool) : PmaReader :=
  mkPmaReader (iReadOff p) (iEof p) (nAlloc p) (nKey p) fd (aAlloc p)
    (aKey p) (aBuffer p) (nBuffer p) (aMap p) (pIncr p).
Definition setIncr (p : PmaReader) (i : option IncrMerger) : PmaReader :=
  mkPmaReader (iReadOff p) (iEof p) (nAlloc p) (nKey p) (pFile p) (aAlloc p)
    (aKey p) (aBuffer p) (nBuffer p) (aMap p) i.

(** The [n] bytes a pointer of the reader designates, as the buffers are
    now: the next read may overwrite them. *)
Definition deref (p : PmaReader) (q : ptr) (n : Z) : list Z :=
  match q with
  | ToMap off => sub (default [] (aMap p)) off n
  | ToBuffer off => sub (default [] (aBuffer p)) off n
  | ToAlloc => sub (default [] (aAlloc p)) 0 n
  end.

(** The current key. *)
Definition key (p : PmaReader) : list Z :=
  match aKey p with Some q => deref p q (nKey p) | None => [] end.

(** What the host answers to a reader. *)
Record ReadEnv := mkReadEnv {
  rcRead : Z -> Z;               (* sqlite3OsRead at an offset *)
  bMalloc : bool;                (* sqlite3Malloc of the read buffer succeeds *)
  bRealloc : bool;               (* sqlite3Realloc of aAlloc succeeds *)
  nMaxSorterMmap : Z;
  rcFetch : Z;                   (* sqlite3OsFetch *)
  bFetch : bool;                 (* it returned a mapping *)
  uninit : Z                     (* what an uninitialised u64 holds *)
}.

(** vdbePmaReaderClear *)
Definition vdbePmaReaderClear (pIter : PmaReader) : PmaReader := zeroReader.

(** while( nByte>nNew ) nNew = nNew*2; *)
Fixpoint grow (fuel : nat) (nNew nByte : Z) : Z :=
  match fuel with
  | O => nNew
  | S fuel' => if nByte >? nNew then grow fuel' (nNew * 2) nByte else nNew
  end.

(** The loop that copies the rest of a blob into [aAlloc], a page per
    turn; [rd] is vdbePmaReadBlob itself. *)
Fixpoint copy_loop (rd : PmaReader -> Z -> option (Z * PmaReader * option ptr))
    (fuel : nat) (p : PmaReader) (nByte nRem : Z)
  : option (Z * PmaReader * option ptr) :=
  if nRem >? 0 then
    match fuel with
    | O => None
    | S fuel' =>
        let nCopy := if nRem >? nBuffer p then nBuffer p else nRem in
        match rd p nCopy with
        | Some (rc, p1, aNext) =>
            if rc =? SQLITE_OK then
              match aNext with
              | Some ToAlloc | None => None       (* assert( aNext!=p->aAlloc ) *)
              | Some q =>
                  let a' := memcpy (default [] (aAlloc p1)) (nByte - nRem)
                              (deref p1 q nCopy) in
                  copy_loop rd fuel' (setAlloc p1 (nAlloc p1) (Some a')) nByte
                    (nRem - nCopy)
              end
            else Some (rc, p1, None)
        | None => None
        end
    end
  else Some (SQLITE_OK, p, Some ToAlloc).

(** vdbePmaReadBlob, when the buffer is exhausted ([iBuf==0]): the next
    page, or what is left of the data, is read into the buffer. *)
Definition fill (env : ReadEnv) (f : list Z) (p : PmaReader) (buf : list Z)
    (iBuf : Z) : option (Z * PmaReader) :=
  if iBuf =? 0 then
    let nRead := if iEof p - iReadOff p >? nBuffer p
                 then nBuffer p else iEof p - iReadOff p in
    if nRead >? 0 then
      let '(rc, data) := sqlite3OsRead (rcRead env) f nRead (iReadOff p) in
      if rc =? SQLITE_IOERR_SHORT_READ then None
      else if rc =? SQLITE_OK
           then Some (rc, setBuffer p (Some (memcpy buf 0 data)) (nBuffer p))
           else Some (rc, p)
    else None                           (* assert( nRead>0 ) *)
  else Some (SQLITE_OK, p).

(** vdbePmaReadBlob, the extension of [aAlloc] to [nByte] bytes at
    least; nothing when sqlite3Realloc fails. *)
Definition extend (env : ReadEnv) (p : PmaReader) (nByte : Z) : option PmaReader :=
  if nAlloc p <? nByte then
    let nNew := grow (Z.to_nat nByte) (Z.max 128 (nAlloc p * 2)) nByte in
    if bRealloc env
    then Some (setAlloc p nNew
                 (Some (default [] (aAlloc p)
                        ++ replicate (Z.to_nat (nNew - nAlloc p)) 0)))
    else None
  else Some p.

(** vdbePmaReadBlob, on the file [f] of the reader.  Returns the
    status, the reader and what is stored in [*ppOut], if anything.  [d]
    bounds the nesting of the call within the copy loop. *)
Fixpoint readBlob (d : nat) (env : ReadEnv) (f : list Z) (p : PmaReader)
    (nByte : Z) : option (Z * PmaReader * option ptr) :=
  match d with
  | O => None
  | S d' =>
      match aMap p with
      | Some _ =>
          Some (SQLITE_OK, setReadOff p (iReadOff p + nByte), Some (ToMap (iReadOff p)))
      | None =>
          match aBuffer p with
          | None => None                          (* assert( p->aBuffer ) *)
          | Some buf =>
              let iBuf := Z.rem (iReadOff p) (nBuffer p) in
              match fill env f p buf iBuf with
              | None => None
              | Some (rc, p1) =>
                  if negb (rc =? SQLITE_OK) then Some (rc, p1, None) else
                  let nAvail := nBuffer p1 - iBuf in
                  if nByte <=? nAvail then
                    Some (SQLITE_OK, setReadOff p1 (iReadOff p1 + nByte),
                          Some (ToBuffer iBuf))
                  else
                    match extend env p1 nByte with
                    | None => Some (SQLITE_NOMEM, p1, None)
                    | Some p2 =>
                        let a' := memcpy (default [] (aAlloc p2)) 0
                                    (sub (default [] (aBuffer p2)) iBuf nAvail) in
                        let p3 := setReadOff (setAlloc p2 (nAlloc p2) (Some a'))
                                    (iReadOff p2 + nAvail) in
                        copy_loop (readBlob d' env f) (Z.to_nat (nByte - nAvail))
                          p3 nByte (nByte - nAvail)
                    end
              end
          end
      end
  end.

(** The nested call reads, at a page boundary, at most a page: it does
    not nest further. *)
Definition vdbePmaReadBlob (env : ReadEnv) (f : list Z) (p : PmaReader)
    (nByte : Z) : option (Z * PmaReader * option ptr) :=
  readBlob 2 env f p nByte.

(** The do-while loop of vdbePmaReadVarint. *)
Fixpoint readVarint_loop (fuel : nat) (env : ReadEnv) (f : list Z) (p : PmaReader)
    (aVarint : list Z) (i : Z) : option (Z * PmaReader * list Z) :=
  match fuel with
  | O => None
  | S fuel' =>
      match vdbePmaReadBlob env f p 1 with
      | Some (rc, p1, a_) =>
          if negb (rc =? SQLITE_OK) then Some (rc, p1, aVarint) else
          match a_ with
          | Some q =>
              let a0 := default 0 (head (deref p1 q 1)) in
              let aVarint' := <[Z.to_nat (Z.land i 15) := a0]> aVarint in
              if negb (Z.land a0 128 =? 0)
              then readVarint_loop fuel' env f p1 aVarint' (i + 1)
              else Some (SQLITE_OK, p1, aVarint')
          | None => None
          end
      | None => None
      end
  end.

(** vdbePmaReadVarint; [out0] is what [*pnOut] holds before the call.
    The loop reads a byte per turn and cannot go past the first page
    boundary at or after [iEof], where the reader asserts [nRead>0]. *)
Definition vdbePmaReadVarint (env : ReadEnv) (f : list Z) (p : PmaReader)
    (out0 : Z) : option (Z * PmaReader * Z) :=
  match aMap p with
  | Some m =>
      let '(v, n) := sqlite3GetVarint (drop (Z.to_nat (iReadOff p)) m) in
      Some (SQLITE_OK, setReadOff p (iReadOff p + n), v)
  | None =>
      let iBuf := Z.rem (iReadOff p) (nBuffer p) in
      if negb (iBuf =? 0) && (nBuffer p - iBuf >=? 9) then
        let '(v, n) := sqlite3GetVarint
                         (drop (Z.to_nat iBuf) (default [] (aBuffer p))) in
        Some (SQLITE_OK, setReadOff p (iReadOff p + n), v)
      else
        let fuel := Z.to_nat (Z.max 0 (iEof p - iReadOff p) + nBuffer p + 1) in
        match readVarint_loop fuel env f p (replicate 16 0) 0 with
        | Some (rc, p1, aVarint) =>
            if negb (rc =? SQLITE_OK) then Some (rc, p1, out0)
            else Some (SQLITE_OK, p1, (sqlite3GetVarint aVarint).1)
        | None => None
        end
  end.

(** vdbeSorterMapFile: the status and the mapping, if one was made. *)
Definition vdbeSorterMapFile (env : ReadEnv) (pFile_ : SorterFile)
  : Z * option (list Z) :=
  if sf_iEof pFile_ <=? nMaxSorterMmap env
  then (rcFetch env,
        if bFetch env then Some (sub (sf_data pFile_) 0 (sf_iEof pFile_)) else None)
  else (SQLITE_OK, None).

Definition vdbePmaReaderSeek (env : ReadEnv) (pgsz : Z) (pIter : PmaReader)
    (pFile_ : SorterFile) (iOff : Z) : option (Z * PmaReader) :=
  if match pIncr pIter with Some inc => bEof inc | None => false end
  then None                     (* assert( pIncr==0 || pIncr->bEof==0 ) *)
  else
    let p1 := setFile (setEof (setReadOff (setMap pIter None) iOff) (sf_iEof pFile_))
                (pFd pFile_) in
    let '(rc, m) := vdbeSorterMapFile env pFile_ in
    let p2 := setMap p1 m in
    match m with
    | None =>
        if rc =? SQLITE_OK then
          let iBuf := Z.rem (iReadOff p2) pgsz in
          let '(rc1, p3) :=
            match aBuffer p2 with
            | None =>
                if bMalloc env
                then (rc, setBuffer p2 (Some (replicate (Z.to_nat pgsz) 0)) pgsz)
                else (SQLITE_NOMEM, setBuffer p2 None pgsz)
            | Some _ => (rc, p2)
            end in
          if (rc1 =? SQLITE_OK) && negb (iBuf =? 0) then
            let nRead := if iReadOff p3 + (pgsz - iBuf) >? iEof p3
                         then iEof p3 - iReadOff p3 else pgsz - iBuf in
            let '(rc2, data) :=
              sqlite3OsRead (rcRead env) (sf_data pFile_) nRead (iReadOff p3) in
            if rc2 =? SQLITE_IOERR_SHORT_READ then None
            else if rc2 =? SQLITE_OK
                 then Some (rc2, setBuffer p3
                                   (Some (memcpy (default [] (aBuffer p3)) iBuf data))
                                   (nBuffer p3))
                 else Some (rc2, p3)
          else Some (rc1, p3)
        else Some (rc, p2)
    | Some _ => Some (rc, p2)
    end.

(** The outcome of vdbeIncrSwap on the merger of a reader: that function
    refills the file of the merger from the readers below it. *)
Variable vdbeIncrSwap : IncrMerger -> Z * IncrMerger.

(** vdbePmaReaderNext; [f] is the file the reader is in. *)
Definition vdbePmaReaderNext (env : ReadEnv) (pgsz : Z) (f : list Z)
    (pIter : PmaReader) : option (Z * PmaReader) :=
  let start : option ((Z * PmaReader) + (Z * PmaReader * list Z)) :=
    if iReadOff pIter >=? iEof pIter then
      match pIncr pIter with
      | Some inc =>
          let '(rc, inc') := vdbeIncrSwap inc in
          let p0 := setIncr pIter (Some inc') in
          if (rc =? SQLITE_OK) && negb (bEof inc') then
            match vdbePmaReaderSeek env pgsz p0 (aFile0 inc') (iStartOff inc') with
            | Some (rc', p1) => Some (inr (rc', p1, sf_data (aFile0 inc')))
            | None => None
            end
          else Some (inl (rc, vdbePmaReaderClear p0))
      | None => Some (inl (SQLITE_OK, vdbePmaReaderClear pIter))
      end
    else Some (inr (SQLITE_OK, pIter, f)) in
  match start with
  | None => None
  | Some (inl r) => Some r
  | Some (inr (rc, p, f')) =>
      if negb (rc =? SQLITE_OK) then Some (rc, p) else
      match vdbePmaReadVarint env f' p 0 with
      | Some (rc1, p1, nRec) =>
          if negb (rc1 =? SQLITE_OK) then Some (rc1, p1) else
          let p2 := setNKey p1 (to_int nRec) in
          match vdbePmaReadBlob env f' p2 (to_int nRec) with
          | Some (rc2, p3, q) =>
              Some (rc2, match q with Some _ => setKey p3 q | None => p3 end)
          | None => None
          end
      | None => None
      end
  end.

(** vdbePmaReaderInit; returns the status, the reader and [*pnByte]. *)
Definition vdbePmaReaderInit (env : ReadEnv) (pgsz : Z) (pFile_ : SorterFile)
    (iStart : Z) (pIter : PmaReader) (pnByte : Z) : option (Z * PmaReader * Z) :=
  if (sf_iEof pFile_ >? iStart) && bool_decide (aAlloc pIter = None)
     && (nAlloc pIter =? 0) && bool_decide (aBuffer pIter = None)
     && bool_decide (aMap pIter = None)
  then
    match vdbePmaReaderSeek env pgsz pIter pFile_ iStart with
    | Some (rc, p1) =>
        let read : option (Z * PmaReader * Z) :=
          if rc =? SQLITE_OK then
            match vdbePmaReadVarint env (sf_data pFile_) p1 (uninit env) with
            | Some (rc1, p2, nByte) =>
                Some (rc1, setEof p2 (iReadOff p2 + nByte), pnByte + nByte)
            | None => None
            end
          else Some (rc, p1, pnByte) in
        match read with
        | Some (rc1, p2, n) =>
            if rc1 =? SQLITE_OK then
              match vdbePmaReaderNext env pgsz (sf_data pFile_) p2 with
              | Some (rc2, p3) => Some (rc2, p3, n)
              | None => None
              end
            else Some (rc1, p2, n)
        | None => None
        end
    | None => None
    end
  else None.

(** The keys of a PMA, read one after the other until the reader is at
    the end ([pFile==0]). *)
Fixpoint scan (fuel : nat) (env : ReadEnv) (pgsz : Z) (f : list Z)
    (p : PmaReader) : option (list (list Z)) :=
  match fuel with
  | O => None
  | S fuel' =>
      if pFile p then
        match vdbePmaReaderNext env pgsz f p with
        | Some (rc, p') =>
            if rc =? SQLITE_OK then (key p ::.) <$> scan fuel' env pgsz f p'
            else None
        | None => None
        end
      else Some []
  end.


(** ** Laws of the codec, for values below 2^56 (beyond, a varint has a
    ninth byte that carries eight bits). *)
Class VarintLaws : Prop := {
  put_get : forall v rest, 0 <= v < 2 ^ 56 ->
    sqlite3GetVarint (sqlite3PutVarint v ++ rest)
    = (v, Z.of_nat (length (sqlite3PutVarint v)));
  put_len : forall v, 0 <= v < 2 ^ 56 ->
    Z.of_nat (length (sqlite3PutVarint v)) = sqlite3VarintLen v;
  len_range : forall v, 1 <= sqlite3VarintLen v <= 9;
  put_high : forall v, 0 <= v < 2 ^ 56 ->
    exists init last,
      sqlite3PutVarint v = init ++ [last] /\
      Forall (fun b => Z.land b 128 <> 0) init /\ Z.land last 128 = 0
}.

Abbreviation len l := (Z.of_nat (length l)).

(** The bytes of the records, and of the PMA. *)
Definition record_bytes (k : list Z) : list Z := sqlite3PutVarint (len k) ++ k.

Definition records_bytes (l : list (list Z)) : list Z :=
  concat (map record_bytes l).

Definition pma_image (szPMA : Z) (l : list (list Z)) : list Z :=
  sqlite3PutVarint szPMA ++ records_bytes l.

(** *** Slices *)

Lemma sub_length (l : list Z) (off n : Z) :
  0 <= off -> 0 <= n -> off + n <= len l -> len (sub l off n) = n.
Proof.
  intros. unfold sub. rewrite length_take, length_drop. lia.
Qed.

Lemma sub_split (l : list Z) (off n1 n2 : Z) :
  0 <= off -> 0 <= n1 -> 0 <= n2 ->
  sub l off (n1 + n2) = sub l off n1 ++ sub l (off + n1) n2.
Proof.
  intros. unfold sub.
  rewrite !Z2Nat.inj_add by lia.
  rewrite <- drop_drop.
  by rewrite take_take_drop.
Qed.

Lemma memcpy_app (a b c src : list Z) (off : Z) :
  length a = Z.to_nat off -> length b = length src ->
  memcpy (a ++ b ++ c) off src = a ++ src ++ c.
Proof.
  intros Ha Hb. unfold memcpy.
  rewrite <- Ha, take_app_length.
  rewrite <- drop_drop, drop_app_length, <- Hb, drop_app_length. done.
Qed.

Lemma sub_app (a b c : list Z) (off n : Z) :
  length a = Z.to_nat off -> length b = Z.to_nat n ->
  sub (a ++ b ++ c) off n = b.
Proof.
  intros Ha Hb. unfold sub.
  rewrite <- Ha, drop_app_length, <- Hb, take_app_length. done.
Qed.

(** *** The writer *)

(** The state of a writer that, started at the end of [pre] in the file
    [pre ++ tail], has been given the bytes [W]: a part of them is in the
    file, the rest in the buffer between [iBufStart] and [iBufEnd]. *)
Definition winv (pre tail W : list Z) (p : PmaWriter) (f : list Z) : Prop :=
  exists W1 W2 b1 b2,
    W = W1 ++ W2 /\
    w_aBuffer p = Some (b1 ++ W2 ++ b2) /\
    f = pre ++ W1 ++ drop (length W1) tail /\
    iBufStart p = len b1 /\
    iBufEnd p = len b1 + len W2 /\
    w_nBuffer p = len b1 + len W2 + len b2 /\
    (0 < length b2)%nat /\
    iWriteOff p + iBufStart p = len pre + len W1.

Lemma writeBlob_loop_err (fuel : nat) (rcW : Z -> Z) (p : PmaWriter)
    (f rest : list Z) :
  eFWErr p <> 0 -> writeBlob_loop fuel rcW p f rest = Some (p, f).
Proof.
  intros He. destruct fuel; simpl.
  - destruct (eFWErr p =? 0) eqn:E; [lia|]. by rewrite andb_false_r.
  - destruct (eFWErr p =? 0) eqn:E; [lia|]. by rewrite andb_false_r.
Qed.

Lemma osWrite_at_end (rcW : Z -> Z) (pre W1 tail data : list Z) (off : Z) :
  off = len pre + len W1 ->
  rcW off = 0 ->
  sqlite3OsWrite rcW (pre ++ W1 ++ drop (length W1) tail) data off
  = (0, pre ++ (W1 ++ data) ++ drop (length (W1 ++ data)) tail).
Proof.
  intros Hoff Hrc. unfold sqlite3OsWrite, SQLITE_OK. rewrite Hrc. simpl.
  f_equal.
  replace (Z.to_nat off - length (pre ++ W1 ++ drop (length W1) tail))%nat
    with 0%nat by (rewrite !length_app; lia).
  simpl. rewrite app_nil_r. unfold memcpy.
  replace (Z.to_nat off) with (length (pre ++ W1)) by (rewrite length_app; lia).
  rewrite (app_assoc pre W1), take_app_length.
  rewrite <- drop_drop, drop_app_length, drop_drop.
  rewrite length_app, <- !app_assoc. done.
Qed.

Lemma writeBlob_loop_spec (rcW : Z -> Z) (pre tail : list Z) :
  forall (fuel : nat) (rest W : list Z) (p : PmaWriter) (f : list Z),
    (length rest <= fuel)%nat ->
    eFWErr p = 0 ->
    winv pre tail W p f ->
    exists p' f',
      writeBlob_loop fuel rcW p f rest = Some (p', f') /\
      (eFWErr p' = 0 -> winv pre tail (W ++ rest) p' f') /\
      ((forall off, rcW off = 0) -> eFWErr p' = 0).
Proof.
  induction fuel as [|fuel IH]; intros rest W p f Hlen He Hinv.
  - destruct rest; [|simpl in Hlen; lia]. exists p, f. simpl.
    rewrite app_nil_r. done.
  - destruct rest as [|x rest].
    { exists p, f. simpl. rewrite app_nil_r. done. }
    destruct Hinv as (W1 & W2 & b1 & b2 & HW & Hbuf & Hf & Hs & Hend & Hn & Hb2 & Hoff).
    set (R := x :: rest) in *.
    assert (HR : (0 < length R)%nat) by (simpl; lia).
    cbn [writeBlob_loop]. fold R.
    replace (len R >? 0) with true by lia.
    replace (eFWErr p =? 0) with true by lia.
    cbn [andb]. rewrite Hbuf.
    set (nCopy := if len R >? w_nBuffer p - iBufEnd p
                  then w_nBuffer p - iBufEnd p else len R).
    assert (HnC : 0 < nCopy /\ nCopy <= len R /\ nCopy <= len b2).
    { subst nCopy. destruct (len R >? w_nBuffer p - iBufEnd p) eqn:E; lia. }
    set (c := take (Z.to_nat nCopy) R).
    assert (Hc : len c = nCopy) by (subst c; rewrite length_take; lia).
    assert (Hbuf1 : memcpy (b1 ++ W2 ++ b2) (iBufEnd p) c
                    = b1 ++ (W2 ++ c) ++ drop (Z.to_nat nCopy) b2).
    { rewrite <- (take_drop (Z.to_nat nCopy) b2) at 1.
      rewrite (app_assoc b1 W2), (memcpy_app (b1 ++ W2)).
      - by rewrite <- !app_assoc.
      - rewrite length_app. lia.
      - rewrite length_take. lia. }
    rewrite Hbuf1.
    destruct (iBufEnd p + nCopy =? w_nBuffer p) eqn:Efull.
    + (* the buffer is full: it goes to the file *)
      assert (Hd : drop (Z.to_nat nCopy) b2 = []).
      { apply drop_ge. lia. }
      rewrite Hd.
      rewrite (sub_app b1 (W2 ++ c) []) by (rewrite ?length_app; lia).
      destruct (decide (rcW (iWriteOff p + iBufStart p) = 0)) as [Hrc|Hrc].
      * rewrite Hf, (osWrite_at_end rcW pre W1 tail (W2 ++ c)) by done.
        cbn [iBufEnd w_nBuffer].
        replace (0 <? w_nBuffer p) with true by lia.
        match goal with
        | |- context [writeBlob_loop fuel rcW ?p2 ?f2 ?r] =>
            destruct (IH r (W ++ c) p2 f2) as (p' & f' & Hrun & Hok & Hall);
              [| |  | exists p', f'; split; [exact Hrun|split]]
        end.
        -- rewrite length_drop. lia.
        -- done.
        -- exists (W1 ++ W2 ++ c), [], [], (b1 ++ (W2 ++ c) ++ []).
           cbn [w_aBuffer iBufStart iBufEnd w_nBuffer iWriteOff].
           rewrite !length_app, !app_nil_r. simpl.
           repeat split; try lia.
           rewrite HW. by rewrite <- !app_assoc.
        -- intros He'. specialize (Hok He').
           rewrite <- app_assoc in Hok. subst c. by rewrite take_drop in Hok.
        -- done.
      * unfold sqlite3OsWrite, SQLITE_OK.
        replace (rcW (iWriteOff p + iBufStart p) =? 0) with false by lia.
        cbn [iBufEnd w_nBuffer].
        replace (0 <? w_nBuffer p) with true by lia.
        rewrite writeBlob_loop_err by done.
        eexists _, _. split; [reflexivity|]. cbn [eFWErr]. split; [done|].
        intros Hall. by specialize (Hall (iWriteOff p + iBufStart p)).
    + cbn [iBufEnd w_nBuffer].
      replace (iBufEnd p + nCopy <? w_nBuffer p) with true by lia.
      match goal with
      | |- context [writeBlob_loop fuel rcW ?p2 ?f2 ?r] =>
          destruct (IH r (W ++ c) p2 f2) as (p' & f' & Hrun & Hok & Hall);
            [| |  | exists p', f'; split; [exact Hrun|split]]
      end.
      * rewrite length_drop. lia.
      * done.
      * exists W1, (W2 ++ c), b1, (drop (Z.to_nat nCopy) b2).
        cbn [w_aBuffer iBufStart iBufEnd w_nBuffer iWriteOff].
        rewrite !length_app, length_drop.
        repeat split; try lia; try done.
        rewrite HW. by rewrite <- !app_assoc.
      * intros He'. specialize (Hok He').
        rewrite <- app_assoc in Hok. subst c. by rewrite take_drop in Hok.
      * done.
Qed.

(** A writer that is in error or in order. *)
Definition wstate (pre tail W : list Z) (p : PmaWriter) (f : list Z) : Prop :=
  eFWErr p = 0 -> winv pre tail W p f.

Lemma vdbePmaWriteBlob_spec (rcW : Z -> Z) (pre tail W : list Z)
    (p : PmaWriter) (f data : list Z) :
  wstate pre tail W p f ->
  exists p' f',
    vdbePmaWriteBlob rcW p f data = Some (p', f') /\
    wstate pre tail (W ++ data) p' f' /\
    ((forall off, rcW off = 0) -> eFWErr p = 0 -> eFWErr p' = 0) /\
    (eFWErr p <> 0 -> p' = p /\ f' = f).
Proof.
  intros Hst. unfold vdbePmaWriteBlob.
  destruct (decide (eFWErr p = 0)) as [He|He].
  - destruct (writeBlob_loop_spec rcW pre tail (length data) data W p f)
      as (p' & f' & Hrun & Hok & Hall); [lia|done|by apply Hst|].
    exists p', f'. split; [done|]. split; [exact Hok|].
    split; [intros HA _; by apply Hall|]. intros; done.
  - exists p, f. rewrite writeBlob_loop_err by done.
    split; [done|]. split; [intros He'; done|]. split; [intros; done|done].
Qed.

Lemma write_records_spec (rcW : Z -> Z) (pre tail : list Z) :
  forall (l : list (list Z)) (W : list Z) (p : PmaWriter) (f : list Z),
    wstate pre tail W p f ->
    exists p' f',
      write_records rcW p f l = Some (p', f') /\
      wstate pre tail (W ++ records_bytes l) p' f' /\
      ((forall off, rcW off = 0) -> eFWErr p = 0 -> eFWErr p' = 0) /\
      (eFWErr p <> 0 -> p' = p /\ f' = f).
Proof.
  induction l as [|k l IH]; intros W p f Hst.
  - exists p, f. cbn. rewrite app_nil_r. done.
  - cbn [write_records]. unfold vdbePmaWriteVarint.
    destruct (vdbePmaWriteBlob_spec rcW pre tail W p f (sqlite3PutVarint (len k)) Hst)
      as (p1 & f1 & -> & Hst1 & Hall1 & Herr1).
    destruct (vdbePmaWriteBlob_spec rcW pre tail _ p1 f1 k Hst1)
      as (p2 & f2 & -> & Hst2 & Hall2 & Herr2).
    destruct (IH _ p2 f2 Hst2) as (p3 & f3 & -> & Hst3 & Hall3 & Herr3).
    exists p3, f3. split; [done|]. split; [|split].
    + unfold records_bytes, record_bytes in *. cbn [map concat].
      by rewrite <- !app_assoc in *.
    + intros Hall He. apply Hall3, Hall2, Hall1; done.
    + intros He. destruct (Herr1 He) as [-> ->].
      destruct (Herr2 He) as [-> ->]. by apply Herr3.
Qed.

Lemma vdbePmaWriterInit_spec (nBuf : Z) (f0 : list Z) (iStart : Z) :
  0 < nBuf -> 0 <= iStart <= len f0 ->
  winv (take (Z.to_nat iStart) f0) (drop (Z.to_nat iStart) f0) []
    (vdbePmaWriterInit true nBuf iStart) f0.
Proof.
  intros Hn Hs. unfold vdbePmaWriterInit.
  rewrite Z.rem_mod_nonneg by lia.
  pose proof (Z.mod_pos_bound iStart nBuf Hn) as Hm.
  exists [], [], (replicate (Z.to_nat (iStart mod nBuf)) 0),
    (replicate (Z.to_nat (nBuf - iStart mod nBuf)) 0).
  cbn [w_aBuffer iBufStart iBufEnd w_nBuffer iWriteOff app length drop].
  rewrite !length_replicate, length_take.
  split; [done|]. split.
  { rewrite <- replicate_add. do 2 f_equal. lia. }
  split; [by rewrite drop_0, take_drop|]. lia.
Qed.

Lemma vdbePmaWriterFinish_spec (rcW : Z -> Z) (pre tail W : list Z)
    (p : PmaWriter) (f : list Z) :
  wstate pre tail W p f ->
  exists rc iEof_ f',
    vdbePmaWriterFinish rcW p f = (rc, iEof_, f') /\
    (rc = 0 -> f' = pre ++ W ++ drop (length W) tail /\ iEof_ = len pre + len W) /\
    ((forall off, rcW off = 0) -> eFWErr p = 0 -> rc = 0) /\
    (eFWErr p <> 0 -> rc = eFWErr p /\ f' = f).
Proof.
  intros Hst. unfold vdbePmaWriterFinish.
  destruct (decide (eFWErr p = 0)) as [He|He].
  - destruct (Hst He) as (W1 & W2 & b1 & b2 & HW & Hbuf & Hf & Hs & Hend & Hn & Hb2 & Hoff).
    rewrite Hbuf. replace (eFWErr p =? 0) with true by lia. cbn [andb].
    destruct (iBufEnd p >? iBufStart p) eqn:Epend.
    + rewrite (sub_app b1 W2 b2) by lia.
      destruct (decide (rcW (iWriteOff p + iBufStart p) = 0)) as [Hrc|Hrc].
      * rewrite Hf, (osWrite_at_end rcW pre W1 tail W2) by done.
        eexists _, _, _. split; [reflexivity|]. rewrite HW.
        split; [intros _; split; [done|rewrite length_app; lia]|].
        split; [done|]. intros; done.
      * unfold sqlite3OsWrite, SQLITE_OK.
        replace (rcW (iWriteOff p + iBufStart p) =? 0) with false by lia.
        eexists _, _, _. split; [reflexivity|].
        split; [intros; done|].
        split; [|intros; done].
        intros Hall. by specialize (Hall (iWriteOff p + iBufStart p)).
    + assert (W2 = []) by (apply nil_length_inv; lia). subst W2.
      rewrite app_nil_r in HW. subst W1.
      eexists _, _, _. split; [reflexivity|].
      split; [intros _; split; [done|simpl in *; lia]|].
      split; [done|]. intros; done.
  - assert (Hrc : (match w_aBuffer p with
                   | Some buf =>
                       if (eFWErr p =? 0) && (iBufEnd p >? iBufStart p)
                       then sqlite3OsWrite rcW f
                              (sub buf (iBufStart p) (iBufEnd p - iBufStart p))
                              (iWriteOff p + iBufStart p)
                       else (eFWErr p, f)
                   | None => (eFWErr p, f)
                   end) = (eFWErr p, f)).
    { destruct (w_aBuffer p); [|done].
      by replace (eFWErr p =? 0) with false by lia. }
    rewrite Hrc. eexists _, _, _. split; [reflexivity|].
    split; [intros; done|]. split; [intros; done|]. done.
Qed.

(** *** The reader *)

(** The file holds the bytes [B] at offset [o]. *)
Definition holds (f : list Z) (o : Z) (B : list Z) : Prop :=
  0 <= o /\ o + len B <= len f /\ sub f o (len B) = B.

Lemma sub_nil (l : list Z) (off : Z) : sub l off 0 = [].
Proof. unfold sub. by rewrite take_0. Qed.

Lemma sub_take (l : list Z) (off n n0 : Z) :
  n <= n0 -> take (Z.to_nat n) (sub l off n0) = sub l off n.
Proof.
  intros. unfold sub. rewrite take_take. f_equal. lia.
Qed.

Lemma sub_sub0 (f : list Z) (E off n : Z) :
  0 <= off -> off + n <= E -> sub (sub f 0 E) off n = sub f off n.
Proof.
  intros. unfold sub. rewrite drop_0.
  destruct (decide (n <= 0)) as [Hn|Hn].
  { replace (Z.to_nat n) with 0%nat by lia. by rewrite !take_0. }
  replace (Z.to_nat E) with (Z.to_nat off + Z.to_nat (E - off))%nat by lia.
  rewrite <- take_drop_commute, take_take. f_equal. lia.
Qed.

Lemma holds_app (f : list Z) (o : Z) (B1 B2 : list Z) :
  holds f o (B1 ++ B2) <-> holds f o B1 /\ holds f (o + len B1) B2.
Proof.
  unfold holds. rewrite length_app, Nat2Z.inj_add. split.
  - intros (Ho & Hl & Hs).
    rewrite sub_split in Hs by lia.
    apply app_inj_1 in Hs as [H1 H2].
    + repeat split; try lia; done.
    + apply Nat2Z.inj. rewrite sub_length; lia.
  - intros [(Ho & Hl1 & H1) (_ & Hl2 & H2)].
    repeat split; try lia. rewrite sub_split by lia. by rewrite H1, H2.
Qed.

Lemma holds_mid (pre B post : list Z) (o : Z) :
  o = len pre -> holds (pre ++ B ++ post) o B.
Proof.
  intros ->. unfold holds. rewrite !length_app.
  repeat split; try lia. apply sub_app; lia.
Qed.

Lemma holds_sub (f : list Z) (o : Z) (B : list Z) (n : Z) :
  holds f o B -> 0 <= n <= len B -> sub f o n = take (Z.to_nat n) B.
Proof.
  intros (Ho & Hl & Hs) Hn. rewrite <- Hs at 1. by rewrite sub_take by lia.
Qed.

Definition bufok (f : list Z) (p : PmaReader) (buf : list Z) (iBuf : Z) : Prop :=
  forall n, 0 <= n -> iBuf + n <= nBuffer p -> iReadOff p + n <= iEof p ->
            sub buf iBuf n = sub f (iReadOff p) n.

Definition alloc_ok (p : PmaReader) : Prop :=
  match aAlloc p with
  | Some a => len a = nAlloc p
  | None => nAlloc p = 0
  end.

(** The reader agrees with the file [f]: the mapping is the file, or the
    buffer holds, from the read offset to the end of the page (or of the
    data), the bytes of the file. *)
Definition rinv (f : list Z) (p : PmaReader) : Prop :=
  0 <= iReadOff p /\
  match aMap p with
  | Some m => exists E, m = sub f 0 E /\ iEof p <= E
  | None =>
      0 < nBuffer p /\ iEof p <= len f /\ alloc_ok p /\
      exists buf, aBuffer p = Some buf /\ len buf = nBuffer p /\
        (iReadOff p mod nBuffer p <> 0 ->
         bufok f p buf (iReadOff p mod nBuffer p))
  end.

(** What a read leaves alone. *)
Definition keeps (p p' : PmaReader) : Prop :=
  iEof p' = iEof p /\ nKey p' = nKey p /\ pFile p' = pFile p /\
  aKey p' = aKey p /\ nBuffer p' = nBuffer p /\ pIncr p' = pIncr p /\
  (aMap p' = aMap p).

Lemma keeps_refl (p : PmaReader) : keeps p p.
Proof. by unfold keeps. Qed.

Lemma keeps_trans (p q r : PmaReader) : keeps p q -> keeps q r -> keeps p r.
Proof. unfold keeps. intros. destruct_and!. repeat split; congruence. Qed.

Lemma mod_advance (off nB n : Z) :
  0 <= off -> 0 < nB -> 0 <= n -> off mod nB + n < nB ->
  (off + n) mod nB = off mod nB + n.
Proof.
  intros. pose proof (Z.mod_pos_bound off nB ltac:(lia)).
  rewrite Zplus_mod. rewrite (Z.mod_small n nB) by lia.
  rewrite Z.mod_small; lia.
Qed.

Lemma mod_advance_full (off nB n : Z) :
  0 <= off -> 0 < nB -> 0 <= n -> off mod nB + n = nB ->
  (off + n) mod nB = 0.
Proof.
  intros. pose proof (Z.mod_pos_bound off nB ltac:(lia)).
  rewrite (Z.div_mod off nB) at 1 by lia.
  replace (nB * (off / nB) + off mod nB + n) with ((off / nB + 1) * nB) by lia.
  apply Z_mod_mult.
Qed.

(** After [n] bytes of the page have been consumed the buffer still
    agrees with the file. *)
Lemma rinv_advance (f : list Z) (p : PmaReader) (buf : list Z) (n : Z) :
  aMap p = None -> 0 <= iReadOff p -> 0 < nBuffer p -> iEof p <= len f ->
  alloc_ok p -> aBuffer p = Some buf -> len buf = nBuffer p ->
  bufok f p buf (iReadOff p mod nBuffer p) ->
  0 <= n -> iReadOff p mod nBuffer p + n <= nBuffer p ->
  iReadOff p + n <= iEof p ->
  rinv f (setReadOff p (iReadOff p + n)).
Proof.
  intros Hmap Hoff HnB Heof Hal Hbuf Hlen Hok Hn Hpage Hin.
  unfold rinv. cbn [setReadOff iReadOff aMap nBuffer iEof aBuffer].
  rewrite Hmap. split; [lia|]. repeat split; try done.
  exists buf. repeat split; try done.
  intros Hnz m Hm Hm1 Hm2. cbn [setReadOff iReadOff nBuffer iEof] in *.
  destruct (decide (iReadOff p mod nBuffer p + n = nBuffer p)) as [Hfull|Hfull].
  { rewrite mod_advance_full in Hnz by lia. done. }
  rewrite mod_advance in * by lia.
  pose proof (Z.mod_pos_bound (iReadOff p) (nBuffer p) HnB) as Hmod.
  pose proof (Hok (n + m) ltac:(lia) ltac:(lia) ltac:(lia)) as Hnm.
  pose proof (Hok n ltac:(lia) ltac:(lia) ltac:(lia)) as Hn1.
  rewrite !sub_split in Hnm by lia.
  rewrite Hn1 in Hnm. by apply app_inv_head in Hnm.
Qed.

Lemma alloc_ok_same (p p' : PmaReader) :
  aAlloc p' = aAlloc p -> nAlloc p' = nAlloc p -> alloc_ok p -> alloc_ok p'.
Proof. unfold alloc_ok. by intros -> ->. Qed.

(** The buffer after a page has been read into it. *)
Lemma refill_ok (f : list Z) (p : PmaReader) (buf : list Z) (nRead : Z) :
  0 <= iReadOff p -> len buf = nBuffer p ->
  0 <= nRead <= nBuffer p -> iReadOff p + nRead <= len f ->
  (forall n, iReadOff p + n <= iEof p -> n <= nBuffer p -> n <= nRead) ->
  let buf' := memcpy buf 0 (sub f (iReadOff p) nRead) in
  len buf' = nBuffer p /\
  bufok f (setBuffer p (Some buf') (nBuffer p)) buf' 0.
Proof.
  intros Hoff Hlen Hn Hf Hmax buf'.
  assert (Hd : len (sub f (iReadOff p) nRead) = nRead) by (apply sub_length; lia).
  split.
  - subst buf'. unfold memcpy. rewrite take_0. cbn [app].
    rewrite length_app, length_drop. lia.
  - intros n Hn0 Hn1 Hn2. cbn [setBuffer iReadOff nBuffer iEof] in *.
    subst buf'. unfold memcpy. rewrite take_0. cbn [app].
    specialize (Hmax n Hn2 ltac:(lia)).
    unfold sub at 1. rewrite drop_0, take_app_le by lia.
    apply sub_take. lia.
Qed.

Lemma readBlob_eq (d : nat) (env : ReadEnv) (f : list Z) (p : PmaReader)
    (nByte : Z) :
  readBlob (S d) env f p nByte =
      match aMap p with
      | Some _ =>
          Some (SQLITE_OK, setReadOff p (iReadOff p + nByte), Some (ToMap (iReadOff p)))
      | None =>
          match aBuffer p with
          | None => None                          (* assert( p->aBuffer ) *)
          | Some buf =>
              let iBuf := Z.rem (iReadOff p) (nBuffer p) in
              match fill env f p buf iBuf with
              | None => None
              | Some (rc, p1) =>
                  if negb (rc =? SQLITE_OK) then Some (rc, p1, None) else
                  let nAvail := nBuffer p1 - iBuf in
                  if nByte <=? nAvail then
                    Some (SQLITE_OK, setReadOff p1 (iReadOff p1 + nByte),
                          Some (ToBuffer iBuf))
                  else
                    match extend env p1 nByte with
                    | None => Some (SQLITE_NOMEM, p1, None)
                    | Some p2 =>
                        let a' := memcpy (default [] (aAlloc p2)) 0
                                    (sub (default [] (aBuffer p2)) iBuf nAvail) in
                        let p3 := setReadOff (setAlloc p2 (nAlloc p2) (Some a'))
                                    (iReadOff p2 + nAvail) in
                        copy_loop (readBlob d env f) (Z.to_nat (nByte - nAvail))
                          p3 nByte (nByte - nAvail)
                    end
              end
          end
      end.
Proof. reflexivity. Qed.

Lemma rem_mod (p : PmaReader) :
  0 <= iReadOff p -> 0 < nBuffer p ->
  Z.rem (iReadOff p) (nBuffer p) = iReadOff p mod nBuffer p.
Proof. intros. apply Z.rem_mod_nonneg; lia. Qed.

(** All reads of the file succeed. *)
Definition reads_ok (env : ReadEnv) : Prop := forall off, rcRead env off = 0.

Lemma fill_spec (env : ReadEnv) (f : list Z) (p : PmaReader) (buf : list Z) :
  reads_ok env -> aMap p = None ->
  0 <= iReadOff p -> 0 < nBuffer p -> iEof p <= len f ->
  aBuffer p = Some buf -> len buf = nBuffer p ->
  (iReadOff p mod nBuffer p <> 0 -> bufok f p buf (iReadOff p mod nBuffer p)) ->
  iReadOff p < iEof p ->
  exists p1 buf1,
    fill env f p buf (iReadOff p mod nBuffer p) = Some (0, p1) /\
    p1 = setBuffer p (Some buf1) (nBuffer p) /\
    len buf1 = nBuffer p /\
    bufok f p1 buf1 (iReadOff p mod nBuffer p).
Proof.
  intros Hrd Hmap Hoff HnB Heof Hbuf Hlen Hok Hlt. unfold fill.
  destruct (iReadOff p mod nBuffer p =? 0) eqn:E0.
  - set (nRead := if iEof p - iReadOff p >? nBuffer p
                  then nBuffer p else iEof p - iReadOff p).
    assert (HnR : 0 < nRead <= nBuffer p /\ iReadOff p + nRead <= iEof p /\
                  (forall n, iReadOff p + n <= iEof p -> n <= nBuffer p -> n <= nRead)).
    { subst nRead. destruct (iEof p - iReadOff p >? nBuffer p) eqn:E; repeat split; lia. }
    replace (nRead >? 0) with true by lia.
    unfold sqlite3OsRead. rewrite Hrd. cbn [Z.eqb SQLITE_OK].
    replace (iReadOff p + nRead <=? len f) with true by lia.
    cbn [Z.eqb SQLITE_OK SQLITE_IOERR_SHORT_READ].
    destruct (refill_ok f p buf nRead) as [Hl Hb]; try lia; [apply HnR|].
    eexists _, _. split; [reflexivity|]. split; [reflexivity|]. split; [done|].
    replace (iReadOff p mod nBuffer p) with 0 by lia. done.
  - exists p, buf. split; [done|]. split.
    + destruct p. cbn in *. by subst.
    + split; [done|]. apply Hok. lia.
Qed.

(** A read that the current page (or the next, at a page boundary)
    satisfies: the bytes are handed out in the buffer. *)
Lemma readBlob_page (d : nat) (env : ReadEnv) (f : list Z) (p : PmaReader)
    (nByte : Z) :
  reads_ok env -> aMap p = None -> rinv f p ->
  0 < nByte -> iReadOff p mod nBuffer p + nByte <= nBuffer p ->
  iReadOff p + nByte <= iEof p ->
  exists buf1,
    let p' := setReadOff (setBuffer p (Some buf1) (nBuffer p)) (iReadOff p + nByte) in
    readBlob (S d) env f p nByte
    = Some (0, p', Some (ToBuffer (iReadOff p mod nBuffer p))) /\
    rinv f p' /\
    sub buf1 (iReadOff p mod nBuffer p) nByte = sub f (iReadOff p) nByte.
Proof.
  intros Hrd Hmap (Hoff & Hinv) Hn Hpage Hin.
  rewrite Hmap in Hinv. destruct Hinv as (HnB & Heof & Hal & buf & Hbuf & Hlen & Hok).
  rewrite readBlob_eq, Hmap, Hbuf. cbv zeta. rewrite rem_mod by done.
  destruct (fill_spec env f p buf) as (p1 & buf1 & -> & -> & Hl1 & Hok1); try done; [lia|].
  cbn [negb Z.eqb SQLITE_OK setBuffer nBuffer iReadOff].
  replace (nByte <=? nBuffer p - iReadOff p mod nBuffer p) with true by lia.
  exists buf1. split; [done|]. split.
  - apply (rinv_advance f (setBuffer p (Some buf1) (nBuffer p)) buf1 nByte);
      cbn [setBuffer aMap iReadOff nBuffer iEof aBuffer]; try done; lia.
  - apply Hok1; cbn [setBuffer iReadOff nBuffer iEof]; lia.
Qed.

Lemma grow_ge (nByte : Z) :
  forall (fuel : nat) (nNew : Z),
    1 <= nNew -> nByte <= nNew + Z.of_nat fuel ->
    nByte <= grow fuel nNew nByte /\ nNew <= grow fuel nNew nByte.
Proof.
  induction fuel as [|fuel IH]; intros nNew H1 H2; cbn [grow].
  - lia.
  - destruct (nByte >? nNew) eqn:E; [|lia].
    destruct (IH (nNew * 2)) as [Ha Hb]; lia.
Qed.

Lemma rinv_setAlloc (f : list Z) (p : PmaReader) (a : list Z) :
  rinv f p -> rinv f (setAlloc p (len a) (Some a)).
Proof.
  intros (Hoff & Hinv). split; [done|].
  cbn [setAlloc aMap iEof nBuffer aBuffer iReadOff].
  destruct (aMap p); [done|].
  destruct Hinv as (HnB & Heof & Hal & buf & Hbuf & Hlen & Hok).
  repeat split; try done. exists buf. done.
Qed.

Lemma memcpy_length (dst : list Z) (off : Z) (src : list Z) :
  0 <= off -> off + len src <= len dst ->
  len (memcpy dst off src) = len dst.
Proof.
  intros. unfold memcpy. rewrite !length_app, length_take, length_drop. lia.
Qed.

Lemma memcpy_prefix (dst : list Z) (off : Z) (src : list Z) :
  0 <= off -> off <= len dst ->
  sub (memcpy dst off src) 0 (off + len src) = sub dst 0 off ++ src.
Proof.
  intros. unfold memcpy, sub. rewrite !drop_0, app_assoc.
  rewrite take_app_le by (rewrite length_app, length_take; lia).
  rewrite take_ge by (rewrite length_app, length_take; lia). done.
Qed.

(** The copy loop: the pages that follow go to [aAlloc] one after the
    other. *)
Lemma copy_loop_spec (env : ReadEnv) (f : list Z) (off0 nByte : Z) :
  reads_ok env -> 0 <= off0 ->
  forall (fuel : nat) (p : PmaReader) (nRem : Z) (a : list Z),
    aMap p = None -> rinv f p ->
    0 <= nRem <= nByte -> (Z.to_nat nRem <= fuel)%nat ->
    iReadOff p = off0 + (nByte - nRem) ->
    off0 + nByte <= iEof p ->
    (0 < nRem -> iReadOff p mod nBuffer p = 0) ->
    aAlloc p = Some a -> nAlloc p = len a -> nByte <= len a ->
    sub a 0 (nByte - nRem) = sub f off0 (nByte - nRem) ->
    exists p',
      copy_loop (readBlob 1 env f) fuel p nByte nRem = Some (0, p', Some ToAlloc) /\
      iReadOff p' = off0 + nByte /\ keeps p p' /\ rinv f p' /\
      deref p' ToAlloc nByte = sub f off0 nByte.
Proof.
  intros Hrd Hoff0.
  induction fuel as [|fuel IH];
    intros p nRem a Hmap Hinv HnR Hfuel Hoff Hin Hpage Ha HnA Hla Hpre.
  - assert (nRem = 0) by lia. subst nRem. cbn [copy_loop Z.gtb Z.compare].
    exists p. split; [done|]. split; [lia|]. split; [apply keeps_refl|].
    split; [done|]. cbn [deref]. rewrite Ha. cbn [default].
    by rewrite Z.sub_0_r in Hpre.
  - cbn [copy_loop]. destruct (nRem >? 0) eqn:Epos.
    2:{ assert (nRem = 0) by lia. subst nRem.
        exists p. split; [done|]. split; [lia|]. split; [apply keeps_refl|].
        split; [done|]. cbn [deref]. rewrite Ha. cbn [default].
        by rewrite Z.sub_0_r in Hpre. }
    assert (HnB : 0 < nBuffer p).
    { destruct Hinv as (_ & Hinv). rewrite Hmap in Hinv. apply Hinv. }
    set (nCopy := if nRem >? nBuffer p then nBuffer p else nRem).
    assert (HnC : 0 < nCopy <= nRem /\ nCopy <= nBuffer p /\
                  (nCopy < nRem -> nCopy = nBuffer p)).
    { subst nCopy. destruct (nRem >? nBuffer p) eqn:E; lia. }
    assert (Hz : iReadOff p mod nBuffer p = 0) by (apply Hpage; lia).
    destruct (readBlob_page 0 env f p nCopy) as (buf1 & Hrun & Hinv1 & Hdata);
      try done; [lia|lia|lia|].
    cbv zeta in Hrun. rewrite Hrun, Hz. cbn [Z.eqb SQLITE_OK].
    set (p1 := setReadOff (setBuffer p (Some buf1) (nBuffer p)) (iReadOff p + nCopy)) in *.
    rewrite Hz in Hdata.
    assert (Hd : deref p1 (ToBuffer 0) nCopy = sub f (iReadOff p) nCopy).
    { subst p1. cbn [deref setReadOff setBuffer aBuffer default]. done. }
    rewrite Hd.
    assert (Ha1 : aAlloc p1 = Some a) by (subst p1; done).
    rewrite Ha1. cbn [default].
    set (D := sub f (iReadOff p) nCopy).
    assert (Heof : iEof p <= len f).
    { destruct Hinv as (_ & Hinv). rewrite Hmap in Hinv. apply Hinv. }
    assert (HD : len D = nCopy).
    { subst D. apply sub_length; lia. }
    set (a' := memcpy a (nByte - nRem) D).
    assert (Hla' : len a' = len a) by (subst a'; apply memcpy_length; lia).
    replace (nAlloc p1) with (len a') by (subst p1; cbn; lia).
    destruct (IH (setAlloc p1 (len a') (Some a')) (nRem - nCopy) a')
      as (p' & Hrun' & Hoff' & Hk' & Hinv' & Hout); try done.
    + by apply rinv_setAlloc.
    + lia.
    + lia.
    + subst p1. cbn [setAlloc setReadOff iReadOff]. lia.
    + intros Hmore. subst p1. cbn [setAlloc setReadOff setBuffer iReadOff nBuffer].
      replace nCopy with (nBuffer p) by lia.
      replace (iReadOff p + nBuffer p) with (iReadOff p + 1 * nBuffer p) by lia.
      by rewrite Z_mod_plus_full.
    + lia.
    + replace (nByte - (nRem - nCopy)) with ((nByte - nRem) + len D) by lia.
      subst a'. rewrite memcpy_prefix by lia. rewrite Hpre.
      rewrite sub_split by lia. rewrite HD. subst D. rewrite Hoff. done.
    + exists p'. split; [done|]. split; [done|]. split; [|done].
      eapply keeps_trans; [|exact Hk']. subst p1. by unfold keeps.
Qed.

Lemma extend_spec (env : ReadEnv) (p : PmaReader) (nByte : Z) :
  bRealloc env = true -> alloc_ok p -> 0 < nByte ->
  exists a2,
    extend env p nByte = Some (setAlloc p (len a2) (Some a2)) /\ nByte <= len a2.
Proof.
  intros Hre Hal Hn. unfold extend. rewrite Hre.
  assert (Hla : len (default [] (aAlloc p)) = nAlloc p).
  { unfold alloc_ok in Hal. destruct (aAlloc p); simpl; lia. }
  destruct (nAlloc p <? nByte) eqn:E.
  - set (nNew := grow (Z.to_nat nByte) (Z.max 128 (nAlloc p * 2)) nByte).
    destruct (grow_ge nByte (Z.to_nat nByte) (Z.max 128 (nAlloc p * 2)))
      as [H1 H2]; [lia|lia|]. fold nNew in H1, H2.
    exists (default [] (aAlloc p) ++ replicate (Z.to_nat (nNew - nAlloc p)) 0).
    split.
    + do 2 f_equal. rewrite length_app, length_replicate. lia.
    + rewrite length_app, length_replicate. lia.
  - unfold alloc_ok in Hal. destruct (aAlloc p) as [a|] eqn:Ea; [|lia].
    exists a. split; [|lia]. f_equal. destruct p. cbn in *. by subst.
Qed.

(** vdbePmaReadBlob: the bytes of the file at the read offset are handed
    out, wherever they come from, and the offset moves past them. *)
Lemma vdbePmaReadBlob_spec (env : ReadEnv) (f : list Z) (p : PmaReader)
    (nByte : Z) :
  reads_ok env -> bRealloc env = true -> rinv f p ->
  0 < nByte -> iReadOff p + nByte <= iEof p ->
  exists p' q,
    vdbePmaReadBlob env f p nByte = Some (0, p', Some q) /\
    iReadOff p' = iReadOff p + nByte /\ keeps p p' /\ rinv f p' /\
    deref p' q nByte = sub f (iReadOff p) nByte.
Proof.
  intros Hrd Hre Hinv Hn Hin. unfold vdbePmaReadBlob.
  destruct (aMap p) as [m|] eqn:Hmap.
  - rewrite readBlob_eq, Hmap.
    destruct Hinv as (Hoff & Hinv). rewrite Hmap in Hinv.
    destruct Hinv as (E & -> & HE).
    eexists _, _. split; [reflexivity|].
    cbn [setReadOff iReadOff deref aMap]. rewrite Hmap. cbn [default].
    split; [done|]. split; [by unfold keeps|]. split.
    + split; [cbn; lia|]. cbn [setReadOff aMap iEof]. rewrite Hmap. by exists E.
    + apply sub_sub0; lia.
  - destruct (decide (iReadOff p mod nBuffer p + nByte <= nBuffer p)) as [Hpage|Hpage].
    { destruct (readBlob_page 1 env f p nByte) as (buf1 & Hrun & Hinv1 & Hdata);
        try done.
      cbv zeta in Hrun. eexists _, _. split; [exact Hrun|].
      split; [done|]. split; [by unfold keeps|]. split; [done|].
      cbn [deref setReadOff setBuffer aBuffer default]. done. }
    pose proof Hinv as (Hoff & Hinv0). rewrite Hmap in Hinv0.
    destruct Hinv0 as (HnB & Heof & Hal & buf & Hbuf & Hlen & Hok).
    pose proof (Z.mod_pos_bound (iReadOff p) (nBuffer p) HnB) as Hmod.
    rewrite readBlob_eq, Hmap, Hbuf. cbv zeta. rewrite rem_mod by done.
    destruct (fill_spec env f p buf) as (p1 & buf1 & -> & Hp1 & Hl1 & Hok1);
      try done; [lia|].
    cbn [negb Z.eqb SQLITE_OK].
    set (iBuf := iReadOff p mod nBuffer p) in *.
    assert (Hn1 : nBuffer p1 = nBuffer p) by (subst p1; done).
    rewrite Hn1.
    replace (nByte <=? nBuffer p - iBuf) with false by lia.
    destruct (extend_spec env p1 nByte) as (a2 & -> & Hla2); try done.
    { subst p1. done. }
    set (nAvail := nBuffer p - iBuf) in *.
    set (p2 := setAlloc p1 (len a2) (Some a2)).
    assert (Hb2 : aBuffer p2 = Some buf1) by (subst p2 p1; done).
    assert (Ha2 : aAlloc p2 = Some a2) by (subst p2; done).
    rewrite Hb2, Ha2. cbn [default].
    set (D := sub buf1 iBuf nAvail).
    assert (HDf : D = sub f (iReadOff p) nAvail).
    { subst D. specialize (Hok1 nAvail). subst p1.
      cbn [setBuffer iReadOff nBuffer iEof] in Hok1. apply Hok1; lia. }
    assert (HD : len D = nAvail).
    { rewrite HDf. apply sub_length; lia. }
    set (a' := memcpy a2 0 D).
    assert (Hla' : len a' = len a2) by (subst a'; apply memcpy_length; lia).
    replace (nAlloc p2) with (len a') by (subst p2; cbn; lia).
    set (X := setAlloc p2 (len a') (Some a')).
    replace (iReadOff p2) with (iReadOff X) by (subst X p2 p1; done).
    assert (HinvX : rinv f (setReadOff X (iReadOff X + nAvail))).
    { apply (rinv_advance f X buf1 nAvail); subst X p2 p1;
        cbn [setAlloc setBuffer aMap iReadOff nBuffer iEof aBuffer aAlloc nAlloc];
        try done; try lia. }
    set (Y := setReadOff X (iReadOff X + nAvail)) in *.
    assert (G1 : aMap Y = None) by (subst Y X p2 p1; done).
    assert (G2 : 0 <= nByte - nAvail <= nByte) by lia.
    assert (G3 : (Z.to_nat (nByte - nAvail) <= Z.to_nat (nByte - nAvail))%nat) by lia.
    assert (G4 : iReadOff Y = iReadOff p + (nByte - (nByte - nAvail))).
    { subst Y X p2 p1. cbn. lia. }
    assert (G5 : iReadOff p + nByte <= iEof Y) by (subst Y X p2 p1; cbn; lia).
    assert (G6 : 0 < nByte - nAvail -> iReadOff Y mod nBuffer Y = 0).
    { intros _. subst Y X p2 p1. cbn [setReadOff setAlloc setBuffer iReadOff nBuffer].
      apply mod_advance_full; lia. }
    assert (G7 : aAlloc Y = Some a') by (subst Y X p2 p1; done).
    assert (G8 : nAlloc Y = len a') by (subst Y X p2 p1; done).
    assert (G9 : nByte <= len a') by lia.
    assert (G10 : sub a' 0 (nByte - (nByte - nAvail))
                  = sub f (iReadOff p) (nByte - (nByte - nAvail))).
    { replace (nByte - (nByte - nAvail)) with (0 + len D) by lia.
      subst a'. rewrite memcpy_prefix by lia.
      rewrite sub_nil. cbn [app]. rewrite HDf at 1. by rewrite HD. }
    destruct (copy_loop_spec env f (iReadOff p) nByte Hrd Hoff
                (Z.to_nat (nByte - nAvail)) Y (nByte - nAvail) a'
                G1 HinvX G2 G3 G4 G5 G6 G7 G8 G9 G10)
      as (p' & Hrun & Hoff' & Hk & Hinv' & Hout).
    exists p', ToAlloc. split; [done|]. split; [done|]. split; [|done].
    eapply keeps_trans; [|exact Hk]. subst Y X p2 p1. by unfold keeps.
Qed.

Context {VL : VarintLaws}.

Lemma put_bound (v : Z) :
  0 <= v < 2 ^ 56 -> 1 <= len (sqlite3PutVarint v) <= 9.
Proof. intros Hv. rewrite put_len by done. apply len_range. Qed.

Lemma land_15 (i : Z) : 0 <= i < 16 -> Z.land i 15 = i.
Proof.
  intros. change 15 with (Z.ones 4). rewrite Z.land_ones by lia.
  apply Z.mod_small. lia.
Qed.

Lemma drop_holds (l : list Z) (off : Z) (B : list Z) :
  sub l off (len B) = B -> exists rest, drop (Z.to_nat off) l = B ++ rest.
Proof.
  intros H. exists (drop (length B) (drop (Z.to_nat off) l)).
  rewrite <- H at 1. unfold sub. rewrite Nat2Z.id. by rewrite take_drop.
Qed.

(** The loop of vdbePmaReadVarint reads the bytes of a varint up to the
    first one without the high bit. *)
Lemma readVarint_loop_spec (env : ReadEnv) (f : list Z) (v : Z) (last : Z) :
  reads_ok env -> Z.land last 128 = 0 ->
  forall (init done_ : list Z) (fuel : nat) (p : PmaReader),
    Forall (fun b => Z.land b 128 <> 0) init ->
    done_ ++ init ++ [last] = sqlite3PutVarint v ->
    (length init < fuel)%nat ->
    aMap p = None -> rinv f p ->
    holds f (iReadOff p) (init ++ [last]) ->
    iReadOff p + len (init ++ [last]) <= iEof p ->
    len (sqlite3PutVarint v) <= 16 ->
    exists p',
      readVarint_loop fuel env f p
        (done_ ++ replicate (16 - length done_) 0) (len done_)
      = Some (0, p', sqlite3PutVarint v
                     ++ replicate (16 - length (sqlite3PutVarint v)) 0) /\
      iReadOff p' = iReadOff p + len (init ++ [last]) /\
      keeps p p' /\ rinv f p'.
Proof.
  intros Hrd Hlast.
  induction init as [|x init IH]; intros done_ fuel p Hhigh Hput Hfuel Hmap Hinv Hh Hin H16.
  - destruct fuel as [|fuel]; [simpl in Hfuel; lia|].
    cbn [app length] in *. cbn [readVarint_loop]. unfold vdbePmaReadBlob.
    pose proof Hinv as (Hoff & Hinv0). rewrite Hmap in Hinv0.
    destruct Hinv0 as (HnB & _).
    pose proof (Z.mod_pos_bound (iReadOff p) (nBuffer p) HnB) as Hmod.
    destruct (readBlob_page 1 env f p 1) as (buf1 & Hrun & Hinv1 & Hdata);
      try done; try lia.
    cbv zeta in Hrun. rewrite Hrun. cbn [negb Z.eqb SQLITE_OK].
    cbn [deref setReadOff setBuffer aBuffer]. simpl default.
    rewrite Hdata.
    rewrite (holds_sub f (iReadOff p) [last] 1 Hh) by (simpl; lia).
    simpl head. simpl default.
    rewrite Hlast. cbn [Z.eqb negb].
    exists (setReadOff (setBuffer p (Some buf1) (nBuffer p)) (iReadOff p + 1)).
    split; [|split; [cbn [setReadOff iReadOff]; lia|split; [by unfold keeps|exact Hinv1]]].
    do 2 f_equal.
    assert (Hld : (length done_ < 16)%nat).
    { rewrite <- Hput, length_app in H16. simpl in H16. lia. }
    rewrite land_15 by lia. rewrite Nat2Z.id.
    rewrite insert_app_r_alt by lia. rewrite Nat.sub_diag.
    replace (16 - length done_)%nat with (S (15 - length done_)) by lia.
    cbn [replicate]. simpl. rewrite <- Hput, length_app. simpl.
    replace (16 - (length done_ + 1))%nat with (15 - length done_)%nat by lia.
    by rewrite <- app_assoc.
  - destruct fuel as [|fuel]; [simpl in Hfuel; lia|].
    cbn [readVarint_loop]. unfold vdbePmaReadBlob.
    pose proof Hinv as (Hoff & Hinv0). rewrite Hmap in Hinv0.
    destruct Hinv0 as (HnB & _).
    pose proof (Z.mod_pos_bound (iReadOff p) (nBuffer p) HnB) as Hmod.
    assert (Hl : 2 <= len ((x :: init) ++ [last])).
    { rewrite length_app. simpl. lia. }
    destruct (readBlob_page 1 env f p 1) as (buf1 & Hrun & Hinv1 & Hdata);
      try done; try lia.
    cbv zeta in Hrun. rewrite Hrun. cbn [negb Z.eqb SQLITE_OK].
    cbn [deref setReadOff setBuffer aBuffer]. simpl default.
    rewrite Hdata.
    rewrite (holds_sub f (iReadOff p) ((x :: init) ++ [last]) 1 Hh) by lia.
    simpl head. simpl default.
    apply Forall_cons in Hhigh as [Hx Hhigh].
    replace (Z.land x 128 =? 0) with false by lia. cbn [negb].
    assert (Hld : (length done_ < 15)%nat).
    { rewrite <- Hput, !length_app in H16. simpl in H16. lia. }
    rewrite land_15 by lia. rewrite Nat2Z.id.
    rewrite insert_app_r_alt by lia. rewrite Nat.sub_diag.
    replace (16 - length done_)%nat with (S (15 - length done_)) by lia.
    cbn [replicate]. simpl.
    set (p1 := setReadOff (setBuffer p (Some buf1) (nBuffer p)) (iReadOff p + 1)) in *.
    change ((x :: init) ++ [last]) with ([x] ++ (init ++ [last])) in Hh.
    apply holds_app in Hh as [_ Hh].
    destruct (IH (done_ ++ [x]) fuel p1) as (p' & Hrun' & Hoff' & Hk & Hinv');
      try done.
    + by rewrite <- app_assoc.
    + simpl in Hfuel. lia.
    + subst p1. cbn [setReadOff setBuffer iEof iReadOff].
      simpl in Hin. rewrite length_app in *. simpl in *. lia.
    + rewrite length_app in Hrun'. simpl in Hrun'.
      replace (16 - (length done_ + 1))%nat with (15 - length done_)%nat in Hrun' by lia.
      rewrite <- app_assoc in Hrun'. simpl in Hrun'.
      replace (Z.of_nat (length done_ + 1)) with (len done_ + 1) in Hrun' by lia.
      exists p'. split; [exact Hrun'|]. split.
      * rewrite Hoff'. subst p1. cbn [setReadOff iReadOff].
        rewrite !length_app. simpl. lia.
      * split; [|done]. eapply keeps_trans; [|exact Hk]. subst p1. by unfold keeps.
Qed.

(** vdbePmaReadVarint: the value of the varint at the read offset, and
    the offset moves past it. *)
Lemma vdbePmaReadVarint_spec (env : ReadEnv) (f : list Z) (p : PmaReader)
    (v out0 : Z) :
  reads_ok env -> rinv f p -> 0 <= v < 2 ^ 56 ->
  holds f (iReadOff p) (sqlite3PutVarint v) ->
  iReadOff p + len (sqlite3PutVarint v) <= iEof p ->
  exists p',
    vdbePmaReadVarint env f p out0 = Some (0, p', v) /\
    iReadOff p' = iReadOff p + len (sqlite3PutVarint v) /\
    keeps p p' /\ rinv f p'.
Proof.
  intros Hrd Hinv Hv Hh Hin. unfold vdbePmaReadVarint.
  pose proof (put_bound v Hv) as HL.
  pose proof Hinv as (Hoff & Hinv0).
  destruct (aMap p) as [m|] eqn:Hmap.
  - destruct Hinv0 as (E & -> & HE).
    destruct (drop_holds (sub f 0 E) (iReadOff p) (sqlite3PutVarint v)) as (rest & ->).
    { rewrite sub_sub0 by lia. apply Hh. }
    rewrite put_get by done.
    eexists. split; [reflexivity|]. split; [done|]. split; [by unfold keeps|].
    split; [cbn; lia|]. cbn [setReadOff aMap iEof]. rewrite Hmap. by exists E.
  - destruct Hinv0 as (HnB & Heof & Hal & buf & Hbuf & Hlen & Hok).
    pose proof (Z.mod_pos_bound (iReadOff p) (nBuffer p) HnB) as Hmod.
    rewrite rem_mod by done.
    destruct (negb (iReadOff p mod nBuffer p =? 0)
              && (nBuffer p - iReadOff p mod nBuffer p >=? 9)) eqn:Efast.
    + apply andb_true_iff in Efast as [E1 E2].
      assert (Hnz : iReadOff p mod nBuffer p <> 0) by lia.
      specialize (Hok Hnz).
      rewrite Hbuf. simpl default.
      destruct (drop_holds buf (iReadOff p mod nBuffer p) (sqlite3PutVarint v))
        as (rest & ->).
      { rewrite Hok by lia. apply Hh. }
      rewrite put_get by done.
      eexists. split; [reflexivity|]. split; [done|]. split; [by unfold keeps|].
      apply (rinv_advance f p buf); try done; lia.
    + destruct (put_high v Hv) as (init & last & Hput & Hhigh & Hlast).
      rewrite Hput in Hh, Hin.
      destruct (readVarint_loop_spec env f v last Hrd Hlast init []
                  (Z.to_nat (Z.max 0 (iEof p - iReadOff p) + nBuffer p + 1)) p)
        as (p' & Hrun & Hoff' & Hk & Hinv'); try done.
      * rewrite length_app in Hin. simpl in Hin. lia.
      * lia.
      * cbn [app length] in Hrun. change (Z.of_nat 0) with 0 in Hrun.
        cbn [Nat.sub] in Hrun. rewrite Hrun. cbn [negb Z.eqb SQLITE_OK].
        rewrite put_get by done. cbn [fst].
        exists p'. split; [done|]. split; [|done]. rewrite Hoff'. by rewrite Hput.
Qed.

Lemma sub_memcpy_at (dst : list Z) (off : Z) (src : list Z) (n : Z) :
  0 <= off <= len dst -> n <= len src ->
  sub (memcpy dst off src) off n = take (Z.to_nat n) src.
Proof.
  intros. unfold sub, memcpy.
  rewrite drop_app_length' by (rewrite length_take; lia).
  rewrite take_app_le by lia. done.
Qed.

Lemma rinv_setEof (f : list Z) (p : PmaReader) (e : Z) :
  rinv f p -> e <= iEof p -> rinv f (setEof p e).
Proof.
  intros (Hoff & Hinv) He. split; [done|].
  cbn [setEof aMap iEof nBuffer aBuffer iReadOff].
  destruct (aMap p).
  - destruct Hinv as (E & Hm & HE). exists E. split; [done|lia].
  - destruct Hinv as (HnB & Heof & Hal & buf & Hbuf & Hlen & Hok).
    split; [done|]. split; [lia|]. split; [done|].
    exists buf. split; [done|]. split; [done|].
    intros Hnz n Hn0 Hn1 Hn2. cbn [setEof iReadOff nBuffer iEof] in *.
    apply Hok; try done. lia.
Qed.

Lemma rinv_setNKey (f : list Z) (p : PmaReader) (n : Z) :
  rinv f p -> rinv f (setNKey p n).
Proof. done. Qed.

Lemma rinv_setKey (f : list Z) (p : PmaReader) (q : option ptr) :
  rinv f p -> rinv f (setKey p q).
Proof. done. Qed.

(** vdbePmaReaderSeek on a reader without buffer: the reader is set at
    the offset, mapped or with the rest of the page in its buffer. *)
Lemma vdbePmaReaderSeek_spec (env : ReadEnv) (pgsz : Z) (p : PmaReader)
    (F : SorterFile) (iOff : Z) :
  reads_ok env -> bMalloc env = true -> rcFetch env = 0 -> 0 < pgsz ->
  aBuffer p = None -> alloc_ok p -> pIncr p = None ->
  0 <= iOff <= sf_iEof F -> sf_iEof F <= len (sf_data F) ->
  exists p',
    vdbePmaReaderSeek env pgsz p F iOff = Some (0, p') /\
    rinv (sf_data F) p' /\ iReadOff p' = iOff /\ iEof p' = sf_iEof F /\
    pFile p' = pFd F /\ pIncr p' = None.
Proof.
  intros Hrd Hm Hfe Hpg Hbuf Hal Hinc Hoff Heof.
  unfold vdbePmaReaderSeek. rewrite Hinc.
  unfold vdbeSorterMapFile. rewrite Hfe.
  set (p1 := setFile (setEof (setReadOff (setMap p None) iOff) (sf_iEof F)) (pFd F)).
  assert (Hmap : exists m,
    (if sf_iEof F <=? nMaxSorterMmap env
     then (0, if bFetch env then Some (sub (sf_data F) 0 (sf_iEof F)) else None)
     else (SQLITE_OK, None)) = (0, m) /\
    (m = None \/ m = Some (sub (sf_data F) 0 (sf_iEof F)))).
  { destruct (sf_iEof F <=? nMaxSorterMmap env); [destruct (bFetch env)|];
      eexists; (split; [reflexivity|]); auto. }
  destruct Hmap as (m & -> & [-> | ->]).
  - cbn [Z.eqb SQLITE_OK].
    assert (Hb1 : aBuffer (setMap p1 None) = None) by (subst p1; done).
    rewrite Hb1, Hm.
    cbn [setBuffer setMap iReadOff iEof nBuffer aBuffer Z.eqb andb].
    assert (Hr1 : iReadOff p1 = iOff) by (subst p1; done).
    assert (He1 : iEof p1 = sf_iEof F) by (subst p1; done).
    rewrite Hr1, He1. simpl default.
    rewrite Z.rem_mod_nonneg by lia.
    pose proof (Z.mod_pos_bound iOff pgsz Hpg) as Hmod.
    set (zeros := replicate (Z.to_nat pgsz) 0).
    assert (Hz : len zeros = pgsz) by (subst zeros; rewrite length_replicate; lia).
    destruct (iOff mod pgsz =? 0) eqn:E0; cbn [negb].
    + eexists. split; [reflexivity|].
      split; [|subst p1; done].
      split; [subst p1; cbn; lia|].
      cbn [setBuffer setMap aMap nBuffer iEof aBuffer iReadOff].
      assert (Ha1 : aMap p1 = None) by (subst p1; done).
      split; [done|]. split; [lia|]. split; [by subst p1|].
      exists zeros. split; [done|]. split; [done|].
      rewrite Hr1. intros Hnz. lia.
    + set (nRead := if iOff + (pgsz - iOff mod pgsz) >? sf_iEof F
                    then sf_iEof F - iOff else pgsz - iOff mod pgsz).
      assert (HnR : 0 <= nRead /\ iOff + nRead <= sf_iEof F /\
                    iOff mod pgsz + nRead <= pgsz /\
                    (forall n, iOff mod pgsz + n <= pgsz ->
                               iOff + n <= sf_iEof F -> n <= nRead)).
      { subst nRead.
        destruct (iOff + (pgsz - iOff mod pgsz) >? sf_iEof F) eqn:E;
          repeat split; lia. }
      unfold sqlite3OsRead. rewrite Hrd. cbn [Z.eqb SQLITE_OK].
      replace (iOff + nRead <=? len (sf_data F)) with true by lia.
      cbn [Z.eqb SQLITE_OK SQLITE_IOERR_SHORT_READ].
      set (D := sub (sf_data F) iOff nRead).
      assert (HD : len D = nRead) by (subst D; apply sub_length; lia).
      eexists. split; [reflexivity|].
      split; [|subst p1; done].
      split; [subst p1; cbn; lia|].
      cbn [setBuffer setMap aMap nBuffer iEof aBuffer iReadOff].
      split; [lia|]. split; [subst p1; cbn; lia|]. split; [by subst p1|].
      eexists. split; [reflexivity|].
      split; [rewrite memcpy_length; lia|].
      rewrite Hr1. intros _ n Hn0 Hn1 Hn2.
      cbn [setBuffer setMap iReadOff nBuffer iEof] in *.
      rewrite Hr1 in *. rewrite He1 in Hn2.
      rewrite sub_memcpy_at by (try lia; rewrite HD; apply HnR; lia).
      subst D. apply sub_take. apply HnR; lia.
  - eexists. split; [reflexivity|].
    split; [|subst p1; done].
    split; [subst p1; cbn; lia|].
    cbn [setMap aMap iEof]. exists (sf_iEof F). split; [done|]. subst p1. cbn. lia.
Qed.

(** vdbePmaReaderNext on a record: the reader gets the key. *)
Lemma vdbePmaReaderNext_record (env : ReadEnv) (pgsz : Z) (f : list Z)
    (p : PmaReader) (k : list Z) :
  reads_ok env -> bRealloc env = true -> rinv f p ->
  0 < len k < 2 ^ 31 ->
  holds f (iReadOff p) (record_bytes k) ->
  iReadOff p + len (record_bytes k) <= iEof p ->
  exists p',
    vdbePmaReaderNext env pgsz f p = Some (0, p') /\
    key p' = k /\ iReadOff p' = iReadOff p + len (record_bytes k) /\
    rinv f p' /\ iEof p' = iEof p /\ pFile p' = pFile p /\ pIncr p' = pIncr p.
Proof.
  intros Hrd Hre Hinv Hk Hh Hin. unfold vdbePmaReaderNext.
  unfold record_bytes in *. apply holds_app in Hh as [Hh1 Hh2].
  rewrite length_app in Hin.
  assert (Hv : 0 <= len k < 2 ^ 56) by lia.
  pose proof (put_bound _ Hv) as HL.
  replace (iReadOff p >=? iEof p) with false by lia.
  cbn [negb Z.eqb SQLITE_OK].
  destruct (vdbePmaReadVarint_spec env f p (len k) 0)
    as (p1 & -> & Hoff1 & Hk1 & Hinv1); try done; try lia.
  cbn [negb Z.eqb SQLITE_OK].
  assert (Hti : to_int (len k) = len k).
  { unfold to_int. rewrite Z.mod_small; lia. }
  rewrite Hti.
  destruct Hk1 as (He1 & Hnk1 & Hf1 & Hak1 & Hnb1 & Hi1 & Hm1).
  destruct (vdbePmaReadBlob_spec env f (setNKey p1 (len k)) (len k))
    as (p2 & q & -> & Hoff2 & Hk2 & Hinv2 & Hd); try done; try lia.
  { cbn [setNKey iReadOff iEof]. lia. }
  cbn [setNKey iReadOff] in *.
  destruct Hk2 as (He2 & Hnk2 & Hf2 & Hak2 & Hnb2 & Hi2 & Hm2).
  cbn [setNKey iEof nKey pFile aKey nBuffer pIncr aMap] in *.
  eexists. split; [reflexivity|].
  split.
  { unfold key. cbn [setKey aKey nKey]. rewrite Hnk2.
    replace (deref (setKey p2 (Some q)) q (len k)) with (deref p2 q (len k))
      by (destruct q; done).
    rewrite Hd, Hoff1. apply Hh2. }
  split; [cbn [setKey iReadOff]; rewrite length_app; lia|].
  split; [by apply rinv_setKey|].
  cbn [setKey iEof pFile pIncr]. repeat split; congruence.
Qed.

(** vdbePmaReaderNext at the end of the data, without incremental
    merger: the reader is cleared. *)
Lemma vdbePmaReaderNext_eof (env : ReadEnv) (pgsz : Z) (f : list Z)
    (p : PmaReader) :
  iEof p <= iReadOff p -> pIncr p = None ->
  vdbePmaReaderNext env pgsz f p = Some (0, zeroReader).
Proof.
  intros He Hi. unfold vdbePmaReaderNext.
  replace (iReadOff p >=? iEof p) with true by lia. by rewrite Hi.
Qed.

Definition key_ok (k : list Z) : Prop := 0 < len k < 2 ^ 31.

Lemma scan_eq (fuel : nat) (env : ReadEnv) (pgsz : Z) (f : list Z) (p : PmaReader) :
  scan (S fuel) env pgsz f p =
  if pFile p then
    match vdbePmaReaderNext env pgsz f p with
    | Some (rc, p') =>
        if rc =? SQLITE_OK then (key p ::.) <$> scan fuel env pgsz f p'
        else None
    | None => None
    end
  else Some [].
Proof. reflexivity. Qed.

Lemma pma_scan_spec (env : ReadEnv) (pgsz : Z) (f : list Z) :
  reads_ok env -> bRealloc env = true ->
  forall (ks : list (list Z)) (p : PmaReader),
    Forall key_ok ks ->
    rinv f p -> pFile p = true -> pIncr p = None ->
    holds f (iReadOff p) (records_bytes ks) ->
    iReadOff p + len (records_bytes ks) = iEof p ->
    scan (S (S (length ks))) env pgsz f p = Some (key p :: ks).
Proof.
  intros Hrd Hre. induction ks as [|k ks IH]; intros p Hks Hinv Hf Hi Hh He.
  - cbn in He. cbn [scan length]. rewrite Hf.
    rewrite vdbePmaReaderNext_eof by (try done; lia).
    cbn. done.
  - apply Forall_cons in Hks as [Hk Hks].
    unfold records_bytes in Hh, He. cbn [map concat] in Hh, He.
    fold (records_bytes ks) in Hh, He.
    apply holds_app in Hh as [Hh1 Hh2]. rewrite length_app in He.
    destruct (vdbePmaReaderNext_record env pgsz f p k)
      as (p' & Hrun & Hkey & Hoff & Hinv' & He' & Hf' & Hi'); try done; try lia.
    cbn [length]. rewrite scan_eq, Hf, Hrun. cbn [Z.eqb SQLITE_OK].
    assert (G1 : pFile p' = true) by congruence.
    assert (G2 : pIncr p' = None) by congruence.
    assert (G3 : holds f (iReadOff p') (records_bytes ks)) by (by rewrite Hoff).
    assert (G4 : iReadOff p' + len (records_bytes ks) = iEof p') by lia.
    rewrite (IH p' Hks Hinv' G1 G2 G3 G4). cbn. by rewrite Hkey.
Qed.

(** [szPMA], as sqlite3VdbeSorterWrite adds it up. *)
Definition pma_size (l : list (list Z)) : Z :=
  foldr (fun k acc => len k + sqlite3VarintLen (len k) + acc) 0 l.

Lemma pma_size_bytes (l : list (list Z)) :
  Forall key_ok l -> pma_size l = len (records_bytes l).
Proof.
  induction 1 as [|k l Hk _ IH]; [done|].
  unfold records_bytes, record_bytes in *. cbn [pma_size foldr map concat].
  fold (pma_size l). rewrite IH, !length_app.
  unfold key_ok in Hk. rewrite <- (put_len (len k)) by lia. lia.
Qed.

Lemma pma_reader_init_spec (env : ReadEnv) (pgsz : Z) (F : SorterFile)
    (iStart : Z) (ks : list (list Z)) (pn : Z) :
  reads_ok env -> bMalloc env = true -> bRealloc env = true ->
  rcFetch env = 0 -> 0 < pgsz -> pFd F = true ->
  Forall key_ok ks -> pma_size ks < 2 ^ 56 ->
  holds (sf_data F) iStart (pma_image (pma_size ks) ks) ->
  iStart + len (pma_image (pma_size ks) ks) <= sf_iEof F ->
  sf_iEof F <= len (sf_data F) ->
  exists p1,
    vdbePmaReaderInit env pgsz F iStart zeroReader pn
    = Some (0, p1, pn + pma_size ks) /\
    scan (S (length ks)) env pgsz (sf_data F) p1 = Some ks.
Proof.
  intros Hrd Hm Hre Hfe Hpg Hfd Hks Hsz Hh Hin Heof.
  pose proof (pma_size_bytes ks Hks) as Hps.
  assert (Hv : 0 <= pma_size ks < 2 ^ 56) by lia.
  pose proof (put_bound _ Hv) as HL.
  unfold pma_image in Hh, Hin. apply holds_app in Hh as [Hh1 Hh2].
  rewrite length_app in Hin.
  pose proof Hh1 as (Hs0 & _).
  unfold vdbePmaReaderInit.
  replace (sf_iEof F >? iStart) with true by lia.
  cbn [zeroReader aAlloc nAlloc aBuffer aMap Z.eqb andb].
  rewrite !bool_decide_eq_true_2 by done. cbn [andb].
  destruct (vdbePmaReaderSeek_spec env pgsz zeroReader F iStart)
    as (p0 & -> & Hinv0 & Hoff0 & He0 & Hf0 & Hi0); try done; try lia.
  cbn [Z.eqb SQLITE_OK].
  rewrite <- Hoff0 in Hh1.
  destruct (vdbePmaReadVarint_spec env (sf_data F) p0 (pma_size ks) (uninit env))
    as (p1 & -> & Hoff1 & Hk1 & Hinv1); try done; try lia.
  cbn [Z.eqb SQLITE_OK].
  destruct Hk1 as (He1 & Hnk1 & Hf1 & Hak1 & Hnb1 & Hi1 & Hm1).
  set (p2 := setEof p1 (iReadOff p1 + pma_size ks)).
  assert (Hinv2 : rinv (sf_data F) p2) by (apply rinv_setEof; [done|lia]).
  assert (Hfile2 : pFile p2 = true) by (subst p2; cbn; congruence).
  assert (Hincr2 : pIncr p2 = None) by (subst p2; cbn; congruence).
  assert (Hh3 : holds (sf_data F) (iReadOff p2) (records_bytes ks)).
  { subst p2. cbn [setEof iReadOff]. rewrite Hoff1, Hoff0. exact Hh2. }
  assert (He2 : iReadOff p2 + len (records_bytes ks) = iEof p2).
  { subst p2. cbn [setEof iReadOff iEof]. lia. }
  destruct ks as [|k ks].
  - unfold records_bytes in He2. cbn [map concat length] in He2.
    rewrite vdbePmaReaderNext_eof by (try done; lia).
    eexists. split; [reflexivity|]. done.
  - apply Forall_cons in Hks as [Hk Hks'].
    unfold records_bytes in Hh3, He2. cbn [map concat] in Hh3, He2.
    fold (records_bytes ks) in Hh3, He2.
    apply holds_app in Hh3 as [Hh4 Hh5]. rewrite length_app in He2.
    destruct (vdbePmaReaderNext_record env pgsz (sf_data F) p2 k)
      as (p3 & -> & Hkey & Hoff3 & Hinv3 & He3 & Hf3 & Hi3); try done; try lia.
    eexists. split; [reflexivity|].
    assert (G1 : pFile p3 = true) by congruence.
    assert (G2 : pIncr p3 = None) by congruence.
    assert (G3 : holds (sf_data F) (iReadOff p3) (records_bytes ks)) by (by rewrite Hoff3).
    assert (G4 : iReadOff p3 + len (records_bytes ks) = iEof p3) by lia.
    cbn [length].
    rewrite (pma_scan_spec env pgsz (sf_data F) Hrd Hre ks p3 Hks' Hinv3 G1 G2 G3 G4).
    by rewrite Hkey.
Qed.

(** ** The properties *)

(** X18: the PMA in the file.  vdbeSorterListToPMA, its buffer
    allocated, writes through the page buffer the varint [szPMA] and then
    every record, its size as a varint and its bytes.  Whenever it
    returns SQLITE_OK the file holds exactly these bytes from the old end
    of the data, every byte before and after them is as it was, and the
    new [iEof] is the old one plus their number, whatever the page size
    and the alignment of the start.  It returns SQLITE_OK when no write
    fails. *)
Theorem listToPMA_write_content (rcW : Z -> Z) (pgsz : Z) (f0 : list Z)
    (iStart szPMA : Z) (l : list (list Z)) :
  0 < pgsz -> 0 <= iStart <= len f0 ->
  exists rc iEof_ f',
    listToPMA_write rcW true pgsz iStart f0 szPMA l = Some (rc, iEof_, f') /\
    (rc = 0 ->
     f' = take (Z.to_nat iStart) f0 ++ pma_image szPMA l
          ++ drop (Z.to_nat iStart + length (pma_image szPMA l)) f0 /\
     iEof_ = iStart + len (pma_image szPMA l)) /\
    ((forall off, rcW off = 0) -> rc = 0).
Proof.
  intros Hpg Hs. unfold listToPMA_write, vdbePmaWriteVarint.
  set (pre := take (Z.to_nat iStart) f0).
  set (tail := drop (Z.to_nat iStart) f0).
  pose proof (vdbePmaWriterInit_spec pgsz f0 iStart Hpg Hs) as Hini.
  fold pre tail in Hini.
  set (w := vdbePmaWriterInit true pgsz iStart) in *.
  assert (Hw : eFWErr w = 0) by done.
  destruct (vdbePmaWriteBlob_spec rcW pre tail [] w f0 (sqlite3PutVarint szPMA))
    as (w1 & f1 & -> & Hst1 & Hall1 & _); [by intros _|].
  destruct (write_records_spec rcW pre tail l _ w1 f1 Hst1)
    as (w2 & f2 & -> & Hst2 & Hall2 & _).
  destruct (vdbePmaWriterFinish_spec rcW pre tail _ w2 f2 Hst2)
    as (rc & e & f' & -> & Hok & Hall3 & _).
  exists rc, e, f'. split; [done|]. split.
  - intros Hrc. destruct (Hok Hrc) as [-> ->].
    cbn [app]. fold (pma_image szPMA l). split.
    + subst tail. by rewrite drop_drop.
    + subst pre. rewrite length_take. lia.
  - intros Hall. apply Hall3; [done|]. apply Hall2; [done|]. by apply Hall1.
Qed.

(** X19: when the allocation of the page buffer fails in
    vdbePmaWriterInit, vdbeSorterListToPMA writes nothing, returns
    SQLITE_NOMEM, and the [iEof] it stores is 0, wherever the data of the
    file ended before. *)
Theorem listToPMA_write_nomem (rcW : Z -> Z) (pgsz : Z) (f0 : list Z)
    (iStart szPMA : Z) (l : list (list Z)) :
  listToPMA_write rcW false pgsz iStart f0 szPMA l = Some (SQLITE_NOMEM, 0, f0).
Proof.
  unfold listToPMA_write, vdbePmaWriteVarint.
  set (w := vdbePmaWriterInit false pgsz iStart).
  assert (Hw : eFWErr w <> 0) by done.
  assert (Hst : wstate [] [] [] w f0) by (intros He; done).
  destruct (vdbePmaWriteBlob_spec rcW [] [] [] w f0 (sqlite3PutVarint szPMA) Hst)
    as (w1 & f1 & -> & Hst1 & _ & Hsame1).
  destruct (Hsame1 Hw) as [-> ->].
  destruct (write_records_spec rcW [] [] l _ w f0 Hst1)
    as (w2 & f2 & -> & _ & _ & Hsame2).
  destruct (Hsame2 Hw) as [-> ->]. done.
Qed.

(** X20: vdbePmaReadBlob hands out the bytes of the file.  For a reader
    that agrees with its file (mapped, or its buffer holding the current
    page from the read offset on), a read of [nByte > 0] bytes that ends
    within [iEof] succeeds when no read of the file and no allocation
    fails; the pointer it stores designates the [nByte] bytes of the file
    at the old read offset, also when they span several pages; the read
    offset has moved by [nByte], and the reader still agrees with the
    file. *)
Theorem vdbePmaReadBlob_file_bytes (env : ReadEnv) (f : list Z) (p : PmaReader)
    (nByte : Z) :
  reads_ok env -> bRealloc env = true -> rinv f p ->
  0 < nByte -> iReadOff p + nByte <= iEof p ->
  exists p' q,
    vdbePmaReadBlob env f p nByte = Some (SQLITE_OK, p', Some q) /\
    deref p' q nByte = sub f (iReadOff p) nByte /\
    iReadOff p' = iReadOff p + nByte /\ iEof p' = iEof p /\
    rinv f p'.
Proof.
  intros Hrd Hre Hinv Hn Hin.
  destruct (vdbePmaReadBlob_spec env f p nByte Hrd Hre Hinv Hn Hin)
    as (p' & q & Hrun & Hoff & Hk & Hinv' & Hd).
  exists p', q. repeat split; try done; apply Hk || apply Hinv'.
Qed.

(** X21: vdbePmaReadVarint returns the value of the varint at the read
    offset, for a value below 2^56 whose bytes end within [iEof], and
    moves the read offset past it, whether the varint is read from the
    mapping, straight from the buffer, or byte by byte across a page
    boundary. *)
Theorem vdbePmaReadVarint_value (env : ReadEnv) (f : list Z) (p : PmaReader)
    (v out0 : Z) :
  reads_ok env -> rinv f p -> 0 <= v < 2 ^ 56 ->
  holds f (iReadOff p) (sqlite3PutVarint v) ->
  iReadOff p + len (sqlite3PutVarint v) <= iEof p ->
  exists p',
    vdbePmaReadVarint env f p out0 = Some (SQLITE_OK, p', v) /\
    iReadOff p' = iReadOff p + sqlite3VarintLen v /\ iEof p' = iEof p /\
    rinv f p'.
Proof.
  intros Hrd Hinv Hv Hh Hin.
  destruct (vdbePmaReadVarint_spec env f p v out0 Hrd Hinv Hv Hh Hin)
    as (p' & Hrun & Hoff & Hk & Hinv').
  exists p'. split; [done|]. split; [by rewrite <- put_len|].
  split; [apply Hk|done].
Qed.

(** X22: a PMA is read back.  If a file holds at [iStart], within its
    [iEof], the image of a PMA (the varint of the size, then the
    records), the keys not empty and shorter than 2^31 bytes,
    vdbePmaReaderInit on a zeroed reader succeeds, adds the size to
    [*pnByte], and vdbePmaReaderNext then delivers the keys one after the
    other, in their order, until it clears the reader, whatever the page
    size and the offset, with or without mapping. *)
Theorem pma_read_back (env : ReadEnv) (pgsz : Z) (F : SorterFile)
    (iStart : Z) (ks : list (list Z)) (pn : Z) :
  reads_ok env -> bMalloc env = true -> bRealloc env = true ->
  rcFetch env = SQLITE_OK -> 0 < pgsz -> pFd F = true ->
  Forall key_ok ks -> pma_size ks < 2 ^ 56 ->
  holds (sf_data F) iStart (pma_image (pma_size ks) ks) ->
  iStart + len (pma_image (pma_size ks) ks) <= sf_iEof F ->
  sf_iEof F <= len (sf_data F) ->
  exists p1,
    vdbePmaReaderInit env pgsz F iStart zeroReader pn
    = Some (SQLITE_OK, p1, pn + pma_size ks) /\
    scan (S (length ks)) env pgsz (sf_data F) p1 = Some ks.
Proof. apply pma_reader_init_spec. Qed.

(** X23: what vdbeSorterListToPMA writes, the reader reads back.  When
    no write, no read and no allocation fails, the sorted list written at
    the end of the data of a file gives a file whose new [iEof] is the
    old one plus [szPMA] plus the length of the varint of [szPMA] (what
    the function asserts), and a reader initialised at the old end
    delivers the keys of the list, in their order. *)
Theorem pma_round_trip (rcW : Z -> Z) (env : ReadEnv) (pgsz : Z) (f0 : list Z)
    (iStart : Z) (ks : list (list Z)) (pn : Z) :
  (forall off, rcW off = 0) -> reads_ok env ->
  bMalloc env = true -> bRealloc env = true -> rcFetch env = SQLITE_OK ->
  0 < pgsz -> 0 <= iStart <= len f0 ->
  Forall key_ok ks -> pma_size ks < 2 ^ 56 ->
  exists f1 p1,
    let iEof1 := iStart + sqlite3VarintLen (pma_size ks) + pma_size ks in
    listToPMA_write rcW true pgsz iStart f0 (pma_size ks) ks
    = Some (SQLITE_OK, iEof1, f1) /\
    vdbePmaReaderInit env pgsz (mkSorterFile true iEof1 f1) iStart zeroReader pn
    = Some (SQLITE_OK, p1, pn + pma_size ks) /\
    scan (S (length ks)) env pgsz f1 p1 = Some ks.
Proof.
  intros HrcW Hrd Hm Hre Hfe Hpg Hs Hks Hsz.
  pose proof (pma_size_bytes ks Hks) as Hps.
  assert (Hv : 0 <= pma_size ks < 2 ^ 56) by lia.
  pose proof (put_bound _ Hv) as HL.
  set (img := pma_image (pma_size ks) ks).
  assert (Himg : len img = sqlite3VarintLen (pma_size ks) + pma_size ks).
  { subst img. unfold pma_image. rewrite length_app, Nat2Z.inj_add, put_len by done. lia. }
  set (pre := take (Z.to_nat iStart) f0).
  set (post := drop (Z.to_nat iStart + length img) f0).
  assert (Hpre : len pre = iStart) by (subst pre; rewrite length_take; lia).
  assert (Hrun : listToPMA_write rcW true pgsz iStart f0 (pma_size ks) ks
                 = Some (0, iStart + len img, pre ++ img ++ post)).
  { unfold listToPMA_write, vdbePmaWriteVarint.
    set (tail := drop (Z.to_nat iStart) f0).
    pose proof (vdbePmaWriterInit_spec pgsz f0 iStart Hpg Hs) as Hini.
    fold pre tail in Hini.
    set (w := vdbePmaWriterInit true pgsz iStart) in *.
    assert (Hw : eFWErr w = 0) by done.
    destruct (vdbePmaWriteBlob_spec rcW pre tail [] w f0
                (sqlite3PutVarint (pma_size ks)))
      as (w1 & f1 & -> & Hst1 & Hall1 & _); [by intros _|].
    destruct (write_records_spec rcW pre tail ks _ w1 f1 Hst1)
      as (w2 & f2 & -> & Hst2 & Hall2 & _).
    destruct (vdbePmaWriterFinish_spec rcW pre tail _ w2 f2 Hst2)
      as (rc & e & f' & -> & Hok & Hall3 & _).
    assert (Hrc : rc = 0).
    { apply Hall3; [done|]. apply Hall2; [done|]. by apply Hall1. }
    destruct (Hok Hrc) as [-> ->]. subst rc.
    cbn [app]. fold (pma_image (pma_size ks) ks). fold img.
    subst tail post. rewrite drop_drop. do 3 f_equal. lia. }
  exists (pre ++ img ++ post).
  set (F := mkSorterFile true (iStart + sqlite3VarintLen (pma_size ks) + pma_size ks)
              (pre ++ img ++ post)).
  destruct (pma_reader_init_spec env pgsz F iStart ks pn) as (p1 & Hinit & Hscan);
    try done.
  - subst F. cbn [sf_data]. apply holds_mid. lia.
  - subst F. cbn [sf_iEof]. fold img. lia.
  - subst F. cbn [sf_iEof sf_data]. rewrite !length_app. lia.
  - exists p1. cbv zeta. rewrite Hrun. split; [do 3 f_equal; lia|].
    split; [exact Hinit|exact Hscan].
Qed.

End Codec.

(** ** A codec and examples *)

(** The varint of values below 2^56: groups of seven bits, the most
    significant first, every byte but the last with the high bit. *)
Fixpoint put_loop (fuel : nat) (w : Z) (acc : list Z) : list Z :=
  match fuel with
  | O => acc
  | S fuel' =>
      if w =? 0 then acc
      else put_loop fuel' (w / 128) ((w mod 128 + 128) :: acc)
  end.

Definition demoPut (v : Z) : list Z := put_loop 8 (v / 128) [v mod 128].

Fixpoint get_loop (bytes : list Z) (acc n : Z) : Z * Z :=
  match bytes with
  | [] => (acc, n)
  | b :: rest =>
      if b <? 128 then (acc * 128 + b, n + 1)
      else get_loop rest (acc * 128 + (b - 128)) (n + 1)
  end.

Definition demoGet (bytes : list Z) : Z * Z := get_loop bytes 0 0.

Definition demoVarint : Varint :=
  {| sqlite3PutVarint := demoPut;
     sqlite3GetVarint := demoGet;
     sqlite3VarintLen := fun v => Z.of_nat (length (demoPut v)) |}.

Lemma put_loop_length (fuel : nat) :
  forall (w : Z) (acc : list Z),
    (length acc <= length (put_loop fuel w acc) <= fuel + length acc)%nat.
Proof.
  induction fuel as [|fuel IH]; intros w acc; cbn [put_loop]; [lia|].
  destruct (w =? 0); [lia|].
  specialize (IH (w / 128) ((w mod 128 + 128) :: acc)). cbn [length] in IH. lia.
Qed.

Lemma put_loop_digits (fuel : nat) :
  forall (w : Z) (acc : list Z),
    0 <= w < 128 ^ Z.of_nat fuel ->
    exists init,
      put_loop fuel w acc = init ++ acc /\
      Forall (fun b => 128 <= b < 256) init /\
      forall (L : list Z) (a n : Z),
        get_loop (init ++ L) a n
        = get_loop L (a * 128 ^ Z.of_nat (length init) + w)
            (n + Z.of_nat (length init)).
Proof.
  induction fuel as [|fuel IH]; intros w acc Hw.
  - exists []. cbn [put_loop app length]. split; [done|]. split; [done|].
    intros L a n. change (128 ^ Z.of_nat 0) with 1 in *. f_equal; lia.
  - cbn [put_loop]. destruct (w =? 0) eqn:E0.
    + exists []. cbn [app length]. split; [done|]. split; [done|].
      intros L a n. change (128 ^ Z.of_nat 0) with 1. f_equal; lia.
    + assert (Hq : 0 <= w / 128 < 128 ^ Z.of_nat fuel).
      { rewrite Nat2Z.inj_succ, Z.pow_succ_r in Hw by lia.
        split; [apply Z.div_pos; lia|]. apply Z.div_lt_upper_bound; lia. }
      pose proof (Z.mod_pos_bound w 128 ltac:(lia)) as Hm.
      destruct (IH (w / 128) ((w mod 128 + 128) :: acc) Hq) as (init & Hput & Hhi & Hget).
      exists (init ++ [w mod 128 + 128]).
      split; [by rewrite Hput, <- app_assoc|].
      split; [apply Forall_app; split; [done|]; constructor; [lia|done]|].
      intros L a n. rewrite <- app_assoc. cbn [app]. rewrite Hget.
      cbn [get_loop]. replace (w mod 128 + 128 <? 128) with false by lia.
      rewrite length_app. cbn [length].
      rewrite Nat2Z.inj_add. change (Z.of_nat 1) with 1.
      rewrite Z.pow_add_r by lia. change (128 ^ 1) with 128.
      f_equal; [|lia].
      pose proof (Z.div_mod w 128 ltac:(lia)). nia.
Qed.

Lemma high_bit_set (b : Z) : 128 <= b < 256 -> Z.land b 128 <> 0.
Proof.
  intros Hb Hz.
  assert (Ht : Z.testbit (Z.land b 128) 7 = true).
  { rewrite Z.land_spec. change (Z.testbit 128 7) with true.
    rewrite andb_true_r.
    apply Z.testbit_true; [lia|]. change (2 ^ 7) with 128.
    replace (b / 128) with 1; [done|].
    apply Z.div_unique with (r := b - 128); lia. }
  rewrite Hz in Ht. by rewrite Z.bits_0 in Ht.
Qed.

Lemma high_bit_clear (b : Z) : 0 <= b < 128 -> Z.land b 128 = 0.
Proof.
  intros Hb. apply Z.bits_inj'. intros n Hn.
  rewrite Z.land_spec, Z.bits_0.
  destruct (decide (n = 7)) as [->|Hne].
  - replace (Z.testbit b 7) with false; [done|].
    symmetry. apply Z.testbit_false; [lia|]. change (2 ^ 7) with 128.
    rewrite Z.div_small by lia. done.
  - change 128 with (2 ^ 7). rewrite Z.pow2_bits_false by lia.
    by rewrite andb_false_r.
Qed.

Lemma demo_varint_laws : @VarintLaws demoVarint.
Proof.
  split.
  - intros v rest Hv. cbn [sqlite3GetVarint sqlite3PutVarint demoVarint].
    unfold demoGet, demoPut.
    assert (Hq : 0 <= v / 128 < 128 ^ Z.of_nat 8).
    { split; [apply Z.div_pos; lia|].
      apply Z.div_lt_upper_bound; [lia|]. change (128 ^ Z.of_nat 8) with (2 ^ 56).
      lia. }
    pose proof (Z.mod_pos_bound v 128 ltac:(lia)) as Hm.
    destruct (put_loop_digits 8 (v / 128) [v mod 128] Hq) as (init & -> & Hhi & Hget).
    rewrite <- app_assoc, Hget. cbn [app get_loop].
    replace (v mod 128 <? 128) with true by lia.
    rewrite length_app. cbn [length].
    pose proof (Z.div_mod v 128 ltac:(lia)).
    f_equal; lia.
  - done.
  - intros v. cbn [sqlite3VarintLen demoVarint]. unfold demoPut.
    pose proof (put_loop_length 8 (v / 128) [v mod 128]) as Hl.
    cbn [length] in Hl. lia.
  - intros v Hv. cbn [sqlite3PutVarint demoVarint]. unfold demoPut.
    assert (Hq : 0 <= v / 128 < 128 ^ Z.of_nat 8).
    { split; [apply Z.div_pos; lia|].
      apply Z.div_lt_upper_bound; [lia|]. change (128 ^ Z.of_nat 8) with (2 ^ 56).
      lia. }
    pose proof (Z.mod_pos_bound v 128 ltac:(lia)) as Hm.
    destruct (put_loop_digits 8 (v / 128) [v mod 128] Hq) as (init & -> & Hhi & _).
    exists init, (v mod 128). split; [done|]. split.
    + eapply Forall_impl; [exact Hhi|]. intros b Hb. by apply high_bit_set.
    + by apply high_bit_clear.
Qed.

#[local] Existing Instance demoVarint.
#[local] Existing Instance demo_varint_laws.

(** Pages of four bytes, a file of three bytes, and two records. *)
Definition demo_file : list Z := [9; 9; 9].
Definition demo_keys : list (list Z) := [[10; 11; 12]; [20; 21; 22; 23; 24; 25; 26]].
Definition writes_ok : Z -> Z := fun _ => 0.
Definition demo_env : ReadEnv := mkReadEnv (fun _ => 0) true true 0 0 false 0.
Definition demoSwap (inc : IncrMerger) : Z * IncrMerger := (0, inc).

Lemma listToPMA_write_content_witness :
  exists rc iEof_ f',
    listToPMA_write writes_ok true 4 3 demo_file 12 demo_keys = Some (rc, iEof_, f') /\
    (rc = 0 ->
     f' = take (Z.to_nat 3) demo_file ++ pma_image 12 demo_keys
          ++ drop (Z.to_nat 3 + length (pma_image 12 demo_keys)) demo_file /\
     iEof_ = 3 + Z.of_nat (length (pma_image 12 demo_keys))) /\
    ((forall off, writes_ok off = 0) -> rc = 0).
Proof.
  apply (listToPMA_write_content writes_ok 4 demo_file 3 12 demo_keys).
  - lia.
  - simpl. lia.
Defined.

(** A reader at the start of a file of six bytes. *)
Definition demo_reader (f_iEof : Z) : PmaReader :=
  mkPmaReader 0 f_iEof 0 0 true None None (Some [0; 0; 0; 0]) 4 None None.

Lemma demo_reader_rinv (f : list Z) (e : Z) :
  e <= Z.of_nat (length f) -> rinv f (demo_reader e).
Proof.
  intros He. split; [simpl; lia|]. cbn [demo_reader aMap nBuffer iEof aBuffer iReadOff].
  split; [lia|]. split; [done|]. split; [done|].
  exists [0; 0; 0; 0]. split; [done|]. split; [done|].
  intros Hnz. by exfalso.
Qed.

Lemma vdbePmaReadBlob_file_bytes_witness :
  exists p' q,
    vdbePmaReadBlob demo_env [1; 2; 3; 4; 5; 6] (demo_reader 6) 6
    = Some (SQLITE_OK, p', Some q) /\
    deref p' q 6 = sub [1; 2; 3; 4; 5; 6] (iReadOff (demo_reader 6)) 6 /\
    iReadOff p' = iReadOff (demo_reader 6) + 6 /\
    iEof p' = iEof (demo_reader 6) /\
    rinv [1; 2; 3; 4; 5; 6] p'.
Proof.
  apply (vdbePmaReadBlob_file_bytes demo_env [1; 2; 3; 4; 5; 6] (demo_reader 6) 6).
  - intros off. reflexivity.
  - reflexivity.
  - apply demo_reader_rinv. simpl. lia.
  - lia.
  - simpl. lia.
Defined.

Lemma vdbePmaReadVarint_value_witness :
  exists p',
    vdbePmaReadVarint demo_env [130; 44; 7] (demo_reader 3) 0
    = Some (SQLITE_OK, p', 300) /\
    iReadOff p' = iReadOff (demo_reader 3) + sqlite3VarintLen 300 /\
    iEof p' = iEof (demo_reader 3) /\
    rinv [130; 44; 7] p'.
Proof.
  apply (vdbePmaReadVarint_value demo_env [130; 44; 7] (demo_reader 3) 300 0).
  - intros off. reflexivity.
  - apply demo_reader_rinv. simpl. lia.
  - lia.
  - split; [simpl; lia|]. split; [simpl; lia|]. reflexivity.
  - simpl. lia.
Defined.

(** The file [demo_file] followed by the PMA of [demo_keys] and a byte. *)
Definition demo_sorter_file : SorterFile :=
  mkSorterFile true 16 (demo_file ++ pma_image 12 demo_keys ++ [8]).

Lemma demo_keys_ok : Forall key_ok demo_keys.
Proof. repeat constructor; simpl; lia. Qed.

Lemma pma_read_back_witness :
  exists p1,
    vdbePmaReaderInit demoSwap demo_env 4 demo_sorter_file 3 zeroReader 0
    = Some (SQLITE_OK, p1, 0 + pma_size demo_keys) /\
    scan demoSwap (S (length demo_keys)) demo_env 4 (sf_data demo_sorter_file) p1
    = Some demo_keys.
Proof.
  apply (pma_read_back demoSwap demo_env 4 demo_sorter_file 3 demo_keys 0).
  - intros off. reflexivity.
  - reflexivity.
  - reflexivity.
  - reflexivity.
  - lia.
  - reflexivity.
  - exact demo_keys_ok.
  - vm_compute. reflexivity.
  - split; [lia|]. split; [vm_compute; discriminate|]. vm_compute. reflexivity.
  - vm_compute. discriminate.
  - vm_compute. discriminate.
Defined.

Lemma pma_round_trip_witness :
  exists f1 p1,
    let iEof1 := 3 + sqlite3VarintLen (pma_size demo_keys) + pma_size demo_keys in
    listToPMA_write writes_ok true 4 3 demo_file (pma_size demo_keys) demo_keys
    = Some (SQLITE_OK, iEof1, f1) /\
    vdbePmaReaderInit demoSwap demo_env 4 (mkSorterFile true iEof1 f1) 3 zeroReader 0
    = Some (SQLITE_OK, p1, 0 + pma_size demo_keys) /\
    scan demoSwap (S (length demo_keys)) demo_env 4 f1 p1 = Some demo_keys.
Proof.
  apply (pma_round_trip demoSwap writes_ok demo_env 4 demo_file 3 demo_keys 0).
  - intros off. reflexivity.
  - intros off. reflexivity.
  - reflexivity.
  - reflexivity.
  - reflexivity.
  - lia.
  - simpl. lia.
  - exact demo_keys_ok.
  - vm_compute. reflexivity.
Defined.

(** The bytes of the example: the file, the size, and the two records. *)
Example demo_pma_bytes :
  listToPMA_write writes_ok true 4 3 demo_file 12 demo_keys
  = Some (SQLITE_OK, 16,
          [9; 9; 9; 12; 3; 10; 11; 12; 7; 20; 21; 22; 23; 24; 25; 26]).
Proof. reflexivity. Qed.

End PmaIO.

(* ===================================================================== *)
(** * Part II: the expression compiler (src/src/expr.c)                   *)
(* ===================================================================== *)

Module ExprC.
Local Open Scope Z_scope.

(** ** Data structures

    The structures are declared in sqliteInt.h, which is not part of the
    sources at hand; their fields are the ones expr.c reads and writes. *)

(** Token codes, as named in expr.c. *)
Inductive tk :=
  | TK_ID | TK_COLUMN | TK_DOT | TK_FUNCTION | TK_AGG_FUNCTION
  | TK_NULL | TK_STRING | TK_INTEGER | TK_FLOAT | TK_VARIABLE
  | TK_UPLUS | TK_UMINUS | TK_NOT | TK_BITNOT | TK_ISNULL | TK_NOTNULL
  | TK_PLUS | TK_MINUS | TK_STAR | TK_SLASH | TK_REM
  | TK_AND | TK_OR | TK_BITAND | TK_BITOR | TK_LSHIFT | TK_RSHIFT | TK_CONCAT
  | TK_LT | TK_LE | TK_GT | TK_GE | TK_NE | TK_EQ
  | TK_IN | TK_BETWEEN | TK_GLOB | TK_LIKE
  | TK_AS | TK_SELECT | TK_CASE | TK_RAISE | TK_ABORT
  | TK_OTHER (code : Z).

#[export] Instance tk_eq_dec : EqDecision tk.
Proof. solve_decision. Defined.

(** Addresses of allocated blocks, and the set of blocks now allocated. *)
Definition addr := positive.
Definition heap := gset addr.

(** A [char*] that is not NULL: where it points, and the text found
    there up to the terminating NUL. *)
Record Str := mkStr { s_addr : addr; text : string }.

Record Token := mkToken {
  z : option Str;                (* text of the token; None is NULL *)
  dyn : bool;                    (* true if z was obtained from malloc *)
  n : nat                        (* number of characters of the token *)
}.

Record Column := mkColumn { c_zName : string; c_sortOrder : Z }.

Record Table := mkTable {
  t_zName : option string;
  aCol : list Column;            (* nCol is the length *)
  iPKey : Z;
  t_iDb : nat
}.

Record IdList_item := mkIdItem { id_zName : option Str; idx : Z }.
Record IdList := mkIdList { id_addr : addr; id_a_addr : addr; id_a : list IdList_item }.

#[local] Unset Elimination Schemes.

Inductive Expr := mkExpr {
  e_addr : addr;                 (* where the node is *)
  op : tk;
  dataType : Z;
  iDb : Z;
  pLeft : option Expr;
  pRight : option Expr;
  pList : option ExprList;
  token : Token;
  span : Token;
  iTable : Z;
  iColumn : Z;
  iAgg : Z;
  pSelect : option Select }
with ExprList := mkExprList {
  l_addr : addr;                 (* where the list header is *)
  a_addr : addr;                 (* where the array [a] is *)
  nAlloc : Z;
  a : list ExprList_item }       (* nExpr is the length *)
with ExprList_item := mkItem {
  pExpr : option Expr;
  zName : option Str;
  sortOrder : Z;
  isAgg : Z;
  done : Z }
with Select := mkSelect {
  sel_addr : addr;
  isDistinct : Z;
  pEList : option ExprList;
  pSrc : option SrcList;
  pWhere : option Expr;
  pGroupBy : option ExprList;
  pHaving : option Expr;
  pOrderBy : option ExprList;
  sel_op : Z;
  pPrior : option Select;
  nLimit : Z;
  nOffset : Z;
  zSelect : option Str;
  iLimit : Z;
  iOffset : Z }
with SrcList := mkSrcList {
  src_addr : addr;
  src_nAlloc : Z;
  src_a : list SrcList_item }    (* nSrc is the length *)
with SrcList_item := mkSrcItem {
  zDatabase : option Str;
  src_zName : option Str;
  zAlias : option Str;
  jointype : Z;
  iCursor : Z;
  pTab : option Table;
  src_pSelect : option Select;
  pOn : option Expr;
  pUsing : option IdList }.

#[local] Set Elimination Schemes.

(** The program under construction.  vdbeaux.c is not part of the sources
    at hand.  The third operand is unused, a text, or a pointer to a
    function definition. *)
Inductive p3val := P3_NOTUSED | P3_text (s : string) | P3_POINTER (includeTypes_ : bool).

Record VdbeOp := mkOp { opcode : Z; p1 : Z; p2 : Z; p3 : p3val }.

Record Vdbe := mkVdbe {
  aOp : list VdbeOp;
  nLabel : Z;                    (* labels handed out so far *)
  aLabel : list (Z * Z)          (* label, address it resolves to *)
}.

Record TriggerStack := mkTriggerStack {
  newIdx : Z; oldIdx : Z; ts_pTab : option Table; ignoreJump : Z
}.

Record FuncDef := mkFuncDef { includeTypes : bool }.

Record Parse := mkParse {
  file_format : Z;               (* pParse->db->file_format *)
  aDb : list string;             (* pParse->db->aDb[i].zName *)
  xAuth : bool;                  (* pParse->db->xAuth is set *)
  pVdbe : option Vdbe;
  useAgg : bool;
  nErr : Z;
  zErrMsg : option string;
  trigStack : option TriggerStack;
  malloc_failed : bool           (* the global sqlite3_malloc_failed *)
}.

(** What expr.c takes from files that are not part of the sources at
    hand: the allocator's choice of a block, the string helpers of
    util.c, the deletion of a SELECT, the authorizer hook, the function
    table, and the numbers behind the opcode and sort-order names. *)
Class Lib := {
  alloc : heap -> addr;
  sqlite3StrICmp : string -> string -> Z;
  sqlite3StrNICmp : string -> string -> nat -> Z;
  sqlite3Dequote : string -> string;
  sqlite3FitsIn32Bits : string -> bool;
  atoi : string -> Z;
  sqlite3SelectDelete : option Select -> heap -> heap;
  sqlite3AuthRead : Parse -> Expr -> SrcList -> Parse * Expr;
  sqlite3FindFunction : Parse -> string -> nat -> Z -> option FuncDef;
  SQLITE_SO_TEXT : Z; SQLITE_SO_NUM : Z; SQLITE_SO_TYPEMASK : Z;
  SQLITE_CONSTRAINT : Z; OE_Rollback : Z; OE_Abort : Z; OE_Fail : Z;
  OP_Add : Z; OP_Subtract : Z; OP_Multiply : Z; OP_Divide : Z;
  OP_And : Z; OP_Or : Z; OP_Lt : Z; OP_Le : Z; OP_Gt : Z; OP_Ge : Z;
  OP_Ne : Z; OP_Eq : Z; OP_IsNull : Z; OP_NotNull : Z; OP_Not : Z;
  OP_Negative : Z; OP_BitAnd : Z; OP_BitOr : Z; OP_BitNot : Z;
  OP_ShiftLeft : Z; OP_ShiftRight : Z; OP_Remainder : Z;
  OP_AggGet : Z; OP_Column : Z; OP_Recno : Z; OP_Integer : Z;
  OP_String : Z; OP_Variable : Z; OP_Concat : Z; OP_AddImm : Z;
  OP_Function : Z; OP_MemLoad : Z; OP_Pop : Z; OP_Goto : Z;
  OP_Found : Z; OP_SetFound : Z; OP_NotFound : Z; OP_SetNotFound : Z;
  OP_Dup : Z; OP_Pull : Z; OP_If : Z; OP_IfNot : Z; OP_Halt : Z
}.

Section Expr.
Context `{L : Lib}.

(** ** sqlite3ExprIsInteger.  The result is the value returned and the
    content of [*pValue] afterwards; [None] is a NULL pointer followed. *)






(** ** Allocation.  A computation runs on the set of allocated blocks;
    [None] is a NULL pointer followed.  Allocations are taken to succeed. *)
Definition M (A : Type) : Type := heap -> option (A * heap).

Definition ret {A} (x : A) : M A := fun h => Some (x, h).

Definition bind {A B} (m : M A) (k : A -> M B) : M B :=
  fun h => match m h with
           | Some (x, h') => k x h'
           | None => None
           end.

Definition crash {A} : M A := fun _ => None.

Notation "'let*' x ':=' m 'in' k" := (bind m (fun x => k))
  (at level 10, x name, m at level 100, k at level 200).

Definition optM {A B} (f : A -> M B) (o : option A) : M (option B) :=
  match o with
  | None => ret None
  | Some x => let* y := f x in ret (Some y)
  end.

Definition sqliteMalloc : M addr :=
  fun h => let x := alloc h in Some (x, {[x]} ∪ h).

Definition sqliteFree (p : option addr) (h : heap) : heap :=
  match p with
  | Some x => h ∖ {[x]}
  | None => h
  end.

Definition sqliteStrDup (zs : option Str) : M (option Str) :=
  match zs with
  | None => ret None
  | Some s => let* x := sqliteMalloc in ret (Some (mkStr x (text s)))
  end.

Definition sqliteStrNDup (zs : option Str) (k : nat) : M (option Str) :=
  match zs with
  | None => ret None
  | Some s => let* x := sqliteMalloc in ret (Some (mkStr x (substring 0 k (text s))))
  end.

(** ** sqlite3ExprDup and the routines it calls *)

Definition setToken (p : Expr) (t : Token) : Expr :=
  mkExpr (e_addr p) (op p) (dataType p) (iDb p) (pLeft p) (pRight p) (pList p)
    t (span p) (iTable p) (iColumn p) (iAgg p) (pSelect p).

Definition setSpan (p : Expr) (t : Token) : Expr :=
  mkExpr (e_addr p) (op p) (dataType p) (iDb p) (pLeft p) (pRight p) (pList p)
    (token p) t (iTable p) (iColumn p) (iAgg p) (pSelect p).

Definition sqlite3TokenCopy (pTo pFrom : Token) : M Token :=
  fun h =>
    let h1 := if dyn pTo then sqliteFree (s_addr <$> z pTo) h else h in
    match z pFrom with
    | Some _ =>
        (let* zs := sqliteStrNDup (z pFrom) (n pFrom) in
         ret (mkToken zs true (n pFrom))) h1
    | None => Some (mkToken None (dyn pTo) (n pTo), h1)
    end.

(** The loop of sqlite3ExprListDup, over the routine that copies one
    expression. *)
Definition dupItems (dupE : Expr -> M Expr)
    : list ExprList_item -> M (list ExprList_item) :=
  fix go (its : list ExprList_item) : M (list ExprList_item) :=
    match its with
    | [] => ret []
    | it :: rest =>
        match pExpr it with
        | None => crash                  (* pOldExpr->span.z *)
        | Some pOld =>
            let* pNew := dupE pOld in
            let* sp := match z (span pOld) with
                  | Some _ => sqlite3TokenCopy (span pNew) (span pOld)
                  | None => ret (span pNew)
                  end in
            let* nm := sqliteStrDup (zName it) in
            let* rest' := go rest in
            ret (mkItem (Some (setSpan pNew sp)) nm (sortOrder it) (isAgg it) 0
                   :: rest')
        end
    end.

Definition dupSrcItems (dupE : Expr -> M Expr) (dupS : Select -> M Select)
    (dupI : IdList -> M IdList) : list SrcList_item -> M (list SrcList_item) :=
  fix go (its : list SrcList_item) : M (list SrcList_item) :=
    match its with
    | [] => ret []
    | it :: rest =>
        let* db := sqliteStrDup (zDatabase it) in
        let* nm := sqliteStrDup (src_zName it) in
        let* al := sqliteStrDup (zAlias it) in
        let* se := optM dupS (src_pSelect it) in
        let* on := optM dupE (pOn it) in
        let* us := optM dupI (pUsing it) in
        let* rest' := go rest in
        ret (mkSrcItem db nm al (jointype it) (iCursor it) None se on us :: rest')
    end.

Fixpoint dupIdItems (its : list IdList_item) : M (list IdList_item) :=
  match its with
  | [] => ret []
  | it :: rest =>
      let* nm := sqliteStrDup (id_zName it) in
      let* rest' := dupIdItems rest in
      ret (mkIdItem nm (idx it) :: rest')
  end.

Definition dupIdList (p : IdList) : M IdList :=
  let* pNew := sqliteMalloc in
  let* pA := sqliteMalloc in
  let* its := dupIdItems (id_a p) in
  ret (mkIdList pNew pA its).

Fixpoint dupExpr (p : Expr) : M Expr :=
  let* pNew := sqliteMalloc in
  let* tok := match z (token p) with
              | Some _ => let* zs := sqliteStrDup (z (token p)) in
                          ret (mkToken zs true (n (token p)))
              | None => ret (token p)
              end in
  let* l := optM dupExpr (pLeft p) in
  let* r := optM dupExpr (pRight p) in
  let* li := optM dupExprList (pList p) in
  let* se := optM dupSelect (pSelect p) in
  ret (mkExpr pNew (op p) (dataType p) (iDb p) l r li tok
         (mkToken None (dyn (span p)) (n (span p)))
         (iTable p) (iColumn p) (iAgg p) se)
with dupExprList (p : ExprList) : M ExprList :=
  let* pNew := sqliteMalloc in
  let* pA := sqliteMalloc in
  let* its := dupItems dupExpr (a p) in
  ret (mkExprList pNew pA (Z.of_nat (length (a p))) its)
with dupSelect (p : Select) : M Select :=
  let* pNew := sqliteMalloc in
  let* el := optM dupExprList (pEList p) in
  let* src := optM dupSrcList (pSrc p) in
  let* w := optM dupExpr (pWhere p) in
  let* g := optM dupExprList (pGroupBy p) in
  let* hv := optM dupExpr (pHaving p) in
  let* ob := optM dupExprList (pOrderBy p) in
  let* pr := optM dupSelect (pPrior p) in
  ret (mkSelect pNew (isDistinct p) el src w g hv ob (sel_op p) pr
         (nLimit p) (nOffset p) None (-1) (-1))
with dupSrcList (p : SrcList) : M SrcList :=
  let* pNew := sqliteMalloc in
  let* its := dupSrcItems dupExpr dupSelect dupIdList (src_a p) in
  ret (mkSrcList pNew (Z.of_nat (length (src_a p))) its).

Definition sqlite3ExprDup (p : option Expr) : M (option Expr) := optM dupExpr p.
Definition sqlite3ExprListDup (p : option ExprList) : M (option ExprList) :=
  optM dupExprList p.
Definition sqlite3SelectDup (p : option Select) : M (option Select) :=
  optM dupSelect p.
Definition sqlite3SrcListDup (p : option SrcList) : M (option SrcList) :=
  optM dupSrcList p.
Definition sqlite3IdListDup (p : option IdList) : M (option IdList) :=
  optM dupIdList p.

(** ** sqlite3ExprDelete and sqlite3ExprListDelete *)

Definition deleteItems (delE : Expr -> heap -> heap)
    : list ExprList_item -> heap -> heap :=
  fix go (its : list ExprList_item) (h : heap) : heap :=
    match its with
    | [] => h
    | it :: rest =>
        let h1 := match pExpr it with
                  | Some e => delE e h
                  | None => h
                  end in
        go rest (sqliteFree (s_addr <$> zName it) h1)
    end.

Fixpoint deleteExpr (p : Expr) (h : heap) : heap :=
  let h1 := if dyn (span p) then sqliteFree (s_addr <$> z (span p)) h else h in
  let h2 := if dyn (token p) then sqliteFree (s_addr <$> z (token p)) h1 else h1 in
  let h3 := match pLeft p with Some l => deleteExpr l h2 | None => h2 end in
  let h4 := match pRight p with Some r => deleteExpr r h3 | None => h3 end in
  let h5 := match pList p with
            | Some li =>
                let h' := deleteItems deleteExpr (a li) h4 in
                sqliteFree (Some (l_addr li)) (sqliteFree (Some (a_addr li)) h')
            | None => h4
            end in
  let h6 := sqlite3SelectDelete (pSelect p) h5 in
  sqliteFree (Some (e_addr p)) h6.

Definition sqlite3ExprDelete (p : option Expr) (h : heap) : heap :=
  match p with
  | Some e => deleteExpr e h
  | None => h
  end.

Definition sqlite3ExprListDelete (pList_ : option ExprList) (h : heap) : heap :=
  match pList_ with
  | Some li =>
      let h' := deleteItems deleteExpr (a li) h in
      sqliteFree (Some (l_addr li)) (sqliteFree (Some (a_addr li)) h')
  | None => h
  end.

(** ** sqlite3ExprCompare *)

Definition cmpItems (cmpE : Expr -> Expr -> bool)
    : list ExprList_item -> list ExprList_item -> bool :=
  fix go (A B : list ExprList_item) : bool :=
    match A, B with
    | ia :: A', ib :: B' =>
        match pExpr ia, pExpr ib with
        | None, None => go A' B'
        | Some ea, Some eb => if cmpE ea eb then go A' B' else false
        | _, _ => false
        end
    | _, _ => true
    end.

Fixpoint cmpExpr (pA pB : Expr) {struct pA} : bool :=
  if negb (bool_decide (op pA = op pB)) then false else
  if negb (match pLeft pA, pLeft pB with
           | None, None => true
           | Some x, Some y => cmpExpr x y
           | _, _ => false
           end) then false else
  if negb (match pRight pA, pRight pB with
           | None, None => true
           | Some x, Some y => cmpExpr x y
           | _, _ => false
           end) then false else
  if negb (match pList pA, pList pB with
           | Some la, Some lb =>
               if negb (length (a la) =? length (a lb))%nat then false
               else cmpItems cmpExpr (a la) (a lb)
           | Some _, None => false
           | None, Some _ => false
           | None, None => true
           end) then false else
  if (bool_decide (pSelect pA <> None)) || (bool_decide (pSelect pB <> None))
  then false else
  if negb (iTable pA =? iTable pB) || negb (iColumn pA =? iColumn pB)
  then false else
  match z (token pA) with
  | Some sa =>
      match z (token pB) with
      | None => false
      | Some sb =>
          if negb (n (token pB) =? n (token pA))%nat then false
          else if negb (sqlite3StrNICmp (text sa) (text sb) (n (token pB)) =? 0)
          then false else true
      end
  | None => true
  end.

Definition sqlite3ExprCompare (pA pB : option Expr) : bool :=
  match pA, pB with
  | None, None => true
  | None, Some _ => false
  | Some _, None => false
  | Some x, Some y => cmpExpr x y
  end.

(** ** lookupName *)

Definition mfree (p : option Str) : M unit :=
  fun h => Some (tt, sqliteFree (s_addr <$> p) h).

Definition mdelete (p : option Expr) : M unit :=
  fun h => Some (tt, sqlite3ExprDelete p h).

(** Modelled from the spec: reporting an error leaves the formatted
    message on the parse context and counts it.  The format is given by
    the text before its one [%s]. *)
Definition sqlite3ErrorMsg (P : Parse) (zFormat : string) (arg : string) : Parse :=
  mkParse (file_format P) (aDb P) (xAuth P) (pVdbe P) (useAgg P)
    (nErr P + 1) (Some (zFormat ++ arg)%string) (trigStack P) (malloc_failed P).

Definition set_table (e : Expr) (iTable_ iDb_ : Z) : Expr :=
  mkExpr (e_addr e) (op e) (dataType e) iDb_ (pLeft e) (pRight e) (pList e)
    (token e) (span e) iTable_ (iColumn e) (iAgg e) (pSelect e).

Definition set_iTable (e : Expr) (iTable_ : Z) : Expr :=
  set_table e iTable_ (iDb e).

Definition set_iDb (e : Expr) (iDb_ : Z) : Expr :=
  set_table e (iTable e) iDb_.

Definition set_column (e : Expr) (iColumn_ dataType_ : Z) : Expr :=
  mkExpr (e_addr e) (op e) dataType_ (iDb e) (pLeft e) (pRight e) (pList e)
    (token e) (span e) (iTable e) iColumn_ (iAgg e) (pSelect e).

Definition set_op (e : Expr) (op_ : tk) : Expr :=
  mkExpr (e_addr e) op_ (dataType e) (iDb e) (pLeft e) (pRight e) (pList e)
    (token e) (span e) (iTable e) (iColumn e) (iAgg e) (pSelect e).

Definition set_children (e : Expr) (l r : option Expr) : Expr :=
  mkExpr (e_addr e) (op e) (dataType e) (iDb e) l r (pList e)
    (token e) (span e) (iTable e) (iColumn e) (iAgg e) (pSelect e).

(** The first column of [cols] named [zCol], with its index. *)
Fixpoint find_col (cols : list Column) (j : Z) (zCol : string)
    : option (Z * Column) :=
  match cols with
  | [] => None
  | c :: rest =>
      if sqlite3StrICmp (c_zName c) zCol =? 0 then Some (j, c)
      else find_col rest (j + 1) zCol
  end.

Definition col_hit (e : Expr) (pTab_ : Table) (j : Z) (c : Column) : Expr :=
  set_column e (if j =? iPKey pTab_ then -1 else j)
    (Z.land (c_sortOrder c) SQLITE_SO_TYPEMASK).

(** One turn of the loop over the source list.  The state is [cnt],
    [cntTab] and the node. *)
Definition scan_item (P : Parse) (zDb zTab : option string) (zCol : string)
    (st : Z * Z * Expr) (pItem : SrcList_item) : option (Z * Z * Expr) :=
  let '(cnt, cntTab, e) := st in
  match pTab pItem with
  | None => Some st
  | Some pTab_ =>
      let skip : option bool :=
        match zTab with
        | None => Some false
        | Some zt =>
            match zAlias pItem with
            | Some al => Some (negb (sqlite3StrICmp (text al) zt =? 0))
            | None =>
                match t_zName pTab_ with
                | None => Some true
                | Some tn =>
                    if negb (sqlite3StrICmp tn zt =? 0) then Some true
                    else
                      match zDb with
                      | None => Some false
                      | Some zd =>
                          match aDb P !! t_iDb pTab_ with
                          | None => None
                          | Some dbn =>
                              Some (negb (sqlite3StrICmp dbn zd =? 0))
                          end
                      end
                end
            end
        end in
      match skip with
      | None => None
      | Some true => Some st
      | Some false =>
          let e1 := if cntTab =? 0
                    then set_table e (iCursor pItem) (Z.of_nat (t_iDb pTab_))
                    else e in
          match find_col (aCol pTab_) 0 zCol with
          | Some (j, c) =>
              Some (cnt + 1, cntTab + 1,
                    col_hit (set_table e1 (iCursor pItem) (Z.of_nat (t_iDb pTab_)))
                      pTab_ j c)
          | None => Some (cnt, cntTab + 1, e1)
          end
      end
  end.

Fixpoint scan_src (P : Parse) (zDb zTab : option string) (zCol : string)
    (st : Z * Z * Expr) (items : list SrcList_item) : option (Z * Z * Expr) :=
  match items with
  | [] => Some st
  | it :: rest =>
      match scan_item P zDb zTab zCol st it with
      | None => None
      | Some st' => scan_src P zDb zTab zCol st' rest
      end
  end.

(** The new.* and old.* references of a trigger. *)
Definition scan_trigger (P : Parse) (zDb zTab : option string) (zCol : string)
    (st : Z * Z * Expr) : Z * Z * Expr :=
  let '(cnt, cntTab, e) := st in
  match zDb, zTab, trigStack P with
  | None, Some zt, Some ts =>
      if negb (cnt =? 0) then st else
      let '(e1, pTab_) :=
        if negb (newIdx ts =? -1) && (sqlite3StrICmp "new" zt =? 0)
        then (set_iTable e (newIdx ts), ts_pTab ts)
        else if negb (oldIdx ts =? -1) && (sqlite3StrICmp "old" zt =? 0)
        then (set_iTable e (oldIdx ts), ts_pTab ts)
        else (e, None) in
      match pTab_ with
      | None => (cnt, cntTab, e1)
      | Some t =>
          let e2 := set_iDb e1 (Z.of_nat (t_iDb t)) in
          match find_col (aCol t) 0 zCol with
          | Some (j, c) => (cnt + 1, cntTab + 1, col_hit e2 t j c)
          | None => (cnt, cntTab + 1, e2)
          end
      end
  | _, _, _ => st
  end.

Definition sqlite3IsRowid (zs : string) : bool :=
  if sqlite3StrICmp zs "_ROWID_" =? 0 then true
  else if sqlite3StrICmp zs "ROWID" =? 0 then true
  else if sqlite3StrICmp zs "OID" =? 0 then true
  else false.

Definition scan_rowid (zCol : string) (st : Z * Z * Expr) : Z * Z * Expr :=
  let '(cnt, cntTab, e) := st in
  if (cnt =? 0) && (cntTab =? 1) && sqlite3IsRowid zCol
  then (1, cntTab, set_column e (-1) SQLITE_SO_NUM)
  else st.

(** The number of matching columns, [cnt], with [cntTab] and the node as
    the search leaves them. *)
Definition name_matches (P : Parse) (zDb zTab : option string) (zCol : string)
    (pSrcList : SrcList) (pExpr_ : Expr) : option (Z * Z * Expr) :=
  match scan_src P zDb zTab zCol (0, 0, set_iTable pExpr_ (-1)) (src_a pSrcList) with
  | None => None
  | Some st => Some (scan_rowid zCol (scan_trigger P zDb zTab zCol st))
  end.

(** The first entry of the result set with alias [zCol]. *)
Fixpoint find_alias (items : list ExprList_item) (j : Z) (zCol : string)
    : option (Z * ExprList_item) :=
  match items with
  | [] => None
  | it :: rest =>
      match zName it with
      | Some zAs =>
          if sqlite3StrICmp (text zAs) zCol =? 0 then Some (j, it)
          else find_alias rest (j + 1) zCol
      | None => find_alias rest (j + 1) zCol
      end
  end.

(** The name as the error message shows it: zDb.zTab.zCol, zTab.zCol or
    zCol.  The argument list of sqlite3SetString ends at its first NULL,
    which cuts the name short when there is a database but no table; the
    parser never asks for that. *)
Definition qualified (zDb zTab : option string) (zCol : string) : string :=
  match zDb, zTab with
  | Some d, Some t => (d ++ "." ++ t ++ "." ++ zCol)%string
  | Some d, None => (d ++ ".")%string
  | None, Some t => (t ++ "." ++ zCol)%string
  | None, None => zCol
  end.

(** The text that [dequoted] leaves for a token. *)
Definition tokStr (t : option Token) : option string :=
  match t with
  | Some tok =>
      match z tok with
      | Some s => Some (sqlite3Dequote (substring 0 (n tok) (text s)))
      | None => None
      end
  | None => None
  end.

Definition dequoted (t : option Token) : M (option Str) :=
  match t with
  | Some tok =>
      match z tok with
      | Some _ =>
          let* zs := sqliteStrNDup (z tok) (n tok) in
          ret (match zs with
               | Some s => Some (mkStr (s_addr s) (sqlite3Dequote (text s)))
               | None => None
               end)
      | None => ret None
      end
  | None => ret None
  end.

Definition starts_with_dquote (t : Token) : bool :=
  match z t with
  | Some s => match text s with
              | String c _ => bool_decide (c = ascii_of_nat 34)
              | EmptyString => false
              end
  | None => false
  end.

Definition lookupName (P : Parse) (pDbToken pTableToken : option Token)
    (pColumnToken : Token) (pSrcList : SrcList) (pEList_ : option ExprList)
    (pExpr_ : Expr) : M (Z * Parse * Expr) :=
  match z pColumnToken with
  | None => crash
  | Some _ =>
  let* zDbS := dequoted pDbToken in
  let* zTabS := dequoted pTableToken in
  let* zColS := dequoted (Some pColumnToken) in
  let zDb := text <$> zDbS in
  let zTab := text <$> zTabS in
  let zCol := default EmptyString (text <$> zColS) in
  if malloc_failed P then ret (1, P, pExpr_) else
  match name_matches P zDb zTab zCol pSrcList pExpr_ with
  | None => crash
  | Some (cnt, cntTab, e) =>
      let alias :=
        if cnt =? 0 then
          match pEList_ with
          | Some el => find_alias (a el) 0 zCol
          | None => None
          end
        else None in
      match alias with
      | Some (j, it) =>
          let* cp := sqlite3ExprDup (pExpr it) in
          let* _ := mfree zColS in
          ret (0, P, set_children (set_column (set_op e TK_AS) j (dataType e))
                       cp (pRight e))
      | None =>
          if (cnt =? 0) && bool_decide (zTab = None) && starts_with_dquote pColumnToken
          then let* _ := mfree zColS in ret (0, P, e)
          else
            let* P1 :=
              if negb (cnt =? 1) then
                let zErr := if cnt =? 0 then "no such column: "%string
                            else "ambiguous column name: "%string in
                let* zq := sqliteMalloc in
                let P1 := sqlite3ErrorMsg P zErr (qualified zDb zTab zCol) in
                let* _ := mfree (Some (mkStr zq (qualified zDb zTab zCol))) in
                ret P1
              else ret P in
            let* _ := mfree zDbS in
            let* _ := mfree zTabS in
            let* _ := mfree zColS in
            let* _ := mdelete (pLeft e) in
            let* _ := mdelete (pRight e) in
            let e1 := set_op (set_children e None None) TK_COLUMN in
            let '(P2, e2) := sqlite3AuthRead P1 e1 pSrcList in
            ret (if negb (cnt =? 1) then 1 else 0, P2, e2)
      end
  end
  end.

(** ** The code generator *)

(** Modelled from the spec: current-address returns the index of the
    instruction emitted next. *)
Definition sqlite3VdbeCurrentAddr (v : Vdbe) : Z := Z.of_nat (length (aOp v)).

(** Modelled from the spec: an instruction is appended to the program;
    its address is the current address before the call. *)
Definition sqlite3VdbeAddOp (v : Vdbe) (op_ p1_ p2_ : Z) : Vdbe :=
  mkVdbe (aOp v ++ [mkOp op_ p1_ p2_ P3_NOTUSED]) (nLabel v) (aLabel v).

(** Modelled from the spec: labels are allocated as negative integers. *)
Definition sqlite3VdbeMakeLabel (v : Vdbe) : Vdbe * Z :=
  (mkVdbe (aOp v) (nLabel v + 1) (aLabel v), -1 - nLabel v).

(** Modelled from the spec: resolve-label records the eventual target,
    the current address. *)
Definition sqlite3VdbeResolveLabel (v : Vdbe) (x : Z) : Vdbe :=
  mkVdbe (aOp v) (nLabel v) ((x, sqlite3VdbeCurrentAddr v) :: aLabel v).

(** An address operand: a negative one stands for the last instruction. *)
Definition op_index (v : Vdbe) (addr_ : Z) : nat :=
  if addr_ <? 0 then length (aOp v) - 1 else Z.to_nat addr_.

(** Modelled from the spec: change-p2 retroactively sets an operand. *)
Definition sqlite3VdbeChangeP2 (v : Vdbe) (addr_ val : Z) : Vdbe :=
  if addr_ <? 0 then v else
  mkVdbe (alter (fun o => mkOp (opcode o) (p1 o) val (p3 o)) (Z.to_nat addr_) (aOp v))
    (nLabel v) (aLabel v).

(** Modelled from the spec: the third operand of an instruction is set. *)
Definition sqlite3VdbeChangeP3 (v : Vdbe) (addr_ : Z) (x : p3val) : Vdbe :=
  mkVdbe (alter (fun o => mkOp (opcode o) (p1 o) (p2 o) x) (op_index v addr_) (aOp v))
    (nLabel v) (aLabel v).

(** Modelled from the spec: the text of the third operand is dequoted. *)
Definition sqlite3VdbeDequoteP3 (v : Vdbe) (addr_ : Z) : Vdbe :=
  mkVdbe (alter (fun o => mkOp (opcode o) (p1 o) (p2 o)
                            match p3 o with
                            | P3_text t => P3_text (sqlite3Dequote t)
                            | x => x
                            end) (op_index v addr_) (aOp v))
    (nLabel v) (aLabel v).

(** Modelled from the spec: an instruction with its third operand. *)
Definition sqlite3VdbeOp3 (v : Vdbe) (op_ p1_ p2_ : Z) (x : p3val) : Vdbe :=
  sqlite3VdbeChangeP3 (sqlite3VdbeAddOp v op_ p1_ p2_) (-1) x.

(** sqlite3ExprType.  [None]: the routine does not return (the loop of
    its default case never ends), or follows a NULL pointer. *)
Definition typeOpt (f : Expr -> option Z) (p : option Expr) : option Z :=
  match p with
  | None => Some SQLITE_SO_NUM
  | Some x => f x
  end.

(** The loop of TK_CASE over a[1], a[3], ...: is one of them numeric? *)
Fixpoint caseNum (f : Expr -> option Z) (items : list ExprList_item)
    : option bool :=
  match items with
  | _ :: it :: rest =>
      match typeOpt f (pExpr it) with
      | None => None
      | Some t => if t =? SQLITE_SO_NUM then Some true else caseNum f rest
      end
  | _ => Some false
  end.

Fixpoint exprType (p : Expr) : option Z :=
  match op p with
  | TK_PLUS | TK_MINUS | TK_STAR | TK_SLASH | TK_AND | TK_OR
  | TK_ISNULL | TK_NOTNULL | TK_NOT | TK_UMINUS | TK_UPLUS
  | TK_BITAND | TK_BITOR | TK_BITNOT | TK_LSHIFT | TK_RSHIFT | TK_REM
  | TK_INTEGER | TK_FLOAT | TK_IN | TK_BETWEEN | TK_GLOB | TK_LIKE =>
      Some SQLITE_SO_NUM
  | TK_STRING | TK_NULL | TK_CONCAT | TK_VARIABLE =>
      Some SQLITE_SO_TEXT
  | TK_LT | TK_LE | TK_GT | TK_GE | TK_NE | TK_EQ =>
      match typeOpt exprType (pLeft p) with
      | None => None
      | Some t =>
          if t =? SQLITE_SO_NUM then Some SQLITE_SO_NUM
          else typeOpt exprType (pRight p)
      end
  | TK_AS => typeOpt exprType (pLeft p)
  | TK_COLUMN | TK_FUNCTION | TK_AGG_FUNCTION => Some (dataType p)
  | TK_SELECT =>
      match pSelect p with
      | None => None
      | Some sel =>
          match pEList sel with
          | None => None
          | Some el =>
              match a el with
              | [] => None
              | it :: _ => typeOpt exprType (pExpr it)
              end
          end
      end
  | TK_CASE =>
      let right_num :=
        match pRight p with
        | None => Some false
        | Some r => match exprType r with
                    | None => None
                    | Some t => Some (t =? SQLITE_SO_NUM)
                    end
        end in
      match right_num with
      | None => None
      | Some true => Some SQLITE_SO_NUM
      | Some false =>
          match pList p with
          | None => Some SQLITE_SO_TEXT
          | Some el =>
              match caseNum exprType (a el) with
              | None => None
              | Some true => Some SQLITE_SO_NUM
              | Some false => Some SQLITE_SO_TEXT
              end
          end
      end
  | _ => None
  end.

Definition sqlite3ExprType (p : option Expr) : option Z := typeOpt exprType p.

(** A step of the generator: the parse context afterwards; [None] when a
    NULL pointer is followed, an assert fails or the step does not
    return. *)
Definition Emit := Parse -> option Parse.

Definition skip : Emit := fun P => Some P.

Definition abort : Emit := fun _ => None.

Fixpoint steps (l : list Emit) : Emit :=
  match l with
  | [] => skip
  | f :: rest => fun P => match f P with
                          | Some P' => steps rest P'
                          | None => None
                          end
  end.

Definition setVdbe (P : Parse) (v : option Vdbe) : Parse :=
  mkParse (file_format P) (aDb P) (xAuth P) v (useAgg P)
    (nErr P) (zErrMsg P) (trigStack P) (malloc_failed P).

(** An operation on the program [v = pParse->pVdbe]. *)
Definition onVdbe (f : Vdbe -> Vdbe) : Emit :=
  fun P => Some (setVdbe P (f <$> pVdbe P)).

Definition emit (op_ p1_ p2_ : Z) : Emit :=
  onVdbe (fun v => sqlite3VdbeAddOp v op_ p1_ p2_).

Definition emit3 (op_ p1_ p2_ : Z) (x : p3val) : Emit :=
  onVdbe (fun v => sqlite3VdbeOp3 v op_ p1_ p2_ x).

Definition curAddr (P : Parse) : Z :=
  match pVdbe P with
  | Some v => sqlite3VdbeCurrentAddr v
  | None => 0
  end.

Definition optE (f : Expr -> Emit) (p : option Expr) : Emit :=
  match p with
  | None => skip
  | Some x => f x
  end.

(** The first switch of sqlite3ExprCode. *)
Definition code_op (t : tk) : Z :=
  match t with
  | TK_PLUS => OP_Add | TK_MINUS => OP_Subtract | TK_STAR => OP_Multiply
  | TK_SLASH => OP_Divide | TK_AND => OP_And | TK_OR => OP_Or
  | TK_LT => OP_Lt | TK_LE => OP_Le | TK_GT => OP_Gt | TK_GE => OP_Ge
  | TK_NE => OP_Ne | TK_EQ => OP_Eq
  | TK_ISNULL => OP_IsNull | TK_NOTNULL => OP_NotNull | TK_NOT => OP_Not
  | TK_UMINUS => OP_Negative | TK_BITAND => OP_BitAnd | TK_BITOR => OP_BitOr
  | TK_BITNOT => OP_BitNot | TK_LSHIFT => OP_ShiftLeft
  | TK_RSHIFT => OP_ShiftRight | TK_REM => OP_Remainder
  | _ => 0
  end.

(** The test [file_format>=4 && sqlite3ExprType(pExpr)==SQLITE_SO_TEXT];
    the type is asked for only when the file format is 4 or more. *)
Definition text_cmp (P : Parse) (e : Expr) : option bool :=
  if 4 <=? file_format P then
    match sqlite3ExprType (Some e) with
    | Some t => Some (t =? SQLITE_SO_TEXT)
    | None => None
    end
  else Some false.

Definition tokP3 (t : Token) : p3val :=
  match z t with
  | Some s => P3_text (substring 0 (n t) (text s))
  | None => P3_NOTUSED
  end.

Definition getFunctionName (e : Expr) : option string * nat :=
  match op e with
  | TK_FUNCTION => (text <$> z (token e), n (token e))
  | TK_LIKE => (Some "like"%string, 4%nat)
  | TK_GLOB => (Some "glob"%string, 4%nat)
  | _ => (Some "can't happen"%string, 12%nat)
  end.

(** The loop of sqlite3ExprCodeExprList. *)
Fixpoint codeItems (f : Expr -> Emit) (includeTypes_ : bool)
    (items : list ExprList_item) : Emit :=
  match items with
  | [] => skip
  | it :: rest =>
      steps [ optE f (pExpr it);
              (if includeTypes_ then
                 match sqlite3ExprType (pExpr it) with
                 | None => abort
                 | Some t =>
                     emit3 OP_String 0 0
                       (P3_text (if t =? SQLITE_SO_NUM then "numeric" else "text"))
                 end
               else skip);
              codeItems f includeTypes_ rest ]
  end.

(** The loop of TK_CASE over the pairs (WHEN, THEN). *)
Fixpoint casePairs (f : Expr -> Emit) (hasBase : bool) (expr_end_label : Z)
    (items : list ExprList_item) : Emit :=
  match items with
  | [] => skip
  | [_] => abort
  | w :: t :: rest =>
      steps [ optE f (pExpr w);
              (fun P =>
                 let jumpInst := if hasBase then curAddr P + 1 else curAddr P in
                 steps [ (if hasBase
                          then steps [emit OP_Dup 1 1; emit OP_Ne 1 0; emit OP_Pop 1 0]
                          else emit OP_IfNot 1 0);
                         optE f (pExpr t);
                         emit OP_Goto 0 expr_end_label;
                         (fun P' => onVdbe (fun v =>
                            sqlite3VdbeChangeP2 v jumpInst (curAddr P')) P') ] P);
              casePairs f hasBase expr_end_label rest ]
  end.

Definition is_some {A} (o : option A) : bool :=
  match o with Some _ => true | None => false end.


(** sqlite3ExprCode on a node.  The block that TK_UMINUS allocates for
    the text of a negative literal is released before the case ends and
    is not shown. *)
Fixpoint exprCode (e : Expr) : Emit := fun P =>
  match pVdbe P with
  | None => Some P
  | Some _ =>
  let op_ := code_op (op e) in
  match op e with
  | TK_COLUMN =>
      if useAgg P then emit OP_AggGet 0 (iAgg e) P
      else if 0 <=? iColumn e then emit OP_Column (iTable e) (iColumn e) P
      else emit OP_Recno (iTable e) 0 P
  | TK_STRING | TK_FLOAT | TK_INTEGER =>
      match z (token e) with
      | None => None
      | Some s =>
          steps [ (if bool_decide (op e = TK_INTEGER) && sqlite3FitsIn32Bits (text s)
                   then emit OP_Integer (atoi (text s)) 0
                   else emit OP_String 0 0);
                  onVdbe (fun v => sqlite3VdbeChangeP3 v (-1) (tokP3 (token e)));
                  onVdbe (fun v => sqlite3VdbeDequoteP3 v (-1)) ] P
      end
  | TK_NULL => emit OP_String 0 0 P
  | TK_VARIABLE => emit OP_Variable (iTable e) 0 P
  | TK_LT | TK_LE | TK_GT | TK_GE | TK_NE | TK_EQ =>
      match text_cmp P e with
      | None => None
      | Some b =>
          steps [ optE exprCode (pLeft e);
                  optE exprCode (pRight e);
                  emit (if b then op_ + 6 else op_) 0 0 ] P
      end
  | TK_AND | TK_OR | TK_PLUS | TK_STAR | TK_MINUS | TK_REM
  | TK_BITAND | TK_BITOR | TK_SLASH =>
      steps [ optE exprCode (pLeft e);
              optE exprCode (pRight e);
              emit op_ 0 0 ] P
  | TK_LSHIFT | TK_RSHIFT =>
      steps [ optE exprCode (pRight e);
              optE exprCode (pLeft e);
              emit op_ 0 0 ] P
  | TK_CONCAT =>
      steps [ optE exprCode (pLeft e);
              optE exprCode (pRight e);
              emit OP_Concat 2 0 ] P
  | TK_UMINUS =>
      match pLeft e with
      | None => None
      | Some l =>
          if bool_decide (op l = TK_FLOAT) || bool_decide (op l = TK_INTEGER) then
            match z (token l) with
            | None => None
            | Some s =>
                let zs := ("-" ++ substring 0 (n (token l)) (text s))%string in
                steps [ (if bool_decide (op l = TK_INTEGER) && sqlite3FitsIn32Bits zs
                         then emit OP_Integer (atoi zs) 0
                         else emit OP_String 0 0);
                        onVdbe (fun v => sqlite3VdbeChangeP3 v (-1)
                                  (P3_text (substring 0 (n (token l) + 1) zs))) ] P
            end
          else steps [ exprCode l; emit op_ 0 0 ] P
      end
  | TK_BITNOT | TK_NOT =>
      steps [ optE exprCode (pLeft e); emit op_ 0 0 ] P
  | TK_ISNULL | TK_NOTNULL =>
      steps [ emit OP_Integer 1 0;
              optE exprCode (pLeft e);
              (fun P' => emit op_ 1 (curAddr P' + 2) P');
              emit OP_AddImm (-1) 0 ] P
  | TK_AGG_FUNCTION => emit OP_AggGet 0 (iAgg e) P
  | TK_GLOB | TK_LIKE | TK_FUNCTION =>
      let nExpr := match pList e with
                   | Some el => Z.of_nat (length (a el))
                   | None => 0
                   end in
      match getFunctionName e with
      | (None, _) => None
      | (Some zId, nId) =>
          match sqlite3FindFunction P zId nId nExpr with
          | None => None
          | Some pDef =>
              steps [ match pList e with
                      | Some el => codeItems exprCode (includeTypes pDef) (a el)
                      | None => skip
                      end;
                      emit3 OP_Function
                        (if includeTypes pDef then nExpr * 2 else nExpr) 0
                        (P3_POINTER (includeTypes pDef)) ] P
          end
      end
  | TK_SELECT => emit OP_MemLoad (iColumn e) 0 P
  | TK_IN =>
      steps [ emit OP_Integer 1 0;
              optE exprCode (pLeft e);
              (fun P' =>
                 let addr_ := curAddr P' in
                 steps [ emit OP_NotNull (-1) (addr_ + 4);
                         emit OP_Pop 2 0;
                         emit OP_String 0 0;
                         emit OP_Goto 0 (addr_ + 6);
                         (if is_some (pSelect e)
                          then emit OP_Found (iTable e) (addr_ + 6)
                          else emit OP_SetFound (iTable e) (addr_ + 6));
                         emit OP_AddImm (-1) 0 ] P') ] P
  | TK_BETWEEN =>
      match pList e with
      | None => None
      | Some el =>
          match a el with
          | lo :: hi :: _ =>
              steps [ optE exprCode (pLeft e);
                      emit OP_Dup 0 0;
                      optE exprCode (pExpr lo);
                      emit OP_Ge 0 0;
                      emit OP_Pull 1 0;
                      optE exprCode (pExpr hi);
                      emit OP_Le 0 0;
                      emit OP_And 0 0 ] P
          | _ => None
          end
      end
  | TK_UPLUS | TK_AS => optE exprCode (pLeft e) P
  | TK_CASE =>
      match pList e with
      | None => None
      | Some el =>
          match a el with
          | [] => None
          | _ =>
              match pVdbe P with
              | None => Some P
              | Some v =>
                  let '(v1, expr_end_label) := sqlite3VdbeMakeLabel v in
                  steps [ optE exprCode (pLeft e);
                          casePairs exprCode (is_some (pLeft e)) expr_end_label (a el);
                          (if is_some (pLeft e) then emit OP_Pop 1 0 else skip);
                          (match pRight e with
                           | Some r => exprCode r
                           | None => emit OP_String 0 0
                           end);
                          onVdbe (fun v' => sqlite3VdbeResolveLabel v' expr_end_label) ]
                    (setVdbe P (Some v1))
              end
          end
      end
  | TK_RAISE =>
      match trigStack P with
      | None =>
          let P1 := sqlite3ErrorMsg P
                      "RAISE() may only be used within a trigger-program" "" in
          Some (mkParse (file_format P1) (aDb P1) (xAuth P1) (pVdbe P1) (useAgg P1)
                  (nErr P1 + 1) (zErrMsg P1) (trigStack P1) (malloc_failed P1))
      | Some ts =>
          if (iColumn e =? OE_Rollback) || (iColumn e =? OE_Abort)
             || (iColumn e =? OE_Fail)
          then steps [ emit3 OP_Halt SQLITE_CONSTRAINT (iColumn e) (tokP3 (token e));
                       onVdbe (fun v => sqlite3VdbeDequoteP3 v (-1)) ] P
          else emit3 OP_Goto 0 (ignoreJump ts) (P3_text "(IGNORE jump)") P
      end
  | _ => Some P
  end
  end.

Definition sqlite3ExprCode (P : Parse) (pExpr_ : option Expr) : option Parse :=
  optE exprCode pExpr_ P.

Definition sqlite3ExprCodeExprList (P : Parse) (pList_ : option ExprList)
    (includeTypes_ : bool) : option (Z * Parse) :=
  match pList_ with
  | None => Some (0, P)
  | Some el =>
      match codeItems exprCode includeTypes_ (a el) P with
      | None => None
      | Some P' =>
          Some (if includeTypes_ then Z.of_nat (length (a el)) * 2
                else Z.of_nat (length (a el)), P')
      end
  end.



(** [!jumpIfNull] *)
Definition lnot (x : Z) : Z := if x =? 0 then 1 else 0.

Definition withLabel (k : Z -> Emit) : Emit := fun P =>
  match pVdbe P with
  | None => Some P
  | Some v =>
      let '(v1, d2) := sqlite3VdbeMakeLabel v in
      steps [ k d2; onVdbe (fun v' => sqlite3VdbeResolveLabel v' d2) ]
        (setVdbe P (Some v1))
  end.




(** What the properties below need from the helpers: the allocator
    returns a block that is not allocated; without an authorizer
    sqlite3AuthRead does nothing; a string equals itself under
    sqlite3StrNICmp; a string that sqlite3FitsIn32Bits accepts is
    converted by atoi to a number whose negation is a 32-bit integer
    too; deleting a NULL SELECT does nothing. *)
Class LibLaws `{L : Lib} : Prop := {
  alloc_fresh : forall h, alloc h ∉ h;
  authRead_off : forall P e S, xAuth P = false -> sqlite3AuthRead P e S = (P, e);
  strnicmp_refl : forall s k, sqlite3StrNICmp s s k = 0;
  fits_range : forall s, sqlite3FitsIn32Bits s = true -> - 2 ^ 31 < atoi s < 2 ^ 31;
  selectDelete_null : forall h, sqlite3SelectDelete None h = h
}.

(* --------------------------------------------------------------------- *)
(** ** Deep copy, comparison and deletion                                  *)
(* --------------------------------------------------------------------- *)

Section Dup.
Context {LL : @LibLaws L}.

Definition strBlocks (s : option Str) : gset addr :=
  match s with
  | Some s => {[s_addr s]}
  | None => ∅
  end.

Definition blocksItems (blocksE : Expr -> gset addr)
    : list ExprList_item -> gset addr :=
  fix go (its : list ExprList_item) : gset addr :=
    match its with
    | [] => ∅
    | it :: rest =>
        match pExpr it with Some e => blocksE e | None => ∅ end
        ∪ strBlocks (zName it) ∪ go rest
    end.

(** The blocks an expression tree is made of: its nodes, the texts of
    its tokens and spans, the headers, arrays and names of its lists.
    Subqueries are not entered; the trees considered below have none. *)
Fixpoint blocks (p : Expr) : gset addr :=
  {[e_addr p]} ∪ strBlocks (z (token p)) ∪ strBlocks (z (span p))
  ∪ match pLeft p with Some l => blocks l | None => ∅ end
  ∪ match pRight p with Some r => blocks r | None => ∅ end
  ∪ match pList p with
    | Some li => {[l_addr li]} ∪ {[a_addr li]} ∪ blocksItems blocks (a li)
    | None => ∅
    end.

(** The trees of the round trip: no subquery; every list has an element
    and every element an expression (the copy of a list reads the span of
    each element's expression, and what the allocator answers to a request
    for an empty array is not modelled). *)
Inductive wf : Expr -> Prop :=
  | wf_node (e : Expr) :
      pSelect e = None ->
      (forall l, pLeft e = Some l -> wf l) ->
      (forall r, pRight e = Some r -> wf r) ->
      (forall li, pList e = Some li -> a li <> []) ->
      (forall li, pList e = Some li -> wf_items (a li)) ->
      wf e
with wf_items : list ExprList_item -> Prop :=
  | wf_nil : wf_items []
  | wf_cons (it : ExprList_item) (rest : list ExprList_item) (e : Expr) :
      pExpr it = Some e -> wf e -> wf_items rest -> wf_items (it :: rest).

Scheme wf_mind := Minimality for wf Sort Prop
  with wf_items_mind := Minimality for wf_items Sort Prop.
Combined Scheme wf_both from wf_mind, wf_items_mind.

Lemma dupExpr_eq (p : Expr) :
  dupExpr p =
  (let* pNew := sqliteMalloc in
   let* tok := match z (token p) with
               | Some _ => let* zs := sqliteStrDup (z (token p)) in
                           ret (mkToken zs true (n (token p)))
               | None => ret (token p)
               end in
   let* l := optM dupExpr (pLeft p) in
   let* r := optM dupExpr (pRight p) in
   let* li := optM dupExprList (pList p) in
   let* se := optM dupSelect (pSelect p) in
   ret (mkExpr pNew (op p) (dataType p) (iDb p) l r li tok
          (mkToken None (dyn (span p)) (n (span p)))
          (iTable p) (iColumn p) (iAgg p) se)).
Proof. by destruct p. Qed.

Lemma dupExprList_eq (p : ExprList) :
  dupExprList p =
  (let* pNew := sqliteMalloc in
   let* pA := sqliteMalloc in
   let* its := dupItems dupExpr (a p) in
   ret (mkExprList pNew pA (Z.of_nat (length (a p))) its)).
Proof. by destruct p. Qed.

Lemma blocks_eq (p : Expr) :
  blocks p =
  {[e_addr p]} ∪ strBlocks (z (token p)) ∪ strBlocks (z (span p))
  ∪ match pLeft p with Some l => blocks l | None => ∅ end
  ∪ match pRight p with Some r => blocks r | None => ∅ end
  ∪ match pList p with
    | Some li => {[l_addr li]} ∪ {[a_addr li]} ∪ blocksItems blocks (a li)
    | None => ∅
    end.
Proof. by destruct p. Qed.

Lemma deleteExpr_eq (p : Expr) (h : heap) :
  deleteExpr p h =
  let h1 := if dyn (span p) then sqliteFree (s_addr <$> z (span p)) h else h in
  let h2 := if dyn (token p) then sqliteFree (s_addr <$> z (token p)) h1 else h1 in
  let h3 := match pLeft p with Some l => deleteExpr l h2 | None => h2 end in
  let h4 := match pRight p with Some r => deleteExpr r h3 | None => h3 end in
  let h5 := match pList p with
            | Some li =>
                let h' := deleteItems deleteExpr (a li) h4 in
                sqliteFree (Some (l_addr li)) (sqliteFree (Some (a_addr li)) h')
            | None => h4
            end in
  let h6 := sqlite3SelectDelete (pSelect p) h5 in
  sqliteFree (Some (e_addr p)) h6.
Proof. by destruct p. Qed.

Lemma cmpExpr_eq (pA pB : Expr) :
  cmpExpr pA pB =
  (if negb (bool_decide (op pA = op pB)) then false else
   if negb (match pLeft pA, pLeft pB with
            | None, None => true
            | Some x, Some y => cmpExpr x y
            | _, _ => false
            end) then false else
   if negb (match pRight pA, pRight pB with
            | None, None => true
            | Some x, Some y => cmpExpr x y
            | _, _ => false
            end) then false else
   if negb (match pList pA, pList pB with
            | Some la, Some lb =>
                if negb (length (a la) =? length (a lb))%nat then false
                else cmpItems cmpExpr (a la) (a lb)
            | Some _, None => false
            | None, Some _ => false
            | None, None => true
            end) then false else
   if (bool_decide (pSelect pA <> None)) || (bool_decide (pSelect pB <> None))
   then false else
   if negb (iTable pA =? iTable pB) || negb (iColumn pA =? iColumn pB)
   then false else
   match z (token pA) with
   | Some sa =>
       match z (token pB) with
       | None => false
       | Some sb =>
           if negb (n (token pB) =? n (token pA))%nat then false
           else if negb (sqlite3StrNICmp (text sa) (text sb) (n (token pB)) =? 0)
           then false else true
       end
   | None => true
   end).
Proof. by destruct pA. Qed.

(** A subquery on the left makes the comparison fail. *)
Lemma cmpExpr_select (pA pB : Expr) :
  pSelect pA <> None -> cmpExpr pA pB = false.
Proof.
  intros Hs. rewrite cmpExpr_eq, (bool_decide_eq_true_2 _ Hs). cbn [orb].
  do 4 (match goal with
        | |- (if negb ?c then false else _) = false => destruct c; [|done]
        end; cbn [negb]).
  done.
Qed.

(** What a step of the copy does to the set of blocks: it only adds
    blocks, and the blocks [B] of its result are new ones. *)
Definition fresh_step {A} (m : M A) (h : heap) (good : A -> Prop)
    (B : A -> gset addr) : Prop :=
  exists x h', m h = Some (x, h') /\ h ⊆ h' /\ good x /\
               forall y, y ∈ B x -> y ∈ h' /\ y ∉ h.

Lemma fresh_bind {A B} (m : M A) (k : A -> M B) (h : heap)
    (goodA : A -> Prop) (BA : A -> gset addr)
    (goodB : B -> Prop) (BB : B -> gset addr) :
  fresh_step m h goodA BA ->
  (forall x h', h ⊆ h' -> goodA x -> (forall y, y ∈ BA x -> y ∈ h' /\ y ∉ h) ->
     exists z_ h'', k x h' = Some (z_, h'') /\ h' ⊆ h'' /\ goodB z_ /\
                    forall y, y ∈ BB z_ -> y ∈ h'' /\ y ∉ h) ->
  fresh_step (bind m k) h goodB BB.
Proof.
  intros (x & h' & Hm & Hsub & Hg & Hb) Hk.
  destruct (Hk x h' Hsub Hg Hb) as (z_ & h'' & Hk' & Hsub' & Hg' & Hb').
  exists z_, h''. unfold bind. rewrite Hm. split; [done|].
  split; [set_solver|]. done.
Qed.

Lemma fresh_weaken {A} (m : M A) (h0 h : heap) (good : A -> Prop)
    (B : A -> gset addr) :
  h0 ⊆ h -> fresh_step m h good B ->
  exists x h', m h = Some (x, h') /\ h ⊆ h' /\ good x /\
               forall y, y ∈ B x -> y ∈ h' /\ y ∉ h0.
Proof.
  intros Hsub (x & h' & Hm & Hs & Hg & Hb). exists x, h'.
  split; [done|]. split; [done|]. split; [done|].
  intros y Hy. destruct (Hb y Hy). set_solver.
Qed.

Lemma malloc_step (h : heap) :
  fresh_step sqliteMalloc h (fun _ => True) (fun x => {[x]}).
Proof.
  exists (alloc h), ({[alloc h]} ∪ h). split; [done|]. split; [set_solver|].
  split; [done|]. intros y Hy. pose proof (alloc_fresh h). set_solver.
Qed.

Lemma strDup_step (zs : option Str) (h : heap) :
  fresh_step (sqliteStrDup zs) h
    (fun zs' => text <$> zs' = text <$> zs) strBlocks.
Proof.
  destruct zs as [s|].
  - exists (Some (mkStr (alloc h) (text s))), ({[alloc h]} ∪ h).
    split; [done|]. split; [set_solver|]. split; [done|].
    intros y Hy. pose proof (alloc_fresh h). cbn in Hy. set_solver.
  - exists None, h. split; [done|]. split; [done|]. split; [done|].
    intros y Hy. cbn in Hy. set_solver.
Qed.

Definition cmpOpt (o o' : option Expr) : bool :=
  match o, o' with
  | None, None => true
  | Some x, Some y => cmpExpr x y
  | _, _ => false
  end.

Definition optBlocks (o : option Expr) : gset addr :=
  match o with Some e => blocks e | None => ∅ end.

(** What the copy of a tree is: made of new blocks, a tree of the same
    kind, equal to the original under the comparison, without a span. *)
Definition copy_of (e e' : Expr) : Prop :=
  wf e' /\ cmpExpr e e' = true /\ z (span e') = None.

Definition copy_of_items (its its' : list ExprList_item) : Prop :=
  wf_items its' /\ cmpItems cmpExpr its its' = true /\ length its' = length its.

Ltac mstep H := cbv beta; unfold bind at 1; rewrite H; cbv beta iota.

Lemma dup_both :
  (forall e, wf e -> forall h, fresh_step (dupExpr e) h (copy_of e) blocks) /\
  (forall its, wf_items its ->
     forall h, fresh_step (dupItems dupExpr its) h (copy_of_items its)
                 (blocksItems blocks)).
Proof.
  apply wf_both.
  - (* a node *)
    intros e Hsel _ IHl _ IHr Hne _ IHli h. rewrite dupExpr_eq.
    eapply fresh_bind; [apply malloc_step|]. intros x0 h0 Hs0 _ Hb0.
    (* the token *)
    assert (Htok : exists tok h1,
      (match z (token e) with
       | Some _ => let* zs := sqliteStrDup (z (token e)) in
                   ret (mkToken zs true (n (token e)))
       | None => ret (token e)
       end) h0 = Some (tok, h1) /\ h0 ⊆ h1 /\
      (text <$> z tok = text <$> z (token e) /\ n tok = n (token e)) /\
      forall y, y ∈ strBlocks (z tok) -> y ∈ h1 /\ y ∉ h).
    { destruct (z (token e)) as [s|] eqn:Hz.
      - destruct (fresh_weaken _ h h0 _ _ Hs0 (strDup_step (Some s) h0))
          as (zs & h1 & Hd & Hs1 & Hg & Hb).
        exists (mkToken zs true (n (token e))), h1. unfold bind. rewrite Hd.
        split; [done|]. split; [done|]. split; [done|]. exact Hb.
      - exists (token e), h0. split; [done|]. split; [done|]. rewrite Hz.
        split; [done|]. intros y Hy. cbn in Hy. set_solver. }
    destruct Htok as (tok & h1 & Htok & Hs1 & [Htx Htn] & Hb1).
    (* the children *)
    assert (Hchild : forall (o : option Expr) (h' : heap),
      (forall l, o = Some l ->
         forall h, fresh_step (dupExpr l) h (copy_of l) blocks) ->
      h ⊆ h' ->
      exists o' h'', optM dupExpr o h' = Some (o', h'') /\ h' ⊆ h'' /\
        ((forall l', o' = Some l' -> wf l') /\ cmpOpt o o' = true) /\
        forall y, y ∈ optBlocks o' -> y ∈ h'' /\ y ∉ h).
    { intros o h' IH Hsub. destruct o as [l|].
      - destruct (fresh_weaken _ h h' _ _ Hsub (IH l eq_refl h'))
          as (l' & h'' & Hd & Hs' & (Hw & Hc & _) & Hb).
        exists (Some l'), h''. cbn [optM]. unfold bind. rewrite Hd.
        split; [done|]. split; [done|]. split; [|done].
        split; [by intros ? [= <-]|done].
      - exists None, h'. split; [done|]. split; [done|].
        split; [done|]. intros y Hy. cbn in Hy. set_solver. }
    destruct (Hchild (pLeft e) h1 IHl ltac:(set_solver))
      as (l' & h2 & Hdl & Hs2 & [Hwl Hcl] & Hb2).
    destruct (Hchild (pRight e) h2 IHr ltac:(set_solver))
      as (r' & h3 & Hdr & Hs3 & [Hwr Hcr] & Hb3).
    (* the list *)
    assert (Hlist : exists li' h4,
      optM dupExprList (pList e) h3 = Some (li', h4) /\ h3 ⊆ h4 /\
      (match pList e, li' with
       | Some la, Some lb =>
           a lb <> [] /\ wf_items (a lb) /\ length (a lb) = length (a la) /\
           cmpItems cmpExpr (a la) (a lb) = true
       | None, None => True
       | _, _ => False
       end) /\
      forall y, y ∈ match li' with
                    | Some lb => {[l_addr lb]} ∪ {[a_addr lb]}
                                 ∪ blocksItems blocks (a lb)
                    | None => ∅
                    end -> y ∈ h4 /\ y ∉ h).
    { destruct (pList e) as [la|] eqn:Hli.
      - cbn [optM]. rewrite dupExprList_eq. unfold bind at 1 2 3.
        destruct (fresh_weaken _ h h3 _ _ ltac:(set_solver) (malloc_step h3))
          as (x1 & g1 & -> & Hg1 & _ & Hx1).
        destruct (fresh_weaken _ h g1 _ _ ltac:(set_solver) (malloc_step g1))
          as (x2 & g2 & -> & Hg2 & _ & Hx2).
        destruct (fresh_weaken _ h g2 _ _ ltac:(set_solver) (IHli la eq_refl g2))
          as (its' & g3 & Hd & Hg3 & (Hw & Hc & Hlen) & Hbi).
        unfold bind. rewrite Hd. eexists _, g3. split; [reflexivity|].
        split; [set_solver|]. cbn [a l_addr a_addr]. split.
        + split; [|done]. specialize (Hne la eq_refl).
          destruct its'; [|done]. destruct (a la); [done|discriminate].
        + intros y Hy. specialize (Hx1 x1). specialize (Hx2 x2). set_solver.
      - exists None, h3. split; [done|]. split; [done|]. split; [done|].
        intros y Hy. set_solver. }
    destruct Hlist as (li' & h4 & Hdli & Hs4 & Hli & Hb4).
    mstep Htok. mstep Hdl. mstep Hdr. mstep Hdli. rewrite Hsel. cbn [optM ret].
    unfold bind at 1. cbv beta iota.
    eexists _, h4. split; [reflexivity|]. split; [set_solver|]. split.
    + split; [|split; [|done]].
      * constructor; cbn [pSelect pLeft pRight pList]; try done.
        -- intros lb ->. destruct (pList e); [apply Hli|done].
        -- intros lb ->. destruct (pList e); [apply Hli|done].
      * rewrite cmpExpr_eq. cbn [op pLeft pRight pList pSelect iTable iColumn token].
        rewrite bool_decide_eq_true_2 by done. cbn [negb].
        fold (cmpOpt (pLeft e) l'). fold (cmpOpt (pRight e) r').
        rewrite Hcl, Hcr. cbn [negb].
        replace (match pList e with
                 | Some la =>
                     match li' with
                     | Some lb =>
                         if negb (length (a la) =? length (a lb))%nat then false
                         else cmpItems cmpExpr (a la) (a lb)
                     | None => false
                     end
                 | None => match li' with Some _ => false | None => true end
                 end) with true.
        2:{ destruct (pList e) as [la|], li' as [lb|]; try done.
            destruct Hli as (_ & _ & Hlen & Hc). rewrite Hlen, Nat.eqb_refl. done. }
        cbn [negb]. rewrite Hsel.
        rewrite !bool_decide_eq_false_2 by (intros Hx; by apply Hx).
        cbn [orb]. rewrite !Z.eqb_refl. cbn [negb orb].
        destruct (z (token e)) as [sa|] eqn:Hz; [|done].
        destruct (z tok) as [sb|]; [|done]. cbn in Htx. injection Htx as Htx.
        rewrite Htn, Nat.eqb_refl, Htx, strnicmp_refl. done.
    + intros y. rewrite blocks_eq.
      cbn [e_addr token span pLeft pRight pList z strBlocks].
      fold (optBlocks l'). fold (optBlocks r').
      specialize (Hb0 x0). intros Hy.
      repeat (apply elem_of_union in Hy as [Hy|Hy]).
      * split; [|set_solver]. set_solver.
      * destruct (Hb1 y Hy). split; [set_solver|done].
      * set_solver.
      * destruct (Hb2 y Hy). split; [set_solver|done].
      * destruct (Hb3 y Hy). split; [set_solver|done].
      * by apply Hb4.
  - (* no element *)
    intros h. exists [], h. split; [done|]. split; [done|].
    split; [by repeat split; constructor|]. intros y Hy. cbn in Hy. set_solver.
  - (* an element *)
    intros it rest e Hit _ IHe _ IHrest h. cbn [dupItems]. rewrite Hit.
    destruct (IHe h) as (e' & h1 & Hd & Hs1 & (Hw & Hc & Hsp) & Hb1).
    assert (Hspan : exists sp h2,
      (match z (span e) with
       | Some _ => sqlite3TokenCopy (span e') (span e)
       | None => ret (span e')
       end) h1 = Some (sp, h2) /\ h1 ⊆ h2 /\
      forall y, y ∈ strBlocks (z sp) -> y ∈ h2 /\ y ∉ h).
    { destruct (z (span e)) as [s|] eqn:Hz.
      - unfold sqlite3TokenCopy. rewrite Hsp, Hz.
        replace (if dyn (span e') then sqliteFree (s_addr <$> None) h1 else h1)
          with h1 by (by destruct (dyn (span e'))).
        exists (mkToken (Some (mkStr (alloc h1) (substring 0 (n (span e)) (text s))))
                  true (n (span e))), ({[alloc h1]} ∪ h1).
        split; [done|]. split; [set_solver|].
        intros y Hy. pose proof (alloc_fresh h1). cbn in Hy. set_solver.
      - exists (span e'), h1. split; [done|]. split; [done|].
        rewrite Hsp. intros y Hy. cbn in Hy. set_solver. }
    destruct Hspan as (sp & h2 & Hcp & Hs2 & Hb2).
    destruct (fresh_weaken _ h h2 _ _ ltac:(set_solver) (strDup_step (zName it) h2))
      as (nm & h3 & Hnm & Hs3 & _ & Hb3).
    destruct (fresh_weaken _ h h3 _ _ ltac:(set_solver) (IHrest h3))
      as (rest' & h4 & Hr & Hs4 & (Hwr & Hcr & Hlr) & Hb4).
    unfold fresh_step. mstep Hd. mstep Hcp. mstep Hnm. mstep Hr. unfold ret.
    eexists _, h4. split; [reflexivity|]. split; [set_solver|]. split.
    + split; [|split].
      * apply (wf_cons _ _ (setSpan e' sp)); [done| |done].
        inversion Hw; subst. by constructor.
      * cbn [cmpItems pExpr]. rewrite Hit.
        replace (cmpExpr e (setSpan e' sp)) with (cmpExpr e e')
          by (by rewrite !(cmpExpr_eq e)).
        by rewrite Hc.
      * cbn [length]. by rewrite Hlr.
    + intros y. cbn [blocksItems pExpr zName]. rewrite (blocks_eq (setSpan e' sp)).
      cbn [setSpan e_addr token span pLeft pRight pList].
      rewrite (blocks_eq e') in Hb1. rewrite Hsp in Hb1. cbn [strBlocks] in Hb1.
      intros Hy. repeat (apply elem_of_union in Hy as [Hy|Hy]).
      * destruct (Hb1 y ltac:(set_solver)). split; [set_solver|done].
      * destruct (Hb1 y ltac:(set_solver)). split; [set_solver|done].
      * destruct (Hb2 y Hy). split; [set_solver|done].
      * destruct (Hb1 y ltac:(set_solver)). split; [set_solver|done].
      * destruct (Hb1 y ltac:(set_solver)). split; [set_solver|done].
      * destruct (Hb1 y ltac:(set_solver)). split; [set_solver|done].
      * destruct (Hb3 y Hy). split; [set_solver|done].
      * by apply Hb4.
Qed.

(** Going from [h] to [h'] frees blocks of [B] only. *)
Definition frees (B : gset addr) (h h' : heap) : Prop :=
  h' ⊆ h /\ forall x, x ∈ h -> x ∉ B -> x ∈ h'.

Lemma frees_refl B h : frees B h h.
Proof. by split. Qed.

Lemma frees_trans B h h1 h2 : frees B h h1 -> frees B h1 h2 -> frees B h h2.
Proof. intros [H1 H2] [H3 H4]. split; [set_solver|]. intros x Hx Hn. auto. Qed.

Lemma frees_mono B B' h h' : frees B h h' -> B ⊆ B' -> frees B' h h'.
Proof. intros [H1 H2] Hsub. split; [done|]. intros x Hx Hn. apply H2; set_solver. Qed.

Lemma frees_free (p : option addr) (B : gset addr) (h : heap) :
  (forall x, p = Some x -> x ∈ B) -> frees B h (sqliteFree p h).
Proof.
  intros Hp. destruct p as [x|]; [|apply frees_refl].
  specialize (Hp x eq_refl). split; cbn; set_solver.
Qed.

Lemma frees_str (zs : option Str) (b : bool) (B : gset addr) (h : heap) :
  strBlocks zs ⊆ B ->
  frees B h (if b then sqliteFree (s_addr <$> zs) h else h).
Proof.
  intros Hs. destruct b; [|apply frees_refl]. apply frees_free.
  intros x Hx. destruct zs as [s|]; [|done]. cbn in *. set_solver.
Qed.

Lemma delete_both :
  (forall e, wf e -> forall h, frees (blocks e) h (deleteExpr e h)) /\
  (forall its, wf_items its ->
     forall h, frees (blocksItems blocks its) h (deleteItems deleteExpr its h)).
Proof.
  apply wf_both.
  - intros e Hsel _ IHl _ IHr _ _ IHli h.
    rewrite deleteExpr_eq. cbv zeta. rewrite Hsel, selectDelete_null.
    pose proof (blocks_eq e) as HB.
    repeat (eapply frees_trans; [|apply frees_free; intros x [= <-]; set_solver]).
    eapply frees_trans; [|destruct (pList e) as [li|] eqn:Hli].
    2:{ repeat (eapply frees_trans; [|apply frees_free; intros x [= <-]; set_solver]).
        eapply frees_mono; [by apply IHli|]. set_solver. }
    2:{ apply frees_refl. }
    eapply frees_trans; [|destruct (pRight e) as [r|] eqn:Hr].
    2:{ eapply frees_mono; [by apply IHr|]. set_solver. }
    2:{ apply frees_refl. }
    eapply frees_trans; [|destruct (pLeft e) as [l|] eqn:Hl].
    2:{ eapply frees_mono; [by apply IHl|]. set_solver. }
    2:{ apply frees_refl. }
    eapply frees_trans; [|apply frees_str; set_solver].
    apply frees_str. set_solver.
  - intros h. apply frees_refl.
  - intros it rest e Hit _ IHe _ IHrest h. cbn [deleteItems blocksItems]. rewrite Hit.
    eapply frees_trans; [|eapply frees_mono; [apply IHrest|set_solver]].
    eapply frees_trans; [eapply frees_mono; [apply IHe|set_solver]|].
    apply frees_free. intros x Hx. destruct (zName it); [|done].
    cbn in *. injection Hx as <-. set_solver.
Qed.

(** C3, as amended: for an expression tree without subqueries, all of
    whose blocks are allocated, sqlite3ExprDup succeeds and returns a
    tree for which sqlite3ExprCompare with the original answers true;
    after sqlite3ExprDelete of the original every block of the copy is
    still allocated, and after sqlite3ExprDelete of the copy every block
    of the original is. *)
Theorem C3_dup_compare_delete (T : Expr) (h : heap) :
  wf T -> blocks T ⊆ h ->
  exists T' h',
    sqlite3ExprDup (Some T) h = Some (Some T', h') /\
    sqlite3ExprCompare (Some T) (Some T') = true /\
    blocks T' ⊆ sqlite3ExprDelete (Some T) h' /\
    blocks T ⊆ sqlite3ExprDelete (Some T') h'.
Proof.
  intros Hwf Hlive.
  destruct (proj1 dup_both T Hwf h) as (T' & h' & Hd & Hsub & (Hwf' & Hc & _) & Hb).
  exists T', h'. unfold sqlite3ExprDup. cbn [optM]. unfold bind. rewrite Hd.
  split; [done|]. split; [done|]. cbn [sqlite3ExprDelete].
  destruct (proj1 delete_both T Hwf h') as [_ HT].
  destruct (proj1 delete_both T' Hwf' h') as [_ HT'].
  split.
  - intros x Hx. destruct (Hb x Hx). apply HT; set_solver.
  - intros x Hx. apply HT'; [set_solver|]. intros Hx'. destruct (Hb x Hx'). set_solver.
Qed.

End Dup.

Section IsInteger.
Context {LL : @LibLaws L}.









End IsInteger.

(* --------------------------------------------------------------------- *)
(** ** Name resolution                                                     *)
(* --------------------------------------------------------------------- *)

Section Resolve.
Context {LL : @LibLaws L}.

Lemma dequoted_run (t : option Token) (h : heap) :
  exists r h', dequoted t h = Some (r, h') /\ text <$> r = tokStr t.
Proof.
  destruct t as [[[s|] d k]|]; cbn; eauto.
Qed.

Lemma set_table_op e t d : op (set_table e t d) = op e.
Proof. done. Qed.

Lemma col_hit_op e t j c : op (col_hit e t j c) = op e.
Proof. done. Qed.



End Resolve.

(* --------------------------------------------------------------------- *)
(** ** Comparison opcodes                                                  *)
(* --------------------------------------------------------------------- *)

Section Emitter.

(** Induction on a node with its operands and the entries of its list. *)
Lemma Expr_ind_sub (Q : Expr -> Prop) :
  (forall e,
     (forall l, pLeft e = Some l -> Q l) ->
     (forall r, pRight e = Some r -> Q r) ->
     (forall el, pList e = Some el ->
        Forall (fun it => forall x, pExpr it = Some x -> Q x) (a el)) ->
     Q e) ->
  forall e, Q e.
Proof.
  intros H. fix IH 1. intros e. apply H.
  - destruct e as [? ? ? ? pl ? ? ? ? ? ? ? ?]. cbn. intros l Hl.
    destruct pl as [l'|]; [|discriminate]. injection Hl as <-. apply IH.
  - destruct e as [? ? ? ? ? pr ? ? ? ? ? ? ?]. cbn. intros r Hr.
    destruct pr as [r'|]; [|discriminate]. injection Hr as <-. apply IH.
  - destruct e as [? ? ? ? ? ? pli ? ? ? ? ? ?]. cbn. intros el Hel.
    destruct pli as [el'|]; [|discriminate]. injection Hel as <-.
    destruct el' as [? ? ? items]. cbn.
    induction items as [|it rest IHrest]; constructor; [|exact IHrest].
    destruct it as [pe ? ? ? ?]. cbn. intros x Hx.
    destruct pe as [x'|]; [|discriminate]. injection Hx as <-. apply IH.
Qed.

(** What a step of the generator keeps: the file format, and whether
    there is a program. *)
Definition same_db (P Q : Parse) : Prop :=
  file_format Q = file_format P /\ is_some (pVdbe Q) = is_some (pVdbe P).

Definition keepsAt (P : Parse) (r : option Parse) : Prop :=
  forall P', r = Some P' -> same_db P P'.

Definition keeps (f : Emit) : Prop := forall P, keepsAt P (f P).

Lemma same_db_refl P : same_db P P.
Proof. done. Qed.

Lemma same_db_trans P Q R : same_db P Q -> same_db Q R -> same_db P R.
Proof. intros [? ?] [? ?]. split; congruence. Qed.

Lemma keepsAt_some P Q : same_db P Q -> keepsAt P (Some Q).
Proof. intros HQ P' [= <-]. done. Qed.


Lemma keepsAt_from P Q r : same_db P Q -> keepsAt Q r -> keepsAt P r.
Proof. intros HQ Hr P' E. eapply same_db_trans; [done|]. by apply Hr. Qed.

Lemma keeps_at f P : keeps f -> keepsAt P (f P).
Proof. intros Hf. apply Hf. Qed.

Lemma keeps_skip : keeps skip.
Proof. intros P. by apply keepsAt_some. Qed.


Lemma keeps_onVdbe f : keeps (onVdbe f).
Proof.
  intros P. apply keepsAt_some. split; [done|]. cbn. by destruct (pVdbe P).
Qed.



Lemma keeps_steps l : Forall keeps l -> keeps (steps l).
Proof.
  induction 1 as [|f l Hf _ IH]; [apply keeps_skip|].
  intros P P' E. cbn in E. destruct (f P) as [Q|] eqn:EQ; [|discriminate].
  eapply same_db_trans; [by apply (Hf P)|by apply (IH Q)].
Qed.

Ltac ksteps := apply keeps_steps; repeat first [apply Forall_nil_2 | apply Forall_cons_2].



Lemma keeps_withLabel k : (forall d, keeps (k d)) -> keeps (withLabel k).
Proof.
  intros Hk P. unfold withLabel. destruct (pVdbe P) as [v|] eqn:Ev.
  - unfold sqlite3VdbeMakeLabel.
    match goal with
    | |- keepsAt _ (steps ?l ?Q) =>
        apply (keepsAt_from _ Q); [|apply (keeps_at (steps l) Q)]
    end.
    + split; [done|]. cbn. by rewrite Ev.
    + ksteps; [apply Hk|apply keeps_onVdbe].
  - by apply keepsAt_some.
Qed.










End Emitter.

(* --------------------------------------------------------------------- *)
(** ** sqlite3ExprIsConstant                                               *)
(* --------------------------------------------------------------------- *)

Section Constant.

(** The loop over the entries of the list: [None] when an entry has no
    expression, whose op the routine would read. *)
Definition constItems (f : Expr -> option bool)
    : list ExprList_item -> option bool :=
  fix go (its : list ExprList_item) : option bool :=
    match its with
    | [] => Some true
    | it :: rest =>
        match pExpr it with
        | None => None
        | Some e =>
            match f e with
            | None => None
            | Some false => Some false
            | Some true => go rest
            end
        end
    end.

Definition is_ref (t : tk) : bool :=
  match t with
  | TK_ID | TK_COLUMN | TK_DOT | TK_FUNCTION => true
  | _ => false
  end.

Definition is_literal (t : tk) : bool :=
  match t with
  | TK_NULL | TK_STRING | TK_INTEGER | TK_FLOAT | TK_VARIABLE => true
  | _ => false
  end.

Definition has_child (p : Expr) : bool :=
  is_some (pLeft p) || is_some (pRight p) ||
  match pList p with
  | Some li => negb (length (a li) =? 0)%nat
  | None => false
  end.

Fixpoint sqlite3ExprIsConstant (p : Expr) : option bool :=
  match op p with
  | TK_ID | TK_COLUMN | TK_DOT | TK_FUNCTION => Some false
  | TK_NULL | TK_STRING | TK_INTEGER | TK_FLOAT | TK_VARIABLE => Some true
  | _ =>
      match (match pLeft p with
             | Some l => sqlite3ExprIsConstant l
             | None => Some true
             end) with
      | None => None
      | Some false => Some false
      | Some true =>
          match (match pRight p with
                 | Some r => sqlite3ExprIsConstant r
                 | None => Some true
                 end) with
          | None => None
          | Some false => Some false
          | Some true =>
              match (match pList p with
                     | Some li => constItems sqlite3ExprIsConstant (a li)
                     | None => Some true
                     end) with
              | None => None
              | Some false => Some false
              | Some true => Some (has_child p)
              end
          end
      end
  end.

(** The nodes the walk can reach from [p]: [p] itself and, below a node
    that is neither a reference nor a literal, the nodes reached from its
    operands and from the entries of its list.  Subqueries are not
    entered. *)
Inductive reached : Expr -> Expr -> Prop :=
  | reached_here (p : Expr) : reached p p
  | reached_left (q p l : Expr) :
      is_ref (op p) = false -> is_literal (op p) = false ->
      pLeft p = Some l -> reached q l -> reached q p
  | reached_right (q p r : Expr) :
      is_ref (op p) = false -> is_literal (op p) = false ->
      pRight p = Some r -> reached q r -> reached q p
  | reached_item (q p x : Expr) (li : ExprList) (it : ExprList_item) :
      is_ref (op p) = false -> is_literal (op p) = false ->
      pList p = Some li -> it ∈ a li -> pExpr it = Some x ->
      reached q x -> reached q p.

(** A node that does not make the expression variable: a literal, or a
    node with an operand or a list entry that is not a reference. *)
Definition const_node (q : Expr) : Prop :=
  is_literal (op q) = true \/ (is_ref (op q) = false /\ has_child q = true).

Lemma sqlite3ExprIsConstant_eq (p : Expr) :
  sqlite3ExprIsConstant p =
  if is_ref (op p) then Some false else
  if is_literal (op p) then Some true else
  match (match pLeft p with
         | Some l => sqlite3ExprIsConstant l
         | None => Some true
         end) with
  | None => None
  | Some false => Some false
  | Some true =>
      match (match pRight p with
             | Some r => sqlite3ExprIsConstant r
             | None => Some true
             end) with
      | None => None
      | Some false => Some false
      | Some true =>
          match (match pList p with
                 | Some li => constItems sqlite3ExprIsConstant (a li)
                 | None => Some true
                 end) with
          | None => None
          | Some false => Some false
          | Some true => Some (has_child p)
          end
      end
  end.
Proof. destruct p as [? o ? ? ? ? ? ? ? ? ? ? ?]. by destruct o. Qed.

Lemma constItems_true (f : Expr -> option bool) (Q : Expr -> Prop) its :
  Forall (fun it => forall x, pExpr it = Some x ->
                    forall b, f x = Some b -> (b = true <-> Q x)) its ->
  forall b, constItems f its = Some b ->
  (b = true <-> forall it x, it ∈ its -> pExpr it = Some x -> Q x).
Proof.
  induction 1 as [|it rest Hit _ IH]; intros b Hb.
  - injection Hb as <-. split; [|done]. intros _ it x Hin. by apply elem_of_nil in Hin.
  - cbn in Hb. destruct (pExpr it) as [e|] eqn:He; [|discriminate].
    destruct (f e) as [[|]|] eqn:Hf; [|injection Hb as <-|discriminate].
    + specialize (IH b Hb). rewrite IH. split.
      * intros Hall it' x Hin Hx. apply elem_of_cons in Hin as [->|Hin].
        -- rewrite He in Hx. injection Hx as <-. by apply (Hit e eq_refl true Hf).
        -- by apply (Hall it' x).
      * intros Hall it' x Hin Hx. apply (Hall it' x); [|done]. by right.
    + split; [discriminate|]. intros Hall.
      apply (Hit e eq_refl false Hf). apply (Hall it e); [by left|done].
Qed.

(** X8: when sqlite3ExprIsConstant returns, it returns true exactly when
    every node the walk reaches is a literal (NULL, string, integer,
    float, variable) or a node with an operand or a list entry that is
    not an identifier, a column, a dotted name or a function call.  So a
    constant expression reaches no column reference, and a node without
    operands that is not a literal (a subquery, say) is not constant. *)
Theorem sqlite3ExprIsConstant_iff (p : Expr) (b : bool) :
  sqlite3ExprIsConstant p = Some b ->
  (b = true <-> forall q, reached q p -> const_node q).
Proof.
  revert b. induction p as [p IHl IHr IHli] using Expr_ind_sub. intros b Hb.
  rewrite sqlite3ExprIsConstant_eq in Hb.
  destruct (is_ref (op p)) eqn:Hr.
  { injection Hb as <-. split; [discriminate|]. intros Hall.
    destruct (Hall p (reached_here p)) as [Hl|[Hn _]]; [|congruence].
    destruct (op p); discriminate. }
  destruct (is_literal (op p)) eqn:Hl.
  { injection Hb as <-. split; [|done]. intros _ q Hq.
    inversion Hq; subst; try congruence. by left. }
  assert (Hhere : forall q, reached q p ->
            q = p \/
            (exists l, pLeft p = Some l /\ reached q l) \/
            (exists r, pRight p = Some r /\ reached q r) \/
            (exists li it x, pList p = Some li /\ it ∈ a li /\ pExpr it = Some x /\
                             reached q x)).
  { intros q Hq. inversion Hq; subst; eauto 10. }
  destruct (pLeft p) as [l|] eqn:El.
  - destruct (sqlite3ExprIsConstant l) as [[|]|] eqn:Hcl; [| |discriminate].
    2:{ injection Hb as <-. split; [discriminate|]. intros Hall.
        apply (IHl l eq_refl false Hcl). intros q Hq. apply Hall.
        by eapply reached_left. }
    pose proof (proj1 (IHl l eq_refl true Hcl) eq_refl) as HL.
    destruct (pRight p) as [r|] eqn:Er.
    + destruct (sqlite3ExprIsConstant r) as [[|]|] eqn:Hcr; [| |discriminate].
      2:{ injection Hb as <-. split; [discriminate|]. intros Hall.
          apply (IHr r eq_refl false Hcr). intros q Hq. apply Hall.
          by eapply reached_right. }
      pose proof (proj1 (IHr r eq_refl true Hcr) eq_refl) as HR.
      destruct (pList p) as [li|] eqn:Eli.
      * destruct (constItems sqlite3ExprIsConstant (a li)) as [[|]|] eqn:Hci;
          [| |discriminate].
        2:{ injection Hb as <-. split; [discriminate|]. intros Hall.
            apply (constItems_true _ (fun x => forall q, reached q x -> const_node q)
                     _ (IHli li eq_refl) false Hci).
            intros it x Hin Hx q Hq. apply Hall. by eapply reached_item. }
        pose proof (proj1 (constItems_true _ _ _ (IHli li eq_refl) true Hci) eq_refl) as HI.
        injection Hb as <-. split.
        -- intros Hc q Hq.
           destruct (Hhere q Hq) as [->|[(l' & [= <-] & Hq')|[(r' & [= <-] & Hq')|
             (li' & it & x & [= <-] & Hin & Hx & Hq')]]]; eauto.
           right. done.
        -- intros Hall. destruct (Hall p (reached_here p)) as [?|[_ ?]]; congruence.
      * injection Hb as <-. split.
        -- intros Hc q Hq.
           destruct (Hhere q Hq) as [->|[(l' & [= <-] & Hq')|[(r' & [= <-] & Hq')|
             (li' & it & x & [=] & _)]]]; eauto.
           right. done.
        -- intros Hall. destruct (Hall p (reached_here p)) as [?|[_ ?]]; congruence.
    + destruct (pList p) as [li|] eqn:Eli.
      * destruct (constItems sqlite3ExprIsConstant (a li)) as [[|]|] eqn:Hci;
          [| |discriminate].
        2:{ injection Hb as <-. split; [discriminate|]. intros Hall.
            apply (constItems_true _ (fun x => forall q, reached q x -> const_node q)
                     _ (IHli li eq_refl) false Hci).
            intros it x Hin Hx q Hq. apply Hall. by eapply reached_item. }
        pose proof (proj1 (constItems_true _ _ _ (IHli li eq_refl) true Hci) eq_refl) as HI.
        injection Hb as <-. split.
        -- intros Hc q Hq.
           destruct (Hhere q Hq) as [->|[(l' & [= <-] & Hq')|[(r' & [=] & _)|
             (li' & it & x & [= <-] & Hin & Hx & Hq')]]]; eauto.
           right. done.
        -- intros Hall. destruct (Hall p (reached_here p)) as [?|[_ ?]]; congruence.
      * injection Hb as <-. split.
        -- intros Hc q Hq.
           destruct (Hhere q Hq) as [->|[(l' & [= <-] & Hq')|[(r' & [=] & _)|
             (li' & it & x & [=] & _)]]]; eauto.
           right. done.
        -- intros Hall. destruct (Hall p (reached_here p)) as [?|[_ ?]]; congruence.
  - destruct (pRight p) as [r|] eqn:Er.
    + destruct (sqlite3ExprIsConstant r) as [[|]|] eqn:Hcr; [| |discriminate].
      2:{ injection Hb as <-. split; [discriminate|]. intros Hall.
          apply (IHr r eq_refl false Hcr). intros q Hq. apply Hall.
          by eapply reached_right. }
      pose proof (proj1 (IHr r eq_refl true Hcr) eq_refl) as HR.
      destruct (pList p) as [li|] eqn:Eli.
      * destruct (constItems sqlite3ExprIsConstant (a li)) as [[|]|] eqn:Hci;
          [| |discriminate].
        2:{ injection Hb as <-. split; [discriminate|]. intros Hall.
            apply (constItems_true _ (fun x => forall q, reached q x -> const_node q)
                     _ (IHli li eq_refl) false Hci).
            intros it x Hin Hx q Hq. apply Hall. by eapply reached_item. }
        pose proof (proj1 (constItems_true _ _ _ (IHli li eq_refl) true Hci) eq_refl) as HI.
        injection Hb as <-. split.
        -- intros Hc q Hq.
           destruct (Hhere q Hq) as [->|[(l' & [=] & _)|[(r' & [= <-] & Hq')|
             (li' & it & x & [= <-] & Hin & Hx & Hq')]]]; eauto.
           right. done.
        -- intros Hall. destruct (Hall p (reached_here p)) as [?|[_ ?]]; congruence.
      * injection Hb as <-. split.
        -- intros Hc q Hq.
           destruct (Hhere q Hq) as [->|[(l' & [=] & _)|[(r' & [= <-] & Hq')|
             (li' & it & x & [=] & _)]]]; eauto.
           right. done.
        -- intros Hall. destruct (Hall p (reached_here p)) as [?|[_ ?]]; congruence.
    + destruct (pList p) as [li|] eqn:Eli.
      * destruct (constItems sqlite3ExprIsConstant (a li)) as [[|]|] eqn:Hci;
          [| |discriminate].
        2:{ injection Hb as <-. split; [discriminate|]. intros Hall.
            apply (constItems_true _ (fun x => forall q, reached q x -> const_node q)
                     _ (IHli li eq_refl) false Hci).
            intros it x Hin Hx q Hq. apply Hall. by eapply reached_item. }
        pose proof (proj1 (constItems_true _ _ _ (IHli li eq_refl) true Hci) eq_refl) as HI.
        injection Hb as <-. split.
        -- intros Hc q Hq.
           destruct (Hhere q Hq) as [->|[(l' & [=] & _)|[(r' & [=] & _)|
             (li' & it & x & [= <-] & Hin & Hx & Hq')]]]; eauto.
           right. done.
        -- intros Hall. destruct (Hall p (reached_here p)) as [?|[_ ?]]; congruence.
      * injection Hb as <-. split.
        -- intros Hc q Hq.
           destruct (Hhere q Hq) as [->|[(l' & [=] & _)|[(r' & [=] & _)|
             (li' & it & x & [=] & _)]]]; eauto.
           right. done.
        -- intros Hall. destruct (Hall p (reached_here p)) as [?|[_ ?]]; congruence.
Qed.

End Constant.

(* --------------------------------------------------------------------- *)
(** ** sqlite3ExprCompare on a tree and itself                             *)
(* --------------------------------------------------------------------- *)

Section Compare.
Context {LL : @LibLaws L}.

Definition subqItems (f : Expr -> bool) : list ExprList_item -> bool :=
  fix go (its : list ExprList_item) : bool :=
    match its with
    | [] => false
    | it :: rest =>
        match pExpr it with Some e => f e | None => false end || go rest
    end.

(** Is there a subquery on a node of the tree: on the node, below its
    operands, or below the entries of its list? *)
Fixpoint has_subquery (p : Expr) : bool :=
  is_some (pSelect p)
  || match pLeft p with Some l => has_subquery l | None => false end
  || match pRight p with Some r => has_subquery r | None => false end
  || match pList p with
     | Some li => subqItems has_subquery (a li)
     | None => false
     end.

Lemma has_subquery_eq (p : Expr) :
  has_subquery p =
  is_some (pSelect p)
  || match pLeft p with Some l => has_subquery l | None => false end
  || match pRight p with Some r => has_subquery r | None => false end
  || match pList p with
     | Some li => subqItems has_subquery (a li)
     | None => false
     end.
Proof. by destruct p. Qed.

Lemma cmpItems_refl (its : list ExprList_item) :
  Forall (fun it => forall x, pExpr it = Some x ->
                    cmpExpr x x = negb (has_subquery x)) its ->
  cmpItems cmpExpr its its = negb (subqItems has_subquery its).
Proof.
  induction 1 as [|it rest Hit _ IH]; [done|]. cbn.
  destruct (pExpr it) as [e|] eqn:He.
  - rewrite (Hit e eq_refl). destruct (has_subquery e); [done|]. exact IH.
  - exact IH.
Qed.

Lemma cmpExpr_refl (T : Expr) : cmpExpr T T = negb (has_subquery T).
Proof.
  induction T as [T IHl IHr IHli] using Expr_ind_sub.
  rewrite cmpExpr_eq, has_subquery_eq.
  rewrite bool_decide_eq_true_2 by done. cbn [negb].
  assert (HL : match pLeft T, pLeft T with
               | None, None => true
               | Some x, Some y => cmpExpr x y
               | _, _ => false
               end = negb match pLeft T with Some l => has_subquery l | None => false end).
  { destruct (pLeft T) as [l|]; [by apply IHl|done]. }
  assert (HR : match pRight T, pRight T with
               | None, None => true
               | Some x, Some y => cmpExpr x y
               | _, _ => false
               end = negb match pRight T with Some r => has_subquery r | None => false end).
  { destruct (pRight T) as [r|]; [by apply IHr|done]. }
  assert (HLi : match pList T, pList T with
                | Some la, Some lb =>
                    if negb (length (a la) =? length (a lb))%nat then false
                    else cmpItems cmpExpr (a la) (a lb)
                | Some _, None => false
                | None, Some _ => false
                | None, None => true
                end = negb match pList T with
                           | Some li => subqItems has_subquery (a li)
                           | None => false
                           end).
  { destruct (pList T) as [li|] eqn:Eli; [|done].
    rewrite Nat.eqb_refl. cbn [negb]. apply cmpItems_refl. by apply IHli. }
  rewrite HL, HR, HLi, !Z.eqb_refl. cbn [negb orb].
  assert (Htok : match z (token T) with
                 | Some sa =>
                     match z (token T) with
                     | None => false
                     | Some sb =>
                         if negb (n (token T) =? n (token T))%nat then false
                         else if negb (sqlite3StrNICmp (text sa) (text sb) (n (token T)) =? 0)
                         then false else true
                     end
                 | None => true
                 end = true).
  { destruct (z (token T)) as [sa|]; [|done].
    by rewrite Nat.eqb_refl, strnicmp_refl. }
  rewrite Htok.
  destruct (pSelect T) as [sel|].
  - rewrite (bool_decide_eq_true_2 (Some sel <> None)) by done. cbn.
    rewrite !negb_involutive.
    destruct (match pLeft T with Some l => has_subquery l | None => false end);
      cbn; [done|].
    destruct (match pRight T with Some r => has_subquery r | None => false end);
      cbn; [done|].
    by destruct (match pList T with
                 | Some li => subqItems has_subquery (a li)
                 | None => false
                 end).
  - rewrite (bool_decide_eq_false_2 (None <> None)) by (intros H; by apply H). cbn.
    rewrite !negb_involutive.
    destruct (match pLeft T with Some l => has_subquery l | None => false end);
      cbn; [done|].
    destruct (match pRight T with Some r => has_subquery r | None => false end);
      cbn; [done|].
    by destruct (match pList T with
                 | Some li => subqItems has_subquery (a li)
                 | None => false
                 end).
Qed.

(** X9: sqlite3ExprCompare of a tree with itself returns true exactly
    when no node of the tree carries a subquery; with one anywhere below
    its operands or list entries, a tree does not even equal itself. *)
Theorem sqlite3ExprCompare_self (T : Expr) :
  sqlite3ExprCompare (Some T) (Some T) = negb (has_subquery T).
Proof. apply cmpExpr_refl. Qed.

(** X10: the comparison is not symmetric in the token.  A node whose
    token has no text equals, for sqlite3ExprCompare, the node that
    differs from it by a token with text, while in the other direction
    the comparison fails. *)
Theorem sqlite3ExprCompare_token_asymmetry (T : Expr) (t : Token) :
  has_subquery T = false ->
  z (token T) = None ->
  z t <> None ->
  sqlite3ExprCompare (Some T) (Some (setToken T t)) = true /\
  sqlite3ExprCompare (Some (setToken T t)) (Some T) = false.
Proof.
  intros Hs Hz Ht. cbn [sqlite3ExprCompare].
  pose proof (cmpExpr_refl T) as Hrefl. rewrite Hs in Hrefl. cbn in Hrefl.
  rewrite cmpExpr_eq in Hrefl.
  split.
  - rewrite cmpExpr_eq. destruct T; cbn in *. rewrite Hz in *. exact Hrefl.
  - rewrite cmpExpr_eq. destruct T; cbn in *. rewrite Hz in *.
    destruct (z t) as [st|]; [|done].
    by repeat match goal with |- context [if ?b then _ else _] => destruct b; cbn end.
Qed.

End Compare.

(* --------------------------------------------------------------------- *)
(** ** lookupName when the name resolves                                   *)
(* --------------------------------------------------------------------- *)

Section Resolved.
Context {LL : @LibLaws L}.

Lemma find_col_first : forall (cols : list Column) (j0 : Z) (zCol : string)
    (k : nat) (c : Column),
  cols !! k = Some c ->
  sqlite3StrICmp (c_zName c) zCol = 0 ->
  (forall i c', (i < k)%nat -> cols !! i = Some c' ->
                sqlite3StrICmp (c_zName c') zCol <> 0) ->
  find_col cols j0 zCol = Some (j0 + Z.of_nat k, c).
Proof.
  induction cols as [|c0 cols IH]; intros j0 zCol k c Hk Hc Hbefore; [done|].
  cbn [find_col]. destruct k as [|k].
  - injection Hk as ->. rewrite Hc. cbn. do 2 f_equal. lia.
  - destruct (Z.eqb_spec (sqlite3StrICmp (c_zName c0) zCol) 0) as [He|Hne].
    + by destruct (Hbefore 0%nat c0 ltac:(lia) eq_refl).
    + rewrite (IH (j0 + 1) zCol k c Hk Hc).
      * do 2 f_equal. lia.
      * intros i c' Hi Hl. apply (Hbefore (S i) c'); [lia|done].
Qed.

Lemma find_col_none : forall (cols : list Column) (j0 : Z) (zCol : string),
  Forall (fun c => sqlite3StrICmp (c_zName c) zCol <> 0) cols ->
  find_col cols j0 zCol = None.
Proof.
  induction cols as [|c0 cols IH]; intros j0 zCol Hall; [done|].
  apply Forall_cons in Hall as [Hc Hall]. cbn [find_col].
  destruct (Z.eqb_spec (sqlite3StrICmp (c_zName c0) zCol) 0); [done|]. by apply IH.
Qed.

Lemma dequoted_none (h : heap) : dequoted None h = Some (None, h).
Proof. done. Qed.

Lemma dequoted_some (tok : Token) (s : Str) (h : heap) :
  z tok = Some s ->
  dequoted (Some tok) h =
    Some (Some (mkStr (alloc h) (sqlite3Dequote (substring 0 (n tok) (text s)))),
          {[alloc h]} ∪ h).
Proof. intros Hz. unfold dequoted. rewrite Hz. done. Qed.

(** The end of lookupName for a count of one. *)
Lemma lookupName_one (P : Parse) (pColumnToken : Token) (pSrcList : SrcList)
    (pEList_ : option ExprList) (pExpr_ : Expr) (h : heap)
    (zCol : string) (cntTab : Z) (e : Expr) :
  tokStr (Some pColumnToken) = Some zCol ->
  malloc_failed P = false ->
  xAuth P = false ->
  name_matches P None None zCol pSrcList pExpr_ = Some (1, cntTab, e) ->
  exists h',
    lookupName P None None pColumnToken pSrcList pEList_ pExpr_ h
      = Some ((0, P, set_op (set_children e None None) TK_COLUMN), h').
Proof.
  intros Hcol Hmf Hauth Hm. unfold lookupName.
  destruct (z pColumnToken) as [s|] eqn:Hz; [|by cbn in Hcol; rewrite Hz in Hcol].
  destruct (dequoted_run None h) as (rD & h1 & ED & TD).
  destruct (dequoted_run None h1) as (rT & h2 & ET & TT).
  destruct (dequoted_run (Some pColumnToken) h2) as (rC & h3 & EC & TC).
  unfold bind at 1. rewrite ED. cbv beta iota.
  unfold bind at 1. rewrite ET. cbv beta iota.
  unfold bind at 1. rewrite EC. cbv beta iota.
  rewrite Hmf, TD, TT, TC, Hcol. cbn [default tokStr]. change (id zCol) with zCol.
  rewrite Hm. cbn [Z.eqb Pos.eqb negb andb].
  unfold bind, ret, mfree, mdelete. cbv beta iota.
  rewrite authRead_off by done. eauto.
Qed.

(** X13: a bare column name over a single table.  When the column list of
    the table has, at index [k], its first column whose name equals the
    name under sqlite3StrICmp, lookupName returns 0 and reports nothing;
    the node becomes a TK_COLUMN node without operands, with the cursor
    and the database of the table, the sort order of the column, and
    column number [k], or -1, the rowid, when [k] is the table's INTEGER
    PRIMARY KEY. *)
Theorem lookupName_single_table (P : Parse) (pColumnToken : Token)
    (pSrcList : SrcList) (pItem : SrcList_item) (pTab_ : Table)
    (pEList_ : option ExprList) (pExpr_ : Expr) (h : heap)
    (zCol : string) (k : nat) (c : Column) :
  tokStr (Some pColumnToken) = Some zCol ->
  malloc_failed P = false ->
  xAuth P = false ->
  src_a pSrcList = [pItem] ->
  pTab pItem = Some pTab_ ->
  aCol pTab_ !! k = Some c ->
  sqlite3StrICmp (c_zName c) zCol = 0 ->
  (forall i c', (i < k)%nat -> aCol pTab_ !! i = Some c' ->
                sqlite3StrICmp (c_zName c') zCol <> 0) ->
  exists e' h',
    lookupName P None None pColumnToken pSrcList pEList_ pExpr_ h
      = Some ((0, P, e'), h') /\
    op e' = TK_COLUMN /\ pLeft e' = None /\ pRight e' = None /\
    iTable e' = iCursor pItem /\ iDb e' = Z.of_nat (t_iDb pTab_) /\
    iColumn e' = (if Z.of_nat k =? iPKey pTab_ then -1 else Z.of_nat k) /\
    dataType e' = Z.land (c_sortOrder c) SQLITE_SO_TYPEMASK /\
    token e' = token pExpr_.
Proof.
  intros Hcol Hmf Hauth Hsrc Htab Hk Hc Hfirst.
  pose proof (find_col_first (aCol pTab_) 0 zCol k c Hk Hc Hfirst) as Hf.
  rewrite Z.add_0_l in Hf.
  destruct (lookupName_one P pColumnToken pSrcList pEList_ pExpr_ h zCol 1
              (col_hit (set_table (set_table (set_iTable pExpr_ (-1)) (iCursor pItem)
                                     (Z.of_nat (t_iDb pTab_)))
                                  (iCursor pItem) (Z.of_nat (t_iDb pTab_)))
                       pTab_ (Z.of_nat k) c))
    as (h' & Hl); try done.
  { unfold name_matches. rewrite Hsrc. cbn [scan_src scan_item]. rewrite Htab.
    cbn [Z.eqb]. rewrite Hf. cbn [scan_trigger scan_rowid Z.add Z.eqb Pos.eqb andb].
    done. }
  eexists _, h'. split; [exact Hl|]. done.
Qed.

(** X14: a bare rowid name over a single table.  When no column of the
    table has the name and the name is _ROWID_, ROWID or OID under
    sqlite3StrICmp, lookupName returns 0 and reports nothing; the node
    becomes a TK_COLUMN node for column -1 of the table's cursor, of
    numeric type. *)
Theorem lookupName_rowid (P : Parse) (pColumnToken : Token)
    (pSrcList : SrcList) (pItem : SrcList_item) (pTab_ : Table)
    (pEList_ : option ExprList) (pExpr_ : Expr) (h : heap) (zCol : string) :
  tokStr (Some pColumnToken) = Some zCol ->
  malloc_failed P = false ->
  xAuth P = false ->
  src_a pSrcList = [pItem] ->
  pTab pItem = Some pTab_ ->
  Forall (fun c => sqlite3StrICmp (c_zName c) zCol <> 0) (aCol pTab_) ->
  sqlite3IsRowid zCol = true ->
  exists e' h',
    lookupName P None None pColumnToken pSrcList pEList_ pExpr_ h
      = Some ((0, P, e'), h') /\
    op e' = TK_COLUMN /\ pLeft e' = None /\ pRight e' = None /\
    iTable e' = iCursor pItem /\ iDb e' = Z.of_nat (t_iDb pTab_) /\
    iColumn e' = -1 /\ dataType e' = SQLITE_SO_NUM /\
    token e' = token pExpr_.
Proof.
  intros Hcol Hmf Hauth Hsrc Htab Hnone Hrow.
  pose proof (find_col_none (aCol pTab_) 0 zCol Hnone) as Hf.
  destruct (lookupName_one P pColumnToken pSrcList pEList_ pExpr_ h zCol 1
              (set_column (set_table (set_iTable pExpr_ (-1)) (iCursor pItem)
                                     (Z.of_nat (t_iDb pTab_)))
                          (-1) SQLITE_SO_NUM))
    as (h' & Hl); try done.
  { unfold name_matches. rewrite Hsrc. cbn [scan_src scan_item]. rewrite Htab.
    cbn [Z.eqb]. rewrite Hf.
    cbn [scan_trigger scan_rowid Z.add Z.eqb Pos.eqb andb]. by rewrite Hrow. }
  eexists _, h'. split; [exact Hl|]. done.
Qed.

(** The search changes the resolution fields of the node only. *)
Definition same_node (e e' : Expr) : Prop :=
  e_addr e' = e_addr e /\ op e' = op e /\ pLeft e' = pLeft e /\
  pRight e' = pRight e /\ pList e' = pList e /\ token e' = token e /\
  span e' = span e /\ iAgg e' = iAgg e /\ pSelect e' = pSelect e.

Lemma same_node_refl e : same_node e e.
Proof. done. Qed.

Lemma same_node_trans e1 e2 e3 : same_node e1 e2 -> same_node e2 e3 -> same_node e1 e3.
Proof. unfold same_node. intuition congruence. Qed.

Lemma scan_item_same P zDb zTab zCol cnt cntTab e it cnt' cntTab' e' :
  scan_item P zDb zTab zCol (cnt, cntTab, e) it = Some (cnt', cntTab', e') ->
  same_node e e'.
Proof.
  unfold scan_item. intros Hs.
  repeat (case_match; simplify_eq; try done); by unfold same_node.
Qed.

Lemma scan_src_same P zDb zTab zCol : forall items cnt cntTab e cnt' cntTab' e',
  scan_src P zDb zTab zCol (cnt, cntTab, e) items = Some (cnt', cntTab', e') ->
  same_node e e'.
Proof.
  induction items as [|it items IH]; intros cnt cntTab e cnt' cntTab' e'.
  - by intros [= <- <- <-].
  - cbn [scan_src].
    destruct (scan_item P zDb zTab zCol (cnt, cntTab, e) it) as [[[c1 t1] e1]|] eqn:Hi;
      [|done].
    intros Hs. eapply same_node_trans; [by eapply scan_item_same|by eapply IH].
Qed.

Lemma name_matches_same P zDb zTab zCol src e cnt cntTab e' :
  name_matches P zDb zTab zCol src e = Some (cnt, cntTab, e') -> same_node e e'.
Proof.
  unfold name_matches.
  destruct (scan_src P zDb zTab zCol (0, 0, set_iTable e (-1)) (src_a src))
    as [[[c1 t1] e1]|] eqn:Hs; [|done].
  apply scan_src_same in Hs.
  assert (H1 : same_node e e1) by (eapply same_node_trans; [|exact Hs]; done).
  intros Hr.
  assert (H2 : same_node e1 (scan_trigger P zDb zTab zCol (c1, t1, e1)).2).
  { unfold scan_trigger.
    destruct zDb; [done|]. destruct zTab as [zt|]; [|done].
    destruct (trigStack P) as [ts|]; [|done].
    destruct (negb (c1 =? 0)); [done|].
    destruct (negb (newIdx ts =? -1) && (sqlite3StrICmp "new" zt =? 0)).
    - destruct (ts_pTab ts) as [t|]; [|done].
      by destruct (find_col (aCol t) 0 zCol) as [[j c]|].
    - destruct (negb (oldIdx ts =? -1) && (sqlite3StrICmp "old" zt =? 0)); [|done].
      destruct (ts_pTab ts) as [t|]; [|done].
      by destruct (find_col (aCol t) 0 zCol) as [[j c]|]. }
  destruct (scan_trigger P zDb zTab zCol (c1, t1, e1)) as [[c2 t2] e2].
  cbn [snd] in H2. unfold scan_rowid in Hr.
  destruct ((c2 =? 0) && (t2 =? 1) && sqlite3IsRowid zCol); injection Hr as <- <- <-.
  - eapply same_node_trans; [exact H1|]. eapply same_node_trans; [exact H2|]. done.
  - eapply same_node_trans; [exact H1|exact H2].
Qed.

(** X15: a bare double-quoted name that matches no column and no alias
    of the result set is left as a string: lookupName returns 0, reports
    nothing, and leaves the op, the operands, the list and the token of
    the node as they were; the copy of the name it made is released, so
    that the set of allocated blocks is as before. *)
Theorem lookupName_quoted_string (P : Parse) (pColumnToken : Token)
    (pSrcList : SrcList) (pEList_ : option ExprList) (pExpr_ : Expr)
    (h : heap) (zCol : string) (cntTab : Z) (e : Expr) :
  tokStr (Some pColumnToken) = Some zCol ->
  malloc_failed P = false ->
  name_matches P None None zCol pSrcList pExpr_ = Some (0, cntTab, e) ->
  match pEList_ with
  | Some el => find_alias (a el) 0 zCol = None
  | None => True
  end ->
  starts_with_dquote pColumnToken = true ->
  lookupName P None None pColumnToken pSrcList pEList_ pExpr_ h
    = Some ((0, P, e), h) /\
  same_node pExpr_ e.
Proof.
  intros Hcol Hmf Hm Halias Hq. split; [|by eapply name_matches_same].
  unfold lookupName.
  destruct (z pColumnToken) as [s|] eqn:Hz; [|by cbn in Hcol; rewrite Hz in Hcol].
  unfold bind at 1. rewrite dequoted_none. cbv beta iota.
  unfold bind at 1. rewrite dequoted_none. cbv beta iota.
  unfold bind at 1. rewrite (dequoted_some _ s) by done. cbv beta iota.
  rewrite Hmf. cbn [fmap option_fmap option_map text default].
  cbn [tokStr] in Hcol. rewrite Hz in Hcol. injection Hcol as Hcol.
  change (id ?x) with x. rewrite Hcol, Hm. cbn [Z.eqb].
  assert (Ha : match pEList_ with
               | Some el => find_alias (a el) 0 zCol
               | None => None
               end = None) by (by destruct pEList_).
  rewrite Ha, Hq. rewrite bool_decide_eq_true_2 by done. cbn [andb].
  unfold bind, mfree, ret. cbn [fmap option_fmap option_map s_addr sqliteFree].
  do 2 f_equal. pose proof (alloc_fresh h). set_solver.
Qed.

(** X16: a bare name that matches no column but is an alias of the result
    set.  lookupName returns 0, reports nothing, and turns the node into a
    TK_AS node whose column number is the index of the first entry with
    that alias and whose left operand is a deep copy of that entry's
    expression: a tree of new blocks that sqlite3ExprCompare finds equal
    to the expression. *)
Theorem lookupName_alias (P : Parse) (pColumnToken : Token)
    (pSrcList : SrcList) (el : ExprList) (pExpr_ : Expr)
    (h : heap) (zCol : string) (cntTab : Z) (e : Expr)
    (j : Z) (it : ExprList_item) (x : Expr) :
  tokStr (Some pColumnToken) = Some zCol ->
  malloc_failed P = false ->
  name_matches P None None zCol pSrcList pExpr_ = Some (0, cntTab, e) ->
  find_alias (a el) 0 zCol = Some (j, it) ->
  pExpr it = Some x -> wf x ->
  exists e' x' h',
    lookupName P None None pColumnToken pSrcList (Some el) pExpr_ h
      = Some ((0, P, e'), h') /\
    op e' = TK_AS /\ iColumn e' = j /\ pLeft e' = Some x' /\
    sqlite3ExprCompare (Some x) (Some x') = true /\
    (forall y, y ∈ blocks x' -> y ∈ h' /\ y ∉ h) /\
    h ⊆ h'.
Proof.
  intros Hcol Hmf Hm Halias Hx Hwf.
  unfold lookupName.
  destruct (z pColumnToken) as [s|] eqn:Hz; [|by cbn in Hcol; rewrite Hz in Hcol].
  unfold bind at 1. rewrite dequoted_none. cbv beta iota.
  unfold bind at 1. rewrite dequoted_none. cbv beta iota.
  unfold bind at 1. rewrite (dequoted_some _ s) by done. cbv beta iota.
  rewrite Hmf. cbn [fmap option_fmap option_map text default].
  cbn [tokStr] in Hcol. rewrite Hz in Hcol. injection Hcol as Hcol.
  change (id ?x) with x. rewrite Hcol, Hm. cbn [Z.eqb]. rewrite Halias, Hx.
  set (h0 := {[alloc h]} ∪ h).
  destruct (proj1 dup_both x Hwf h0) as (x' & h1 & Hd & Hsub & (Hwf' & Hc & _) & Hb).
  unfold sqlite3ExprDup, optM. unfold bind at 1. unfold bind at 1.
  rewrite Hd. cbv beta iota. unfold bind, mfree, ret.
  cbn [fmap option_fmap option_map s_addr sqliteFree].
  eexists _, x', _. split; [reflexivity|]. cbn.
  split; [done|]. split; [done|]. split; [done|]. split; [done|].
  pose proof (alloc_fresh h) as Hfr. split.
  - intros y Hy. destruct (Hb y Hy) as [Hy1 Hy0]. subst h0. set_solver.
  - subst h0. set_solver.
Qed.

End Resolved.

(* --------------------------------------------------------------------- *)
(** ** A copy and its deletion                                             *)
(* --------------------------------------------------------------------- *)

Section NoLeak.
Context {LL : @LibLaws L}.

(** The text of the token, if any, is the token's to release. *)
Definition tokOwned (t : Token) : bool :=
  match z t with Some _ => dyn t | None => true end.

Definition ownedItems (f : Expr -> bool) : list ExprList_item -> bool :=
  fix go (its : list ExprList_item) : bool :=
    match its with
    | [] => true
    | it :: rest =>
        match pExpr it with Some e => f e | None => true end && go rest
    end.

(** Every text of the tree is released with the tree. *)
Fixpoint owned (p : Expr) : bool :=
  tokOwned (token p) && tokOwned (span p)
  && match pLeft p with Some l => owned l | None => true end
  && match pRight p with Some r => owned r | None => true end
  && match pList p with
     | Some li => ownedItems owned (a li)
     | None => true
     end.

Lemma owned_eq (p : Expr) :
  owned p =
  tokOwned (token p) && tokOwned (span p)
  && match pLeft p with Some l => owned l | None => true end
  && match pRight p with Some r => owned r | None => true end
  && match pList p with
     | Some li => ownedItems owned (a li)
     | None => true
     end.
Proof. by destruct p. Qed.

Lemma free_tok (t : Token) (h : heap) :
  tokOwned t = true ->
  (if dyn t then sqliteFree (s_addr <$> z t) h else h) = h ∖ strBlocks (z t).
Proof.
  unfold tokOwned. destruct (z t) as [s|]; cbn.
  - intros ->. done.
  - intros _. destruct (dyn t); set_solver.
Qed.

Lemma free_name (zs : option Str) (h : heap) :
  sqliteFree (s_addr <$> zs) h = h ∖ strBlocks zs.
Proof. destruct zs; cbn; set_solver. Qed.

(** Sets of blocks are compared with their members left abstract. *)
Ltac absets :=
  repeat match goal with
         | |- context [blocks ?x] => generalize (blocks x)
         | |- context [blocksItems ?f ?x] => generalize (blocksItems f x)
         | |- context [strBlocks ?x] => generalize (strBlocks x)
         | |- context [optBlocks ?x] => generalize (optBlocks x)
         end.

Ltac mrun H := cbv beta; unfold bind at 1; rewrite H; cbv beta iota.

Ltac sets :=
  absets; repeat match goal with H : _ |- _ => clear H end; intros; set_solver.

Lemma delete_exact :
  (forall e, wf e -> owned e = true ->
     forall h, deleteExpr e h = h ∖ blocks e) /\
  (forall its, wf_items its -> ownedItems owned its = true ->
     forall h, deleteItems deleteExpr its h = h ∖ blocksItems blocks its).
Proof.
  apply wf_both.
  - intros e Hsel _ IHl _ IHr _ _ IHli Hown h.
    rewrite deleteExpr_eq, blocks_eq. cbv zeta. rewrite Hsel, selectDelete_null.
    rewrite owned_eq in Hown.
    apply andb_true_iff in Hown as [Hown Holi].
    apply andb_true_iff in Hown as [Hown Hor].
    apply andb_true_iff in Hown as [Hown Hol].
    apply andb_true_iff in Hown as [Hot Hos].
    rewrite (free_tok (span e)) by done. rewrite (free_tok (token e)) by done.
    set (BL := match pLeft e with Some l => blocks l | None => ∅ end).
    set (BR := match pRight e with Some r => blocks r | None => ∅ end).
    set (BLi := match pList e with
                | Some li => {[l_addr li]} ∪ {[a_addr li]} ∪ blocksItems blocks (a li)
                | None => ∅
                end).
    assert (HL : forall g, match pLeft e with
                           | Some l => deleteExpr l g
                           | None => g
                           end = g ∖ BL).
    { intros g. subst BL. destruct (pLeft e) as [l|]; [by apply IHl|].
      by rewrite difference_empty_L. }
    assert (HR : forall g, match pRight e with
                           | Some r => deleteExpr r g
                           | None => g
                           end = g ∖ BR).
    { intros g. subst BR. destruct (pRight e) as [r|]; [by apply IHr|].
      by rewrite difference_empty_L. }
    assert (HLi : forall g,
              match pList e with
              | Some li =>
                  sqliteFree (Some (l_addr li))
                    (sqliteFree (Some (a_addr li)) (deleteItems deleteExpr (a li) g))
              | None => g
              end = g ∖ BLi).
    { intros g. subst BLi. destruct (pList e) as [li|]; [|by rewrite difference_empty_L].
      rewrite (IHli li eq_refl Holi). cbn [sqliteFree].
      sets. }
    rewrite HL, HR, HLi. cbn [sqliteFree].
    clear HL HR HLi. clearbody BL BR BLi. revert BL BR BLi.
    sets.
  - intros _ h. cbn. by rewrite difference_empty_L.
  - intros it rest e Hit _ IHe _ IHrest Hown h.
    cbn [deleteItems blocksItems ownedItems] in *. rewrite Hit in *.
    apply andb_true_iff in Hown as [Hoe Hor].
    rewrite (IHe Hoe), free_name. fold (deleteItems deleteExpr).
    rewrite (IHrest Hor). fold (blocksItems blocks).
    sets.
Qed.

Definition optOwned (o : option Expr) : bool :=
  match o with Some e => owned e | None => true end.

(** What a copy is made of: the blocks it adds are its own blocks, and
    every text in it is its to release. *)
Definition exact_copy (h : heap) (e' : Expr) (h' : heap) : Prop :=
  h' = h ∪ blocks e' /\ owned e' = true /\ z (span e') = None.

Definition exact_items (h : heap) (its' : list ExprList_item) (h' : heap) : Prop :=
  h' = h ∪ blocksItems blocks its' /\ ownedItems owned its' = true.

Lemma optM_exact (o : option Expr) (h : heap) :
  (forall x, o = Some x ->
     exists x' h', dupExpr x h = Some (x', h') /\ exact_copy h x' h') ->
  exists o' h',
    optM dupExpr o h = Some (o', h') /\
    h' = h ∪ optBlocks o' /\ optOwned o' = true.
Proof.
  destruct o as [x|]; intros Hx.
  - destruct (Hx x eq_refl) as (x' & h' & Hd & -> & Ho & _).
    exists (Some x'), (h ∪ blocks x'). cbn [optM]. unfold bind. rewrite Hd. done.
  - exists None, h. cbn. split; [done|]. split; [set_solver|done].
Qed.

Lemma blocks_setSpan (e : Expr) (sp : Token) :
  z (span e) = None -> blocks (setSpan e sp) = blocks e ∪ strBlocks (z sp).
Proof.
  intros Hz. rewrite !blocks_eq. cbn [setSpan e_addr token span pLeft pRight pList].
  rewrite Hz. cbn [strBlocks].
  generalize (match pLeft e with Some l => blocks l | None => ∅ end).
  generalize (match pRight e with Some r => blocks r | None => ∅ end).
  generalize (match pList e with
              | Some li => {[l_addr li]} ∪ {[a_addr li]} ∪ blocksItems blocks (a li)
              | None => ∅
              end).
  sets.
Qed.

Lemma owned_setSpan (e : Expr) (sp : Token) :
  owned e = true -> tokOwned sp = true -> owned (setSpan e sp) = true.
Proof.
  rewrite !owned_eq. cbn [setSpan token span pLeft pRight pList].
  intros Ho Hs.
  apply andb_true_iff in Ho as [Ho Holi].
  apply andb_true_iff in Ho as [Ho Hor].
  apply andb_true_iff in Ho as [Ho Hol].
  apply andb_true_iff in Ho as [Hot Hos].
  by rewrite Hot, Hs, Hol, Hor, Holi.
Qed.

Lemma dup_exact :
  (forall e, wf e ->
     forall h, exists e' h', dupExpr e h = Some (e', h') /\ exact_copy h e' h') /\
  (forall its, wf_items its ->
     forall h, exists its' h',
       dupItems dupExpr its h = Some (its', h') /\ exact_items h its' h').
Proof.
  apply wf_both.
  - intros e Hsel _ IHl _ IHr _ _ IHli h. rewrite dupExpr_eq.
    unfold bind at 1. unfold sqliteMalloc at 1. cbv beta zeta iota.
    set (x0 := alloc h). set (h0 := {[x0]} ∪ h).
    assert (Htok : exists tok h1,
      (match z (token e) with
       | Some _ => let* zs := sqliteStrDup (z (token e)) in
                   ret (mkToken zs true (n (token e)))
       | None => ret (token e)
       end) h0 = Some (tok, h1) /\ h1 = h0 ∪ strBlocks (z tok) /\ tokOwned tok = true).
    { destruct (z (token e)) as [s|] eqn:Hz.
      - eexists _, _. split; [reflexivity|]. cbn. split; [set_solver|done].
      - exists (token e), h0. split; [done|]. rewrite Hz. cbn.
        split; [set_solver|]. unfold tokOwned. by rewrite Hz. }
    destruct Htok as (tok & h1 & Htok & Hh1 & Hot).
    destruct (optM_exact (pLeft e) h1) as (l' & h2 & Hdl & Hh2 & Hol).
    { intros l Hl. by apply IHl. }
    destruct (optM_exact (pRight e) h2) as (r' & h3 & Hdr & Hh3 & Hor).
    { intros r Hr. by apply IHr. }
    assert (Hlist : exists li' h4,
      optM dupExprList (pList e) h3 = Some (li', h4) /\
      h4 = h3 ∪ match li' with
                | Some lb => {[l_addr lb]} ∪ {[a_addr lb]} ∪ blocksItems blocks (a lb)
                | None => ∅
                end /\
      match li' with Some lb => ownedItems owned (a lb) | None => true end = true).
    { destruct (pList e) as [la|] eqn:Hli.
      - cbn [optM]. rewrite dupExprList_eq. unfold bind at 1 2 3.
        unfold sqliteMalloc. cbv beta zeta iota.
        destruct (IHli la eq_refl ({[alloc ({[alloc h3]} ∪ h3)]} ∪ ({[alloc h3]} ∪ h3)))
          as (its' & g3 & Hd & -> & Hoi).
        unfold bind. rewrite Hd. eexists _, _. split; [reflexivity|].
        cbn [a l_addr a_addr]. split; [sets|done].
      - exists None, h3. split; [done|]. split; [by rewrite union_empty_r_L|done]. }
    destruct Hlist as (li' & h4 & Hdli & Hh4 & Holi).
    mrun Htok. mrun Hdl. mrun Hdr. mrun Hdli. rewrite Hsel. cbn [optM ret].
    unfold bind at 1. cbv beta iota.
    eexists _, h4. split; [reflexivity|]. split; [|split; [|done]].
    + rewrite blocks_eq. cbn [e_addr token span pLeft pRight pList z strBlocks].
      fold (optBlocks l'). fold (optBlocks r'). subst h0 h1 h2 h3 h4.
      destruct li' as [lb|]; sets.
    + rewrite owned_eq. cbn [token span pLeft pRight pList].
      fold (optOwned l'). fold (optOwned r'). rewrite Hot, Hol, Hor, Holi. done.
  - intros h. exists [], h. split; [done|]. split; [cbn; set_solver|done].
  - intros it rest e Hit _ IHe _ IHrest h. cbn [dupItems]. rewrite Hit.
    destruct (IHe h) as (e' & h1 & Hd & Hh1 & Ho & Hsp).
    assert (Hspan : exists sp h2,
      (match z (span e) with
       | Some _ => sqlite3TokenCopy (span e') (span e)
       | None => ret (span e')
       end) h1 = Some (sp, h2) /\ h2 = h1 ∪ strBlocks (z sp) /\ tokOwned sp = true).
    { destruct (z (span e)) as [s|] eqn:Hz.
      - unfold sqlite3TokenCopy. rewrite Hsp, Hz.
        replace (if dyn (span e') then sqliteFree (s_addr <$> None) h1 else h1)
          with h1 by (by destruct (dyn (span e'))).
        eexists _, _. split; [reflexivity|]. cbn. split; [set_solver|done].
      - exists (span e'), h1. split; [done|]. rewrite Hsp. cbn.
        split; [set_solver|]. unfold tokOwned. by rewrite Hsp. }
    destruct Hspan as (sp & h2 & Hcp & Hh2 & Hos).
    assert (Hnm : exists nm,
      sqliteStrDup (zName it) h2 = Some (nm, h2 ∪ strBlocks nm)).
    { destruct (zName it) as [s|].
      - eexists. cbn. unfold bind, sqliteMalloc, ret. cbn.
        do 2 f_equal. set_solver.
      - exists None. cbn. unfold ret. do 2 f_equal. set_solver. }
    destruct Hnm as (nm & Hnm).
    destruct (IHrest (h2 ∪ strBlocks nm)) as (rest' & h4 & Hdr & Hh4 & Hor).
    mrun Hd. mrun Hcp. mrun Hnm. fold (dupItems dupExpr). mrun Hdr.
    eexists _, h4. split; [reflexivity|]. split.
    + cbn [blocksItems pExpr zName]. fold (blocksItems blocks).
      rewrite (blocks_setSpan e' sp Hsp). subst h1 h2 h4. sets.
    + cbn [ownedItems pExpr]. fold (ownedItems owned).
      rewrite (owned_setSpan e' sp Ho Hos). done.
Qed.

(** X17: a deep copy and its deletion cancel.  For a tree without
    subqueries (lists non-empty, every entry with an expression),
    sqlite3ExprDup builds the copy out of blocks that were not allocated
    before and leaves every block allocated before in place; then
    sqlite3ExprDelete of the copy releases exactly the blocks of the copy:
    the set of allocated blocks is again what it was before the copy. *)
Theorem dup_then_delete_restores_heap (T : Expr) (h : heap) :
  wf T ->
  exists T' h',
    sqlite3ExprDup (Some T) h = Some (Some T', h') /\
    h' = h ∪ blocks T' /\
    (forall y, y ∈ blocks T' -> y ∉ h) /\
    sqlite3ExprDelete (Some T') h' = h.
Proof.
  intros Hwf.
  destruct (proj1 dup_exact T Hwf h) as (T' & h' & Hd & Hh & Ho & _).
  destruct (proj1 dup_both T Hwf h) as (T2 & h2 & Hd2 & _ & (Hwf' & _) & Hfresh).
  rewrite Hd in Hd2. injection Hd2 as <- <-.
  exists T', h'. cbn [sqlite3ExprDup optM]. unfold bind. rewrite Hd.
  split; [done|]. split; [done|]. split; [intros y Hy; by apply Hfresh|].
  cbn [sqlite3ExprDelete]. rewrite (proj1 delete_exact T' Hwf' Ho h'), Hh.
  assert (Hdis : forall y, y ∈ blocks T' -> y ∉ h) by (intros y Hy; by apply Hfresh).
  revert Hdis. sets.
Qed.

End NoLeak.

(* --------------------------------------------------------------------- *)
(** ** sqlite3ExprAnalyzeAggregates                                        *)
(* --------------------------------------------------------------------- *)

Section Aggregates.
Context {LL : @LibLaws L}.

(** The routine works on [pParse->aAgg], a list here, [pParse->nAgg] its
    length, and marks the nodes of the expression with the index of
    their entry in [iAgg].  An entry points to the node it was made for,
    which is marked just afterwards: the entry holds the marked node.
    The routine does not go below a node it has made an entry for, and
    what it reads of an entry later (the table and the column, or what
    sqlite3ExprCompare compares) it does not write. *)

Record AggExpr := mkAggExpr {
  ae_isAgg : bool;
  ae_pExpr : option Expr;
  ae_pFunc : option FuncDef
}.

(** [reallocOk amt]: sqliteRealloc of [aAgg] to [amt] entries succeeds. *)
Variable reallocOk : Z -> bool.

(** The parse context, for the function table. *)
Variable P : Parse.

Definition set_iAgg (e : Expr) (i : Z) : Expr :=
  mkExpr (e_addr e) (op e) (dataType e) (iDb e) (pLeft e) (pRight e) (pList e)
    (token e) (span e) (iTable e) (iColumn e) i (pSelect e).

Definition set_pExpr (it : ExprList_item) (x : option Expr) : ExprList_item :=
  mkItem x (zName it) (sortOrder it) (isAgg it) (done it).

Definition set_a (el : ExprList) (its : list ExprList_item) : ExprList :=
  mkExprList (l_addr el) (a_addr el) (nAlloc el) its.

Definition set_operands (e : Expr) (l r : option Expr) (li : option ExprList) : Expr :=
  mkExpr (e_addr e) (op e) (dataType e) (iDb e) l r li
    (token e) (span e) (iTable e) (iColumn e) (iAgg e) (pSelect e).

(** appendAggInfo: the index of the new, zeroed entry, or -1. *)
Definition appendAggInfo (aAgg : list AggExpr) : Z * list AggExpr :=
  let nAgg := Z.of_nat (length aAgg) in
  if (Z.land nAgg 7 =? 0) && negb (reallocOk (nAgg + 8))
  then (-1, aAgg)
  else (nAgg, aAgg ++ [mkAggExpr false None None]).

(** The loops over [aAgg]: the index at which the loop stops on an entry
    that [same] accepts, or [nAgg]; [None] when an entry without
    expression is read. *)
Fixpoint agg_find (same : AggExpr -> option bool) (aAgg : list AggExpr) (i : Z)
    : option Z :=
  match aAgg with
  | [] => Some i
  | ag :: rest =>
      match same ag with
      | None => None
      | Some true => Some i
      | Some false => agg_find same rest (i + 1)
      end
  end.

Definition same_column (pExpr_ : Expr) (ag : AggExpr) : option bool :=
  if ae_isAgg ag then Some false
  else match ae_pExpr ag with
       | None => None
       | Some x => Some ((iTable x =? iTable pExpr_) && (iColumn x =? iColumn pExpr_))
       end.

Definition same_func (pExpr_ : Expr) (ag : AggExpr) : option bool :=
  if negb (ae_isAgg ag) then Some false
  else Some (sqlite3ExprCompare (ae_pExpr ag) (Some pExpr_)).

Definition optA (f : Expr -> list AggExpr -> option (Z * list AggExpr * Expr))
    (o : option Expr) (aAgg : list AggExpr)
    : option (Z * list AggExpr * option Expr) :=
  match o with
  | None => Some (0, aAgg, None)
  | Some x =>
      match f x aAgg with
      | Some (nErr_, aAgg', x') => Some (nErr_, aAgg', Some x')
      | None => None
      end
  end.

(** The loop over the entries of the list, which stops at the first
    error. *)
Definition aggItems (f : Expr -> list AggExpr -> option (Z * list AggExpr * Expr))
    : list ExprList_item -> list AggExpr
      -> option (Z * list AggExpr * list ExprList_item) :=
  fix go (its : list ExprList_item) (aAgg : list AggExpr) :=
    match its with
    | [] => Some (0, aAgg, [])
    | it :: rest =>
        match optA f (pExpr it) aAgg with
        | None => None
        | Some (nErr_, aAgg1, x') =>
            if nErr_ =? 0 then
              match go rest aAgg1 with
              | Some (nErr2, aAgg2, rest') =>
                  Some (nErr2, aAgg2, set_pExpr it x' :: rest')
              | None => None
              end
            else Some (nErr_, aAgg1, set_pExpr it x' :: rest)
        end
    end.

(** Returns the number of errors, [aAgg] and the expression as marked;
    [None] where a NULL pointer is followed: the expression of an entry
    made for a column, or the text of the name that sqlite3FindFunction
    looks up. *)
Fixpoint analyzeAggregates (e : Expr) (aAgg : list AggExpr)
    : option (Z * list AggExpr * Expr) :=
  let nAgg := Z.of_nat (length aAgg) in
  match op e with
  | TK_COLUMN =>
      match agg_find (same_column e) aAgg 0 with
      | None => None
      | Some i =>
          if i >=? nAgg then
            let '(j, aAgg1) := appendAggInfo aAgg in
            if j <? 0 then Some (1, aAgg1, e)
            else Some (0, <[Z.to_nat j := mkAggExpr false (Some (set_iAgg e j)) None]> aAgg1,
                       set_iAgg e j)
          else Some (0, aAgg, set_iAgg e i)
      end
  | TK_AGG_FUNCTION =>
      match agg_find (same_func e) aAgg 0 with
      | None => None
      | Some i =>
          if i >=? nAgg then
            let '(j, aAgg1) := appendAggInfo aAgg in
            if j <? 0 then Some (1, aAgg1, e)
            else
              match z (token e) with
              | None => None
              | Some s =>
                  let pFunc_ :=
                    sqlite3FindFunction P (text s) (n (token e))
                      (match pList e with
                       | Some el => Z.of_nat (length (a el))
                       | None => 0
                       end) in
                  Some (0, <[Z.to_nat j := mkAggExpr true (Some (set_iAgg e j)) pFunc_]> aAgg1,
                        set_iAgg e j)
              end
          else Some (0, aAgg, set_iAgg e i)
      end
  | _ =>
      match optA analyzeAggregates (pLeft e) aAgg with
      | None => None
      | Some (nErr1, aAgg1, l') =>
          match (if nErr1 =? 0 then optA analyzeAggregates (pRight e) aAgg1
                 else Some (nErr1, aAgg1, pRight e)) with
          | None => None
          | Some (nErr2, aAgg2, r') =>
              match (if nErr2 =? 0 then
                       match pList e with
                       | Some el =>
                           match aggItems analyzeAggregates (a el) aAgg2 with
                           | Some (nErr3, aAgg3, its') =>
                               Some (nErr3, aAgg3, Some (set_a el its'))
                           | None => None
                           end
                       | None => Some (nErr2, aAgg2, None)
                       end
                     else Some (nErr2, aAgg2, pList e)) with
              | None => None
              | Some (nErr3, aAgg3, li') =>
                  Some (nErr3, aAgg3, set_operands e l' r' li')
              end
          end
      end
  end.

Definition sqlite3ExprAnalyzeAggregates (pExpr_ : option Expr) (aAgg : list AggExpr)
    : option (Z * list AggExpr * option Expr) :=
  optA analyzeAggregates pExpr_ aAgg.

Definition stops (t : tk) : bool :=
  match t with
  | TK_COLUMN | TK_AGG_FUNCTION => true
  | _ => false
  end.

Lemma analyze_column (e : Expr) (aAgg : list AggExpr) :
  op e = TK_COLUMN ->
  analyzeAggregates e aAgg =
      match agg_find (same_column e) aAgg 0 with
      | None => None
      | Some i =>
          if i >=? Z.of_nat (length aAgg) then
            let '(j, aAgg1) := appendAggInfo aAgg in
            if j <? 0 then Some (1, aAgg1, e)
            else Some (0, <[Z.to_nat j := mkAggExpr false (Some (set_iAgg e j)) None]> aAgg1,
                       set_iAgg e j)
          else Some (0, aAgg, set_iAgg e i)
      end.
Proof. intros H. destruct e. cbn in H. subst. reflexivity. Qed.

Lemma analyze_func (e : Expr) (aAgg : list AggExpr) :
  op e = TK_AGG_FUNCTION ->
  analyzeAggregates e aAgg =
      match agg_find (same_func e) aAgg 0 with
      | None => None
      | Some i =>
          if i >=? Z.of_nat (length aAgg) then
            let '(j, aAgg1) := appendAggInfo aAgg in
            if j <? 0 then Some (1, aAgg1, e)
            else
              match z (token e) with
              | None => None
              | Some s =>
                  let pFunc_ :=
                    sqlite3FindFunction P (text s) (n (token e))
                      (match pList e with
                       | Some el => Z.of_nat (length (a el))
                       | None => 0
                       end) in
                  Some (0, <[Z.to_nat j := mkAggExpr true (Some (set_iAgg e j)) pFunc_]> aAgg1,
                        set_iAgg e j)
              end
          else Some (0, aAgg, set_iAgg e i)
      end.
Proof. intros H. destruct e. cbn in H. subst. reflexivity. Qed.

Lemma analyze_default (e : Expr) (aAgg : list AggExpr) :
  stops (op e) = false ->
  analyzeAggregates e aAgg =
      match optA analyzeAggregates (pLeft e) aAgg with
      | None => None
      | Some (nErr1, aAgg1, l') =>
          match (if nErr1 =? 0 then optA analyzeAggregates (pRight e) aAgg1
                 else Some (nErr1, aAgg1, pRight e)) with
          | None => None
          | Some (nErr2, aAgg2, r') =>
              match (if nErr2 =? 0 then
                       match pList e with
                       | Some el =>
                           match aggItems analyzeAggregates (a el) aAgg2 with
                           | Some (nErr3, aAgg3, its') =>
                               Some (nErr3, aAgg3, Some (set_a el its'))
                           | None => None
                           end
                       | None => Some (nErr2, aAgg2, None)
                       end
                     else Some (nErr2, aAgg2, pList e)) with
              | None => None
              | Some (nErr3, aAgg3, li') =>
                  Some (nErr3, aAgg3, set_operands e l' r' li')
              end
          end
      end.
Proof. intros H. destruct e as [? o ? ? ? ? ? ? ? ? ? ? ?]. destruct o; try discriminate H; reflexivity. Qed.

(** The key of an entry made for a column. *)
Definition agg_key (ag : AggExpr) : option (Z * Z) :=
  if ae_isAgg ag then None
  else (fun x => (iTable x, iColumn x)) <$> ae_pExpr ag.

Definition col_keys (A : list AggExpr) : list (Z * Z) := omap agg_key A.

(** Every entry made for a column has its expression. *)
Definition agg_wf (A : list AggExpr) : Prop :=
  Forall (fun ag => ae_isAgg ag = false -> is_Some (ae_pExpr ag)) A.

(** The nodes the routine visits: it does not go below a column or an
    aggregate function. *)
Inductive walked : Expr -> Expr -> Prop :=
  | walked_here e : walked e e
  | walked_left q e l :
      stops (op e) = false -> pLeft e = Some l -> walked q l -> walked q e
  | walked_right q e r :
      stops (op e) = false -> pRight e = Some r -> walked q r -> walked q e
  | walked_item q e el it x :
      stops (op e) = false -> pList e = Some el -> it ∈ a el ->
      pExpr it = Some x -> walked q x -> walked q e.

(** Does [c] hold of every node visited? *)
Definition allItems (f : Expr -> bool) : list ExprList_item -> bool :=
  fix go (its : list ExprList_item) :=
    match its with
    | [] => true
    | it :: rest =>
        match pExpr it with Some x => f x | None => true end && go rest
    end.

Fixpoint visited_all (c : Expr -> bool) (e : Expr) : bool :=
  c e
  && (stops (op e)
      || (match pLeft e with Some l => visited_all c l | None => true end
          && match pRight e with Some r => visited_all c r | None => true end
          && match pList e with
             | Some el => allItems (visited_all c) (a el)
             | None => true
             end)).

Lemma visited_all_eq (c : Expr -> bool) (e : Expr) :
  visited_all c e =
  c e
  && (stops (op e)
      || (match pLeft e with Some l => visited_all c l | None => true end
          && match pRight e with Some r => visited_all c r | None => true end
          && match pList e with
             | Some el => allItems (visited_all c) (a el)
             | None => true
             end)).
Proof. by destruct e. Qed.

Lemma allItems_spec (f : Expr -> bool) (its : list ExprList_item) :
  allItems f its = true ->
  forall it x, it ∈ its -> pExpr it = Some x -> f x = true.
Proof.
  induction its as [|it0 rest IH]; intros Hall it x Hin Hx.
  - by apply elem_of_nil in Hin.
  - cbn [allItems] in Hall. apply andb_true_iff in Hall as [H0 Hrest].
    apply elem_of_cons in Hin as [->|Hin]; [by rewrite Hx in H0|].
    by apply (IH Hrest it x).
Qed.

Lemma visited_all_spec (c : Expr -> bool) (e q : Expr) :
  walked q e -> visited_all c e = true -> c q = true.
Proof.
  induction 1 as [e|q e l Hs Hl _ IH|q e r Hs Hr _ IH|q e el it x Hs Hel Hin Hx _ IH];
    rewrite visited_all_eq; intros Hv;
    apply andb_true_iff in Hv as [Hc Hv]; [done|..];
    rewrite Hs in Hv; cbn [orb] in Hv;
    apply andb_true_iff in Hv as [Hv Hli];
    apply andb_true_iff in Hv as [Hvl Hvr].
  - rewrite Hl in Hvl. by apply IH.
  - rewrite Hr in Hvr. by apply IH.
  - rewrite Hel in Hli. apply IH. by apply (allItems_spec _ _ Hli it x).
Qed.

(** The aggregate functions visited have a name. *)
Definition named (e : Expr) : Prop :=
  forall q, walked q e -> op q = TK_AGG_FUNCTION -> z (token q) <> None.

(** The node is marked with the index of an entry for its column. *)
Definition col_entry (A : list AggExpr) (q : Expr) : Prop :=
  0 <= iAgg q /\
  exists ag x,
    A !! Z.to_nat (iAgg q) = Some ag /\ ae_isAgg ag = false /\
    ae_pExpr ag = Some x /\ iTable x = iTable q /\ iColumn x = iColumn q.

(** The node is marked with the index of an entry for an aggregate
    function: the entry made for it, or one that sqlite3ExprCompare finds
    equal to it. *)
Definition func_entry (A : list AggExpr) (q : Expr) : Prop :=
  0 <= iAgg q /\
  exists ag,
    A !! Z.to_nat (iAgg q) = Some ag /\ ae_isAgg ag = true /\
    (ae_pExpr ag = Some q \/ sqlite3ExprCompare (ae_pExpr ag) (Some q) = true).

Definition resolved (A : list AggExpr) (e : Expr) : Prop :=
  forall q, walked q e ->
    (op q = TK_COLUMN -> col_entry A q) /\
    (op q = TK_AGG_FUNCTION -> func_entry A q).

Definition resolvedO (A : list AggExpr) (o : option Expr) : Prop :=
  forall x, o = Some x -> resolved A x.

Record post (A : list AggExpr) (nErr_ : Z) (A' : list AggExpr) : Prop := mkPost {
  post_ext : exists new, A' = A ++ new;
  post_wf : agg_wf A -> agg_wf A';
  post_nodup : agg_wf A -> NoDup (col_keys A) -> NoDup (col_keys A');
  post_n : nErr_ = 0 \/ nErr_ = 1;
  post_ok : (forall amt, reallocOk amt = true) -> nErr_ = 0
}.

Lemma post_refl (A : list AggExpr) : post A 0 A.
Proof. split; try done; [exists []; by rewrite app_nil_r|by left]. Qed.

Lemma post_trans (A A1 A2 : list AggExpr) (n1 n2 : Z) :
  post A n1 A1 -> post A1 n2 A2 -> post A n2 A2.
Proof.
  intros [[new1 ->] W1 D1 N1 O1] [[new2 ->] W2 D2 N2 O2]. split.
  - exists (new1 ++ new2). by rewrite app_assoc.
  - auto.
  - auto.
  - done.
  - done.
Qed.

Lemma col_entry_app (A new : list AggExpr) (q : Expr) :
  col_entry A q -> col_entry (A ++ new) q.
Proof.
  intros (H0 & ag & x & Hl & H). split; [done|]. exists ag, x.
  split; [|done]. by apply lookup_app_l_Some.
Qed.

Lemma func_entry_app (A new : list AggExpr) (q : Expr) :
  func_entry A q -> func_entry (A ++ new) q.
Proof.
  intros (H0 & ag & Hl & H). split; [done|]. exists ag.
  split; [|done]. by apply lookup_app_l_Some.
Qed.

Lemma resolved_app (A new : list AggExpr) (e : Expr) :
  resolved A e -> resolved (A ++ new) e.
Proof.
  intros H q Hq. destruct (H q Hq) as [Hc Hf].
  split; intros Ho; [apply col_entry_app|apply func_entry_app]; auto.
Qed.

Lemma resolvedO_post (A A' : list AggExpr) (n' : Z) (o : option Expr) :
  post A n' A' -> resolvedO A o -> resolvedO A' o.
Proof.
  intros [[new ->] _ _ _ _] H x Hx. apply resolved_app. by apply H.
Qed.

(** Where the loop over [aAgg] stops. *)
Lemma agg_find_spec (same : AggExpr -> option bool) :
  forall (A : list AggExpr) (i k : Z),
    agg_find same A i = Some k ->
    (k = i + Z.of_nat (length A) /\ Forall (fun ag => same ag = Some false) A) \/
    (exists j ag, k = i + Z.of_nat j /\ A !! j = Some ag /\ same ag = Some true /\
                  (j < length A)%nat).
Proof.
  induction A as [|ag A IH]; intros i k Hf; cbn [agg_find] in Hf.
  - left. injection Hf as <-. split; [simpl; lia|done].
  - destruct (same ag) as [[|]|] eqn:Es; try discriminate.
    + injection Hf as <-. right. exists 0%nat, ag. simpl. repeat split; try done; lia.
    + destruct (IH _ _ Hf) as [[-> Hall]|(j & ag' & -> & Hl & Hs & Hj)].
      * left. split; [simpl; lia|by constructor].
      * right. exists (S j), ag'. simpl. repeat split; try done; lia.
Qed.

Lemma agg_find_total (same : AggExpr -> option bool) :
  forall (A : list AggExpr) (i : Z),
    Forall (fun ag => same ag <> None) A -> exists k, agg_find same A i = Some k.
Proof.
  induction A as [|ag A IH]; intros i Hall; cbn [agg_find]; [by eexists|].
  apply Forall_cons in Hall as [Hag Hall].
  destruct (same ag) as [[|]|]; [by eexists|by apply IH|done].
Qed.

Lemma same_column_total (e : Expr) (A : list AggExpr) :
  agg_wf A -> Forall (fun ag => same_column e ag <> None) A.
Proof.
  intros Hwf. eapply Forall_impl; [exact Hwf|]. intros ag Hag.
  cbn beta in Hag. unfold same_column. destruct (ae_isAgg ag); [done|].
  destruct (Hag eq_refl) as [x ->]. done.
Qed.

Lemma same_func_total (e : Expr) (A : list AggExpr) :
  Forall (fun ag => same_func e ag <> None) A.
Proof.
  apply Forall_forall. intros ag _. unfold same_func. by destruct (ae_isAgg ag).
Qed.

Lemma col_keys_app (A B : list AggExpr) :
  col_keys (A ++ B) = col_keys A ++ col_keys B.
Proof. unfold col_keys. apply omap_app. Qed.

(** A column that no entry accepts has a key of its own. *)
Lemma fresh_key (e : Expr) (A : list AggExpr) :
  Forall (fun ag => same_column e ag = Some false) A ->
  (iTable e, iColumn e) ∉ col_keys A.
Proof.
  intros Hall Hin. unfold col_keys in Hin.
  apply list_elem_of_omap in Hin as (ag & Hag & Hk).
  rewrite Forall_forall in Hall. specialize (Hall ag Hag).
  unfold same_column, agg_key in *.
  destruct (ae_isAgg ag); [done|].
  destruct (ae_pExpr ag) as [x|]; [|done].
  cbn in Hk. injection Hk as Ht Hc. injection Hall as Hb.
  rewrite Ht, Hc, !Z.eqb_refl in Hb. done.
Qed.

Lemma append_entry (A : list AggExpr) (ag0 ag : AggExpr) :
  <[Z.to_nat (Z.of_nat (length A)) := ag]> (A ++ [ag0]) = A ++ [ag].
Proof.
  rewrite Nat2Z.id, insert_app_r_alt by lia. by rewrite Nat.sub_diag.
Qed.

Lemma appendAggInfo_spec (A : list AggExpr) :
  (appendAggInfo A = (-1, A) /\ exists amt, reallocOk amt = false) \/
  appendAggInfo A = (Z.of_nat (length A), A ++ [mkAggExpr false None None]).
Proof.
  unfold appendAggInfo.
  destruct (Z.land (Z.of_nat (length A)) 7 =? 0); cbn [andb]; [|by right].
  destruct (reallocOk (Z.of_nat (length A) + 8)) eqn:E; cbn [negb]; [by right|].
  left. split; [done|]. by eexists.
Qed.

Lemma compare_set_iAgg (o : option Expr) (e : Expr) (i : Z) :
  sqlite3ExprCompare o (Some (set_iAgg e i)) = sqlite3ExprCompare o (Some e).
Proof.
  destruct o as [x|]; [|done]. cbn [sqlite3ExprCompare].
  by rewrite (cmpExpr_eq x (set_iAgg e i)), (cmpExpr_eq x e).
Qed.

Lemma walked_stop (q e : Expr) : stops (op e) = true -> walked q e -> q = e.
Proof. intros Hs Hw. inversion Hw; subst; congruence. Qed.

(** What a call establishes. *)
Definition analyze_ok (e : Expr) : Prop :=
  forall A, agg_wf A -> named e ->
    exists nErr_ A' e',
      analyzeAggregates e A = Some (nErr_, A', e') /\
      post A nErr_ A' /\ (nErr_ = 0 -> resolved A' e').

Lemma analyze_column_ok (e : Expr) : op e = TK_COLUMN -> analyze_ok e.
Proof.
  intros Hop A Hwf _. rewrite analyze_column by done.
  destruct (agg_find_total (same_column e) A 0 (same_column_total e A Hwf)) as [k Hk].
  rewrite Hk.
  assert (Hst : stops (op e) = true) by (by rewrite Hop).
  destruct (agg_find_spec _ _ _ _ Hk) as [[-> Hall]|(j & ag & -> & Hl & Hs & Hj)].
  - replace (0 + Z.of_nat (length A) >=? Z.of_nat (length A)) with true by lia.
    destruct (appendAggInfo_spec A) as [[-> [amt Hamt]]| ->].
    + cbn [Z.ltb Z.compare]. eexists _, _, _. split; [reflexivity|]. split; [|done].
      split; try done.
      * exists []. by rewrite app_nil_r.
      * by right.
      * intros Hok. rewrite Hok in Hamt. done.
    + rewrite (proj2 (Z.ltb_ge (Z.of_nat (length A)) 0)) by lia.
      cbv zeta. rewrite append_entry.
      eexists _, _, _. split; [reflexivity|]. split.
      * split.
        -- by eexists.
        -- intros _. apply Forall_app. split; [done|]. constructor; [|done].
           intros _. by eexists.
        -- intros _ Hnd. rewrite col_keys_app. apply NoDup_app. split; [done|].
           split.
           ++ intros k Hk1 Hk2. cbn in Hk2. apply list_elem_of_singleton in Hk2.
              subst k. by apply (fresh_key e A).
           ++ cbn. apply NoDup_singleton.
        -- by left.
        -- done.
      * intros _ q Hq. apply walked_stop in Hq; [|done]. subst q.
        split; [|cbn; rewrite Hop; done].
        intros _. split; [cbn; lia|].
        eexists _, _. cbn [set_iAgg iAgg]. rewrite Nat2Z.id.
        rewrite lookup_app_r by lia. rewrite Nat.sub_diag. cbn.
        repeat split; done.
  - replace (0 + Z.of_nat j >=? Z.of_nat (length A)) with false by lia.
    eexists _, _, _. split; [reflexivity|]. split; [apply post_refl|].
    intros _ q Hq. apply walked_stop in Hq; [|done]. subst q.
    split; [|cbn; rewrite Hop; done].
    intros _. unfold same_column in Hs.
    destruct (ae_isAgg ag) eqn:Ea; [done|].
    destruct (ae_pExpr ag) as [x|] eqn:Ex; [|done].
    injection Hs as Hs. apply andb_true_iff in Hs as [H1 H2].
    split; [cbn; lia|]. exists ag, x. cbn [set_iAgg iAgg iTable iColumn].
    replace (Z.to_nat (0 + Z.of_nat j)) with j by lia.
    repeat split; try done; lia.
Qed.

Lemma col_keys_func (ag : AggExpr) : ae_isAgg ag = true -> col_keys [ag] = [].
Proof. intros H. unfold col_keys, agg_key. cbn. by rewrite H. Qed.

Lemma analyze_func_ok (e : Expr) : op e = TK_AGG_FUNCTION -> analyze_ok e.
Proof.
  intros Hop A Hwf Hnamed. rewrite analyze_func by done.
  destruct (agg_find_total (same_func e) A 0 (same_func_total e A)) as [k Hk].
  rewrite Hk.
  assert (Hst : stops (op e) = true) by (by rewrite Hop).
  destruct (z (token e)) as [s|] eqn:Hz; [|by destruct (Hnamed e (walked_here e) Hop)].
  destruct (agg_find_spec _ _ _ _ Hk) as [[-> Hall]|(j & ag & -> & Hl & Hs & Hj)].
  - replace (0 + Z.of_nat (length A) >=? Z.of_nat (length A)) with true by lia.
    destruct (appendAggInfo_spec A) as [[-> [amt Hamt]]| ->].
    + cbn [Z.ltb Z.compare]. eexists _, _, _. split; [reflexivity|]. split; [|done].
      split; try done.
      * exists []. by rewrite app_nil_r.
      * by right.
      * intros Hok. rewrite Hok in Hamt. done.
    + rewrite (proj2 (Z.ltb_ge (Z.of_nat (length A)) 0)) by lia.
      cbv zeta. rewrite append_entry.
      eexists _, _, _. split; [reflexivity|]. split.
      * split.
        -- by eexists.
        -- intros _. apply Forall_app. split; [done|]. constructor; [|done].
           intros _. by eexists.
        -- intros _ Hnd. rewrite col_keys_app, col_keys_func by done.
           by rewrite app_nil_r.
        -- by left.
        -- done.
      * intros _ q Hq. apply walked_stop in Hq; [|done]. subst q.
        split; [cbn; rewrite Hop; done|].
        intros _. split; [cbn; lia|].
        eexists. cbn [set_iAgg iAgg]. rewrite Nat2Z.id.
        rewrite lookup_app_r by lia. rewrite Nat.sub_diag. cbn.
        split; [done|]. split; [done|]. by left.
  - replace (0 + Z.of_nat j >=? Z.of_nat (length A)) with false by lia.
    eexists _, _, _. split; [reflexivity|]. split; [apply post_refl|].
    intros _ q Hq. apply walked_stop in Hq; [|done]. subst q.
    split; [cbn; rewrite Hop; done|].
    intros _. unfold same_func in Hs.
    destruct (ae_isAgg ag) eqn:Ea; [|done]. cbn [negb] in Hs.
    injection Hs as Hs.
    split; [cbn; lia|]. exists ag. cbn [set_iAgg iAgg].
    replace (Z.to_nat (0 + Z.of_nat j)) with j by lia.
    split; [done|]. split; [done|]. right.
    by rewrite compare_set_iAgg.
Qed.

Lemma optA_ok (o : option Expr) :
  (forall x, o = Some x -> analyze_ok x) ->
  forall A, agg_wf A -> (forall x, o = Some x -> named x) ->
    exists nErr_ A' o',
      optA analyzeAggregates o A = Some (nErr_, A', o') /\
      post A nErr_ A' /\ (nErr_ = 0 -> resolvedO A' o').
Proof.
  intros IH A Hwf Hn. destruct o as [x|]; cbn [optA].
  - destruct (IH x eq_refl A Hwf (Hn x eq_refl)) as (n1 & A1 & x' & -> & Hp & Hr).
    eexists _, _, _. split; [reflexivity|]. split; [done|].
    intros H0 y [= <-]. by apply Hr.
  - eexists _, _, _. split; [reflexivity|]. split; [apply post_refl|].
    intros _ y Hy. done.
Qed.

Lemma aggItems_ok (its : list ExprList_item) :
  Forall (fun it => forall x, pExpr it = Some x -> analyze_ok x) its ->
  forall A, agg_wf A ->
    (forall it x, it ∈ its -> pExpr it = Some x -> named x) ->
    exists nErr_ A' its',
      aggItems analyzeAggregates its A = Some (nErr_, A', its') /\
      post A nErr_ A' /\
      (nErr_ = 0 -> Forall (fun it' => resolvedO A' (pExpr it')) its').
Proof.
  induction 1 as [|it rest Hit _ IH]; intros A Hwf Hn.
  - cbn. eexists _, _, _. split; [reflexivity|]. split; [apply post_refl|]. done.
  - cbn [aggItems]. fold (aggItems analyzeAggregates).
    destruct (optA_ok (pExpr it) Hit A Hwf) as (n1 & A1 & x' & -> & Hp1 & Hr1).
    { intros x Hx. apply (Hn it x); [apply list_elem_of_here|done]. }
    destruct (n1 =? 0) eqn:E1.
    + assert (n1 = 0) by lia. subst n1.
      destruct (IH A1) as (n2 & A2 & rest' & -> & Hp2 & Hr2).
      { by apply Hp1. }
      { intros it' x Hin Hx. apply (Hn it' x); [by apply list_elem_of_further|done]. }
      eexists _, _, _. split; [reflexivity|].
      split; [by eapply post_trans|].
      intros H0. constructor; [|by apply Hr2].
      cbn [set_pExpr pExpr]. eapply resolvedO_post; [exact Hp2|by apply Hr1].
    + eexists _, _, _. split; [reflexivity|]. split; [done|]. intros H0. lia.
Qed.

Lemma named_left (e l : Expr) :
  stops (op e) = false -> pLeft e = Some l -> named e -> named l.
Proof. intros Hs Hl Hn q Hq. apply Hn. by eapply walked_left. Qed.

Lemma named_right (e r : Expr) :
  stops (op e) = false -> pRight e = Some r -> named e -> named r.
Proof. intros Hs Hr Hn q Hq. apply Hn. by eapply walked_right. Qed.

Lemma named_item (e : Expr) (el : ExprList) (it : ExprList_item) (x : Expr) :
  stops (op e) = false -> pList e = Some el -> it ∈ a el -> pExpr it = Some x ->
  named e -> named x.
Proof. intros Hs Hl Hin Hx Hn q Hq. apply Hn. by eapply walked_item. Qed.

Lemma resolved_node (A : list AggExpr) (e : Expr) (l' r' : option Expr)
    (li' : option ExprList) :
  stops (op e) = false ->
  resolvedO A l' -> resolvedO A r' ->
  (forall el, li' = Some el -> Forall (fun it => resolvedO A (pExpr it)) (a el)) ->
  resolved A (set_operands e l' r' li').
Proof.
  intros Hs Hl Hr Hli q Hq.
  inversion Hq as [|? ? l0 _ Hl0 Hw|? ? r0 _ Hr0 Hw|? ? el it x _ Hel Hin Hx Hw]; subst.
  - cbn [set_operands op]. split; intros Ho; rewrite Ho in Hs; done.
  - cbn [set_operands pLeft] in Hl0. by apply (Hl l0).
  - cbn [set_operands pRight] in Hr0. by apply (Hr r0).
  - cbn [set_operands pList] in Hel.
    specialize (Hli el Hel). rewrite Forall_forall in Hli.
    by apply (Hli it Hin x).
Qed.

Lemma analyze_default_ok (e : Expr) :
  stops (op e) = false ->
  (forall l, pLeft e = Some l -> analyze_ok l) ->
  (forall r, pRight e = Some r -> analyze_ok r) ->
  (forall el, pList e = Some el ->
     Forall (fun it => forall x, pExpr it = Some x -> analyze_ok x) (a el)) ->
  analyze_ok e.
Proof.
  intros Hs IHl IHr IHli A Hwf Hn. rewrite analyze_default by done.
  destruct (optA_ok (pLeft e) IHl A Hwf) as (n1 & A1 & l' & -> & Hp1 & Hr1).
  { intros l Hl. by eapply named_left. }
  destruct (n1 =? 0) eqn:E1.
  2:{ rewrite E1. eexists _, _, _. split; [reflexivity|]. split; [done|].
      intros H0. lia. }
  assert (n1 = 0) by lia. subst n1.
  destruct (optA_ok (pRight e) IHr A1) as (n2 & A2 & r' & -> & Hp2 & Hr2).
  { by apply Hp1. }
  { intros r Hr. by eapply named_right. }
  assert (Hp12 : post A n2 A2) by (by eapply post_trans).
  destruct (n2 =? 0) eqn:E2.
  2:{ eexists _, _, _. split; [reflexivity|]. split; [done|].
      intros H0. lia. }
  assert (n2 = 0) by lia. subst n2.
  destruct (pList e) as [el|] eqn:Hel.
  - destruct (aggItems_ok (a el) (IHli el eq_refl) A2) as (n3 & A3 & its' & -> & Hp3 & Hr3).
    { apply Hp2. by apply Hp1. }
    { intros it x Hin Hx. by eapply (named_item e el it x). }
    eexists _, _, _. split; [reflexivity|]. split; [by eapply post_trans|].
    intros H0. apply resolved_node; try done.
    + eapply resolvedO_post; [exact Hp3|]. eapply resolvedO_post; [exact Hp2|]. by apply Hr1.
    + eapply resolvedO_post; [exact Hp3|]. by apply Hr2.
    + intros el' [= <-]. cbn [set_a a]. by apply Hr3.
  - eexists _, _, _. split; [reflexivity|]. split; [done|].
    intros _. apply resolved_node; try done.
    + eapply resolvedO_post; [exact Hp2|]. by apply Hr1.
    + by apply Hr2.
Qed.

Lemma stops_true (t : tk) : stops t = true -> t = TK_COLUMN \/ t = TK_AGG_FUNCTION.
Proof. destruct t; cbn; intros H; try discriminate H; auto. Qed.

Lemma analyze_all (e : Expr) : analyze_ok e.
Proof.
  induction e as [e IHl IHr IHli] using Expr_ind_sub.
  destruct (stops (op e)) eqn:Hs.
  - destruct (stops_true _ Hs) as [Ho|Ho];
      [by apply analyze_column_ok|by apply analyze_func_ok].
  - by apply analyze_default_ok.
Qed.

(** A second look at the node stops on the entry it is marked with. *)
Definition settled (A : list AggExpr) (e : Expr) : Prop :=
  forall q, walked q e ->
    (op q = TK_COLUMN ->
       agg_find (same_column q) A 0 = Some (iAgg q) /\
       iAgg q < Z.of_nat (length A)) /\
    (op q = TK_AGG_FUNCTION ->
       agg_find (same_func q) A 0 = Some (iAgg q) /\
       iAgg q < Z.of_nat (length A)).

Definition settledO (A : list AggExpr) (o : option Expr) : Prop :=
  forall x, o = Some x -> settled A x.

(** No aggregate function visited has a subquery in it. *)
Definition nosub (e : Expr) : Prop :=
  forall q, walked q e -> op q = TK_AGG_FUNCTION -> has_subquery q = false.

Definition named_node (q : Expr) : bool :=
  negb (bool_decide (op q = TK_AGG_FUNCTION)) || is_some (z (token q)).

Definition nosub_node (q : Expr) : bool :=
  negb (bool_decide (op q = TK_AGG_FUNCTION)) || negb (has_subquery q).

Lemma named_by_check (e : Expr) : visited_all named_node e = true -> named e.
Proof.
  intros Hv q Hq Ho. pose proof (visited_all_spec named_node e q Hq Hv) as Hc.
  unfold named_node in Hc. rewrite bool_decide_eq_true_2 in Hc by done.
  cbn [negb orb] in Hc. by destruct (z (token q)).
Qed.

Lemma nosub_by_check (e : Expr) : visited_all nosub_node e = true -> nosub e.
Proof.
  intros Hv q Hq Ho. pose proof (visited_all_spec nosub_node e q Hq Hv) as Hc.
  unfold nosub_node in Hc. rewrite bool_decide_eq_true_2 in Hc by done.
  cbn [negb orb] in Hc. by destruct (has_subquery q).
Qed.

Lemma agg_find_app (same : AggExpr -> option bool) (A new : list AggExpr) :
  forall i k,
    agg_find same A i = Some k -> k < i + Z.of_nat (length A) ->
    agg_find same (A ++ new) i = Some k.
Proof.
  induction A as [|ag A IH]; intros i k Hf Hk; cbn [agg_find app length] in *.
  - injection Hf as <-. lia.
  - destruct (same ag) as [[|]|]; try done.
    apply IH; [done|lia].
Qed.

Lemma agg_find_fresh (same : AggExpr -> option bool) (A : list AggExpr)
    (ag : AggExpr) :
  forall i,
    Forall (fun x => same x = Some false) A -> same ag = Some true ->
    agg_find same (A ++ [ag]) i = Some (i + Z.of_nat (length A)).
Proof.
  induction A as [|x A IH]; intros i Hall Hs; cbn [agg_find app length].
  - rewrite Hs. f_equal. lia.
  - apply Forall_cons in Hall as [Hx Hall]. rewrite Hx, IH by done.
    f_equal. lia.
Qed.

Lemma agg_find_ext (f g : AggExpr -> option bool) (A : list AggExpr) :
  (forall ag, f ag = g ag) -> forall i, agg_find f A i = agg_find g A i.
Proof.
  intros Hfg. induction A as [|ag A IH]; intros i; cbn [agg_find]; [done|].
  rewrite Hfg. destruct (g ag) as [[|]|]; done.
Qed.

Lemma same_func_set_iAgg (e : Expr) (i : Z) (ag : AggExpr) :
  same_func (set_iAgg e i) ag = same_func e ag.
Proof. unfold same_func. by rewrite compare_set_iAgg. Qed.

Lemma settled_app (A new : list AggExpr) (e : Expr) :
  settled A e -> settled (A ++ new) e.
Proof.
  intros H q Hq. destruct (H q Hq) as [Hc Hf]. split; intros Ho.
  - destruct (Hc Ho) as [H1 H2].
    split; [apply agg_find_app; [done|lia]|rewrite length_app; lia].
  - destruct (Hf Ho) as [H1 H2].
    split; [apply agg_find_app; [done|lia]|rewrite length_app; lia].
Qed.

Lemma settledO_post (A A' : list AggExpr) (n1 : Z) (o : option Expr) :
  post A n1 A' -> settledO A o -> settledO A' o.
Proof.
  intros [[new ->] _ _ _ _] H x Hx. apply settled_app. by apply H.
Qed.

Lemma set_iAgg_id (e : Expr) : set_iAgg e (iAgg e) = e.
Proof. by destruct e. Qed.

Lemma set_operands_id (e : Expr) :
  set_operands e (pLeft e) (pRight e) (pList e) = e.
Proof. by destruct e. Qed.

Lemma set_a_id (el : ExprList) : set_a el (a el) = el.
Proof. by destruct el. Qed.

Lemma set_pExpr_id (it : ExprList_item) : set_pExpr it (pExpr it) = it.
Proof. by destruct it. Qed.

(** *** The second pass *)

Definition second_ok (e : Expr) : Prop :=
  forall A, settled A e -> analyzeAggregates e A = Some (0, A, e).

Lemma optA_second (o : option Expr) (A : list AggExpr) :
  (forall x, o = Some x -> second_ok x) -> settledO A o ->
  optA analyzeAggregates o A = Some (0, A, o).
Proof.
  intros IH Hs. destruct o as [x|]; cbn [optA]; [|done].
  by rewrite (IH x eq_refl A (Hs x eq_refl)).
Qed.

Lemma aggItems_second (its : list ExprList_item) (A : list AggExpr) :
  Forall (fun it => forall x, pExpr it = Some x -> second_ok x) its ->
  (forall it, it ∈ its -> settledO A (pExpr it)) ->
  aggItems analyzeAggregates its A = Some (0, A, its).
Proof.
  induction 1 as [|it rest Hit _ IH]; intros Hs; [done|].
  cbn [aggItems]. fold (aggItems analyzeAggregates).
  rewrite (optA_second (pExpr it) A Hit) by (apply Hs, list_elem_of_here).
  cbn [Z.eqb]. rewrite IH.
  - by rewrite set_pExpr_id.
  - intros it' Hin. by apply Hs, list_elem_of_further.
Qed.

Lemma second_all (e : Expr) : second_ok e.
Proof.
  induction e as [e IHl IHr IHli] using Expr_ind_sub. intros A Hs.
  destruct (stops (op e)) eqn:Hst.
  - destruct (Hs e (walked_here e)) as [Hc Hf].
    destruct (stops_true _ Hst) as [Ho|Ho].
    + destruct (Hc Ho) as [H1 H2]. rewrite analyze_column, H1 by done.
      replace (iAgg e >=? Z.of_nat (length A)) with false by lia.
      by rewrite set_iAgg_id.
    + destruct (Hf Ho) as [H1 H2]. rewrite analyze_func, H1 by done.
      replace (iAgg e >=? Z.of_nat (length A)) with false by lia.
      by rewrite set_iAgg_id.
  - rewrite analyze_default by done.
    rewrite (optA_second (pLeft e) A IHl).
    2:{ intros l Hl q Hq. apply Hs. by eapply walked_left. }
    cbn [Z.eqb].
    rewrite (optA_second (pRight e) A IHr).
    2:{ intros r Hr q Hq. apply Hs. by eapply walked_right. }
    cbn [Z.eqb].
    destruct (pList e) as [el|] eqn:Hel.
    + rewrite (aggItems_second (a el) A (IHli el eq_refl)).
      2:{ intros it Hin x Hx q Hq. apply Hs. by eapply (walked_item q e el it x). }
      rewrite set_a_id, <- Hel. by rewrite set_operands_id.
    + rewrite <- Hel. by rewrite set_operands_id.
Qed.

(** *** The first pass settles the nodes *)

Definition settles (e : Expr) : Prop :=
  forall A, agg_wf A -> named e -> nosub e ->
    forall A' e', analyzeAggregates e A = Some (0, A', e') -> settled A' e'.

Lemma settles_column (e : Expr) : op e = TK_COLUMN -> settles e.
Proof.
  intros Hop A Hwf _ _ A' e' Hrun. rewrite analyze_column in Hrun by done.
  destruct (agg_find (same_column e) A 0) as [k|] eqn:Hk; [|done].
  destruct (agg_find_spec _ _ _ _ Hk) as [[-> Hall]|(j & ag & -> & Hl & Hs & Hj)].
  - replace (0 + Z.of_nat (length A) >=? Z.of_nat (length A)) with true in Hrun by lia.
    destruct (appendAggInfo_spec A) as [[Ha _]|Ha]; rewrite Ha in Hrun.
    + cbn [Z.ltb Z.compare] in Hrun. discriminate Hrun.
    + rewrite (proj2 (Z.ltb_ge (Z.of_nat (length A)) 0)) in Hrun by lia.
      cbv zeta in Hrun. rewrite append_entry in Hrun.
      injection Hrun as <- <-.
      intros q Hq. apply walked_stop in Hq; [|by cbn; rewrite Hop]. subst q.
      split; [intros _|cbn [set_iAgg op]; rewrite Hop; done].
      cbn [set_iAgg iAgg]. split; [|rewrite length_app; cbn; lia].
      change (same_column (set_iAgg e (Z.of_nat (length A)))) with (same_column e).
      rewrite agg_find_fresh; [f_equal|done|].
      unfold same_column. cbn. by rewrite !Z.eqb_refl.
  - replace (0 + Z.of_nat j >=? Z.of_nat (length A)) with false in Hrun by lia.
    injection Hrun as <- <-.
    intros q Hq. apply walked_stop in Hq; [|by cbn; rewrite Hop]. subst q.
    split; [intros _|cbn [set_iAgg op]; rewrite Hop; done].
    cbn [set_iAgg iAgg]. split; [exact Hk|lia].
Qed.

Lemma has_subquery_set_iAgg (e : Expr) (i : Z) :
  has_subquery (set_iAgg e i) = has_subquery e.
Proof. by rewrite (has_subquery_eq (set_iAgg e i)), (has_subquery_eq e). Qed.

Lemma settles_func (e : Expr) : op e = TK_AGG_FUNCTION -> settles e.
Proof.
  intros Hop A Hwf _ Hns A' e' Hrun. rewrite analyze_func in Hrun by done.
  destruct (agg_find (same_func e) A 0) as [k|] eqn:Hk; [|done].
  destruct (agg_find_spec _ _ _ _ Hk) as [[-> Hall]|(j & ag & -> & Hl & Hs & Hj)].
  - replace (0 + Z.of_nat (length A) >=? Z.of_nat (length A)) with true in Hrun by lia.
    destruct (appendAggInfo_spec A) as [[Ha _]|Ha]; rewrite Ha in Hrun.
    + cbn [Z.ltb Z.compare] in Hrun. discriminate Hrun.
    + rewrite (proj2 (Z.ltb_ge (Z.of_nat (length A)) 0)) in Hrun by lia.
      destruct (z (token e)) as [s|]; [|done].
      cbv zeta in Hrun. rewrite append_entry in Hrun.
      injection Hrun as <- <-.
      intros q Hq. apply walked_stop in Hq; [|by cbn; rewrite Hop]. subst q.
      split; [cbn [set_iAgg op]; rewrite Hop; done|intros _].
      cbn [set_iAgg iAgg]. split; [|rewrite length_app; cbn; lia].
      rewrite (agg_find_ext _ (same_func e)) by (intros; apply same_func_set_iAgg).
      rewrite agg_find_fresh; [f_equal|done|].
      unfold same_func. cbn [ae_isAgg ae_pExpr negb sqlite3ExprCompare].
      rewrite (cmpExpr_eq (set_iAgg e _) e). cbn [set_iAgg op pLeft pRight pList
        pSelect iTable iColumn token].
      rewrite <- (cmpExpr_eq e e), cmpExpr_refl.
      by rewrite (Hns e (walked_here e) Hop).
  - replace (0 + Z.of_nat j >=? Z.of_nat (length A)) with false in Hrun by lia.
    injection Hrun as <- <-.
    intros q Hq. apply walked_stop in Hq; [|by cbn; rewrite Hop]. subst q.
    split; [cbn [set_iAgg op]; rewrite Hop; done|intros _].
    cbn [set_iAgg iAgg]. split; [|lia].
    rewrite (agg_find_ext _ (same_func e)) by (intros; apply same_func_set_iAgg).
    exact Hk.
Qed.

Lemma nosub_left (e l : Expr) :
  stops (op e) = false -> pLeft e = Some l -> nosub e -> nosub l.
Proof. intros Hs Hl Hn q Hq. apply Hn. by eapply walked_left. Qed.

Lemma nosub_right (e r : Expr) :
  stops (op e) = false -> pRight e = Some r -> nosub e -> nosub r.
Proof. intros Hs Hr Hn q Hq. apply Hn. by eapply walked_right. Qed.

Lemma nosub_item (e : Expr) (el : ExprList) (it : ExprList_item) (x : Expr) :
  stops (op e) = false -> pList e = Some el -> it ∈ a el -> pExpr it = Some x ->
  nosub e -> nosub x.
Proof. intros Hs Hl Hin Hx Hn q Hq. apply Hn. by eapply walked_item. Qed.

Lemma optA_settles (o : option Expr) :
  (forall x, o = Some x -> settles x) ->
  forall A, agg_wf A -> (forall x, o = Some x -> named x) ->
    (forall x, o = Some x -> nosub x) ->
    forall A' o', optA analyzeAggregates o A = Some (0, A', o') -> settledO A' o'.
Proof.
  intros IH A Hwf Hn Hns A' o' Hrun. destruct o as [x|]; cbn [optA] in Hrun.
  - destruct (analyzeAggregates x A) as [[[n1 A1] x']|] eqn:Hx; [|done].
    injection Hrun as -> <- <-. intros y [= <-].
    by apply (IH x eq_refl A Hwf (Hn x eq_refl) (Hns x eq_refl)).
  - injection Hrun as <- <-. intros y Hy. done.
Qed.

Lemma aggItems_settles (its : list ExprList_item) :
  Forall (fun it => forall x, pExpr it = Some x -> settles x) its ->
  forall A, agg_wf A ->
    (forall it x, it ∈ its -> pExpr it = Some x -> named x) ->
    (forall it x, it ∈ its -> pExpr it = Some x -> nosub x) ->
    forall A' its', aggItems analyzeAggregates its A = Some (0, A', its') ->
      Forall (fun it' => settledO A' (pExpr it')) its'.
Proof.
  induction 1 as [|it rest Hit Hrest IH]; intros A Hwf Hn Hns A' its' Hrun.
  - cbn in Hrun. injection Hrun as <- <-. done.
  - cbn [aggItems] in Hrun. fold (aggItems analyzeAggregates) in Hrun.
    assert (Hn1 : forall x, pExpr it = Some x -> named x).
    { intros x Hx. apply (Hn it x); [apply list_elem_of_here|done]. }
    assert (Hn2 : forall it' x, it' ∈ rest -> pExpr it' = Some x -> named x).
    { intros it' x Hin Hx. apply (Hn it' x); [by apply list_elem_of_further|done]. }
    destruct (optA_ok (pExpr it) (fun x _ => analyze_all x) A Hwf Hn1)
      as (n1 & A1 & x' & Hfirst & Hp1 & _).
    rewrite Hfirst in Hrun.
    destruct (n1 =? 0) eqn:E1; [|injection Hrun as -> _ _; done].
    assert (n1 = 0) by lia. subst n1.
    assert (Hwf1 : agg_wf A1) by (by apply Hp1).
    destruct (aggItems_ok rest) with (A := A1)
      as (n2 & A2 & rest' & Hsecond & Hp2 & _); [|done|done|].
    { apply Forall_forall. intros it' _ x _. apply analyze_all. }
    rewrite Hsecond in Hrun. injection Hrun as -> <- <-.
    constructor.
    + cbn [set_pExpr pExpr]. eapply settledO_post; [exact Hp2|].
      apply (optA_settles (pExpr it) Hit A Hwf Hn1); [|exact Hfirst].
      intros x Hx. apply (Hns it x); [apply list_elem_of_here|done].
    + apply (IH A1 Hwf1 Hn2); [|exact Hsecond].
      intros it' x Hin Hx. apply (Hns it' x); [by apply list_elem_of_further|done].
Qed.

Lemma settled_node (A : list AggExpr) (e : Expr) (l' r' : option Expr)
    (li' : option ExprList) :
  stops (op e) = false ->
  settledO A l' -> settledO A r' ->
  (forall el, li' = Some el -> Forall (fun it => settledO A (pExpr it)) (a el)) ->
  settled A (set_operands e l' r' li').
Proof.
  intros Hs Hl Hr Hli q Hq.
  inversion Hq as [|? ? l0 _ Hl0 Hw|? ? r0 _ Hr0 Hw|? ? el it x _ Hel Hin Hx Hw]; subst.
  - cbn [set_operands op]. split; intros Ho; rewrite Ho in Hs; done.
  - cbn [set_operands pLeft] in Hl0. by apply (Hl l0).
  - cbn [set_operands pRight] in Hr0. by apply (Hr r0).
  - cbn [set_operands pList] in Hel.
    specialize (Hli el Hel). rewrite Forall_forall in Hli.
    by apply (Hli it Hin x).
Qed.

Lemma settles_default (e : Expr) :
  stops (op e) = false ->
  (forall l, pLeft e = Some l -> settles l) ->
  (forall r, pRight e = Some r -> settles r) ->
  (forall el, pList e = Some el ->
     Forall (fun it => forall x, pExpr it = Some x -> settles x) (a el)) ->
  settles e.
Proof.
  intros Hs IHl IHr IHli A Hwf Hn Hns A' e' Hrun.
  rewrite analyze_default in Hrun by done.
  assert (Hnl : forall l, pLeft e = Some l -> named l).
  { intros l Hl. by eapply named_left. }
  assert (Hnr : forall r, pRight e = Some r -> named r).
  { intros r Hr. by eapply named_right. }
  destruct (optA_ok (pLeft e) (fun x _ => analyze_all x) A Hwf Hnl)
    as (n1 & A1 & l' & H1 & Hp1 & _).
  rewrite H1 in Hrun.
  destruct (n1 =? 0) eqn:E1.
  2:{ rewrite E1 in Hrun. injection Hrun as -> _ _. done. }
  assert (n1 = 0) by lia. subst n1.
  assert (Hwf1 : agg_wf A1) by (by apply Hp1).
  destruct (optA_ok (pRight e) (fun x _ => analyze_all x) A1 Hwf1 Hnr)
    as (n2 & A2 & r' & H2 & Hp2 & _).
  rewrite H2 in Hrun.
  destruct (n2 =? 0) eqn:E2.
  2:{ injection Hrun as -> _ _. done. }
  assert (n2 = 0) by lia. subst n2.
  assert (Hwf2 : agg_wf A2) by (by apply Hp2).
  assert (Hsl : settledO A1 l').
  { apply (optA_settles (pLeft e) IHl A Hwf Hnl); [|exact H1].
    intros l Hl. by eapply nosub_left. }
  assert (Hsr : settledO A2 r').
  { apply (optA_settles (pRight e) IHr A1 Hwf1 Hnr); [|exact H2].
    intros r Hr. by eapply nosub_right. }
  destruct (pList e) as [el|] eqn:Hel.
  - assert (Hni : forall it x, it ∈ a el -> pExpr it = Some x -> named x).
    { intros it x Hin Hx. by eapply (named_item e el it x). }
    destruct (aggItems_ok (a el)) with (A := A2)
      as (n3 & A3 & its' & H3 & Hp3 & _); [|done|done|].
    { apply Forall_forall. intros it' _ x _. apply analyze_all. }
    rewrite H3 in Hrun. injection Hrun as -> <- <-.
    apply settled_node; try done.
    + eapply settledO_post; [exact Hp3|]. by eapply settledO_post.
    + by eapply settledO_post.
    + intros el' [= <-]. cbn [set_a a].
      apply (aggItems_settles (a el) (IHli el eq_refl) A2 Hwf2 Hni); [|exact H3].
      intros it x Hin Hx. by eapply (nosub_item e el it x).
  - injection Hrun as <- <-.
    apply settled_node; try done. by eapply settledO_post.
Qed.

Lemma settles_all (e : Expr) : settles e.
Proof.
  induction e as [e IHl IHr IHli] using Expr_ind_sub.
  destruct (stops (op e)) eqn:Hs.
  - destruct (stops_true _ Hs) as [Ho|Ho];
      [by apply settles_column|by apply settles_func].
  - by apply settles_default.
Qed.

(** X24: sqlite3ExprAnalyzeAggregates resolves what it visits.  While
    every entry of [aAgg] made for a column has its expression and the
    aggregate functions visited have a name, the routine returns 0 or 1,
    and 0 when no sqliteRealloc fails; the entries that were in [aAgg]
    are still there, in place, the new ones after them; and when it
    returns 0 every column node and every aggregate function node it
    visited is marked with the index of an entry of its kind: for a
    column, an entry with the same table and column, for an aggregate
    function, the entry made for it or one that sqlite3ExprCompare finds
    equal. *)
Theorem sqlite3ExprAnalyzeAggregates_resolves (pExpr_ : option Expr)
    (aAgg : list AggExpr) :
  agg_wf aAgg -> (forall x, pExpr_ = Some x -> named x) ->
  exists nErr_ aAgg' pExpr',
    sqlite3ExprAnalyzeAggregates pExpr_ aAgg = Some (nErr_, aAgg', pExpr') /\
    (nErr_ = 0 \/ nErr_ = 1) /\
    ((forall amt, reallocOk amt = true) -> nErr_ = 0) /\
    (exists new, aAgg' = aAgg ++ new) /\
    agg_wf aAgg' /\
    (nErr_ = 0 -> forall x, pExpr' = Some x -> resolved aAgg' x).
Proof.
  intros Hwf Hn. unfold sqlite3ExprAnalyzeAggregates.
  destruct (optA_ok pExpr_ (fun x _ => analyze_all x) aAgg Hwf Hn)
    as (n1 & A1 & o' & -> & [Hext Hw Hd Hn1 Hok] & Hr).
  exists n1, A1, o'.
  split; [reflexivity|]. split; [exact Hn1|]. split; [exact Hok|].
  split; [exact Hext|]. split; [by apply Hw|]. exact Hr.
Qed.

(** X25: one entry for a column.  If no two entries of [aAgg] made for
    columns have the same table and column, no two have after
    sqlite3ExprAnalyzeAggregates, however often a column occurs in the
    expression. *)
Theorem sqlite3ExprAnalyzeAggregates_one_entry_per_column (pExpr_ : option Expr)
    (aAgg aAgg' : list AggExpr) (nErr_ : Z) (pExpr' : option Expr) :
  agg_wf aAgg -> (forall x, pExpr_ = Some x -> named x) ->
  NoDup (col_keys aAgg) ->
  sqlite3ExprAnalyzeAggregates pExpr_ aAgg = Some (nErr_, aAgg', pExpr') ->
  NoDup (col_keys aAgg').
Proof.
  intros Hwf Hn Hnd Hrun. unfold sqlite3ExprAnalyzeAggregates in Hrun.
  destruct (optA_ok pExpr_ (fun x _ => analyze_all x) aAgg Hwf Hn)
    as (n1 & A1 & o' & Hrun' & [Hext Hw Hd Hn1 Hok] & Hr).
  rewrite Hrun' in Hrun. injection Hrun as <- <- <-. by apply Hd.
Qed.

(** X26: analysing twice changes nothing.  When
    sqlite3ExprAnalyzeAggregates has returned 0 on an expression in which
    no aggregate function visited has a subquery in it, a second call on
    the expression as marked, with [aAgg] as the first call left it or
    with more entries after those, returns 0, adds no entry and leaves
    every mark as it is. *)
Theorem sqlite3ExprAnalyzeAggregates_twice (pExpr_ pExpr' : option Expr)
    (aAgg aAgg' later : list AggExpr) :
  agg_wf aAgg -> (forall x, pExpr_ = Some x -> named x) ->
  (forall x, pExpr_ = Some x -> nosub x) ->
  sqlite3ExprAnalyzeAggregates pExpr_ aAgg = Some (0, aAgg', pExpr') ->
  sqlite3ExprAnalyzeAggregates pExpr' (aAgg' ++ later)
    = Some (0, aAgg' ++ later, pExpr').
Proof.
  intros Hwf Hn Hns Hrun. unfold sqlite3ExprAnalyzeAggregates in *.
  apply optA_second; [intros x _; apply second_all|].
  intros x Hx. apply settled_app.
  by apply (optA_settles pExpr_ (fun x _ => settles_all x) aAgg Hwf Hn Hns aAgg' pExpr' Hrun).
Qed.

End Aggregates.

End Expr.

(* --------------------------------------------------------------------- *)
(** ** sqlite3FindFunction                                                 *)
(* --------------------------------------------------------------------- *)

Module Func.

(** A function definition: the number of arguments (negative for any
    number), whether [xFunc] and [xStep] are set, and the declared type. *)
Record FuncDef := mkFuncDef {
  nArg : Z;
  xFunc : bool;
  xStep : bool;
  dataType : Z
}.

(** A function is valid if either xFunc or xStep is non-zero. *)
Definition valid (p : FuncDef) : bool := xFunc p || xStep p.

Section Find.
Variable SQLITE_NUMERIC : Z.

(** The first loop: skip the definitions that are not valid. *)
Fixpoint first_valid (p : list FuncDef) : option FuncDef :=
  match p with
  | [] => None
  | q :: pNext => if negb (xFunc q) && negb (xStep q) then first_valid pNext else Some q
  end.

(** The second loop: stop at the first definition with [nArg_] arguments;
    [pMaybe] is the last valid definition for any number of arguments
    passed on the way. *)
Fixpoint scan (p : list FuncDef) (nArg_ : Z) (createFlag : bool)
    (pMaybe : option FuncDef) : option FuncDef * option FuncDef :=
  match p with
  | [] => (None, pMaybe)
  | q :: pNext =>
      if negb (nArg q =? nArg_) then
        scan pNext nArg_ createFlag
          (if (nArg q <? 0) && negb createFlag && (xFunc q || xStep q)
           then Some q else pMaybe)
      else (Some q, pMaybe)
  end.

(** [chain] is what sqlite3HashFind returns for the name, the definitions
    linked by [pNext]; the result is the definition returned and the
    chain the hash table holds for the name afterwards. *)
Definition sqlite3FindFunction (chain : list FuncDef) (nArg_ : Z)
    (createFlag : bool) : option FuncDef * list FuncDef :=
  if negb (bool_decide (chain = [])) && negb createFlag && (nArg_ <? 0)
  then (first_valid chain, chain)
  else
    let '(p, pMaybe) := scan chain nArg_ createFlag None in
    match p with
    | Some q =>
        if negb createFlag && negb (xFunc q) && negb (xStep q) then (None, chain)
        else (Some q, chain)
    | None =>
        match pMaybe with
        | Some m => (Some m, chain)
        | None =>
            if createFlag then
              let pNew := mkFuncDef nArg_ false false
                            match chain with
                            | pFirst :: _ => dataType pFirst
                            | [] => SQLITE_NUMERIC
                            end in
              (Some pNew, pNew :: chain)
            else (None, chain)
        end
    end.

Lemma first_valid_spec (p : list FuncDef) :
  match first_valid p with
  | Some q => exists pre post, p = pre ++ q :: post /\ valid q = true /\
                               Forall (fun x => valid x = false) pre
  | None => Forall (fun x => valid x = false) p
  end.
Proof.
  induction p as [|q p IH]; cbn; [done|].
  destruct (xFunc q) eqn:Ef; cbn.
  - exists [], p. unfold valid. rewrite Ef. done.
  - destruct (xStep q) eqn:Es; cbn.
    + exists [], p. unfold valid. rewrite Ef, Es. done.
    + destruct (first_valid p) as [r|].
      * destruct IH as (pre & post & -> & Hv & Hall).
        exists (q :: pre), post. split; [done|]. split; [done|].
        constructor; [|done]. unfold valid. by rewrite Ef, Es.
      * constructor; [|done]. unfold valid. by rewrite Ef, Es.
Qed.

Lemma scan_spec : forall (p : list FuncDef) (nArg_ : Z) (pMaybe : option FuncDef),
  match scan p nArg_ false pMaybe with
  | (Some q, _) => exists pre post, p = pre ++ q :: post /\ nArg q = nArg_ /\
                                    Forall (fun x => nArg x <> nArg_) pre
  | (None, m) =>
      Forall (fun x => nArg x <> nArg_) p /\
      (m = pMaybe \/ exists x, m = Some x /\ x ∈ p /\ nArg x < 0 /\ valid x = true) /\
      (m = None -> Forall (fun x => nArg x < 0 -> valid x = false) p)
  end.
Proof.
  induction p as [|q p IH]; intros nArg_ pMaybe; cbn.
  - split; [done|]. split; [by left|done].
  - destruct (Z.eqb_spec (nArg q) nArg_) as [He|Hne]; cbn [negb].
    + exists [], p. done.
    + specialize (IH nArg_
        (if (nArg q <? 0) && negb false && (xFunc q || xStep q) then Some q else pMaybe)).
      destruct (scan p nArg_ false _) as [[r|] m].
      * destruct IH as (pre & post & -> & Hn & Hall).
        exists (q :: pre), post. split; [done|]. split; [done|]. by constructor.
      * destruct IH as (Hall & Hm & Hnone). split; [by constructor|]. split.
        -- destruct Hm as [->|(x & -> & Hin & Hx)].
           ++ destruct (Z.ltb_spec (nArg q) 0) as [Hlt|]; cbn; [|by left].
              destruct (xFunc q || xStep q) eqn:Hv; [|by left].
              right. exists q. split; [done|]. split; [by left|]. done.
           ++ right. exists x. split; [done|]. split; [by right|]. done.
        -- intros ->. constructor; [|by apply Hnone].
           intros Hlt. destruct Hm as [Hm|(x & [=] & _)].
           apply Z.ltb_lt in Hlt. rewrite Hlt in Hm. cbn in Hm.
           unfold valid. by destruct (xFunc q || xStep q).
Qed.

(** X11: sqlite3FindFunction without the create flag leaves the chain as
    it is and never returns a definition that is not valid.  Asked for any
    number of arguments (nArg < 0) it returns the first valid definition
    of the chain.  Asked for [nArg >= 0] arguments it returns the first
    definition with exactly that number if it is valid, and nothing if it
    is not; only when no definition has that number does it return a
    valid definition that accepts any number of arguments, and nothing
    when there is none. *)
Theorem sqlite3FindFunction_lookup (chain : list FuncDef) (nArg_ : Z) :
  let '(r, chain') := sqlite3FindFunction chain nArg_ false in
  chain' = chain /\
  (forall q, r = Some q -> q ∈ chain /\ valid q = true) /\
  (nArg_ < 0 ->
   match r with
   | Some q => exists pre post, chain = pre ++ q :: post /\
                                Forall (fun x => valid x = false) pre
   | None => Forall (fun x => valid x = false) chain
   end) /\
  (0 <= nArg_ ->
   (forall pre q post,
      chain = pre ++ q :: post -> nArg q = nArg_ ->
      Forall (fun x => nArg x <> nArg_) pre ->
      r = (if valid q then Some q else None)) /\
   (Forall (fun x => nArg x <> nArg_) chain ->
    match r with
    | Some q => nArg q < 0
    | None => Forall (fun x => nArg x < 0 -> valid x = false) chain
    end)).
Proof.
  unfold sqlite3FindFunction. cbn [negb andb].
  destruct (decide (chain = [])) as [->|Hne].
  { cbn. split; [done|]. split; [done|]. split; [done|]. intros _. split; [|done].
    intros pre q post Hc. by destruct pre. }
  rewrite bool_decide_eq_false_2 by done. cbn [negb andb].
  destruct (Z.ltb_spec nArg_ 0) as [Hlt|Hge].
  - pose proof (first_valid_spec chain) as Hf.
    destruct (first_valid chain) as [q|].
    + destruct Hf as (pre & post & Hc & Hv & Hall).
      split; [done|]. split.
      * intros q' [= <-]. split; [|done]. rewrite Hc. apply elem_of_app. right. by left.
      * split; [intros _; eauto|lia].
    + split; [done|]. split; [done|]. split; [done|lia].
  - pose proof (scan_spec chain nArg_ None) as Hs.
    destruct (scan chain nArg_ false None) as [[q|] m].
    + destruct Hs as (pre & post & Hc & Hn & Hall).
      assert (Hfirst : forall pre' q' post',
                chain = pre' ++ q' :: post' -> nArg q' = nArg_ ->
                Forall (fun x => nArg x <> nArg_) pre' -> q' = q).
      { intros pre' q' post' Hc' Hn' Hall'. rewrite Hc in Hc'.
        clear Hc Hne. revert pre' Hc' Hall'.
        induction pre as [|x pre IHp]; intros pre' Hc' Hall'.
        - destruct pre' as [|y pre']; [by injection Hc'|].
          injection Hc' as -> _. apply Forall_cons in Hall' as [Hy _]. done.
        - destruct pre' as [|y pre'].
          + injection Hc' as <- _. apply Forall_cons in Hall as [Hx _]. done.
          + injection Hc' as _ Hc'. apply Forall_cons in Hall as [_ Hall].
            apply Forall_cons in Hall' as [_ Hall']. by apply (IHp Hall pre'). }
      assert (Hin : q ∈ chain).
      { rewrite Hc. apply elem_of_app. right. by left. }
      destruct (xFunc q) eqn:Ef; cbn [negb andb].
      * split; [done|]. split.
        { intros q' [= <-]. split; [done|]. unfold valid. by rewrite Ef. }
        split; [lia|]. intros _. split.
        -- intros pre' q' post' Hc' Hn' Hall'.
           rewrite (Hfirst pre' q' post' Hc' Hn' Hall'). unfold valid. by rewrite Ef.
        -- intros Hnone. rewrite Forall_forall in Hnone. by specialize (Hnone q Hin).
      * destruct (xStep q) eqn:Es; cbn [negb andb].
        -- split; [done|]. split.
           { intros q' [= <-]. split; [done|]. unfold valid. by rewrite Ef, Es. }
           split; [lia|]. intros _. split.
           ++ intros pre' q' post' Hc' Hn' Hall'.
              rewrite (Hfirst pre' q' post' Hc' Hn' Hall'). unfold valid. by rewrite Ef, Es.
           ++ intros Hnone. rewrite Forall_forall in Hnone. by specialize (Hnone q Hin).
        -- split; [done|]. split; [done|]. split; [lia|]. intros _. split.
           ++ intros pre' q' post' Hc' Hn' Hall'.
              rewrite (Hfirst pre' q' post' Hc' Hn' Hall'). unfold valid. by rewrite Ef, Es.
           ++ intros Hnone. rewrite Forall_forall in Hnone. by specialize (Hnone q Hin).
    + destruct Hs as (Hall & Hm & Hnone).
      assert (Hno : forall pre q post,
                chain = pre ++ q :: post -> nArg q = nArg_ -> False).
      { intros pre q post Hc Hn. rewrite Forall_forall in Hall.
        apply (Hall q); [|done]. rewrite Hc. apply elem_of_app. right. by left. }
      destruct m as [x|].
      * destruct Hm as [[=]|(x' & [= <-] & Hin & Hx & Hv)].
        split; [done|]. split; [by intros q [= <-]|]. split; [lia|]. intros _. split.
        -- intros pre q post Hc Hn. by destruct (Hno pre q post Hc Hn).
        -- done.
      * split; [done|]. split; [done|]. split; [lia|]. intros _. split.
        -- intros pre q post Hc Hn. by destruct (Hno pre q post Hc Hn).
        -- intros _. by apply Hnone.
Qed.


End Find.

End Func.

(* --------------------------------------------------------------------- *)
(** ** A concrete library and examples                                     *)
(* --------------------------------------------------------------------- *)

Definition lower (c : ascii) : ascii :=
  let k := nat_of_ascii c in
  if (65 <=? k)%nat && (k <=? 90)%nat then ascii_of_nat (k + 32) else c.

Fixpoint lowers (cs : string) : string :=
  match cs with
  | EmptyString => EmptyString
  | String c rest => String (lower c) (lowers rest)
  end.

Definition demoStrICmp (x y : string) : Z :=
  if String.eqb (lowers x) (lowers y) then 0 else 1.

Fixpoint drop_last (cs : string) : string :=
  match cs with
  | EmptyString => EmptyString
  | String c EmptyString => EmptyString
  | String c rest => String c (drop_last rest)
  end.

Definition demoDequote (cs : string) : string :=
  match cs with
  | String c rest =>
      if bool_decide (c = ascii_of_nat 34) || bool_decide (c = ascii_of_nat 39)
      then drop_last rest else cs
  | EmptyString => cs
  end.

Fixpoint digits_value (cs : string) (acc : Z) : Z :=
  match cs with
  | String c rest =>
      let k := nat_of_ascii c in
      if (48 <=? k)%nat && (k <=? 57)%nat
      then digits_value rest (10 * acc + Z.of_nat (k - 48))
      else acc
  | EmptyString => acc
  end.

Definition demoAtoi (cs : string) : Z :=
  match cs with
  | String "-"%char rest => - digits_value rest 0
  | _ => digits_value cs 0
  end.

#[local] Instance demoLib : Lib := {|
  alloc := fun h => fresh h;
  sqlite3StrICmp := demoStrICmp;
  sqlite3StrNICmp := fun x y k => demoStrICmp (substring 0 k x) (substring 0 k y);
  sqlite3Dequote := demoDequote;
  sqlite3FitsIn32Bits := fun cs => (- 2 ^ 31 <? demoAtoi cs) && (demoAtoi cs <? 2 ^ 31);
  atoi := demoAtoi;
  sqlite3SelectDelete := fun p h =>
    match p with Some sel => h ∖ {[sel_addr sel]} | None => h end;
  sqlite3AuthRead := fun P e _ => (P, e);
  sqlite3FindFunction := fun _ _ _ _ => Some (mkFuncDef false);
  SQLITE_SO_TEXT := 2; SQLITE_SO_NUM := 4; SQLITE_SO_TYPEMASK := 6;
  SQLITE_CONSTRAINT := 19; OE_Rollback := 1; OE_Abort := 2; OE_Fail := 3;
  OP_Add := 80; OP_Subtract := 81; OP_Multiply := 82; OP_Divide := 83;
  OP_And := 60; OP_Or := 61; OP_Lt := 70; OP_Le := 71; OP_Gt := 72; OP_Ge := 73;
  OP_Ne := 69; OP_Eq := 68; OP_IsNull := 62; OP_NotNull := 63; OP_Not := 64;
  OP_Negative := 65; OP_BitAnd := 84; OP_BitOr := 85; OP_BitNot := 86;
  OP_ShiftLeft := 87; OP_ShiftRight := 88; OP_Remainder := 89;
  OP_AggGet := 10; OP_Column := 11; OP_Recno := 12; OP_Integer := 13;
  OP_String := 14; OP_Variable := 15; OP_Concat := 16; OP_AddImm := 17;
  OP_Function := 18; OP_MemLoad := 19; OP_Pop := 20; OP_Goto := 21;
  OP_Found := 22; OP_SetFound := 23; OP_NotFound := 24; OP_SetNotFound := 25;
  OP_Dup := 26; OP_Pull := 27; OP_If := 28; OP_IfNot := 29; OP_Halt := 30
|}.

Lemma demo_lib_laws : @LibLaws demoLib.
Proof.
  split.
  - intros h. apply is_fresh.
  - done.
  - intros cs k. cbn. unfold demoStrICmp. by rewrite String.eqb_refl.
  - intros cs. cbn. intros Hf. apply andb_true_iff in Hf as [H1 H2]. lia.
  - done.
Qed.

#[local] Existing Instance demo_lib_laws.

(** A token that stands in the SQL text at address [ad]. *)
Definition tok (ad : addr) (cs : string) : Token :=
  mkToken (Some (mkStr ad cs)) false (String.length cs).

Definition no_tok : Token := mkToken None false 0.

Definition leaf (ad : addr) (o : tk) (t : Token) : Expr :=
  mkExpr ad o 0 0 None None None t no_tok 0 0 0 None.

Definition binary (ad : addr) (o : tk) (l r : Expr) : Expr :=
  mkExpr ad o 0 0 (Some l) (Some r) None no_tok no_tok 0 0 0 None.

(** x + 1 *)
Definition demo_sum : Expr :=
  binary 1%positive TK_PLUS (leaf 2%positive TK_ID (tok 10%positive "x"))
    (leaf 3%positive TK_INTEGER (tok 11%positive "1")).

Definition demo_heap : heap := {[1; 2; 3; 10; 11]}%positive.

(** (SELECT ...) as an expression *)
Definition demo_select : Select :=
  mkSelect 20%positive 0 None None None None None None 0 None 0 0 None 0 0.

Definition demo_sub : Expr :=
  mkExpr 1%positive TK_SELECT 0 0 None None None no_tok no_tok 0 0 0
    (Some demo_select).

Lemma leaf_wf (ad : addr) (o : tk) (t : Token) : wf (leaf ad o t).
Proof. apply wf_node; cbn [leaf pSelect pLeft pRight pList]; congruence. Qed.

Lemma demo_sum_wf : wf demo_sum.
Proof.
  apply wf_node; cbn [demo_sum binary pSelect pLeft pRight pList]; try congruence.
  - intros l [= <-]. apply leaf_wf.
  - intros r [= <-]. apply leaf_wf.
Qed.

Lemma C3_witness :
  exists T' h',
    sqlite3ExprDup (Some demo_sum) demo_heap = Some (Some T', h') /\
    sqlite3ExprCompare (Some demo_sum) (Some T') = true /\
    blocks T' ⊆ sqlite3ExprDelete (Some demo_sum) h' /\
    blocks demo_sum ⊆ sqlite3ExprDelete (Some T') h'.
Proof.
  apply (C3_dup_compare_delete demo_sum demo_heap demo_sum_wf).
  vm_compute. set_solver.
Defined.

Lemma C3_counterexample :
  exists T' h',
    sqlite3ExprDup (Some demo_sub) {[1%positive; 20%positive]} = Some (Some T', h') /\
    sqlite3ExprCompare (Some demo_sub) (Some T') = false.
Proof.
  do 2 eexists. split; [reflexivity|]. reflexivity.
Qed.


(** -(5) *)
Definition demo_neg5 : Expr :=
  mkExpr 1%positive TK_UMINUS 0 0 (Some (leaf 2%positive TK_INTEGER (tok 10%positive "5")))
    None None no_tok no_tok 0 0 0 None.



(** Two tables t1(x) and t2(x), and the name x. *)
Definition demo_table (name : string) : Table :=
  mkTable (Some name) [mkColumn "x" 4] (-1) 0.

Definition demo_src_item (name : string) (cursor : Z) : SrcList_item :=
  mkSrcItem None None None 0 cursor (Some (demo_table name)) None None None.


Definition demo_parse : Parse :=
  mkParse 4 ["main"%string] false (Some (mkVdbe [] 0 [])) false 0 None None false.

Definition demo_x : Expr := leaf 1%positive TK_ID (tok 10%positive "x").



(** 'a' < 'b' under file format 4 *)
Definition demo_lt : Expr :=
  binary 1%positive TK_LT (leaf 2%positive TK_STRING (tok 10%positive "'a'"))
    (leaf 3%positive TK_STRING (tok 11%positive "'b'")).



(** The program for 'a' < 'b': two strings and the text comparison, 6
    above OP_Lt. *)
Example demo_lt_code :
  (aOp <$> (sqlite3ExprCode demo_parse (Some demo_lt) ≫= pVdbe))
  = Some [mkOp 14 0 0 (P3_text "a"); mkOp 14 0 0 (P3_text "b");
          mkOp 76 0 0 P3_NOTUSED].
Proof. reflexivity. Qed.

(** Witnesses of the further properties of expr.c. *)
Lemma sqlite3ExprIsConstant_iff_witness :
  sqlite3ExprIsConstant demo_neg5 = Some true /\
  (true = true <-> forall q, reached q demo_neg5 -> const_node q).
Proof.
  split; [reflexivity|].
  apply (sqlite3ExprIsConstant_iff demo_neg5 true). reflexivity.
Defined.

Lemma sqlite3ExprCompare_self_witness :
  sqlite3ExprCompare (Some demo_sum) (Some demo_sum) = negb (has_subquery demo_sum).
Proof. exact (@sqlite3ExprCompare_self demoLib demo_lib_laws demo_sum). Defined.

(** NULL, a node without token text *)
Definition demo_null : Expr := leaf 1%positive TK_NULL no_tok.

Lemma sqlite3ExprCompare_token_asymmetry_witness :
  sqlite3ExprCompare (Some demo_null)
    (Some (setToken demo_null (tok 10%positive "x"))) = true /\
  sqlite3ExprCompare (Some (setToken demo_null (tok 10%positive "x")))
    (Some demo_null) = false.
Proof.
  apply (@sqlite3ExprCompare_token_asymmetry demoLib demo_lib_laws demo_null
           (tok 10%positive "x")); [reflexivity|reflexivity|discriminate].
Defined.

(** One table t1(x). *)
Definition demo_src1 : SrcList := mkSrcList 30%positive 1 [demo_src_item "t1" 0].

Lemma lookupName_single_table_witness :
  exists e' h',
    lookupName demo_parse None None (token demo_x) demo_src1 None demo_x
      {[1%positive; 10%positive; 30%positive]} = Some ((0, demo_parse, e'), h') /\
    op e' = TK_COLUMN /\ pLeft e' = None /\ pRight e' = None /\
    iTable e' = 0 /\ iDb e' = 0 /\ iColumn e' = 0 /\ dataType e' = 4 /\
    token e' = token demo_x.
Proof.
  apply (@lookupName_single_table demoLib demo_lib_laws demo_parse (token demo_x)
           demo_src1 (demo_src_item "t1" 0) (demo_table "t1") None demo_x
           {[1%positive; 10%positive; 30%positive]} "x"%string 0%nat
           (mkColumn "x" 4)); try reflexivity.
  intros i c' Hi. lia.
Defined.

Definition demo_rowid : Expr := leaf 1%positive TK_ID (tok 10%positive "rowid").

Lemma lookupName_rowid_witness :
  exists e' h',
    lookupName demo_parse None None (token demo_rowid) demo_src1 None demo_rowid
      {[1%positive; 10%positive; 30%positive]} = Some ((0, demo_parse, e'), h') /\
    op e' = TK_COLUMN /\ pLeft e' = None /\ pRight e' = None /\
    iTable e' = 0 /\ iDb e' = 0 /\ iColumn e' = -1 /\ dataType e' = 4 /\
    token e' = token demo_rowid.
Proof.
  apply (@lookupName_rowid demoLib demo_lib_laws demo_parse (token demo_rowid)
           demo_src1 (demo_src_item "t1" 0) (demo_table "t1") None demo_rowid
           {[1%positive; 10%positive; 30%positive]} "rowid"%string);
    try reflexivity.
  repeat constructor. vm_compute. discriminate.
Defined.

(** The name abc between double quotes. *)
Definition demo_quoted : Expr :=
  leaf 1%positive TK_ID
    (tok 10%positive
       (String (ascii_of_nat 34) ("abc" ++ String (ascii_of_nat 34) EmptyString))).

Lemma lookupName_quoted_string_witness :
  exists e,
    lookupName demo_parse None None (token demo_quoted) demo_src1 None demo_quoted
      {[1%positive; 10%positive; 30%positive]}
    = Some ((0, demo_parse, e), {[1%positive; 10%positive; 30%positive]}) /\
    same_node demo_quoted e.
Proof.
  eexists.
  eapply (@lookupName_quoted_string demoLib demo_lib_laws demo_parse
            (token demo_quoted) demo_src1 None demo_quoted
            {[1%positive; 10%positive; 30%positive]} "abc"%string);
    [reflexivity | reflexivity | vm_compute; reflexivity | exact I | reflexivity].
Defined.

(** The result column 1 AS y, and the name y. *)
Definition demo_one : Expr := leaf 2%positive TK_INTEGER (tok 11%positive "1").

Definition demo_aliased : ExprList_item :=
  mkItem (Some demo_one) (Some (mkStr 12%positive "y")) 0 0 0.

Definition demo_columns : ExprList :=
  mkExprList 40%positive 41%positive 1 [demo_aliased].

Definition demo_y : Expr := leaf 1%positive TK_ID (tok 10%positive "y").

Lemma lookupName_alias_witness :
  exists e' x' h',
    lookupName demo_parse None None (token demo_y) demo_src1 (Some demo_columns)
      demo_y {[1; 2; 10; 11; 12; 30; 40; 41]}%positive
    = Some ((0, demo_parse, e'), h') /\
    op e' = TK_AS /\ iColumn e' = 0 /\ pLeft e' = Some x' /\
    sqlite3ExprCompare (Some demo_one) (Some x') = true /\
    (forall y, y ∈ blocks x' ->
       y ∈ h' /\ y ∉ ({[1; 2; 10; 11; 12; 30; 40; 41]}%positive : heap)) /\
    ({[1; 2; 10; 11; 12; 30; 40; 41]}%positive : heap) ⊆ h'.
Proof.
  eapply (@lookupName_alias demoLib demo_lib_laws demo_parse (token demo_y)
            demo_src1 demo_columns demo_y _ "y"%string _ _ 0 demo_aliased demo_one);
    [reflexivity | reflexivity | vm_compute; reflexivity | reflexivity
    | reflexivity | apply leaf_wf].
Defined.

Lemma dup_then_delete_restores_heap_witness :
  exists T' h',
    sqlite3ExprDup (Some demo_sum) demo_heap = Some (Some T', h') /\
    h' = demo_heap ∪ blocks T' /\
    (forall y, y ∈ blocks T' -> y ∉ demo_heap) /\
    sqlite3ExprDelete (Some T') h' = demo_heap.
Proof.
  exact (@dup_then_delete_restores_heap demoLib demo_lib_laws demo_sum demo_heap
           demo_sum_wf).
Defined.

(** x + sum(x) with the names resolved: x is column 0 of cursor 0. *)
Definition demo_column (ad zad : addr) : Expr :=
  mkExpr ad TK_COLUMN 4 0 None None None (tok zad "x") no_tok 0 0 0 None.

Definition demo_agg_sum : Expr :=
  mkExpr 3%positive TK_AGG_FUNCTION 0 0 None None
    (Some (mkExprList 40%positive 41%positive 1
             [mkItem (Some (demo_column 4%positive 12%positive)) None 0 0 0]))
    (tok 11%positive "sum") no_tok 0 0 0 None.

Definition demo_agg : Expr :=
  binary 1%positive TK_PLUS (demo_column 2%positive 10%positive) demo_agg_sum.

(** Its analysis makes an entry for x and one for sum(x), and marks sum(x)
    with 1. *)
Example demo_agg_entries :
  match sqlite3ExprAnalyzeAggregates (fun _ => true) demo_parse (Some demo_agg) [] with
  | Some (nErr_, aAgg', Some e') =>
      nErr_ = 0 /\ ae_isAgg <$> aAgg' = [false; true] /\
      option_map iAgg (pRight e') = Some 1
  | _ => False
  end.
Proof. vm_compute. repeat split; reflexivity. Qed.

Lemma sqlite3ExprAnalyzeAggregates_resolves_witness :
  exists nErr_ aAgg' pExpr',
    sqlite3ExprAnalyzeAggregates (fun _ => true) demo_parse (Some demo_agg) []
      = Some (nErr_, aAgg', pExpr') /\
    (nErr_ = 0 \/ nErr_ = 1) /\
    ((forall amt : Z, (fun _ : Z => true) amt = true) -> nErr_ = 0) /\
    (exists new, aAgg' = [] ++ new) /\
    agg_wf aAgg' /\
    (nErr_ = 0 -> forall x, pExpr' = Some x -> resolved aAgg' x).
Proof.
  apply (@sqlite3ExprAnalyzeAggregates_resolves demoLib (fun _ => true) demo_parse
           (Some demo_agg) []).
  - constructor.
  - intros x [= <-]. apply named_by_check. reflexivity.
Defined.

Lemma sqlite3ExprAnalyzeAggregates_one_entry_per_column_witness :
  exists nErr_ aAgg' pExpr',
    sqlite3ExprAnalyzeAggregates (fun _ => true) demo_parse (Some demo_agg) []
      = Some (nErr_, aAgg', pExpr') /\
    NoDup (col_keys aAgg').
Proof.
  eexists _, _, _. split; [reflexivity|].
  eapply (@sqlite3ExprAnalyzeAggregates_one_entry_per_column demoLib (fun _ => true)
            demo_parse (Some demo_agg) []).
  - constructor.
  - intros x [= <-]. apply named_by_check. reflexivity.
  - constructor.
  - reflexivity.
Defined.

Lemma sqlite3ExprAnalyzeAggregates_twice_witness :
  exists aAgg' pExpr',
    sqlite3ExprAnalyzeAggregates (fun _ => true) demo_parse (Some demo_agg) []
      = Some (0, aAgg', pExpr') /\
    sqlite3ExprAnalyzeAggregates (fun _ => true) demo_parse pExpr' (aAgg' ++ [])
      = Some (0, aAgg' ++ [], pExpr').
Proof.
  eexists _, _. split; [reflexivity|].
  eapply (@sqlite3ExprAnalyzeAggregates_twice demoLib demo_lib_laws (fun _ => true)
            demo_parse (Some demo_agg) _ []).
  - constructor.
  - intros x [= <-]. apply named_by_check. reflexivity.
  - intros x [= <-]. apply nosub_by_check. reflexivity.
  - reflexivity.
Defined.

End ExprC.
